(** * Cumstack: reactive runtime and hydration engine

    A shallow embedding of
    - the reactivity system (createMoan, onClimax, knotMemo, loadShot,
      batch, untrack) of [src/app/shared/reactivity.js],
    - the hydration engine (nodesMatch, hydrateDOMElement,
      createDOMElementForHydration) and the mount function [cowgirl] of
      [src/app/client.js],
    - the mount function [cowgirl] of [src/app/client/index.js], which is the
      one the package entry point exports.

    The module-level variables of the JavaScript sources (currentEffect,
    effectStack, batchDepth, pending, schedule) and the closure variables of
    every signal, effect, memo and resource live in one explicit [State].
    User callbacks are trees of runtime calls ([prog]); the runtime functions
    themselves are Rocq functions over [State].

    Not embedded: [useLocation], which wraps one signal around the browser
    history. *)

From Stdlib Require Import ZArith List String Ascii Bool Lia DecimalString.
From stdpp Require Import base list.
Import ListNotations.

Local Open Scope Z_scope.
Local Open Scope nat_scope.
Local Open Scope string_scope.
Local Open Scope list_scope.

(** ** Values *)

(** JavaScript values that signals hold.  Numbers are the integers; on them
    [Object.is] is equality (the model has no NaN and no negative zero). *)
Inductive val : Type :=
| VUndef
| VNull
| VBool (b : bool)
| VNum (z : Z)
| VStr (s : string).

Definition Object_is (a b : val) : bool :=
  match a, b with
  | VUndef, VUndef => true
  | VNull, VNull => true
  | VBool x, VBool y => Bool.eqb x y
  | VNum x, VNum y => Z.eqb x y
  | VStr x, VStr y => String.eqb x y
  | _, _ => false
  end.

(** JavaScript truthiness, as used by [if (deps)], [!!error()] and the like. *)
Definition truthy (v : val) : bool :=
  match v with
  | VUndef | VNull => false
  | VBool b => b
  | VNum z => negb (Z.eqb z 0)
  | VStr s => negb (String.eqb s "")
  end.

(** Objects are named by the order of their creation. *)
Abbreviation sid := nat (only parsing).   (* a signal: [read, write] of one createMoan call *)
Abbreviation eid := nat (only parsing).   (* an effect: the closure [effect] of one onClimax call *)
Abbreviation mid := nat (only parsing).   (* the closure variables of one knotMemo call *)
Abbreviation rid := nat (only parsing).   (* the closure variables of one loadShot call *)
Abbreviation tid := nat (only parsing).   (* an AbortController and its signal *)

(** ** User code

    A callback is a tree of calls into the runtime; what the callback does
    next may depend on what a call returned.  Updaters passed to a setter are
    pure functions of the previous value.  batch calls its callback with the
    scheduling function it has installed; [Schedule] is a call of such a
    function by the code that received it, with a new function as
    argument. *)
Inductive prog : Type :=
| Ret (v : val)                                   (* return v *)
| RetFn (c : prog)                                (* return () => c *)
| Throw (err : val)                               (* throw err *)
| Read (s : sid) (k : val -> prog)                (* const x = read(); k x *)
| Write (s : sid) (v : val) (k : prog)            (* write(v); k *)
| Update (s : sid) (f : val -> val) (k : prog)    (* write(prev => f prev); k *)
| CreateMoan (init : val) (k : sid -> prog)       (* const [read, write] = createMoan(init) *)
| OnClimax (fn : prog) (k : eid -> prog)          (* const dispose = onClimax(() => fn) *)
| Dispose (e : eid) (k : prog)                    (* dispose(); k *)
| KnotMemo (fn : prog) (k : sid -> prog)          (* const m = knotMemo(() => fn) *)
| Batch (fn : prog) (k : prog)                    (* batch(() => fn); k *)
| Untrack (fn : prog) (k : val -> prog)           (* const x = untrack(() => fn); k x *)
| LoadShot (fetcher : prog) (init : val) (k : rid -> prog)
                                                  (* loadShot(fetcher, null, init) *)
| LoadShotDeps (fetcher : prog) (deps : prog) (init : val) (k : rid -> prog)
                                                  (* loadShot(fetcher, () => deps, init) *)
| Refetch (r : rid) (k : prog)                    (* r.refetch(); k *)
| DisposeShot (r : rid) (k : prog)                (* r.dispose(); k *)
| Schedule (c : prog) (k : prog)                  (* schedule(() => c); k *)
| BatchSchedule (c : prog) (k : prog).            (* batch.schedule(() => c); k *)

(** What a callback returned: a plain value or a function. *)
Inductive ret : Type :=
| RVal (v : val)
| RFn (c : prog).

(** The value model has no function values: where a returned function would
    be stored in a signal it reads as [undefined]. *)
Definition ret_val (r : ret) : val :=
  match r with
  | RVal v => v
  | RFn _ => VUndef
  end.

(** ** The state of the runtime *)

Record signal : Type := mkSignal {
  value : val;
  subscribers : list eid      (* a Set: no duplicates, iteration in insertion order *)
}.

(** The function an effect wraps. *)
Inductive body : Type :=
| UserFn (fn : prog)                  (* onClimax(fn) called by user code *)
| MemoFn (m : mid) (fn : prog)        (* the arrow function inside knotMemo *)
| DepsFn (r : rid) (deps : prog).     (* () => { const _ = deps(); refetch(); } *)

Record effect : Type := mkEffect {
  fn : body;
  disposed : bool;
  cleanup : list prog
}.

Record memo : Type := mkMemo {
  initialized : bool;
  cached : val;
  out : sid                   (* [signal, setSignal] of the memo *)
}.

Record token : Type := mkToken {
  owner : rid;
  aborted : bool
}.

Record resource : Type := mkResource {
  data : sid;
  loading : sid;
  error : sid;
  fetcher : prog;             (* the synchronous part of fetcher(signal) *)
  controller : option tid
}.

Inductive scheduler : Type :=
| Defer.                      (* (e) => pending.add(e) *)

(** What the pending set holds: the closure of an effect, handed over by
    the setter of a signal, or a function that user code handed to the
    scheduling function. *)
Inductive member : Type :=
| Eff (e : eid)
| Fun (c : prog).

(** Ghost trace: what happened, in order. *)
Inductive event : Type :=
| EvInvoke (e : eid) (depth : nat) (live : bool)
    (* effect e was called with [depth] effects on the stack; [live] is
       false when the call returned at once because e was disposed *)
| EvError (e : eid) (err : val)       (* console.error("Effect error:", err) *)
| EvSet (s : sid) (v : val) (stack : list eid)
    (* value = newValue, with [stack] the effect stack at that point *)
| EvDefer (m : member).               (* pending.add(m) *)

Record State : Type := mkState {
  sigs : list signal;
  effs : list effect;
  memos : list memo;
  tokens : list token;
  ress : list resource;
  microtasks : list rid;      (* queueMicrotask(refetch) not yet run *)
  currentEffect : option eid;
  effectStack : list eid;     (* innermost last *)
  batchDepth : Z;
  pending : option (list member);
  schedule : option scheduler;
  log : list event
}.

Definition initial : State :=
  {| sigs := []; effs := []; memos := []; tokens := []; ress := [];
     microtasks := []; currentEffect := None; effectStack := [];
     batchDepth := 0%Z; pending := None; schedule := None; log := [] |}.

Definition set_sigs (x : list signal) (st : State) : State :=
  {| sigs := x; effs := effs st; memos := memos st; tokens := tokens st;
     ress := ress st; microtasks := microtasks st;
     currentEffect := currentEffect st; effectStack := effectStack st;
     batchDepth := batchDepth st; pending := pending st;
     schedule := schedule st; log := log st |}.

Definition set_effs (x : list effect) (st : State) : State :=
  {| sigs := sigs st; effs := x; memos := memos st; tokens := tokens st;
     ress := ress st; microtasks := microtasks st;
     currentEffect := currentEffect st; effectStack := effectStack st;
     batchDepth := batchDepth st; pending := pending st;
     schedule := schedule st; log := log st |}.

Definition set_memos (x : list memo) (st : State) : State :=
  {| sigs := sigs st; effs := effs st; memos := x; tokens := tokens st;
     ress := ress st; microtasks := microtasks st;
     currentEffect := currentEffect st; effectStack := effectStack st;
     batchDepth := batchDepth st; pending := pending st;
     schedule := schedule st; log := log st |}.

Definition set_tokens (x : list token) (st : State) : State :=
  {| sigs := sigs st; effs := effs st; memos := memos st; tokens := x;
     ress := ress st; microtasks := microtasks st;
     currentEffect := currentEffect st; effectStack := effectStack st;
     batchDepth := batchDepth st; pending := pending st;
     schedule := schedule st; log := log st |}.

Definition set_ress (x : list resource) (st : State) : State :=
  {| sigs := sigs st; effs := effs st; memos := memos st; tokens := tokens st;
     ress := x; microtasks := microtasks st;
     currentEffect := currentEffect st; effectStack := effectStack st;
     batchDepth := batchDepth st; pending := pending st;
     schedule := schedule st; log := log st |}.

Definition set_microtasks (x : list rid) (st : State) : State :=
  {| sigs := sigs st; effs := effs st; memos := memos st; tokens := tokens st;
     ress := ress st; microtasks := x;
     currentEffect := currentEffect st; effectStack := effectStack st;
     batchDepth := batchDepth st; pending := pending st;
     schedule := schedule st; log := log st |}.

Definition set_currentEffect (x : option eid) (st : State) : State :=
  {| sigs := sigs st; effs := effs st; memos := memos st; tokens := tokens st;
     ress := ress st; microtasks := microtasks st;
     currentEffect := x; effectStack := effectStack st;
     batchDepth := batchDepth st; pending := pending st;
     schedule := schedule st; log := log st |}.

Definition set_effectStack (x : list eid) (st : State) : State :=
  {| sigs := sigs st; effs := effs st; memos := memos st; tokens := tokens st;
     ress := ress st; microtasks := microtasks st;
     currentEffect := currentEffect st; effectStack := x;
     batchDepth := batchDepth st; pending := pending st;
     schedule := schedule st; log := log st |}.

Definition set_batchDepth (x : Z) (st : State) : State :=
  {| sigs := sigs st; effs := effs st; memos := memos st; tokens := tokens st;
     ress := ress st; microtasks := microtasks st;
     currentEffect := currentEffect st; effectStack := effectStack st;
     batchDepth := x; pending := pending st;
     schedule := schedule st; log := log st |}.

Definition set_pending (x : option (list member)) (st : State) : State :=
  {| sigs := sigs st; effs := effs st; memos := memos st; tokens := tokens st;
     ress := ress st; microtasks := microtasks st;
     currentEffect := currentEffect st; effectStack := effectStack st;
     batchDepth := batchDepth st; pending := x;
     schedule := schedule st; log := log st |}.

Definition set_schedule (x : option scheduler) (st : State) : State :=
  {| sigs := sigs st; effs := effs st; memos := memos st; tokens := tokens st;
     ress := ress st; microtasks := microtasks st;
     currentEffect := currentEffect st; effectStack := effectStack st;
     batchDepth := batchDepth st; pending := pending st;
     schedule := x; log := log st |}.

Definition set_log (x : list event) (st : State) : State :=
  {| sigs := sigs st; effs := effs st; memos := memos st; tokens := tokens st;
     ress := ress st; microtasks := microtasks st;
     currentEffect := currentEffect st; effectStack := effectStack st;
     batchDepth := batchDepth st; pending := pending st;
     schedule := schedule st; log := x |}.

Definition emit (ev : event) (st : State) : State :=
  set_log (log st ++ [ev]) st.

(** ** Outcomes of a call

    A call returns, throws, or needs more nested calls than the fuel it was
    given allows: then it has no outcome here.  An engine bounds the nesting
    too, and where a run exhausts the call stack it throws a RangeError at
    the call that did not fit, which is then an error like any other (the
    try block of an effect catches it; struck between [batchDepth++] and the
    try block of batch, it leaves the depth raised).  Where that happens
    depends on the engine; the model does not follow a run past that point,
    and its statements about calls that return or throw are statements
    about runs that stay within the call stack. *)

Inductive outcome : Type :=
| OutOfFuel
| Done (r : ret) (st : State)
| Thrown (err : val) (st : State).

Definition undefined : ret := RVal VUndef.

Definition bind (o : outcome) (k : ret -> State -> outcome) : outcome :=
  match o with
  | Done r st => k r st
  | Thrown err st => Thrown err st
  | OutOfFuel => OutOfFuel
  end.

Notation "o >>= k" := (bind o k) (at level 50, left associativity).

(** [try { o } finally { fin }] for a finalizer that cannot throw. *)
Definition finally (o : outcome) (fin : State -> State) : outcome :=
  match o with
  | Done r st => Done r (fin st)
  | Thrown err st => Thrown err (fin st)
  | OutOfFuel => OutOfFuel
  end.

(** The TypeError of a method call on [null]. *)
Definition TypeError : val := VStr "TypeError".

(** [Set.prototype.add]: insertion order, no duplicates. *)
Definition set_add (e : eid) (s : list eid) : list eid :=
  if existsb (Nat.eqb e) s then s else s ++ [e].

Definition set_has (e : eid) (s : list eid) : bool := existsb (Nat.eqb e) s.

Definition is_eff (e : eid) (m : member) : bool :=
  match m with
  | Eff e' => Nat.eqb e e'
  | Fun _ => false
  end.

(** [pending.add(m)].  The function that an arrow function expression
    makes is a new object, which no set holds yet. *)
Definition pend_add (m : member) (ps : list member) : list member :=
  match m with
  | Eff e => if existsb (is_eff e) ps then ps else ps ++ [m]
  | Fun _ => ps ++ [m]
  end.

(** The effects among the members of a pending set. *)
Definition effects_of (ps : list member) : list eid :=
  flat_map (fun m => match m with Eff e => [e] | Fun _ => [] end) ps.

(** The functions among them that are no effects. *)
Definition functions_of (ps : list member) : list prog :=
  flat_map (fun m => match m with Eff _ => [] | Fun c => [c] end) ps.

(** ** The runtime functions

    The functions call one another through user callbacks; [rec] runs a
    callback and [call] calls an effect, both with the fuel that is left. *)

Inductive next : Type :=
| Lit (v : val)               (* write(v) *)
| Upd (f : val -> val).       (* write(prev => f prev) *)

Definition candidate (n : next) (prev : val) : val :=
  match n with
  | Lit v => v
  | Upd f => f prev
  end.

Inductive settlement : Type :=
| Resolved (result : val)
| Rejected (err : val).

(** createMoan: the closure variables [value] and [subscribers] of a new
    signal. *)
Definition createMoan (init : val) (st : State) : sid * State :=
  (length (sigs st), set_sigs (sigs st ++ [mkSignal init []]) st).

(** createMoan: [read]. *)
Definition read (s : sid) (st : State) : val * State :=
  match sigs st !! s with
  | None => (VUndef, st)
  | Some sg =>
    match currentEffect st with
    | Some e =>
      (value sg,
       set_sigs (<[s := mkSignal (value sg) (set_add e (subscribers sg))]> (sigs st)) st)
    | None => (value sg, st)
    end
  end.

Definition has_subscriber (s : sid) (e : eid) (st : State) : bool :=
  match sigs st !! s with
  | Some sg => set_has e (subscribers sg)
  | None => false
  end.

(** [pending.add(m)], the body of the scheduling function of batch. *)
Definition pending_add (m : member) (st : State) : outcome :=
  match pending st with
  | Some ps => Done undefined (emit (EvDefer m) (set_pending (Some (pend_add m ps)) st))
  | None => Thrown TypeError st
  end.

Definition abort (t : tid) (st : State) : State :=
  set_tokens (alter (fun x => mkToken (owner x) true) t (tokens st)) st.

Definition is_aborted (t : tid) (st : State) : bool :=
  match tokens st !! t with
  | Some x => aborted x
  | None => false
  end.

(** batch, up to the call of [fn]: the depth is raised, the outermost entry
    creates the pending set, the deferring function is installed. *)
Definition batch_enter (st : State) : State :=
  let st1 := if (batchDepth st =? 0)%Z then set_pending (Some []) st else st in
  let st2 := set_batchDepth (batchDepth st + 1)%Z st1 in
  set_schedule (Some Defer) st2.

(** [controller = new AbortController()] in the closure of resource [r]. *)
Definition new_controller (r : rid) (st : State) : State :=
  set_ress
    (alter (fun x => mkResource (data x) (loading x) (error x) (fetcher x)
                       (Some (length (tokens st))))
           r (ress st))
    (set_tokens (tokens st ++ [mkToken r false]) st).

(** An async function does not throw: the promise it returned is rejected. *)
Definition absorb (o : outcome) : outcome :=
  match o with
  | Thrown _ st => Done undefined st
  | _ => o
  end.

Section Runtime.

Variable rec : prog -> State -> outcome.
Variable call : eid -> State -> outcome.

(** createMoan, line 30: the loop over the snapshot [effects]. *)
Fixpoint notify (s : sid) (effects : list eid) (st : State) : outcome :=
  match effects with
  | [] => Done undefined st
  | e :: rest =>
    if has_subscriber s e st then
      match schedule st with
      | Some Defer => pending_add (Eff e) st
      | None => call e st
      end >>= fun _ st' => notify s rest st'
    else notify s rest st
  end.

(** createMoan: [write]. *)
Definition write (s : sid) (n : next) (st : State) : outcome :=
  match sigs st !! s with
  | None => Done undefined st
  | Some sg =>
    let newValue := candidate n (value sg) in
    if Object_is (value sg) newValue then Done undefined st
    else
      let st1 :=
        emit (EvSet s newValue (effectStack st))
          (set_sigs (<[s := mkSignal newValue (subscribers sg)]> (sigs st)) st) in
      notify s (subscribers sg) st1
  end.

(** batch, line 159: [for (const e of effects) e()]. *)
Fixpoint flush (effects : list member) (st : State) : outcome :=
  match effects with
  | [] => Done undefined st
  | Eff e :: rest => call e st >>= fun _ st' => flush rest st'
  | Fun c :: rest => rec c st >>= fun _ st' => flush rest st'
  end.

(** batch: the [finally] block. *)
Definition batch_exit (prev : option scheduler) (st : State) : outcome :=
  let st1 := set_schedule prev st in
  let st2 := set_batchDepth (batchDepth st1 - 1)%Z st1 in
  if (batchDepth st2 =? 0)%Z then
    match pending st2 with
    | Some effects => flush effects (set_pending None st2)
    | None => Thrown TypeError (set_pending None st2)
    end
  else Done undefined st2.

(** batch; [f] is [fn] applied to the scheduling function. *)
Definition batch (f : State -> outcome) (st : State) : outcome :=
  let prev := schedule st in
  match f (batch_enter st) with
  | OutOfFuel => OutOfFuel
  | Done _ st4 => batch_exit prev st4 >>= fun _ st5 => Done undefined st5
  | Thrown err st4 => batch_exit prev st4 >>= fun _ st5 => Thrown err st5
  end.

(** untrack. *)
Definition untrack (f : State -> outcome) (st : State) : outcome :=
  let prev := currentEffect st in
  finally (f (set_currentEffect None st)) (set_currentEffect prev).

(** [cleanup.forEach((c) => c())]: the indices [i .. i+n-1], each visited
    if the array still has it. *)
Fixpoint forEach_cleanup (e : eid) (n i : nat) (st : State) : outcome :=
  match n with
  | O => Done undefined st
  | S n' =>
    match effs st !! e ≫= (fun ef => cleanup ef !! i) with
    | Some c => rec c st >>= fun _ st' => forEach_cleanup e n' (S i) st'
    | None => forEach_cleanup e n' (S i) st
    end
  end.

Definition cleanup_length (e : eid) (st : State) : nat :=
  match effs st !! e with
  | Some ef => length (cleanup ef)
  | None => O
  end.

Definition set_cleanup (e : eid) (f : list prog -> list prog) (st : State) : State :=
  set_effs (alter (fun x => mkEffect (fn x) (disposed x) (f (cleanup x))) e (effs st)) st.

(** refetch, after the await: the try, catch and finally blocks. *)
Definition guarded_write (t : tid) (s : sid) (v : val) (st : State) : outcome :=
  if is_aborted t st then Done undefined st else write s (Lit v) st.

Definition settle (r : rid) (t : tid) (res : settlement) (st : State) : outcome :=
  match ress st !! r with
  | None => Done undefined st
  | Some rs =>
    let tried :=
      match res with
      | Resolved result => batch (guarded_write t (data rs) result) st
      | Rejected err => Thrown err st
      end in
    let caught :=
      match tried with
      | Thrown err st1 => batch (guarded_write t (error rs) err) st1
      | o => o
      end in
    absorb
      match caught with
      | OutOfFuel => OutOfFuel
      | Done _ st2 => batch (guarded_write t (loading rs) (VBool false)) st2
      | Thrown err st2 =>
        batch (guarded_write t (loading rs) (VBool false)) st2
          >>= fun _ st3 => Thrown err st3
      end
  end.

(** refetch, up to the await.  The promise it returns is never awaited by
    the runtime, so nothing is thrown to the caller. *)
Definition refetch (r : rid) (st : State) : outcome :=
  match ress st !! r with
  | None => Done undefined st
  | Some rs =>
    let st1 := match controller rs with Some t => abort t st | None => st end in
    let t := length (tokens st1) in
    let st3 := new_controller r st1 in
    absorb
      (batch (fun st => write (loading rs) (Lit (VBool true)) st
                          >>= fun _ st' => write (error rs) (Lit VNull) st') st3
         >>= fun _ st4 =>
       match rec (fetcher rs) st4 with
       | Thrown err st5 => settle r t (Rejected err) st5
       | Done _ st5 => Done undefined st5
       | OutOfFuel => OutOfFuel
       end)
  end.

(** loadShot: [dispose]. *)
Definition disposeShot (r : rid) (st : State) : State :=
  match ress st !! r ≫= controller with
  | Some t => abort t st
  | None => st
  end.

(** knotMemo: the arrow function given to onClimax. *)
Definition memo_fn (m : mid) (f : prog) (st : State) : outcome :=
  rec f st >>= fun r st1 =>
  let result := ret_val r in
  match memos st1 !! m with
  | None => Done undefined st1
  | Some mm =>
    if negb (initialized mm) || negb (Object_is result (cached mm)) then
      let st2 :=
        set_memos (alter (fun x => mkMemo (initialized x) result (out x)) m (memos st1)) st1 in
      untrack (batch (write (out mm) (Lit result))) st2 >>= fun _ st3 =>
      Done undefined
        (set_memos (alter (fun x => mkMemo true (cached x) (out x)) m (memos st3)) st3)
    else Done undefined st1
  end.

Definition run_fn (b : body) (st : State) : outcome :=
  match b with
  | UserFn f => rec f st
  | MemoFn m f => memo_fn m f st
  | DepsFn r deps => rec deps st >>= fun _ st1 => refetch r st1
  end.

(** onClimax: the closure [effect]. *)
Definition effect_call (e : eid) (st : State) : outcome :=
  let depth := length (effectStack st) in
  match effs st !! e with
  | None => Done undefined (emit (EvInvoke e depth false) st)
      (* not a closure onClimax made; the runtime never holds one *)
  | Some ef =>
    if disposed ef then Done undefined (emit (EvInvoke e depth false) st)
    else
      let st1 :=
        set_currentEffect (Some e)
          (set_effectStack (effectStack st ++ [e]) (emit (EvInvoke e depth true) st)) in
      let tried :=
        forEach_cleanup e (cleanup_length e st1) 0 st1 >>= fun _ st2 =>
        let st3 := set_cleanup e (fun _ => []) st2 in
        run_fn (fn ef) st3 >>= fun result st4 =>
        match result with
        | RFn c => Done undefined (set_cleanup e (fun cs => cs ++ [c]) st4)
        | RVal _ => Done undefined st4
        end in
      let caught :=
        match tried with
        | Thrown err st' => Done undefined (emit (EvError e err) st')
        | o => o
        end in
      finally caught (fun st' =>
        let st'' := set_effectStack (removelast (effectStack st')) st' in
        set_currentEffect (last (effectStack st'')) st'')
  end.

(** onClimax.  It returns the disposer, a function of no argument. *)
Definition onClimax (b : body) (st : State) : outcome :=
  let e := length (effs st) in
  batch (call e) (set_effs (effs st ++ [mkEffect b false []]) st) >>= fun _ st' =>
  Done (RFn (Dispose e (Ret VUndef))) st'.

(** onClimax: the disposer it returns. *)
Definition dispose (e : eid) (st : State) : outcome :=
  let st1 :=
    set_effs (alter (fun x => mkEffect (fn x) true (cleanup x)) e (effs st)) st in
  forEach_cleanup e (cleanup_length e st1) 0 st1 >>= fun _ st2 =>
  Done undefined (set_cleanup e (fun _ => []) st2).

(** knotMemo.  It returns the getter of the output signal. *)
Definition knotMemo (f : prog) (st : State) : outcome :=
  let m := length (memos st) in
  let s := length (sigs st) in
  let st1 := set_memos (memos st ++ [mkMemo false VUndef s]) st in
  let '(_, st2) := createMoan VUndef st1 in
  onClimax (MemoFn m f) st2 >>= fun _ st3 =>
  Done (RFn (Read s (fun v => Ret v))) st3.

(** loadShot.  It returns an object, which the value model does not have:
    user code names the resource by its number. *)
Definition loadShot (f : prog) (deps : option prog) (init : val) (st : State) : outcome :=
  let d := length (sigs st) in
  let st1 :=
    set_sigs (sigs st ++ [mkSignal init []; mkSignal (VBool false) []; mkSignal VNull []]) st in
  let r := length (ress st1) in
  let st2 := set_ress (ress st1 ++ [mkResource d (d + 1) (d + 2) f None]) st1 in
  match deps with
  | Some dp => onClimax (DepsFn r dp) st2 >>= fun _ st3 => Done undefined st3
  | None => Done undefined (set_microtasks (microtasks st2 ++ [r]) st2)
  end.

(** One node of a callback. *)
Definition step (p : prog) (st : State) : outcome :=
  match p with
  | Ret v => Done (RVal v) st
  | RetFn c => Done (RFn c) st
  | Throw err => Thrown err st
  | Read s k => let '(v, st1) := read s st in rec (k v) st1
  | Write s v k => write s (Lit v) st >>= fun _ st1 => rec k st1
  | Update s f k => write s (Upd f) st >>= fun _ st1 => rec k st1
  | CreateMoan init k => let '(s, st1) := createMoan init st in rec (k s) st1
  | OnClimax f k =>
    onClimax (UserFn f) st >>= fun _ st1 => rec (k (length (effs st))) st1
  | Dispose e k => dispose e st >>= fun _ st1 => rec k st1
  | KnotMemo f k =>
    knotMemo f st >>= fun _ st1 => rec (k (length (sigs st))) st1
  | Batch f k => batch (rec f) st >>= fun _ st1 => rec k st1
  | Untrack f k => untrack (rec f) st >>= fun r st1 => rec (k (ret_val r)) st1
  | LoadShot f init k =>
    loadShot f None init st >>= fun _ st1 => rec (k (length (ress st))) st1
  | LoadShotDeps f deps init k =>
    loadShot f (Some deps) init st >>= fun _ st1 => rec (k (length (ress st))) st1
  | Refetch r k => refetch r st >>= fun _ st1 => rec k st1
  | DisposeShot r k => rec k (disposeShot r st)
  | Schedule c k => pending_add (Fun c) st >>= fun _ st1 => rec k st1
  | BatchSchedule c k =>
    (if (0 <? batchDepth st)%Z then pending_add (Fun c) st else rec c st)
      >>= fun _ st1 => rec k st1
  end.

End Runtime.

(** ** The interpreter *)

Fixpoint exec (fuel : nat) (p : prog) (st : State) : outcome :=
  match fuel with
  | O => OutOfFuel
  | S n => step (exec n) (invoke n) p st
  end
with invoke (fuel : nat) (e : eid) (st : State) : outcome :=
  match fuel with
  | O => OutOfFuel
  | S n => effect_call (exec n) (invoke n) e st
  end.

(** ** The event loop

    A task is a piece of user code or the settlement of the promise a
    fetcher returned; after each task the microtask queue is drained. *)
Inductive task : Type :=
| Run (p : prog)
| Settle (t : tid) (res : settlement).

Definition token_owner (t : tid) (st : State) : option rid :=
  owner <$> tokens st !! t.

Fixpoint drain (fuel : nat) (st : State) : option State :=
  match fuel with
  | O => None
  | S n =>
    match microtasks st with
    | [] => Some st
    | r :: rest =>
      match refetch (exec n) (invoke n) r (set_microtasks rest st) with
      | Done _ st' | Thrown _ st' => drain n st'
      | OutOfFuel => None
      end
    end
  end.

Definition run_task (fuel : nat) (t : task) (st : State) : option State :=
  match
    match t with
    | Run p => exec fuel p st
    | Settle tok res =>
      match token_owner tok st with
      | Some r => settle (exec fuel) (invoke fuel) r tok res st
      | None => Done undefined st
      end
    end
  with
  | Done _ st' | Thrown _ st' => drain fuel st'
  | OutOfFuel => None
  end.

Fixpoint run_tasks (fuel : nat) (ts : list task) (st : State) : option State :=
  match ts with
  | [] => Some st
  | t :: rest =>
    match run_task fuel t st with
    | Some st' => run_tasks fuel rest st'
    | None => None
    end
  end.

(** ** Reading the state *)

Definition sig_value (s : sid) (st : State) : val :=
  match sigs st !! s with
  | Some sg => value sg
  | None => VUndef
  end.

Definition sig_subscribers (s : sid) (st : State) : list eid :=
  match sigs st !! s with
  | Some sg => subscribers sg
  | None => []
  end.

Definition is_disposed (e : eid) (st : State) : bool :=
  match effs st !! e with
  | Some ef => disposed ef
  | None => false
  end.

(** What the scheduling function was called with, in call order. *)
Definition defers (l : list event) : list member :=
  flat_map (fun ev => match ev with EvDefer m => [m] | _ => [] end) l.

(** The effects called at stack depth [d], in call order. *)
Definition invoked_at (d : nat) (l : list event) : list eid :=
  flat_map (fun ev =>
    match ev with
    | EvInvoke e k _ => if Nat.eqb k d then [e] else []
    | _ => []
    end) l.

(** The executions of the body of effect [e] (calls that found it live). *)
Definition runs_of (e : eid) (l : list event) : nat :=
  length (List.filter (fun ev =>
    match ev with
    | EvInvoke e' _ true => Nat.eqb e' e
    | _ => false
    end) l).

(** The changes of the value of signal [s]. *)
Definition sets_of (s : sid) (l : list event) : list val :=
  flat_map (fun ev =>
    match ev with
    | EvSet s' v _ => if Nat.eqb s' s then [v] else []
    | _ => []
    end) l.

(** The effects called, at any depth, in call order. *)
Definition invoked (l : list event) : list eid :=
  flat_map (fun ev => match ev with EvInvoke e _ _ => [e] | _ => [] end) l.

(** No signal changed its value. *)
Definition no_sets (l : list event) : Prop :=
  Forall (fun ev => match ev with EvSet _ _ _ => False | _ => True end) l.

(** Every effect called was created as effect number [k] or later. *)
Definition fresh_calls (k : nat) (l : list event) : Prop :=
  Forall (fun ev => match ev with EvInvoke e _ _ => k <= e | _ => True end) l.

(** [Set.add] of several elements in turn. *)
Definition adds (l : list member) (ps : list member) : list member :=
  fold_left (fun acc m => pend_add m acc) l ps.

(** Every call of an effect recorded in [l] happened at stack depth [d] or
    deeper. *)
Definition deeper (d : nat) (l : list event) : Prop :=
  Forall (fun ev => match ev with EvInvoke _ k _ => d <= k | _ => True end) l.

(** ** Well-formed states

    What the runtime maintains: a batch is open exactly when [pending] is a
    set and [schedule] is the deferring function; a signal that has not
    fired belongs to the controller its resource currently holds. *)
Record wf (st : State) : Prop := mkWf {
  wf_batch :
    (batchDepth st = 0%Z /\ pending st = None /\ schedule st = None) \/
    ((0 < batchDepth st)%Z /\ (exists ps, pending st = Some ps) /\
     schedule st = Some Defer);
  wf_nodup : forall ps, pending st = Some ps -> NoDup (effects_of ps);
  wf_tok : forall t tk,
    tokens st !! t = Some tk -> aborted tk = false ->
    exists rs, ress st !! owner tk = Some rs /\ controller rs = Some t;
  wf_ctrl : forall r rs t,
    ress st !! r = Some rs -> controller rs = Some t ->
    exists tk, tokens st !! t = Some tk /\ owner tk = r
}.

(** Between two tasks: no batch open, no effect running, no microtask left. *)
Record idle (st : State) : Prop := mkIdle {
  idle_wf : wf st;
  idle_depth : batchDepth st = 0%Z;
  idle_stack : effectStack st = [];
  idle_current : currentEffect st = None;
  idle_micro : microtasks st = []
}.

(** What a call that returns leaves behind. *)
Record frame (st st' : State) : Prop := mkFrame {
  f_wf : wf st';
  f_stack : effectStack st' = effectStack st;
  f_depth : batchDepth st' = batchDepth st;
  f_sched : schedule st' = schedule st;
  f_log : exists new,
    log st' = log st ++ new /\
    deeper (length (effectStack st)) new /\
    pending st' = adds (defers new) <$> pending st;
  f_cur : currentEffect st' = currentEffect st \/
          currentEffect st' = last (effectStack st);
  f_sigs : forall s sg,
    sigs st !! s = Some sg ->
    exists sg', sigs st' !! s = Some sg' /\
      forall e, e ∈ subscribers sg -> e ∈ subscribers sg';
  f_effs : forall e ef,
    effs st !! e = Some ef ->
    exists ef', effs st' !! e = Some ef' /\ fn ef' = fn ef /\
      (disposed ef = true -> disposed ef' = true);
  f_memos : forall m mm,
    memos st !! m = Some mm ->
    exists mm', memos st' !! m = Some mm' /\ out mm' = out mm;
  f_tokens : forall t tk,
    tokens st !! t = Some tk ->
    exists tk', tokens st' !! t = Some tk' /\ owner tk' = owner tk /\
      (aborted tk = true -> aborted tk' = true);
  f_ress : forall r rs,
    ress st !! r = Some rs ->
    exists rs', ress st' !! r = Some rs' /\ data rs' = data rs /\
      loading rs' = loading rs /\ error rs' = error rs /\
      fetcher rs' = fetcher rs
}.

(** What a call of effect [e] that returns leaves behind: the call is the
    first new entry of the trace, and whatever else ran, ran inside it. *)
Definition called (e : eid) (st st' : State) : Prop :=
  frame st st' /\
  exists live rest,
    log st' = log st ++ EvInvoke e (length (effectStack st)) live :: rest /\
    deeper (S (length (effectStack st))) rest.

(** Effects run because signals change: a call that changed no signal
    scheduled no effect and called no effect but those created since effect
    number [k]. *)
Definition quiet (k : nat) (st st' : State) : Prop :=
  forall new,
    log st' = log st ++ new -> no_sets new ->
    effects_of (defers new) = [] /\ fresh_calls k new.

(** The same of a call of effect [e], but for the call itself. *)
Definition quiet_call (k : nat) (e : eid) (st st' : State) : Prop :=
  forall live rest,
    log st' = log st ++ EvInvoke e (length (effectStack st)) live :: rest ->
    no_sets rest ->
    effects_of (defers rest) = [] /\ fresh_calls k rest.

(** A call that returns and, if it changed no signal, ran nothing old. *)
Definition calm (k : nat) (st st' : State) : Prop :=
  frame st st' /\ quiet k st st'.

(** A call of effect [e] that returns, with the same proviso. *)
Definition calm_call (k : nat) (e : eid) (st st' : State) : Prop :=
  called e st st' /\ quiet_call k e st st'.

(** A call that returns and called no effect but those created since effect
    number [k]: what a call made with a batch open does. *)
Definition snug (k : nat) (st st' : State) : Prop :=
  frame st st' /\ forall new, log st' = log st ++ new -> fresh_calls k new.

(** ** Setters in scope

    A setter is a closure: user code can call the setter of a signal only
    where it holds it, and it holds the setters that createMoan returned to
    it.  The setter of the output signal of a memo never leaves knotMemo.
    The trees of [prog] name signals by number, so what the scope gives in
    the source is a property of a tree here: [scoped W p] says that [p]
    calls the setters of no signals but those of [W] and those it creates.
    The continuation of createMoan receives the getter and the setter of
    the new signal, that of knotMemo the getter alone. *)
Fixpoint scoped (W : sid -> Prop) (p : prog) : Prop :=
  match p with
  | Ret _ | Throw _ => True
  | RetFn c => scoped W c
  | Read _ k => forall v, scoped W (k v)
  | Write s _ k | Update s _ k => W s /\ scoped W k
  | CreateMoan _ k => forall s, scoped (fun x => x = s \/ W x) (k s)
  | OnClimax f k => scoped W f /\ forall e, scoped W (k e)
  | Dispose _ k => scoped W k
  | KnotMemo f k => scoped W f /\ forall s, scoped W (k s)
  | Batch f k => scoped W f /\ scoped W k
  | Untrack f k => scoped W f /\ forall v, scoped W (k v)
  | LoadShot f _ k => scoped W f /\ forall r, scoped W (k r)
  | LoadShotDeps f deps _ k => scoped W f /\ scoped W deps /\ forall r, scoped W (k r)
  | Refetch _ k | DisposeShot _ k => scoped W k
  | Schedule c k | BatchSchedule c k => scoped W c /\ scoped W k
  end.

Definition scoped_body (W : sid -> Prop) (b : body) : Prop :=
  match b with
  | UserFn f | MemoFn _ f | DepsFn _ f => scoped W f
  end.

Definition scoped_ret (W : sid -> Prop) (r : ret) : Prop :=
  match r with
  | RVal _ => True
  | RFn c => scoped W c
  end.

(** The signals that are not the output signal of a memo. *)
Definition ordinary (st : State) (s : sid) : Prop :=
  s < length (sigs st) /\ forall m mm, memos st !! m = Some mm -> out mm <> s.

(** What the runtime maintains of its memos and of the functions it holds:
    every memo has an output signal of its own, which holds the cached
    value, and no function that an effect, a resource or the pending set
    holds has the setter of such a signal in scope. *)
Record sealed (st : State) : Prop := mkSealed {
  s_outs : forall m mm, memos st !! m = Some mm -> out mm < length (sigs st);
  s_inj : forall m m' mm mm',
    memos st !! m = Some mm -> memos st !! m' = Some mm' -> out mm = out mm' -> m = m';
  s_agree : forall m mm, memos st !! m = Some mm -> sig_value (out mm) st = cached mm;
  s_ress : forall r rs,
    ress st !! r = Some rs ->
    ordinary st (data rs) /\ ordinary st (loading rs) /\ ordinary st (error rs) /\
    scoped (ordinary st) (fetcher rs);
  s_effs : forall e ef,
    effs st !! e = Some ef ->
    scoped_body (ordinary st) (fn ef) /\ Forall (scoped (ordinary st)) (cleanup ef);
  s_pend : forall ps c, pending st = Some ps -> Fun c ∈ ps -> scoped (ordinary st) c
}.

(** The values of [l] in turn, each different from the one before, [v0]
    before the first. *)
Fixpoint steps_from (v0 : val) (l : list val) : Prop :=
  match l with
  | [] => True
  | v :: l' => Object_is v0 v = false /\ steps_from v l'
  end.

(** Effect [e], the innermost effect running, is the effect of memo [m]. *)
Definition memo_on_top (st : State) (m : mid) (stack : list eid) : Prop :=
  exists e ef f, last stack = Some e /\ effs st !! e = Some ef /\ fn ef = MemoFn m f.

(** A change of a signal is a change of an ordinary signal, or it is made by
    the effect of the memo whose output the signal is. *)
Definition own_event (st : State) (ev : event) : Prop :=
  match ev with
  | EvSet s _ stack =>
    ordinary st s \/
    exists m mm, memos st !! m = Some mm /\ out mm = s /\ memo_on_top st m stack
  | _ => True
  end.

(** What is there stays there. *)
Record grows (st st' : State) : Prop := mkGrows {
  g_log : exists new, log st' = log st ++ new;
  g_sigs : length (sigs st) <= length (sigs st');
  g_memos : forall m mm,
    memos st !! m = Some mm -> exists mm', memos st' !! m = Some mm' /\ out mm' = out mm;
  g_effs : forall e ef,
    effs st !! e = Some ef -> exists ef', effs st' !! e = Some ef' /\ fn ef' = fn ef
}.

(** What a call leaves of the memos: the memos created since have new
    output signals, every change of a signal is accounted for, and the
    changes of a signal are its values in turn. *)
Record kept (st st' : State) : Prop := mkKept {
  k_grows : grows st st';
  k_fresh : forall m mm,
    memos st' !! m = Some mm -> m < length (memos st) \/ length (sigs st) <= out mm;
  k_own : forall new, log st' = log st ++ new -> Forall (own_event st') new;
  k_acc : forall s sg new,
    sigs st !! s = Some sg -> log st' = log st ++ new ->
    steps_from (value sg) (sets_of s new) /\
    sig_value s st' = List.last (sets_of s new) (value sg)
}.

(** A step that keeps all this, and a call that returns and does. *)
Definition safe (st st' : State) : Prop := kept st st' /\ sealed st'.

Definition held (st st' : State) : Prop := frame st st' /\ safe st st'.

Definition returns (o : outcome) (P : State -> Prop) : Prop :=
  match o with
  | OutOfFuel => True
  | Done _ st' | Thrown _ st' => P st'
  end.

(** The same, with what the call returned. *)
Definition yields (o : outcome) (P : State -> Prop) (Q : State -> ret -> Prop) : Prop :=
  match o with
  | OutOfFuel => True
  | Done r st' => P st' /\ Q st' r
  | Thrown _ st' => P st'
  end.

(** * The hydration engine ([src/app/client.js])

    ** The document

    The live tree is a store of nodes; a node is named by its index.  Only
    what the engine touches is modelled: node type, tag, text, attributes,
    inline style, the properties it assigns, the handler lists of event
    delegation, parent and children. *)

Inductive nodeKind : Type :=
| ELEMENT_NODE
| TEXT_NODE
| DOCUMENT_FRAGMENT_NODE.

Definition nodeKind_eqb (a b : nodeKind) : bool :=
  match a, b with
  | ELEMENT_NODE, ELEMENT_NODE => true
  | TEXT_NODE, TEXT_NODE => true
  | DOCUMENT_FRAGMENT_NODE, DOCUMENT_FRAGMENT_NODE => true
  | _, _ => false
  end.

(** The value of a prop of a virtual node. *)
Inductive pval : Type :=
| PNull                                  (* null or undefined *)
| PBool (b : bool)
| PNum (z : Z)
| PStr (s : string)
| PFn (h : nat)                          (* a function, named by a number *)
| PObj (o : list (string * string)).     (* a plain object of strings *)

Record node : Type := mkNode {
  nodeType : nodeKind;
  localName : string;                    (* of an element *)
  text : string;                         (* textContent of a text node *)
  attributes : list (string * string);   (* class and data-key included *)
  style : list (string * string);
  properties : list (string * pval);     (* element[key] = value *)
  listeners : list (string * nat);       (* the __cumstack_<event>_handler arrays *)
  innerHTML : option string;             (* markup assigned, kept unparsed *)
  parentNode : option nat;
  childNodes : list nat
}.

Record Dom : Type := mkDom {
  nodes : list node;
  delegatedEvents : list string;         (* event types with a listener on the root *)
  refs : list (nat * nat);               (* ref callbacks called, with the element *)
  warnings : list string                 (* console.warn of logHydrationWarning *)
}.

(** hydrationConfig *)
Record config : Type := mkConfig {
  isProduction : bool;
  logMismatches : bool;
  partialHydration : bool
}.

Abbreviation nid := nat (only parsing).

Definition node_at (d : Dom) (n : nid) : option node := nodes d !! n.

Definition set_nodes (x : list node) (d : Dom) : Dom :=
  {| nodes := x; delegatedEvents := delegatedEvents d; refs := refs d;
     warnings := warnings d |}.

Definition update (n : nid) (f : node -> node) (d : Dom) : Dom :=
  set_nodes (alter f n (nodes d)) d.

Definition alloc (x : node) (d : Dom) : nid * Dom :=
  (length (nodes d), set_nodes (nodes d ++ [x]) d).

Definition with_text (s : string) (x : node) : node :=
  {| nodeType := nodeType x; localName := localName x; text := s;
     attributes := attributes x; style := style x; properties := properties x;
     listeners := listeners x; innerHTML := innerHTML x;
     parentNode := parentNode x; childNodes := childNodes x |}.

Definition with_attributes (a : list (string * string)) (x : node) : node :=
  {| nodeType := nodeType x; localName := localName x; text := text x;
     attributes := a; style := style x; properties := properties x;
     listeners := listeners x; innerHTML := innerHTML x;
     parentNode := parentNode x; childNodes := childNodes x |}.

Definition with_style (a : list (string * string)) (x : node) : node :=
  {| nodeType := nodeType x; localName := localName x; text := text x;
     attributes := attributes x; style := a; properties := properties x;
     listeners := listeners x; innerHTML := innerHTML x;
     parentNode := parentNode x; childNodes := childNodes x |}.

Definition with_properties (a : list (string * pval)) (x : node) : node :=
  {| nodeType := nodeType x; localName := localName x; text := text x;
     attributes := attributes x; style := style x; properties := a;
     listeners := listeners x; innerHTML := innerHTML x;
     parentNode := parentNode x; childNodes := childNodes x |}.

Definition with_listeners (a : list (string * nat)) (x : node) : node :=
  {| nodeType := nodeType x; localName := localName x; text := text x;
     attributes := attributes x; style := style x; properties := properties x;
     listeners := a; innerHTML := innerHTML x;
     parentNode := parentNode x; childNodes := childNodes x |}.

Definition with_innerHTML (a : option string) (x : node) : node :=
  {| nodeType := nodeType x; localName := localName x; text := text x;
     attributes := attributes x; style := style x; properties := properties x;
     listeners := listeners x; innerHTML := a;
     parentNode := parentNode x; childNodes := childNodes x |}.

Definition with_parent (p : option nat) (x : node) : node :=
  {| nodeType := nodeType x; localName := localName x; text := text x;
     attributes := attributes x; style := style x; properties := properties x;
     listeners := listeners x; innerHTML := innerHTML x;
     parentNode := p; childNodes := childNodes x |}.

Definition with_children (c : list nat) (x : node) : node :=
  {| nodeType := nodeType x; localName := localName x; text := text x;
     attributes := attributes x; style := style x; properties := properties x;
     listeners := listeners x; innerHTML := innerHTML x;
     parentNode := parentNode x; childNodes := c |}.

Definition blank (k : nodeKind) (name data : string) : node :=
  {| nodeType := k; localName := name; text := data; attributes := [];
     style := []; properties := []; listeners := []; innerHTML := None;
     parentNode := None; childNodes := [] |}.

(** *** Strings

    A string is a sequence of code units below 256. *)

(** ASCII lower case and upper case, as the DOM uses them for the names of
    elements. *)
Definition lower_ascii (c : ascii) : ascii :=
  let n := nat_of_ascii c in
  if ((65 <=? n) && (n <=? 90))%nat then ascii_of_nat (n + 32) else c.

Definition upper_ascii (c : ascii) : ascii :=
  let n := nat_of_ascii c in
  if ((97 <=? n) && (n <=? 122))%nat then ascii_of_nat (n - 32) else c.

(** [String.prototype.toLowerCase] on one code unit: the capital letters
    of ASCII, and those from 192 to 222 but the multiplication sign. *)
Definition lower_unit (c : ascii) : ascii :=
  let n := nat_of_ascii c in
  if (((65 <=? n) && (n <=? 90)) ||
      ((192 <=? n) && (n <=? 222) && negb (n =? 215)))%nat
  then ascii_of_nat (n + 32) else c.

Fixpoint map_string (f : ascii -> ascii) (s : string) : string :=
  match s with
  | EmptyString => EmptyString
  | String c r => String (f c) (map_string f r)
  end.

Definition toLowerCase : string -> string := map_string lower_unit.
Definition ascii_lowercase : string -> string := map_string lower_ascii.
Definition ascii_uppercase : string -> string := map_string upper_ascii.

(** White space as [trim] knows it: tab, line feed, vertical tab, form
    feed, carriage return, space, no-break space. *)
Definition is_space (c : ascii) : bool :=
  let n := nat_of_ascii c in
  (((9 <=? n) && (n <=? 13)) || (n =? 32) || (n =? 160))%nat.

(** [!s.trim()] *)
Fixpoint blank_string (s : string) : bool :=
  match s with
  | EmptyString => true
  | String c r => is_space c && blank_string r
  end.

Definition startsWith (p s : string) : bool := String.prefix p s.

(** [s.slice(2)] *)
Definition slice2 (s : string) : string :=
  match s with
  | String _ (String _ r) => r
  | _ => EmptyString
  end.

(** [String(n)] for an integer: all its digits.  That is what the source
    prints for a safe integer; from 1e21 on it prints an exponent. *)
Definition string_of_Z (z : Z) : string := NilZero.string_of_int (Z.to_int z).

(** [String(value)] *)
Definition String_ (v : pval) : string :=
  match v with
  | PNull => "null"
  | PBool true => "true"
  | PBool false => "false"
  | PNum z => string_of_Z z
  | PStr s => s
  | PFn _ => "function"
  | PObj _ => "[object Object]"
  end.

Definition truthy_pval (v : pval) : bool :=
  match v with
  | PNull => false
  | PBool b => b
  | PNum z => negb (Z.eqb z 0)
  | PStr s => negb (String.eqb s "")
  | PFn _ | PObj _ => true
  end.

Fixpoint assoc_get {V : Type} (k : string) (l : list (string * V)) : option V :=
  match l with
  | [] => None
  | (k', v) :: r => if String.eqb k k' then Some v else assoc_get k r
  end.

Fixpoint assoc_set {V : Type} (k : string) (v : V) (l : list (string * V))
  : list (string * V) :=
  match l with
  | [] => [(k, v)]
  | (k', v') :: r =>
    if String.eqb k k' then (k, v) :: r else (k', v') :: assoc_set k v r
  end.

(** *** Reading the tree *)

Definition kind_of (d : Dom) (n : nid) : option nodeKind := nodeType <$> node_at d n.

Definition is_kind (k : nodeKind) (d : Dom) (n : nid) : bool :=
  match kind_of d n with
  | Some k' => nodeKind_eqb k' k
  | None => false
  end.

Definition tagName (d : Dom) (n : nid) : string :=
  match node_at d n with
  | Some x => ascii_uppercase (localName x)
  | None => ""
  end.

Definition textContent (d : Dom) (n : nid) : string :=
  match node_at d n with
  | Some x => text x
  | None => ""
  end.

Definition children_of (d : Dom) (n : nid) : list nid :=
  match node_at d n with
  | Some x => childNodes x
  | None => []
  end.

Definition parent_of (d : Dom) (n : nid) : option nid := node_at d n ≫= parentNode.

Definition firstChild (d : Dom) (n : nid) : option nid := head (children_of d n).

Fixpoint after (n : nid) (l : list nid) : list nid :=
  match l with
  | [] => []
  | x :: r => if Nat.eqb x n then r else after n r
  end.

(** The siblings that follow [n], in order. *)
Definition following (d : Dom) (n : nid) : list nid :=
  match parent_of d n with
  | Some p => after n (children_of d p)
  | None => []
  end.

Definition nextSibling (d : Dom) (n : nid) : option nid := head (following d n).

Definition getAttribute (d : Dom) (n : nid) (k : string) : option string :=
  node_at d n ≫= fun x => assoc_get k (attributes x).

Definition hasAttribute (d : Dom) (n : nid) (k : string) : bool :=
  match getAttribute d n k with
  | Some _ => true
  | None => false
  end.

(** [element.className] *)
Definition className (d : Dom) (n : nid) : string :=
  match getAttribute d n "class" with
  | Some s => s
  | None => ""
  end.

(** [element.dataset.key] *)
Definition dataset_key (d : Dom) (n : nid) : option string := getAttribute d n "data-key".

Definition truthy_string (o : option string) : bool :=
  match o with
  | Some s => negb (String.eqb s "")
  | None => false
  end.

Definition booleanAttrs : list string :=
  ["checked"; "selected"; "disabled"; "readonly"; "multiple"; "autofocus"].

Definition is_booleanAttr (k : string) : bool := existsb (String.eqb k) booleanAttrs.

(** [element[key]]: what was assigned; otherwise the form value reflects the
    value attribute, the boolean properties reflect the presence of their
    attribute, and readonly is not a property of any element.  The model
    gives every element every such property; an element that has none (a
    div has no [disabled]) reads undefined in a browser, and the
    assignment that follows in hydrateDOMElement leaves an entry in
    [properties] that the model may not have.  Nothing else depends on
    it. *)
Definition property (d : Dom) (n : nid) (k : string) : pval :=
  match node_at d n ≫= fun x => assoc_get k (properties x) with
  | Some v => v
  | None =>
    if String.eqb k "value" then
      PStr (match getAttribute d n "value" with Some s => s | None => "" end)
    else if String.eqb k "readonly" then PNull
    else PBool (hasAttribute d n k)
  end.

(** Strict equality of two prop values; two objects are never the same. *)
Definition strict_eqb (a b : pval) : bool :=
  match a, b with
  | PNull, PNull => true
  | PBool x, PBool y => Bool.eqb x y
  | PNum x, PNum y => Z.eqb x y
  | PStr x, PStr y => String.eqb x y
  | PFn x, PFn y => Nat.eqb x y
  | _, _ => false
  end.

(** *** Changing the tree *)

Definition createTextNode (s : string) (d : Dom) : nid * Dom :=
  alloc (blank TEXT_NODE "" s) d.

(** The model takes every name.  A browser throws InvalidCharacterError
    from createElement and from setAttribute for a name that is not valid;
    the theorems that call them on names they do not fix are stated for
    valid names. *)
Definition createElement (name : string) (d : Dom) : nid * Dom :=
  alloc (blank ELEMENT_NODE (ascii_lowercase name) "") d.

Definition createDocumentFragment (d : Dom) : nid * Dom :=
  alloc (blank DOCUMENT_FRAGMENT_NODE "" "") d.

Definition setAttribute (n : nid) (k v : string) (d : Dom) : Dom :=
  update n (fun x => with_attributes (assoc_set k v (attributes x)) x) d.

Definition set_textContent (n : nid) (s : string) (d : Dom) : Dom :=
  update n (with_text s) d.

Definition set_property (n : nid) (k : string) (v : pval) (d : Dom) : Dom :=
  update n (fun x => with_properties (assoc_set k v (properties x)) x) d.

(** [Object.assign(element.style, value)] *)
Definition assign_style (n : nid) (o : list (string * string)) (d : Dom) : Dom :=
  update n (fun x =>
    with_style (fold_left (fun acc kv => assoc_set kv.1 kv.2 acc) o (style x)) x) d.

Definition without (n : nid) (l : list nid) : list nid :=
  List.filter (fun x => negb (Nat.eqb x n)) l.

Definition is_child (d : Dom) (p n : nid) : bool :=
  existsb (Nat.eqb n) (children_of d p).

(** Take [n] out of the children of its parent. *)
Definition detach (n : nid) (d : Dom) : Dom :=
  match parent_of d n with
  | Some p =>
    update n (with_parent None)
      (update p (fun x => with_children (without n (childNodes x)) x) d)
  | None => d
  end.

(** The nodes that an insertion of [n] inserts, taken out of where they
    are: the children of a fragment, or the node itself. *)
Definition take (n : nid) (d : Dom) : list nid * Dom :=
  if is_kind DOCUMENT_FRAGMENT_NODE d n then
    (children_of d n, update n (with_children []) d)
  else ([n], detach n d).

Definition adopt (p : nid) (ns : list nid) (d : Dom) : Dom :=
  fold_left (fun acc n => update n (with_parent (Some p)) acc) ns d.

Fixpoint insert_before (ref : nid) (ns l : list nid) : list nid :=
  match l with
  | [] => ns
  | x :: r => if Nat.eqb x ref then ns ++ x :: r else x :: insert_before ref ns r
  end.

Fixpoint replace_with (old : nid) (ns l : list nid) : list nid :=
  match l with
  | [] => []
  | x :: r => if Nat.eqb x old then ns ++ r else x :: replace_with old ns r
  end.

Definition appendChild (p c : nid) (d : Dom) : Dom :=
  let '(ns, d1) := take c d in
  adopt p ns (update p (fun x => with_children (childNodes x ++ ns) x) d1).

(** [None] is the NotFoundError of a reference node that is not a child. *)
Definition insertBefore (p c ref : nid) (d : Dom) : option Dom :=
  if negb (is_child d p ref) then None
  else if Nat.eqb c ref then Some d
  else
    let '(ns, d1) := take c d in
    Some (adopt p ns
            (update p (fun x => with_children (insert_before ref ns (childNodes x)) x) d1)).

Definition replaceChild (p new old : nid) (d : Dom) : option Dom :=
  if negb (is_child d p old) then None
  else if Nat.eqb new old then Some d
  else
    let '(ns, d1) := take new d in
    Some (update old (with_parent None)
            (adopt p ns
               (update p (fun x => with_children (replace_with old ns (childNodes x)) x)
                  d1))).

Definition removeChild (p c : nid) (d : Dom) : option Dom :=
  if is_child d p c then Some (detach c d) else None.

(** ** Virtual nodes *)

Set Warnings "-register-all".

Inductive vnode : Type :=
| VNone                                  (* null, undefined or false *)
| VText (s : string)                     (* a string *)
| VNumber (z : Z)                        (* a number *)
| VArr (l : list vnode)                  (* an array: siblings *)
| VElem (type : string) (props : list (string * pval)) (children : list vnode).
    (* { type, props, children }; an empty [type] is an object without type *)

(** [vnode.props?.key] *)
Definition key_of (v : vnode) : pval :=
  match v with
  | VElem _ props _ =>
    match assoc_get "key" props with
    | Some k => k
    | None => PNull
    end
  | _ => PNull
  end.

Definition is_none (v : vnode) : bool :=
  match v with
  | VNone => true
  | _ => false
  end.

(** ** The engine *)

Definition logHydrationWarning (cfg : config) (message : string) (d : Dom) : Dom :=
  if negb (isProduction cfg) && logMismatches cfg then
    {| nodes := nodes d; delegatedEvents := delegatedEvents d; refs := refs d;
       warnings := warnings d ++ [message] |}
  else d.

(** delegateEvent, in a browser (the delegation root is the document). *)
Definition delegateEvent (eventName : string) (element : nid) (handler : nat) (d : Dom)
  : Dom :=
  let d1 :=
    update element (fun x => with_listeners (listeners x ++ [(eventName, handler)]) x) d in
  if existsb (String.eqb eventName) (delegatedEvents d1) then d1
  else
    {| nodes := nodes d1; delegatedEvents := delegatedEvents d1 ++ [eventName];
       refs := refs d1; warnings := warnings d1 |}.

Definition call_ref (h : nat) (element : nid) (d : Dom) : Dom :=
  {| nodes := nodes d; delegatedEvents := delegatedEvents d;
     refs := refs d ++ [(h, element)]; warnings := warnings d |}.

(** nodesMatch.  The engine never calls it with null. *)
Definition nodesMatch (v : vnode) (domNode : nid) (d : Dom) : bool :=
  match v with
  | VText _ | VNumber _ => is_kind TEXT_NODE d domNode
  | VElem type _ _ =>
    if negb (String.eqb type "") && is_kind ELEMENT_NODE d domNode then
      let tagMatch := String.eqb (toLowerCase (tagName d domNode)) (toLowerCase type) in
      if truthy_pval (key_of v) && truthy_string (dataset_key d domNode) then
        tagMatch &&
        match dataset_key d domNode with
        | Some k => String.eqb k (String_ (key_of v))
        | None => false
        end
      else tagMatch
    else false
  | VArr _ | VNone => false
  end.

(** The helper skipWhitespace of hydrateDOMElement: the first node, from
    [n] on through its following siblings, that is not a text node of white
    space only. *)
Definition is_blank_text (d : Dom) (n : nid) : bool :=
  is_kind TEXT_NODE d n && blank_string (textContent d n).

Definition skipWhitespace (d : Dom) (n : option nid) : option nid :=
  match n with
  | Some x => List.find (fun y => negb (is_blank_text d y)) (x :: following d x)
  | None => None
  end.

(** One entry of [vnode.props] in createDOMElementForHydration.  The
    markup assigned to innerHTML is kept as it is; a browser parses it into
    children of the element. *)
Definition create_prop (element : nid) (kv : string * pval) (d : Dom) : Dom :=
  let '(key, value) := kv in
  if String.eqb key "key" then setAttribute element "data-key" (String_ value) d
  else if String.eqb key "className" then setAttribute element "class" (String_ value) d
  else if String.eqb key "style" && match value with PObj _ | PNull => true | _ => false end
  then match value with PObj o => assign_style element o d | _ => d end
  else if startsWith "on" key && match value with PFn _ => true | _ => false end
  then match value with
       | PFn h => delegateEvent (toLowerCase (slice2 key)) element h d
       | _ => d
       end
  else if String.eqb key "innerHTML" then
    update element (with_innerHTML (Some (String_ value))) d
  else if String.eqb key "ref" && match value with PFn _ => true | _ => false end
  then match value with PFn h => call_ref h element d | _ => d end
  else
    match value with
    | PNull | PBool false => d
    | _ => setAttribute element key (String_ value) d
    end.

(** One entry of [vnode.props] in hydrateDOMElement. *)
Definition hydrate_prop (cfg : config) (element : nid) (kv : string * pval) (d : Dom)
  : Dom :=
  let '(key, value) := kv in
  if String.eqb key "key" then
    if negb (truthy_string (dataset_key d element))
    then setAttribute element "data-key" (String_ value) d
    else d
  else if String.eqb key "className" then
    if negb (strict_eqb (PStr (className d element)) value) then
      setAttribute element "class" (String_ value)
        (logHydrationWarning cfg "className mismatch" d)
    else d
  else if String.eqb key "style" && match value with PObj _ | PNull => true | _ => false end
  then match value with PObj o => assign_style element o d | _ => d end
  else if startsWith "on" key && match value with PFn _ => true | _ => false end
  then match value with
       | PFn h => delegateEvent (toLowerCase (slice2 key)) element h d
       | _ => d
       end
  else if String.eqb key "innerHTML" then d
  else if String.eqb key "value" &&
          (String.eqb (tagName d element) "INPUT" ||
           String.eqb (tagName d element) "TEXTAREA")
  then
    if negb (strict_eqb (property d element "value") value)
    then set_property element "value" value d
    else d
  else if is_booleanAttr key then
    if negb (strict_eqb (property d element key) value)
    then set_property element key value d
    else d
  else if String.eqb key "ref" && match value with PFn _ => true | _ => false end
  then match value with PFn h => call_ref h element d | _ => d end
  else
    match value with
    | PNull | PBool false => d
    | _ =>
      match getAttribute d element key with
      | Some currentValue =>
        if String.eqb currentValue (String_ value) then d
        else setAttribute element key (String_ value)
               (logHydrationWarning cfg "Attribute mismatch" d)
      | None =>
        setAttribute element key (String_ value)
          (logHydrationWarning cfg "Attribute mismatch" d)
      end
    end.

(** What createDOMElementForHydration returns: a node or null, or it
    throws. *)
Inductive created : Type :=
| Created (n : option nid) (d : Dom)
| CreateThrows (err : string) (d : Dom).

Section Create.

Variable rec : vnode -> Dom -> created.

(** [children.forEach(child => { const el = create(child); if (el)
    parent.appendChild(el) })] *)
Fixpoint append_created (parent : nid) (l : list vnode) (d : Dom) : created :=
  match l with
  | [] => Created (Some parent) d
  | child :: rest =>
    match rec child d with
    | Created (Some el) d1 => append_created parent rest (appendChild parent el d1)
    | Created None d1 => append_created parent rest d1
    | CreateThrows err d1 => CreateThrows err d1
    end
  end.

End Create.

(** createDOMElementForHydration.  For an object without type the function
    calls itself with the same argument, without end: the call stack
    overflows and a RangeError is thrown. *)
Fixpoint createDOMElementForHydration (v : vnode) (d : Dom) : created :=
  match v with
  | VNone => Created None d
  | VText s => let '(n, d1) := createTextNode s d in Created (Some n) d1
  | VNumber z => let '(n, d1) := createTextNode (string_of_Z z) d in Created (Some n) d1
  | VArr l =>
    let '(fragment, d1) := createDocumentFragment d in
    append_created createDOMElementForHydration fragment l d1
  | VElem type props children =>
    if String.eqb type "" then CreateThrows "RangeError" d
    else
      let '(element, d1) := createElement type d in
      let d2 := fold_left (fun acc kv => create_prop element kv acc) props d1 in
      append_created createDOMElementForHydration element children d2
  end.

(** What hydrateDOMElement returns: a node, or it throws. *)
Inductive hydrated : Type :=
| Hydrated (n : nid) (d : Dom)
| HydrateThrows (err : string) (d : Dom).

(** [parent?.replaceChild(newNode, domNode)] *)
Definition replace_in_parent (newNode domNode : nid) (d : Dom) : option Dom :=
  match parent_of d domNode with
  | Some p => replaceChild p newNode domNode d
  | None => Some d
  end.

Section Loops.

Variable cfg : config.
Variable rec : vnode -> nid -> Dom -> hydrated.

(** hydrateDOMElement, the array case: the loop over the array. *)
Fixpoint hydrate_array (fragment : nid) (l : list vnode) (currentNode : option nid)
    (d : Dom) : hydrated :=
  match l with
  | [] => Hydrated fragment d
  | child :: rest =>
    if is_none child then hydrate_array fragment rest currentNode d
    else
      match currentNode with
      | Some cur =>
        let nextNode := nextSibling d cur in
        match rec child cur d with
        | Hydrated hydratedNode d1 =>
          hydrate_array fragment rest nextNode (appendChild fragment hydratedNode d1)
        | HydrateThrows err d1 => HydrateThrows err d1
        end
      | None =>
        match createDOMElementForHydration child d with
        | Created (Some newNode) d1 =>
          hydrate_array fragment rest None (appendChild fragment newNode d1)
        | Created None d1 => hydrate_array fragment rest None d1
        | CreateThrows err d1 => HydrateThrows err d1
        end
      end
  end.

(** hydrateDOMElement, the loop over the children once the virtual
    children are used up: what is left of the live children, from the
    cursor on, is removed unless it is white space. *)
Fixpoint remove_extra (element : nid) (left : list nid) (d : Dom) : hydrated :=
  match left with
  | [] => Hydrated element d
  | domChild :: rest =>
    if is_blank_text d domChild then remove_extra element rest d
    else
      match removeChild element domChild (logHydrationWarning cfg "Extra DOM nodes" d) with
      | Some d1 => remove_extra element rest d1
      | None => HydrateThrows "NotFoundError" d
      end
  end.

(** hydrateDOMElement, the loop over the children: [vs] are the virtual
    children from vnodeIndex on, [domChild] is the cursor. *)
Fixpoint hydrate_children (element : nid) (vs : list vnode) (domChild : option nid)
    (d : Dom) : hydrated :=
  match vs with
  | [] =>
    match domChild with
    | Some c => remove_extra element (c :: following d c) d
    | None => Hydrated element d
    end
  | vChild :: rest =>
    match domChild with
    | None =>
      (* missing dom nodes - create them *)
      match createDOMElementForHydration vChild
              (logHydrationWarning cfg "Missing DOM nodes" d) with
      | Created (Some newChild) d1 =>
        hydrate_children element rest None (appendChild element newChild d1)
      | Created None d1 => hydrate_children element rest None d1
      | CreateThrows err d1 => HydrateThrows err d1
      end
    | Some c =>
      if is_none vChild then hydrate_children element rest domChild d
      else if negb (nodesMatch vChild c d) then
        match
          (if truthy_pval (key_of vChild)
           then List.find (fun n => nodesMatch vChild n d) (following d c)
           else None)
        with
        | Some foundNode =>
          (* move node to correct position *)
          match insertBefore element foundNode c d with
          | Some d1 =>
            let next := nextSibling d1 foundNode in
            match rec vChild foundNode d1 with
            | Hydrated _ d2 => hydrate_children element rest (skipWhitespace d2 next) d2
            | HydrateThrows err d2 => HydrateThrows err d2
            end
          | None => HydrateThrows "NotFoundError" d
          end
        | None =>
          (* no match found - replace node *)
          match createDOMElementForHydration vChild
                  (logHydrationWarning cfg "Node mismatch, replacing" d) with
          | Created (Some newChild) d1 =>
            match replaceChild element newChild c d1 with
            | Some d2 =>
              hydrate_children element rest (skipWhitespace d2 (nextSibling d2 c)) d2
            | None => HydrateThrows "NotFoundError" d1
            end
          | Created None d1 =>
            hydrate_children element rest (skipWhitespace d1 (nextSibling d1 c)) d1
          | CreateThrows err d1 => HydrateThrows err d1
          end
        end
      else
        let next := nextSibling d c in
        match rec vChild c d with
        | Hydrated _ d1 => hydrate_children element rest (skipWhitespace d1 next) d1
        | HydrateThrows err d1 => HydrateThrows err d1
        end
    end
  end.

End Loops.

(** hydrateDOMElement *)
Fixpoint hydrateDOMElement (cfg : config) (v : vnode) (domNode : nid) (d : Dom)
  : hydrated :=
  let text_case (vnodeText : string) :=
    if is_kind TEXT_NODE d domNode then
      if negb (String.eqb (textContent d domNode) vnodeText) then
        Hydrated domNode
          (set_textContent domNode vnodeText
             (logHydrationWarning cfg "Text node mismatch" d))
      else Hydrated domNode d
    else
      let '(textNode, d1) :=
        createTextNode vnodeText
          (logHydrationWarning cfg "Expected text node, got element" d) in
      match replace_in_parent textNode domNode d1 with
      | Some d2 => Hydrated textNode d2
      | None => HydrateThrows "NotFoundError" d1
      end in
  let array_case (l : list vnode) :=
    let '(fragment, d1) := createDocumentFragment d in
    hydrate_array (hydrateDOMElement cfg) fragment l (Some domNode) d1 in
  let replaced (message : string) :=
    match createDOMElementForHydration v (logHydrationWarning cfg message d) with
    | Created (Some newElement) d1 =>
      match replace_in_parent newElement domNode d1 with
      | Some d2 => Hydrated newElement d2
      | None => HydrateThrows "NotFoundError" d1
      end
    | Created None d1 => HydrateThrows "TypeError" d1
    | CreateThrows err d1 => HydrateThrows err d1
    end in
  match v with
  | VNone => Hydrated domNode d
  | VText s => text_case s
  | VNumber z => text_case (string_of_Z z)
  | VArr l => array_case l
  | VElem type props children =>
    if String.eqb type "" then array_case children
    else if negb (is_kind ELEMENT_NODE d domNode) then replaced "Expected element node"
    else if negb (String.eqb (toLowerCase (tagName d domNode)) (toLowerCase type))
    then replaced "Tag name mismatch"
    else if partialHydration cfg && hasAttribute d domNode "data-cumstack-static"
    then Hydrated domNode d
    else
      let d1 := fold_left (fun acc kv => hydrate_prop cfg domNode kv acc) props d in
      hydrate_children cfg (hydrateDOMElement cfg) domNode children
        (skipWhitespace d1 (firstChild d1 domNode)) d1
  end.

(** ** Structural equality of a live subtree and a virtual node

    Tags (compared as nodesMatch compares them), texts and the order of the
    children count; attributes do not.  Text nodes of white space only are
    ignored in the live tree, null and false in the virtual one; an array or
    an object without type stands for its members in place.  [consume]
    matches [v] against the first of the live nodes [ns] and returns the
    rest. *)

Definition significant (d : Dom) (ns : list nid) : list nid :=
  List.filter (fun n => negb (is_blank_text d n)) ns.

Definition is_text_with (d : Dom) (n : nid) (s : string) : bool :=
  is_kind TEXT_NODE d n && String.eqb (textContent d n) s.

Fixpoint consume (d : Dom) (v : vnode) (ns : list nid) : option (list nid) :=
  let sequence :=
    fix sequence (l : list vnode) (ns : list nid) : option (list nid) :=
      match l with
      | [] => Some ns
      | x :: r =>
        match consume d x ns with
        | Some ns' => sequence r ns'
        | None => None
        end
      end in
  let text_case (s : string) :=
    if blank_string s then Some ns
    else
      match ns with
      | n :: rest => if is_text_with d n s then Some rest else None
      | [] => None
      end in
  match v with
  | VNone => Some ns
  | VText s => text_case s
  | VNumber z => text_case (string_of_Z z)
  | VArr l => sequence l ns
  | VElem type _ children =>
    if String.eqb type "" then sequence children ns
    else
      match ns with
      | n :: rest =>
        if is_kind ELEMENT_NODE d n &&
           String.eqb (toLowerCase (tagName d n)) (toLowerCase type)
        then
          match sequence children (significant d (children_of d n)) with
          | Some [] => Some rest
          | _ => None
          end
        else None
      | [] => None
      end
  end.

Definition structurally_equal (d : Dom) (v : vnode) (n : nid) : bool :=
  match consume d v [n] with
  | Some [] => true
  | _ => false
  end.

(** ** Markup

    A live tree as the parser leaves it. *)
Inductive html : Type :=
| Txt (s : string)
| Tag (name : string) (attrs : list (string * string)) (children : list html).

Fixpoint parse (h : html) (d : Dom) : nid * Dom :=
  match h with
  | Txt s => createTextNode s d
  | Tag name attrs children =>
    let '(element, d1) := createElement name d in
    let d2 := fold_left (fun acc kv => setAttribute element kv.1 kv.2 acc) attrs d1 in
    let d3 :=
      (fix each (l : list html) (acc : Dom) : Dom :=
         match l with
         | [] => acc
         | c :: r => let '(n, acc1) := parse c acc in each r (appendChild element n acc1)
         end) children d2 in
    (element, d3)
  end.

Definition empty_document : Dom :=
  {| nodes := []; delegatedEvents := []; refs := []; warnings := [] |}.

Definition development : config :=
  {| isProduction := false; logMismatches := true; partialHydration := false |}.

(** What can be seen of a subtree: its tags, texts and recorded keys. *)
Definition label (d : Dom) (n : nid) : string :=
  if is_kind TEXT_NODE d n then textContent d n
  else
    match dataset_key d n with
    | Some k => toLowerCase (tagName d n) ++ "#" ++ k
    | None => toLowerCase (tagName d n)
    end.

Definition child_labels (d : Dom) (n : nid) : list string :=
  map (label d) (children_of d n).

Definition dom_of (r : hydrated) : Dom :=
  match r with
  | Hydrated _ d | HydrateThrows _ d => d
  end.

(** * Mounting

    Two functions are called cowgirl: the one of [src/app/client.js], which
    mounts an app into a container, and the one of
    [src/app/client/index.js], which the entry point of the package
    re-exports ([export { cowgirl, ... } from './src/app/client/index.js']).
    What they call after their first lines is recorded as a list of
    actions. *)

(** The second argument of cowgirl. *)
Inductive target : Type :=
| Selector (s : string)       (* a string *)
| ANode (n : nat)             (* a node of the document *)
| NoNode.                     (* null, undefined, or any other value *)

Inductive action : Type :=
| InitHMR
| SetWindowInitComponents
| ClearPreferredLanguage
| SetLanguage (lang : string) (isExplicitRoute : bool)
| SetupNavigation             (* a click listener on the document, hrefs rewritten *)
| InitComponents
| CreateRouter
| InitRouter
| CreateEffect                (* onClimax: the render effect, run once at once *)
| AddClickListener
| SetupPrefetching.

(** What the functions read from the browser. *)
Record browser : Type := mkBrowser {
  querySelector : string -> option nat;   (* document.querySelector *)
  pathSegments : list string;             (* location.pathname.split("/").filter(Boolean) *)
  userLanguage : option string;           (* getUserLanguage() *)
  browserLanguage : string                (* detectBrowserLanguage() *)
}.

Record world : Type := mkWorld {
  page : Dom;
  clientRouter : bool;                    (* clientRouter !== null *)
  isRouterInitialized : bool;
  performed : list action
}.

Inductive mounted : Type :=
| Returns (w : world)
| Throws (message : string) (w : world).

Definition act (a : action) (w : world) : world :=
  {| page := page w; clientRouter := clientRouter w;
     isRouterInitialized := isRouterInitialized w; performed := performed w ++ [a] |}.

(** [containerEl instanceof HTMLElement]: the document has HTML elements
    only. *)
Definition isHTMLElement (d : Dom) (n : nat) : bool := is_kind ELEMENT_NODE d n.

(** cowgirl of [src/app/client.js]. *)
Definition client_cowgirl (b : browser) (container : target) (w : world) : mounted :=
  let containerEl :=
    match container with
    | Selector s => querySelector b s
    | ANode n => Some n
    | NoNode => None
    end in
  match containerEl with
  | None => Throws "cumstack: Container must be a valid HTMLElement or selector" w
  | Some el =>
    if negb (isHTMLElement (page w) el)
    then Throws "cumstack: Container must be a valid HTMLElement or selector" w
    else
      let w1 :=
        if clientRouter w then w
        else {| page := page w; clientRouter := true;
                isRouterInitialized := isRouterInitialized w;
                performed := performed w ++ [CreateRouter] |} in
      let w2 :=
        if isRouterInitialized w1 then w1
        else {| page := page w1; clientRouter := clientRouter w1;
                isRouterInitialized := true; performed := performed w1 ++ [InitRouter] |} in
      Returns (act SetupPrefetching (act AddClickListener (act CreateEffect w2)))
  end.

(** cowgirl of [src/app/client/index.js].  Neither [app] nor [container]
    occurs in its body. *)
Definition index_cowgirl (b : browser) (container : target) (w : world) : mounted :=
  let w1 := act SetWindowInitComponents (act InitHMR w) in
  let w2 :=
    match pathSegments b with
    | seg :: _ =>
      if Nat.eqb (String.length seg) 2 then act (SetLanguage seg true) w1
      else
        act (SetLanguage
               (match userLanguage b with Some l => l | None => browserLanguage b end) false)
          (act ClearPreferredLanguage w1)
    | [] =>
      act (SetLanguage
             (match userLanguage b with Some l => l | None => browserLanguage b end) false)
        (act ClearPreferredLanguage w1)
    end in
  Returns (act InitComponents (act SetupNavigation w2)).

(** The cowgirl that the package exports. *)
Definition cowgirl : browser -> target -> world -> mounted := index_cowgirl.

(** A mount target is valid when it is an HTML element or a selector that
    finds one. *)
Definition valid_target (b : browser) (d : Dom) (container : target) : bool :=
  match container with
  | Selector s =>
    match querySelector b s with
    | Some n => isHTMLElement d n
    | None => false
    end
  | ANode n => isHTMLElement d n
  | NoNode => false
  end.

(** ** Scenarios

    Programs and states the theorems below are evaluated at. *)

Definition ends (o : outcome) (st' : State) : Prop :=
  match o with
  | OutOfFuel => False
  | Done _ st | Thrown _ st => st = st'
  end.

Definition state_after (fuel : nat) (p : prog) (st : State) : State :=
  match exec fuel p st with
  | Done _ st' | Thrown _ st' => st'
  | OutOfFuel => st
  end.

Definition skip : prog := Ret VUndef.

(** A signal that holds 5, with one subscriber. *)
Definition five_setup : prog :=
  CreateMoan (VNum 5) (fun s => OnClimax (Read s (fun _ => skip)) (fun _ => skip)).

Definition five : State := state_after 20 five_setup initial.

(** Signals a = 0 and b = 0; effect 0 copies a into b, effect 1 reads both. *)
Definition cascade_setup : prog :=
  CreateMoan (VNum 0) (fun a =>
  CreateMoan (VNum 0) (fun b =>
  OnClimax (Read a (fun v => Write b v skip)) (fun _ =>
  OnClimax (Read a (fun _ => Read b (fun _ => skip))) (fun _ => skip)))).

Definition cascade_state : State := state_after 20 cascade_setup initial.

(** batch(() => a.write(1)) *)
Definition cascade_batch : prog := Batch (Write 0 (VNum 1) skip) skip.

(** "N writes inside one batch to signals that effect [e] subscribes to run
    [e] exactly once", at one state, one batch body and one effect. *)
Definition runs_once_in_batch (fuel : nat) (st : State) (f : prog) (e : eid) : Prop :=
  exists st', ends (exec fuel (Batch f skip) st) st' /\
    runs_of e (drop (length (log st)) (log st')) = 1.

(** batch((schedule) => { schedule(() => { throw "boom" }); write(6) }) on
    the signal of [five]: the body hands a function of its own to the
    scheduling function that batch calls it with. *)
Definition handing : prog := Schedule (Throw (VStr "boom")) (Write 0 (VNum 6) skip).

(** The state inside that batch when its body has returned, and the state
    when the batch has returned. *)
Definition cascade_inside : State :=
  state_after 20 (Write 0 (VNum 1) skip) (batch_enter cascade_state).

Definition cascade_after : State := state_after 20 cascade_batch cascade_state.

(** batch(() => { s.write(6); s.write(7) }) at [five]: the state inside the
    batch when its body has returned, and the state when the batch has
    returned. *)
Definition two_writes : prog := Write 0 (VNum 6) (Write 0 (VNum 7) skip).

Definition two_writes_inside : State := state_after 20 two_writes (batch_enter five).

Definition two_writes_after : State := state_after 20 (Batch two_writes skip) five.

(** An effect reads signal 0; it is then disposed and the signal is written
    twice. *)
Definition stale_before : State :=
  state_after 20
    (CreateMoan (VNum 0) (fun s => OnClimax (Read s (fun _ => skip)) (fun _ => skip)))
    initial.

Definition stale_rest : prog :=
  Dispose 0 (Write 0 (VNum 1) (Write 0 (VNum 2) skip)).

Definition stale_state : State := state_after 20 stale_rest stale_before.

(** "The subscriber set of a signal holds no disposed effect." *)
Definition no_disposed_subscriber (st : State) : Prop :=
  forall s e, e ∈ sig_subscribers s st -> is_disposed e st = false.

(** s = 1, m = knotMemo(() => s() % 2), an effect that reads m, then
    s = 3 and s = 5. *)
Definition parity (v : val) : val :=
  match v with
  | VNum z => VNum (z mod 2)
  | _ => VUndef
  end.

Definition memo_parity : prog :=
  CreateMoan (VNum 1) (fun s =>
  KnotMemo (Read s (fun v => Ret (parity v))) (fun m =>
  OnClimax (Read m (fun _ => skip)) (fun _ =>
  Write s (VNum 3) (Write s (VNum 5) skip)))).

(** A memo whose value 1 is settled. *)
Definition memo_settled : State :=
  state_after 20
    (CreateMoan (VNum 1) (fun s => KnotMemo (Read s (fun v => Ret (parity v))) (fun _ => skip)))
    initial.

(** s = 2, s = 4, s = 5 on the settled memo: its value goes from 1 to 0,
    stays, and goes back to 1. *)
Definition memo_flips : prog :=
  Write 0 (VNum 2) (Write 0 (VNum 4) (Write 0 (VNum 5) skip)).

Definition memo_flipped : State := state_after 20 memo_flips memo_settled.

(** Signals g, s, t (0, 1, 2); effect 0 reads s and throws; effect 1 reads g
    and, untracked, writes s and reads t. *)
Definition throwing_setup : prog :=
  CreateMoan (VNum 0) (fun g =>
  CreateMoan (VNum 0) (fun s =>
  CreateMoan (VNum 0) (fun t =>
  OnClimax (Read s (fun _ => Throw (VStr "boom"))) (fun _ =>
  OnClimax (Read g (fun v =>
              Untrack (Write s v (Read t (fun _ => skip))) (fun _ => skip)))
           (fun _ => skip))))).

Definition throwing_state : State := state_after 20 throwing_setup initial.

(** Effect 1 is running and is inside its untrack call. *)
Definition inside_untrack : State :=
  set_currentEffect None (set_effectStack [1] throwing_state).

(** A resource without dependencies, created with initial value null; an
    effect reads its data.  The resource is resource 0: its data, loading and
    error signals are signals 0, 1 and 2.  After the task that created it,
    the queued first fetch has started: its controller is token 0. *)
Definition shot_setup : prog :=
  LoadShot skip VNull (fun _ => OnClimax (Read 0 (fun _ => skip)) (fun _ => skip)).

Definition tasks_after (fuel : nat) (ts : list task) (st : State) : State :=
  match run_tasks fuel ts st with
  | Some st' => st'
  | None => st
  end.

Definition shot_started : State := tasks_after 20 [Run shot_setup] initial.

(** Fetch B (token 1) starts while fetch A (token 0) is in flight; B
    resolves, then A resolves. *)
Definition overlap : list task :=
  [Run (Refetch 0 skip); Settle 1 (Resolved (VStr "B")); Settle 0 (Resolved (VStr "A"))].

(** dispose() while fetch A is in flight, then A resolves. *)
Definition disposed_in_flight : list task :=
  [Run (DisposeShot 0 skip); Settle 0 (Resolved (VStr "A"))].

(** ** Live trees and virtual trees *)

(** <div><b></b><p></p></div> against div [span; p]. *)
Definition drift_live : Dom :=
  (parse (Tag "div" [] [Tag "b" [] []; Tag "p" [] []]) empty_document).2.

Definition drift_vnode : vnode :=
  VElem "div" [] [VElem "span" [] []; VElem "p" [] []].

Definition drift_result : hydrated := hydrateDOMElement development drift_vnode 0 drift_live.

(** <li data-key=k>k</li> and its virtual node with key k. *)
Definition li (k : string) : html := Tag "li" [("data-key", k)] [Txt k].

Definition vli (k : Z) : vnode := VElem "li" [("key", PNum k)] [VNumber k].

(** Live items 3, 1, 2 (nodes 1, 3, 5 of the list, node 0) against the
    virtual list of keys 1, 2, 3. *)
Definition reorder_live : Dom :=
  (parse (Tag "ul" [] [li "3"; li "1"; li "2"]) empty_document).2.

Definition reorder_vnode : vnode := VElem "ul" [] [vli 1; vli 2; vli 3].

Definition reorder_result : hydrated :=
  hydrateDOMElement development reorder_vnode 0 reorder_live.

(** Live items 1, 0 (nodes 1, 3) against the virtual list of keys 0, 1. *)
Definition zero_live : Dom :=
  (parse (Tag "ul" [] [li "1"; li "0"]) empty_document).2.

Definition zero_vnode : vnode := VElem "ul" [] [vli 0; vli 1].

Definition zero_result : hydrated := hydrateDOMElement development zero_vnode 0 zero_live.

(** A virtual child has an explicit key. *)
Definition is_keyed (v : vnode) : bool :=
  match v with
  | VElem _ props _ =>
    match assoc_get "key" props with
    | Some PNull | None => false
    | Some _ => true
    end
  | _ => false
  end.

(** The key that a live node records is the key of the virtual node. *)
Definition recorded_key_is (d : Dom) (v : vnode) (n : nat) : bool :=
  match dataset_key d n with
  | Some k => String.eqb k (String_ (key_of v))
  | None => false
  end.

(** ** A page to mount on *)

(** <div id="app"></div> is node 0; the selector "#app" finds it. *)
Definition app_page : Dom := (parse (Tag "div" [("id", "app")] []) empty_document).2.

Definition app_browser : browser :=
  {| querySelector := fun s => if String.eqb s "#app" then Some 0 else None;
     pathSegments := [];
     userLanguage := None;
     browserLanguage := "en" |}.

Definition fresh_world : world :=
  {| page := app_page; clientRouter := false; isRouterInitialized := false;
     performed := [] |}.

(** An effect reads s only while flag is true.  flag becomes false, then s
    is written twice. *)
Definition conditional_reader : prog :=
  CreateMoan (VBool true) (fun flag =>
  CreateMoan (VNum 0) (fun s =>
  OnClimax (Read flag (fun v => if truthy v then Read s (fun _ => skip) else skip))
    (fun _ =>
  Write flag (VBool false) (Write s (VNum 1) (Write s (VNum 2) skip))))).
(** * More of the reactive runtime

    ** Scenarios and readers used by the theorems on callbacks, disposers,
    resources and feedback *)

(** batch(() => { s.write(6); throw "boom" }) *)
Definition throwing_body : prog := Write 0 (VNum 6) (Throw (VStr "boom")).

(** While a callback runs, the function of no effect that was disposed
    before runs. *)
Definition resting (st st' : State) : Prop :=
  forall new e, log st' = log st ++ new -> is_disposed e st = true -> runs_of e new = 0.

Definition settled (st st' : State) : Prop := frame st st' /\ resting st st'.

(** [a === b] on the values of the model (no NaN, no negative zero, no
    objects). *)
Definition strict_equal (a b : val) : bool :=
  match a, b with
  | VUndef, VUndef => true
  | VNull, VNull => true
  | VBool x, VBool y => Bool.eqb x y
  | VNum x, VNum y => Z.eqb x y
  | VStr x, VStr y => String.eqb x y
  | _, _ => false
  end.

(** ** loadShot: the methods of the object it returns

    [hasError], [success] and [idle] call the getters of the resource, which
    subscribe the current effect like any read; [&&] does not evaluate its
    right operand when the left one is false. *)
Module Shot.

Definition hasError (rs : resource) (st : State) : bool * State :=
  let '(e, st1) := read (error rs) st in (truthy e, st1).

Definition success (rs : resource) (st : State) : bool * State :=
  let '(l, st1) := read (loading rs) st in
  if truthy l then (false, st1)
  else let '(e, st2) := read (error rs) st1 in (negb (truthy e), st2).

Definition idle (rs : resource) (initialValue : val) (st : State) : bool * State :=
  let '(l, st1) := read (loading rs) st in
  if truthy l then (false, st1)
  else let '(d, st2) := read (data rs) st1 in (strict_equal d initialValue, st2).

End Shot.

(** A resource nobody subscribes to, its first fetch in flight. *)
Definition shot_alone : State :=
  tasks_after 20 [Run (LoadShot skip VNull (fun _ => skip))] initial.

(** An effect that writes back what it reads: [() => write(f(read()))]. *)
Definition feedback (s : sid) (f : val -> val) : prog :=
  Read s (fun v => Write s (f v) skip).

(** Effect [e] is the feedback effect, the only subscriber of signal [s],
    and no batch is open. *)
Definition feeding (e : eid) (s : sid) (f : val -> val) (st : State) : Prop :=
  schedule st = None /\
  effs st !! e = Some (mkEffect (UserFn (feedback s f)) false []) /\
  exists sg, sigs st !! s = Some sg /\ subscribers sg = [e].

(** [f] changes [v] exactly [n] times in a row before it comes to rest. *)
Fixpoint moves (f : val -> val) (n : nat) (v : val) : bool :=
  match n with
  | O => Object_is v (f v)
  | S n' => negb (Object_is v (f v)) && moves f n' (f v)
  end.

(** Where [v] is after [n] applications of [f]. *)
Fixpoint after_moves (f : val -> val) (n : nat) (v : val) : val :=
  match n with
  | O => v
  | S n' => after_moves f n' (f v)
  end.

(** The trace of a write of [v] to a signal whose subscriber feeds it back:
    the change, made with the effects of [stack] running, the run it
    causes, and inside that run the same for [f v]. *)
Fixpoint nest_trace (e : eid) (s : sid) (f : val -> val) (n : nat) (v : val)
    (stack : list eid) : list event :=
  EvSet s v stack :: EvInvoke e (length stack) true ::
  match n with
  | O => []
  | S n' => nest_trace e s f n' (f v) (stack ++ [e])
  end.

(** [n => n < 3 ? n + 1 : n] *)
Definition toward_three (v : val) : val :=
  match v with
  | VNum z => if (z <? 3)%Z then VNum (z + 1) else v
  | _ => v
  end.

(** A signal that holds 3 and the effect that feeds it. *)
Definition feeder : State :=
  state_after 20
    (CreateMoan (VNum 3) (fun s => OnClimax (feedback s toward_three) (fun _ => skip)))
    initial.

(** Nesting enough for [n] nested runs. *)
Fixpoint nest_fuel (n : nat) : nat :=
  match n with
  | O => 4
  | S n' => S (S (S (nest_fuel n')))
  end.
(** * Internationalisation ([src/app/shared/i18n.js])

    The translation store, the configuration and the language signal are
    module variables; the browser (localStorage, the document, the
    navigator) is there or not ([typeof window]).  Strings are strings of
    ASCII characters. *)

Module I18n.

(** [String(v)] *)
Definition to_string (v : val) : string :=
  match v with
  | VUndef => "undefined"
  | VNull => "null"
  | VBool true => "true"
  | VBool false => "false"
  | VNum z => string_of_Z z
  | VStr s => s
  end.

(** [a || b] *)
Definition or_else (a b : val) : val := if truthy a then a else b.

(** [s.split(c)] for a separator of one character. *)
Fixpoint split (c : ascii) (s : string) : list string :=
  match s with
  | EmptyString => [EmptyString]
  | String x r =>
    if Ascii.eqb x c then EmptyString :: split c r
    else
      match split c r with
      | h :: t => String x h :: t
      | [] => [String x EmptyString]
      end
  end.

(** [Boolean(s)] for a string *)
Definition nonempty (s : string) : bool := negb (String.eqb s "").

(** [path.split("/").filter(Boolean)] *)
Definition segments (path : string) : list string :=
  List.filter nonempty (split "/" path).

(** [l.join("/")] *)
Definition join (l : list string) : string := String.concat "/" l.

(** [l.includes(v)] for an array of strings *)
Definition includes (l : list string) (v : val) : bool :=
  match v with
  | VStr s => existsb (String.eqb s) l
  | _ => false
  end.

(** [l[0]] *)
Definition first (l : list string) : val :=
  match l with
  | x :: _ => VStr x
  | [] => VUndef
  end.

(** Translation messages: strings, nested by key. *)
Inductive messages : Type :=
| Message (s : string)
| Nested (entries : list (string * messages)).

Record configuration : Type := mkConfiguration {
  supportedLanguages : option (list string);   (* an array, or null *)
  explicitRouting : bool;
  defaultLanguage : val;
  fallbackLanguage : val;
  storageKeys_page : string;
  storageKeys_user : string
}.

(** What initI18n reads of its argument; [None] is a property that is
    undefined. *)
Record options : Type := mkOptions {
  o_supportedLanguages : option (list string);
  o_explicitRouting : option bool;
  o_defaultLanguage : val;
  o_defaultLng : val;
  o_fallbackLanguage : val;
  o_fallbackLng : val;
  o_page : string;                             (* storageKeys?.page, or empty *)
  o_preferred : string;
  o_user : string;
  o_detectBrowser : option bool
}.

(** The module variables. *)
Record module : Type := mkModule {
  translations : list (string * messages);     (* a Map: keys in insertion order *)
  i18nConfiguration : configuration;
  currentLanguage : sid                        (* createMoan(null) *)
}.

Record browser : Type := mkBrowser {
  localStorage : list (string * string);
  documentLang : string;                       (* document.documentElement.lang *)
  navigatorLanguage : string;
  pathname : string                            (* window.location.pathname *)
}.

Record world : Type := mkWorld {
  i18n : module;
  runtime : State;
  window : option browser                      (* None: typeof window === "undefined" *)
}.

Inductive result (A : Type) : Type :=
| Returned (a : A) (w : world)
| Threw (err : val) (w : world)
| NoFuel.

Arguments Returned {A} a w.
Arguments Threw {A} err w.
Arguments NoFuel {A}.

Definition set_runtime (st : State) (w : world) : world :=
  {| i18n := i18n w; runtime := st; window := window w |}.

Definition set_i18n (m : module) (w : world) : world :=
  {| i18n := m; runtime := runtime w; window := window w |}.

Definition set_window (b : option browser) (w : world) : world :=
  {| i18n := i18n w; runtime := runtime w; window := b |}.

Definition setItem (k v : string) (b : browser) : browser :=
  {| localStorage := assoc_set k v (localStorage b); documentLang := documentLang b;
     navigatorLanguage := navigatorLanguage b; pathname := pathname b |}.

Definition removeItem (k : string) (b : browser) : browser :=
  {| localStorage := List.filter (fun kv => negb (String.eqb kv.1 k)) (localStorage b);
     documentLang := documentLang b;
     navigatorLanguage := navigatorLanguage b; pathname := pathname b |}.

Definition getItem (k : string) (b : browser) : option string :=
  assoc_get k (localStorage b).

Definition set_documentLang (l : string) (b : browser) : browser :=
  {| localStorage := localStorage b; documentLang := l;
     navigatorLanguage := navigatorLanguage b; pathname := pathname b |}.

(** [storageKeys?.page || "pLng"] and [storageKeys?.user || "uLng"] *)
Definition pageKey (m : module) : string :=
  if nonempty (storageKeys_page (i18nConfiguration m))
  then storageKeys_page (i18nConfiguration m) else "pLng".

Definition userKey (m : module) : string :=
  if nonempty (storageKeys_user (i18nConfiguration m))
  then storageKeys_user (i18nConfiguration m) else "uLng".

(** getSupportedLanguages *)
Definition getSupportedLanguages (m : module) : list string :=
  let registered := map fst (translations m) in
  match supportedLanguages (i18nConfiguration m) with
  | Some supported =>
    List.filter (fun lang => existsb (String.eqb lang) supported) registered
  | None => registered
  end.

(** registerTranslations; isValidLanguageCode is the test of
    [language-codes.js]. *)
Definition registerTranslations (isValidLanguageCode : string -> bool)
    (lang : string) (msgs : messages) (m : module) : module :=
  if isValidLanguageCode lang then
    {| translations := assoc_set lang msgs (translations m);
       i18nConfiguration := i18nConfiguration m; currentLanguage := currentLanguage m |}
  else m.

(** getDefaultLanguage:
    [i18nConfiguration.fallbackLanguage || getSupportedLanguages()[0]] *)
Definition getDefaultLanguage (m : module) : val :=
  or_else (fallbackLanguage (i18nConfiguration m)) (first (getSupportedLanguages m)).

(** getLanguage *)
Definition getLanguage (w : world) : val * world :=
  let '(v, st) := read (currentLanguage (i18n w)) (runtime w) in (v, set_runtime st w).

(** setLanguage *)
Definition setLanguage (call : eid -> State -> outcome) (lang : val)
    (isExplicitRoute : bool) (w : world) : result unit :=
  if includes (getSupportedLanguages (i18n w)) lang then
    match write call (currentLanguage (i18n w)) (Lit lang) (runtime w) with
    | OutOfFuel => NoFuel
    | Thrown err st => Threw err (set_runtime st w)
    | Done _ st =>
      let w1 := set_runtime st w in
      match window w1 with
      | Some b =>
        let b1 := setItem "language" (to_string lang) b in
        let b2 := if isExplicitRoute
                  then setItem (pageKey (i18n w1)) (to_string lang) b1 else b1 in
        let b3 := setItem (userKey (i18n w1)) (to_string lang) b2 in
        Returned tt (set_window (Some (set_documentLang (to_string lang) b3)) w1)
      | None => Returned tt w1
      end
    end
  else Returned tt w.

(** detectBrowserLanguage *)
Definition detectBrowserLanguage (w : world) : val :=
  match window w with
  | None => getDefaultLanguage (i18n w)
  | Some b =>
    let supported := getSupportedLanguages (i18n w) in
    match getItem "language" b with
    | Some stored =>
      if nonempty stored && includes supported (VStr stored) then VStr stored
      else
        let browserLang := hd EmptyString (split "-" (navigatorLanguage b)) in
        if includes supported (VStr browserLang) then VStr browserLang
        else getDefaultLanguage (i18n w)
    | None =>
      let browserLang := hd EmptyString (split "-" (navigatorLanguage b)) in
      if includes supported (VStr browserLang) then VStr browserLang
      else getDefaultLanguage (i18n w)
    end
  end.

(** getUserLanguage and getPreferredLanguage; [VNull] is null. *)
Definition stored_language (key : string) (w : world) : val :=
  match window w with
  | None => VNull
  | Some b =>
    match getItem key b with
    | Some l =>
      if nonempty l && includes (getSupportedLanguages (i18n w)) (VStr l)
      then VStr l else VNull
    | None => VNull
    end
  end.

Definition getUserLanguage (w : world) : val := stored_language (userKey (i18n w)) w.

Definition getPreferredLanguage (w : world) : val := stored_language (pageKey (i18n w)) w.

(** setPreferredLanguage *)
Definition setPreferredLanguage (lang : val) (w : world) : world :=
  match window w with
  | Some b =>
    if includes (getSupportedLanguages (i18n w)) lang
    then set_window (Some (setItem (pageKey (i18n w)) (to_string lang) b)) w
    else w
  | None => w
  end.

(** clearPreferredLanguage *)
Definition clearPreferredLanguage (w : world) : world :=
  match window w with
  | Some b => set_window (Some (removeItem (pageKey (i18n w)) b)) w
  | None => w
  end.

(** [a || b || c] for strings *)
Definition first_nonempty (a b c : string) : string :=
  if nonempty a then a else if nonempty b then b else c.

(** initI18n.  It returns the language getter, setLanguage and t. *)
Definition initI18n (call : eid -> State -> outcome) (o : options) (w : world)
  : result unit :=
  let old := i18nConfiguration (i18n w) in
  let cfg :=
    {| supportedLanguages := o_supportedLanguages o;
       explicitRouting := match o_explicitRouting o with Some b => b | None => false end;
       defaultLanguage := or_else (o_defaultLanguage o) (or_else (o_defaultLng o) VNull);
       fallbackLanguage := or_else (o_fallbackLanguage o) (or_else (o_fallbackLng o) VNull);
       storageKeys_page := first_nonempty (o_page o) (o_preferred o) "pLng";
       storageKeys_user := first_nonempty (o_user o) "" "uLng" |} in
  let m :=
    {| translations := translations (i18n w); i18nConfiguration := cfg;
       currentLanguage := currentLanguage (i18n w) |} in
  let w1 := set_i18n m w in
  let configDefaultLang := defaultLanguage cfg in
  let fallbackLang := getDefaultLanguage m in
  let detectBrowser := match o_detectBrowser o with Some b => b | None => true end in
  let initialLang :=
    if strict_equal configDefaultLang (VStr "auto") ||
       (detectBrowser && match window w1 with Some _ => true | None => false end)
    then detectBrowserLanguage w1
    else if truthy configDefaultLang && negb (strict_equal configDefaultLang (VStr "auto"))
    then configDefaultLang
    else fallbackLang in
  match write call (currentLanguage m) (Lit initialLang) (runtime w1) with
  | OutOfFuel => NoFuel
  | Thrown err st => Threw err (set_runtime st w1)
  | Done _ st =>
    let w2 := set_runtime st w1 in
    Returned tt
      match window w2 with
      | Some b => set_window (Some (set_documentLang (to_string initialLang) b)) w2
      | None => w2
      end
  end.

(** localizeRoute; [lang] is null when the argument is left out. *)
Definition localizeRoute (path : string) (lang : val) (w : world) : string * world :=
  let '(language, w1) :=
    if truthy lang then (lang, w) else getLanguage w in
  let defaultLang := getDefaultLanguage (i18n w1) in
  if negb (explicitRouting (i18nConfiguration (i18n w1))) && strict_equal language defaultLang
  then (path, w1)
  else
    let normalizedPath := if startsWith "/" path then path else ("/" ++ path)%string in
    (("/" ++ to_string language ++ normalizedPath)%string, w1).

(** extractLanguageFromRoute *)
Definition extractLanguageFromRoute (path : string) (m : module) : val * string :=
  let segs := segments path in
  match segs with
  | seg :: rest =>
    if includes (getSupportedLanguages m) (VStr seg)
    then (VStr seg, ("/" ++ join rest)%string)
    else (getDefaultLanguage m, path)
  | [] => (getDefaultLanguage m, path)
  end.

(** createLanguageSwitcher(navigate): the function it returns, which ends
    with [navigate?.(newPath)]; the path it navigates to is returned. *)
Definition switchLanguage (call : eid -> State -> outcome) (lang : val) (w : world)
  : result string :=
  let currentPath :=
    match window w with
    | Some b => pathname b
    | None => "/"
    end in
  let '(_, path) := extractLanguageFromRoute currentPath (i18n w) in
  let '(newPath, w1) := localizeRoute path lang w in
  match setLanguage call lang false w1 with
  | Returned _ w2 => Returned newPath w2
  | Threw err w2 => Threw err w2
  | NoFuel => NoFuel
  end.

End I18n.

(** Whether a character occurs in a string. *)
Fixpoint has_char (c : ascii) (s : string) : bool :=
  match s with
  | EmptyString => false
  | String x r => Ascii.eqb x c || has_char c r
  end.

(** English and Swedish registered, nothing configured, in a browser at
    /sv/about/. *)
Definition bilingual : I18n.world :=
  {| I18n.i18n :=
       {| I18n.translations := [("en", I18n.Nested []); ("sv", I18n.Nested [])];
          I18n.i18nConfiguration :=
            {| I18n.supportedLanguages := None; I18n.explicitRouting := false;
               I18n.defaultLanguage := VNull; I18n.fallbackLanguage := VNull;
               I18n.storageKeys_page := "pLng"; I18n.storageKeys_user := "uLng" |};
          I18n.currentLanguage := 0 |};
     I18n.runtime := (createMoan VNull initial).2;
     I18n.window :=
       Some {| I18n.localStorage := []; I18n.documentLang := "";
               I18n.navigatorLanguage := "en-US"; I18n.pathname := "/sv/about/" |} |}.


(** ** The options of initI18n

    [with_defaultLanguage x y o] is the argument [o] with [x] as
    defaultLanguage and [y] as defaultLng; [default_stored v r] is the
    result [r] with [v] as the defaultLanguage of the configuration. *)
Definition with_defaultLanguage (x y : val) (o : I18n.options) : I18n.options :=
  {| I18n.o_supportedLanguages := I18n.o_supportedLanguages o;
     I18n.o_explicitRouting := I18n.o_explicitRouting o;
     I18n.o_defaultLanguage := x;
     I18n.o_defaultLng := y;
     I18n.o_fallbackLanguage := I18n.o_fallbackLanguage o;
     I18n.o_fallbackLng := I18n.o_fallbackLng o;
     I18n.o_page := I18n.o_page o;
     I18n.o_preferred := I18n.o_preferred o;
     I18n.o_user := I18n.o_user o;
     I18n.o_detectBrowser := I18n.o_detectBrowser o |}.

Definition set_defaultLanguage (v : val) (w : I18n.world) : I18n.world :=
  let m := I18n.i18n w in
  let c := I18n.i18nConfiguration m in
  I18n.set_i18n
    {| I18n.translations := I18n.translations m;
       I18n.i18nConfiguration :=
         {| I18n.supportedLanguages := I18n.supportedLanguages c;
            I18n.explicitRouting := I18n.explicitRouting c;
            I18n.defaultLanguage := v;
            I18n.fallbackLanguage := I18n.fallbackLanguage c;
            I18n.storageKeys_page := I18n.storageKeys_page c;
            I18n.storageKeys_user := I18n.storageKeys_user c |};
       I18n.currentLanguage := I18n.currentLanguage m |} w.

Definition default_stored (v : val) (r : I18n.result unit) : I18n.result unit :=
  match r with
  | I18n.Returned a w => I18n.Returned a (set_defaultLanguage v w)
  | I18n.Threw err w => I18n.Threw err (set_defaultLanguage v w)
  | I18n.NoFuel => I18n.NoFuel
  end.

(** The argument of initI18n that sets nothing. *)
Definition no_options : I18n.options :=
  {| I18n.o_supportedLanguages := None; I18n.o_explicitRouting := None;
     I18n.o_defaultLanguage := VUndef; I18n.o_defaultLng := VUndef;
     I18n.o_fallbackLanguage := VUndef; I18n.o_fallbackLng := VUndef;
     I18n.o_page := ""; I18n.o_preferred := ""; I18n.o_user := "";
     I18n.o_detectBrowser := None |}.
(** * Rendering to markup ([src/app/server/jsx.js]) *)

Definition dquote : string := String (ascii_of_nat 34) EmptyString.

(** escapeHtml: every ampersand, angle bracket, double quote and apostrophe
    is replaced by its entity. *)
Definition escape_char (c : ascii) : string :=
  if Ascii.eqb c "&" then "&amp;"
  else if Ascii.eqb c "<" then "&lt;"
  else if Ascii.eqb c ">" then "&gt;"
  else if Ascii.eqb c (ascii_of_nat 34) then "&quot;"
  else if Ascii.eqb c "'" then "&#39;"
  else String c EmptyString.

Fixpoint escapeHtml (str : string) : string :=
  match str with
  | EmptyString => EmptyString
  | String c r => (escape_char c ++ escapeHtml r)%string
  end.

Definition selfClosing : list string :=
  ["area"; "base"; "br"; "col"; "embed"; "hr"; "img"; "input"; "link"; "meta"; "param";
   "source"; "track"; "wbr"].

(** [openTag.replace('>', ' />')]: the first occurrence is replaced. *)
Fixpoint replace_first_gt (s : string) : string :=
  match s with
  | EmptyString => EmptyString
  | String c r =>
    if Ascii.eqb c ">" then (" />" ++ r)%string else String c (replace_first_gt r)
  end.

(** [Object.entries(value).map(([k, v]) => `${k}: ${v}`).join('; ')] *)
Definition styleStr (o : list (string * string)) : string :=
  String.concat "; " (map (fun kv => (kv.1 ++ ": " ++ kv.2)%string) o).

(** One entry of [vnode.props] that passed the filter, as an attribute. *)
Definition render_attr (kv : string * pval) : string :=
  let '(key, value) := kv in
  let attrName := if String.eqb key "className" then "class" else key in
  match value with
  | PObj o =>
    if String.eqb key "style"
    then (attrName ++ "=" ++ dquote ++ escapeHtml (styleStr o) ++ dquote)%string
    else (attrName ++ "=" ++ dquote ++ escapeHtml (String_ value) ++ dquote)%string
  | _ => (attrName ++ "=" ++ dquote ++ escapeHtml (String_ value) ++ dquote)%string
  end.

(** [!key.startsWith('on') && value != null && value !== false] *)
Definition rendered_prop (kv : string * pval) : bool :=
  negb (startsWith "on" kv.1) &&
  match kv.2 with
  | PNull | PBool false => false
  | _ => true
  end.

Definition render_attrs (props : list (string * pval)) : string :=
  String.concat " " (map render_attr (List.filter rendered_prop props)).

Definition openTag (type : string) (props : list (string * pval)) : string :=
  if String.eqb (render_attrs props) ""
  then ("<" ++ type ++ ">")%string
  else ("<" ++ type ++ " " ++ render_attrs props ++ ">")%string.

(** renderToString.  A function among the props is printed by [String] as
    its source text, for which [String_] has a placeholder. *)
Fixpoint renderToString (v : vnode) : string :=
  match v with
  | VNone => EmptyString
  | VText s => escapeHtml s
  | VNumber z => escapeHtml (string_of_Z z)
  | VArr l => String.concat "" (map renderToString l)
  | VElem type props children =>
    if String.eqb type "" then String.concat "" (map renderToString children)
    else if existsb (String.eqb type) selfClosing
    then replace_first_gt (openTag type props)
    else (openTag type props ++ String.concat "" (map renderToString children)
            ++ "</" ++ type ++ ">")%string
  end.

(** How often a character occurs. *)
Fixpoint count_char (c : ascii) (s : string) : nat :=
  match s with
  | EmptyString => 0
  | String x r => (if Ascii.eqb x c then 1 else 0) + count_char c r
  end.

(** The tags that the markup of a virtual node has: one for a void
    element, two for any other element. *)
Fixpoint tags (v : vnode) : nat :=
  match v with
  | VNone | VText _ | VNumber _ => 0
  | VArr l => list_sum (map tags l)
  | VElem type _ children =>
    if String.eqb type "" then list_sum (map tags children)
    else if existsb (String.eqb type) selfClosing then 1
    else 2 + list_sum (map tags children)
  end.

(** No tag name and no prop name of the virtual node holds the character. *)
Fixpoint names_free (c : ascii) (v : vnode) : bool :=
  match v with
  | VNone | VText _ | VNumber _ => true
  | VArr l => forallb (names_free c) l
  | VElem type props children =>
    negb (has_char c type) && forallb (fun kv => negb (has_char c kv.1)) props &&
    forallb (names_free c) children
  end.

(** The characters that delimit tags and attribute values. *)
Definition markup_char (c : ascii) : bool :=
  Ascii.eqb c "<" || Ascii.eqb c ">" || Ascii.eqb c (ascii_of_nat 34) || Ascii.eqb c "'".

(** * Routes ([src/app/shared/router.js])

    parseRoute turns a pattern into a regular expression by replacing every
    asterisk by [.*] and every [:name] by a group [([^/]+)], and anchors it.
    The expressions it builds from patterns that hold no other syntax of
    regular expressions are modelled: a sequence of characters, wildcards
    and groups, matched as the backtracking matcher of JavaScript matches
    them (greedy, leftmost).  Strings are strings of ASCII characters. *)

Module Router.

Inductive piece : Type :=
| Lit (c : ascii)               (* a character that stands for itself *)
| Wild                          (* .* *)
| Group (name : string).        (* ([^/]+), pushed to params as [name] *)

Definition in_range (lo hi : nat) (c : ascii) : bool :=
  ((lo <=? nat_of_ascii c) && (nat_of_ascii c <=? hi))%nat.

(** [\w] *)
Definition word_char (c : ascii) : bool :=
  in_range 97 122 c || in_range 65 90 c || in_range 48 57 c || Ascii.eqb c "_".

(** The characters with a meaning of their own in a regular expression,
    the asterisk aside. *)
Definition syntax_char (c : ascii) : bool :=
  existsb (Ascii.eqb c)
    ["\"; "^"; "$"; "."; "|"; "?"; "+"; "("; ")"; "["; "]"; "{"; "}"]%char.

(** Line terminators, which the dot does not match. *)
Definition line_terminator (c : ascii) : bool :=
  Ascii.eqb c (ascii_of_nat 10) || Ascii.eqb c (ascii_of_nat 13).

(** The word characters at the head of what follows a colon. *)
Fixpoint leading_word (ps : list piece) : string * list piece :=
  match ps with
  | Lit c :: rest =>
    if word_char c then let '(w, rest') := leading_word rest in (String c w, rest')
    else (EmptyString, ps)
  | _ => (EmptyString, ps)
  end.

(** The pieces of the regular expression of parseRoute; [None] for a
    pattern with other syntax of regular expressions. *)
Fixpoint pieces (pattern : string) : option (list piece) :=
  match pattern with
  | EmptyString => Some []
  | String c r =>
    match pieces r with
    | None => None
    | Some ps =>
      if Ascii.eqb c "*" then Some (Wild :: ps)
      else if Ascii.eqb c ":" then
        let '(w, rest) := leading_word ps in
        if String.eqb w "" then Some (Lit c :: ps) else Some (Group w :: rest)
      else if syntax_char c then None
      else Some (Lit c :: ps)
    end
  end.

Definition names (ps : list piece) : list string :=
  flat_map (fun p => match p with Group n => [n] | _ => [] end) ps.

(** parseRoute: the expression and the parameter names. *)
Definition parseRoute (pattern : string) : option (list piece * list string) :=
  match pieces pattern with
  | Some ps => Some (ps, names ps)
  | None => None
  end.

(** [path.match(regex)] for the anchored sequence [ps]: the captures of the
    groups, in order.  A wildcard and a group first take all they can and
    give back one character at a time. *)
Fixpoint matches (ps : list piece) : string -> option (list string) :=
  match ps with
  | [] => fun s => match s with EmptyString => Some [] | _ => None end
  | Lit c :: rest =>
    fun s =>
      match s with
      | String x r => if Ascii.eqb x c then matches rest r else None
      | EmptyString => None
      end
  | Wild :: rest =>
    fix wild (s : string) : option (list string) :=
      match s with
      | EmptyString => matches rest s
      | String x r =>
        if line_terminator x then matches rest s
        else
          match wild r with
          | Some caps => Some caps
          | None => matches rest s
          end
      end
  | Group _ :: rest =>
    fun s =>
      (fix group (taken s : string) : option (list string) :=
         match s with
         | EmptyString => None
         | String x r =>
           if Ascii.eqb x "/" then None
           else
             let taken' := (taken ++ String x EmptyString)%string in
             match group taken' r with
             | Some caps => Some caps
             | None =>
               match matches rest r with
               | Some caps => Some (taken' :: caps)
               | None => None
               end
             end
         end) EmptyString s
  end.

Record matching : Type := mkMatching {
  matched : bool;
  params : list (string * string)     (* an object: [params[name]] *)
}.

(** [paramNames.forEach((name, index) => (params[name] = match[index + 1]))].
    [params] is a plain object: an assignment to [__proto__] goes to the
    setter it inherits, which ignores a string, so no entry is stored. *)
Fixpoint assign (paramNames caps : list string) (acc : list (string * string))
  : list (string * string) :=
  match paramNames, caps with
  | name :: ns, cap :: cs =>
    assign ns cs (if String.eqb name "__proto__" then acc else assoc_set name cap acc)
  | _, _ => acc
  end.

(** matchRoute *)
Definition matchRoute (path pattern : string) : option matching :=
  match parseRoute pattern with
  | None => None
  | Some (regex, paramNames) =>
    match matches regex path with
    | None => Some {| matched := false; params := [] |}
    | Some caps => Some {| matched := true; params := assign paramNames caps [] |}
    end
  end.

End Router.

(** A captured value: not empty, no slash. *)
Definition segment (v : string) : Prop :=
  I18n.nonempty v = true /\ has_char "/" v = false.

(** A character that stands for itself in a pattern. *)
Definition plain_char (c : ascii) : bool :=
  negb (Router.syntax_char c) && negb (Ascii.eqb c "*") && negb (Ascii.eqb c ":").

(** A string of such characters, a string of word characters, and the
    pieces of a string of characters that stand for themselves. *)
Fixpoint plain (s : string) : bool :=
  match s with
  | EmptyString => true
  | String c r => plain_char c && plain r
  end.

Fixpoint word (s : string) : bool :=
  match s with
  | EmptyString => true
  | String c r => Router.word_char c && word r
  end.

Fixpoint lits (s : string) : list Router.piece :=
  match s with
  | EmptyString => []
  | String c r => Router.Lit c :: lits r
  end.

(** * More of the hydration engine

    ** Trees that fit

    What hydration leaves alone when the live tree is what the server
    rendered from the same virtual tree: the kind, tag and text of every
    node, its parent and its children. *)

Definition shape (x : node) : nodeKind * string * string * option nat * list nat :=
  (nodeType x, localName x, text x, parentNode x, childNodes x).

Definition same_shape (d d' : Dom) : Prop :=
  map shape (nodes d') = map shape (nodes d).

Section Fits.

Variable rec : vnode -> nid -> bool.
Variable d : Dom.

(** The loop over the children of hydrateDOMElement when it finds, for
    every virtual child that is not null, a live child that matches it,
    and no live child is left over. Children with a key are not
    considered. *)
Fixpoint fits_children (vs : list vnode) (domChild : option nid) : bool :=
  match vs with
  | [] =>
    match domChild with
    | None => true
    | Some _ => false
    end
  | vChild :: rest =>
    match domChild with
    | None => false
    | Some c =>
      if is_none vChild then fits_children rest domChild
      else
        negb (truthy_pval (key_of vChild)) && nodesMatch vChild c d && rec vChild c &&
        fits_children rest (skipWhitespace d (nextSibling d c))
    end
  end.

End Fits.

(** The live node [n] is what the virtual node [v] describes. *)
Fixpoint fits (d : Dom) (v : vnode) (n : nid) : bool :=
  match v with
  | VNone => true
  | VText s => is_text_with d n s
  | VNumber z => is_text_with d n (string_of_Z z)
  | VArr _ => false
  | VElem type props children =>
    negb (String.eqb type "") && is_kind ELEMENT_NODE d n &&
    String.eqb (toLowerCase (tagName d n)) (toLowerCase type) &&
    fits_children (fits d) d children (skipWhitespace d (firstChild d n))
  end.

(** The warnings that do not come with a change of the tree. *)
Definition attribute_warning (w : string) : Prop :=
  w = "className mismatch" \/ w = "Attribute mismatch".

(** [d'] is [d] but for attributes, styles, properties, handlers, refs
    and warnings about attributes. *)
Definition gentle (d d' : Dom) : Prop :=
  same_shape d d' /\
  exists ws, warnings d' = warnings d ++ ws /\ Forall attribute_warning ws.

(** ** What the model covers

    The model of the document takes every name and runs no callback.  A
    browser refuses a name that is not valid (createElement and
    setAttribute throw InvalidCharacterError), parses the markup assigned
    to innerHTML, may refuse the value assigned to a form control and runs
    a ref callback; String(n) prints all the digits of a safe integer
    only.  The theorems below are about virtual trees for which none of
    this matters. *)

Definition letter (c : ascii) : bool :=
  let n := nat_of_ascii c in
  (((65 <=? n) && (n <=? 90)) || ((97 <=? n) && (n <=? 122)))%nat.

Definition digit (c : ascii) : bool :=
  let n := nat_of_ascii c in ((48 <=? n) && (n <=? 57))%nat.

Fixpoint name_chars (s : string) : bool :=
  match s with
  | EmptyString => true
  | String c r =>
    (letter c || digit c || Ascii.eqb c "-" || Ascii.eqb c "_" || Ascii.eqb c ".") &&
    name_chars r
  end.

(** A name that every browser takes as the name of an element and of an
    attribute: a letter, then letters, digits, hyphens, underscores and
    full stops. *)
Definition plain_name (s : string) : bool :=
  match s with
  | EmptyString => false
  | String c r => letter c && name_chars r
  end.

(** [Number.isSafeInteger] *)
Definition safe_integer (z : Z) : bool := (Z.abs z <=? 9007199254740991)%Z.

(** A prop of a virtual node that hydration handles inside the model: a
    plain name, no ref and no value of a form control, a number that is a
    safe integer. *)
Definition tame_prop (kv : string * pval) : bool :=
  plain_name kv.1 && negb (String.eqb kv.1 "ref") && negb (String.eqb kv.1 "value") &&
  match kv.2 with
  | PNum z => safe_integer z
  | _ => true
  end.

Fixpoint tame (v : vnode) : bool :=
  match v with
  | VNumber z => safe_integer z
  | VArr l => forallb tame l
  | VElem _ props children => forallb tame_prop props && forallb tame children
  | _ => true
  end.

(** The same for a tree that is to be created: the types of its elements
    are plain names too, and no prop is innerHTML. *)
Fixpoint wellnamed (v : vnode) : bool :=
  match v with
  | VNumber z => safe_integer z
  | VArr l => forallb wellnamed l
  | VElem type props children =>
    (String.eqb type "" || plain_name type) &&
    forallb (fun kv => tame_prop kv && negb (String.eqb kv.1 "innerHTML")) props &&
    forallb wellnamed children
  | _ => true
  end.

(** A page as the server sent it, and the virtual tree of the same page:
    the class agrees, the id is missing from the markup, a handler is to be
    attached, and the markup has white space between the children. *)
Definition served_live : Dom :=
  (parse (Tag "div" [("class", "box")]
            [Tag "span" [] [Txt "a"]; Txt " "; Tag "p" [] []]) empty_document).2.

Definition served_vnode : vnode :=
  VElem "div" [("className", PStr "box"); ("id", PStr "x")]
    [VElem "span" [] [VText "a"]; VNone; VElem "p" [("onClick", PFn 1)] []].

(** ** Logging

    [with_warnings ws d] is the document [d] with the log [ws]; [muted] puts
    that log into what hydrateDOMElement returned, [muted_created] into
    what createDOMElementForHydration returned. *)
Definition with_warnings (ws : list string) (d : Dom) : Dom :=
  {| nodes := nodes d; delegatedEvents := delegatedEvents d; refs := refs d;
     warnings := ws |}.

Definition muted (ws : list string) (r : hydrated) : hydrated :=
  match r with
  | Hydrated n d => Hydrated n (with_warnings ws d)
  | HydrateThrows err d => HydrateThrows err (with_warnings ws d)
  end.

Definition muted_created (ws : list string) (r : created) : created :=
  match r with
  | Created n d => Created n (with_warnings ws d)
  | CreateThrows err d => CreateThrows err (with_warnings ws d)
  end.

(** A configuration as configureHydration leaves it for production. *)
Definition production : config :=
  {| isProduction := true; logMismatches := true; partialHydration := false |}.

(** ** New nodes

    [typed v]: every object of the virtual tree has a type.  A document is
    [built_on] a list of nodes when these are its first nodes, unchanged,
    and no node after them has one of them as parent or child. *)
Fixpoint typed (v : vnode) : bool :=
  match v with
  | VArr l => forallb typed l
  | VElem type _ children => negb (String.eqb type "") && forallb typed children
  | _ => true
  end.

Definition links_fresh (L : nat) (x : node) : Prop :=
  (forall p, parentNode x = Some p -> L <= p) /\ Forall (fun c => L <= c) (childNodes x).

Definition built_on (l0 : list node) (d : Dom) : Prop :=
  (exists new, nodes d = l0 ++ new) /\
  forall i x, length l0 <= i -> nodes d !! i = Some x -> links_fresh (length l0) x.

Definition dom_of_created (r : created) : Dom :=
  match r with
  | Created _ d | CreateThrows _ d => d
  end.

(** * Links of the single-page navigation ([src/app/client/index.js])

    setupNavigation, its helper updateLustsForLanguage: on a language
    route every link marked data-spa-link gets the language of the route in
    front of its href.  The links are those that
    [document.querySelectorAll] finds; they are an argument here.  Strings
    are strings of ASCII characters. *)

(** [[a-z]] *)
Definition lower_letter (c : ascii) : bool :=
  let n := nat_of_ascii c in Nat.leb 97 n && Nat.leb n 122.

(** [s.match(/^\/([a-z]{2})(?:\/|$)/)]: the group, or [None] for null. *)
Definition language_prefix (s : string) : option string :=
  match s with
  | String "/" (String a (String b rest)) =>
    if lower_letter a && lower_letter b &&
       match rest with
       | EmptyString => true
       | String c _ => Ascii.eqb c "/"
       end
    then Some (String a (String b EmptyString))
    else None
  | _ => None
  end.

(** The callback of forEach. *)
Definition update_link (lang : string) (d : Dom) (link : nid) : Dom :=
  match getAttribute d link "href" with
  | None => d
  | Some href =>
    if String.eqb href "" || startsWith "http" href || startsWith "//" href then d
    else
      match language_prefix href with
      | Some _ => d
      | None =>
        setAttribute link "href"
          ("/" ++ lang ++ (if String.eqb href "/" then "" else href))%string d
      end
  end.

Definition updateLustsForLanguage (pathname : string) (links : list nid) (d : Dom) : Dom :=
  match language_prefix pathname with
  | None => d
  | Some lang => fold_left (update_link lang) links d
  end.

(** An href that is a path of the site: it starts with one slash. *)
Definition site_path (href : string) : bool :=
  startsWith "/" href && negb (startsWith "//" href).

(** An href that is relative: not empty, no slash in front, no http. *)
Definition relative (href : string) : bool :=
  negb (String.eqb href "") && negb (startsWith "/" href) && negb (startsWith "http" href).

(** A page on a language route, with three links. *)
Definition linked_page : Dom :=
  (parse (Tag "nav" []
            [Tag "a" [("data-spa-link", ""); ("href", "/about")] [];
             Tag "a" [("data-spa-link", ""); ("href", "/sv/contact")] [];
             Tag "a" [("data-spa-link", ""); ("href", "pricing")] []]) empty_document).2.
(** ** Basic facts *)

Lemma Object_is_eq (a b : val) : Object_is a b = true <-> a = b.
Proof.
  destruct a, b; simpl; split; intros H; try congruence; try discriminate.
  - apply Bool.eqb_prop in H. congruence.
  - inversion H. apply Bool.eqb_reflx.
  - apply Z.eqb_eq in H. congruence.
  - inversion H. apply Z.eqb_refl.
  - apply String.eqb_eq in H. congruence.
  - inversion H. apply String.eqb_refl.
Qed.

Lemma set_has_elem (e : eid) (l : list eid) : set_has e l = true <-> e ∈ l.
Proof.
  unfold set_has. rewrite existsb_exists, list_elem_of_In. split.
  - intros [x [Hx He]]. apply Nat.eqb_eq in He. subst x. exact Hx.
  - intros H. exists e. split; [exact H | apply Nat.eqb_refl].
Qed.

Lemma set_add_elem (e x : eid) (l : list eid) :
  x ∈ set_add e l <-> x = e \/ x ∈ l.
Proof.
  unfold set_add. fold (set_has e l).
  destruct (set_has e l) eqn:H.
  - apply set_has_elem in H. split; [auto | intros [-> | ?]; auto].
  - rewrite elem_of_app, list_elem_of_singleton. tauto.
Qed.

Lemma set_add_NoDup (e : eid) (l : list eid) : NoDup l -> NoDup (set_add e l).
Proof.
  intros Hl. unfold set_add. fold (set_has e l).
  destruct (set_has e l) eqn:H; [exact Hl |].
  apply NoDup_app. split; [exact Hl |]. split; [| apply NoDup_singleton].
  intros x Hx Hx'. apply list_elem_of_singleton in Hx'. subst x.
  apply set_has_elem in Hx. congruence.
Qed.

Lemma effects_of_app (l1 l2 : list member) :
  effects_of (l1 ++ l2) = effects_of l1 ++ effects_of l2.
Proof. unfold effects_of. apply flat_map_app. Qed.

Lemma functions_of_app (l1 l2 : list member) :
  functions_of (l1 ++ l2) = functions_of l1 ++ functions_of l2.
Proof. unfold functions_of. apply flat_map_app. Qed.

Lemma is_eff_effects (e : eid) (ps : list member) :
  existsb (is_eff e) ps = set_has e (effects_of ps).
Proof.
  unfold set_has. induction ps as [| [x | c] ps IH]; simpl; [reflexivity | |];
    rewrite IH; reflexivity.
Qed.

Lemma pend_add_effects (m : member) (ps : list member) :
  effects_of (pend_add m ps) =
  match m with
  | Eff e => set_add e (effects_of ps)
  | Fun _ => effects_of ps
  end.
Proof.
  destruct m as [e | c]; simpl.
  - unfold set_add. fold (set_has e (effects_of ps)). rewrite is_eff_effects.
    destruct (set_has e (effects_of ps)); [reflexivity |].
    rewrite effects_of_app. reflexivity.
  - rewrite effects_of_app. simpl. apply app_nil_r.
Qed.

Lemma pend_add_NoDup (m : member) (ps : list member) :
  NoDup (effects_of ps) -> NoDup (effects_of (pend_add m ps)).
Proof.
  intros H. rewrite pend_add_effects. destruct m; [apply set_add_NoDup |]; exact H.
Qed.

Lemma pend_add_elem (m : member) (ps : list member) (x : eid) :
  x ∈ effects_of (pend_add m ps) <-> x ∈ effects_of [m] \/ x ∈ effects_of ps.
Proof.
  rewrite pend_add_effects. destruct m as [e | c]; simpl.
  - rewrite set_add_elem, list_elem_of_singleton. tauto.
  - rewrite elem_of_nil. tauto.
Qed.

Lemma adds_NoDup (l ps : list member) :
  NoDup (effects_of ps) -> NoDup (effects_of (adds l ps)).
Proof.
  revert ps. induction l as [| e l IH]; intros ps Hps; simpl; [exact Hps |].
  apply IH, pend_add_NoDup, Hps.
Qed.

Lemma adds_app (l1 l2 ps : list member) : adds (l1 ++ l2) ps = adds l2 (adds l1 ps).
Proof. unfold adds. apply fold_left_app. Qed.

Lemma adds_elem (l ps : list member) (x : eid) :
  x ∈ effects_of (adds l ps) <-> x ∈ effects_of l \/ x ∈ effects_of ps.
Proof.
  revert ps. induction l as [| m l IH]; intros ps.
  - simpl. rewrite elem_of_nil. tauto.
  - change (adds (m :: l) ps) with (adds l (pend_add m ps)).
    change (m :: l) with ([m] ++ l). rewrite IH, pend_add_elem, effects_of_app, elem_of_app.
    tauto.
Qed.

(** Functions are never taken out of a set, and none is added that was not
    handed over. *)
Lemma pend_add_functions (m : member) (ps : list member) :
  functions_of (pend_add m ps) = functions_of ps ++ functions_of [m].
Proof.
  destruct m as [e | c]; simpl.
  - destruct (existsb (is_eff e) ps); [symmetry; apply app_nil_r |].
    apply functions_of_app.
  - apply functions_of_app.
Qed.

Lemma adds_functions (l ps : list member) :
  functions_of (adds l ps) = functions_of ps ++ functions_of l.
Proof.
  revert ps. induction l as [| m l IH]; intros ps.
  - simpl. symmetry. apply app_nil_r.
  - change (adds (m :: l) ps) with (adds l (pend_add m ps)).
    rewrite IH, pend_add_functions. change (m :: l) with ([m] ++ l).
    rewrite functions_of_app, app_assoc. reflexivity.
Qed.

Lemma defers_app (l1 l2 : list event) : defers (l1 ++ l2) = defers l1 ++ defers l2.
Proof. unfold defers. apply flat_map_app. Qed.

Lemma invoked_at_app (d : nat) (l1 l2 : list event) :
  invoked_at d (l1 ++ l2) = invoked_at d l1 ++ invoked_at d l2.
Proof. unfold invoked_at. apply flat_map_app. Qed.

Lemma deeper_app (d : nat) (l1 l2 : list event) :
  deeper d l1 -> deeper d l2 -> deeper d (l1 ++ l2).
Proof. unfold deeper. intros. apply Forall_app. auto. Qed.

Lemma deeper_le (d d' : nat) (l : list event) : d <= d' -> deeper d' l -> deeper d l.
Proof.
  unfold deeper. intros Hd H. eapply Forall_impl; [exact H |].
  intros [] ?; simpl in *; auto. lia.
Qed.

Lemma deeper_invoked (d : nat) (l : list event) : deeper (S d) l -> invoked_at d l = [].
Proof.
  unfold deeper. induction 1 as [| ev l Hev _ IH]; [reflexivity |].
  simpl. rewrite IH. destruct ev; try reflexivity.
  destruct (Nat.eqb_spec depth d); [lia | reflexivity].
Qed.

(** ** Frames compose *)

Lemma wf_same (st st' : State) :
  wf st ->
  batchDepth st' = batchDepth st -> pending st' = pending st ->
  schedule st' = schedule st -> tokens st' = tokens st -> ress st' = ress st ->
  wf st'.
Proof.
  intros [Hb Hn Ht Hc] E1 E2 E3 E4 E5.
  split; rewrite ?E1, ?E2, ?E3, ?E4, ?E5; assumption.
Qed.

Lemma frame_refl (st : State) : wf st -> frame st st.
Proof.
  intros Hwf. split; auto.
  - exists []. rewrite app_nil_r. split; [reflexivity |]. split; [constructor |].
    simpl. destruct (pending st); reflexivity.
  - intros s sg H. eauto.
  - intros e ef H. eauto.
  - intros m mm H. eauto.
  - intros t tk H. eauto.
  - intros r rs H. exists rs. auto.
Qed.

Lemma frame_trans (a b c : State) : frame a b -> frame b c -> frame a c.
Proof.
  intros [_ S1 D1 C1 [n1 [L1 [P1 Q1]]] U1 G1 E1 M1 T1 R1]
         [W S2 D2 C2 [n2 [L2 [P2 Q2]]] U2 G2 E2 M2 T2 R2].
  split.
  - exact W.
  - congruence.
  - congruence.
  - congruence.
  - exists (n1 ++ n2). split; [rewrite L2, L1, app_assoc; reflexivity |].
    split.
    + apply deeper_app; [exact P1 |]. rewrite <- S1. exact P2.
    + rewrite Q2, Q1, defers_app. destruct (pending a); simpl; [| reflexivity].
      rewrite adds_app. reflexivity.
  - destruct U2 as [U2 | U2]; [rewrite U2; exact U1 | right; congruence].
  - intros s sg H. destruct (G1 _ _ H) as [sg1 [H1 I1]].
    destruct (G2 _ _ H1) as [sg2 [H2 I2]]. eauto.
  - intros e ef H. destruct (E1 _ _ H) as [ef1 [H1 [F1 I1]]].
    destruct (E2 _ _ H1) as [ef2 [H2 [F2 I2]]].
    exists ef2. split; [exact H2 |]. split; [congruence | auto].
  - intros m mm H. destruct (M1 _ _ H) as [m1 [H1 O1]].
    destruct (M2 _ _ H1) as [m2 [H2 O2]]. exists m2. split; [exact H2 | congruence].
  - intros t tk H. destruct (T1 _ _ H) as [t1 [H1 [O1 I1]]].
    destruct (T2 _ _ H1) as [t2 [H2 [O2 I2]]].
    exists t2. split; [exact H2 |]. split; [congruence | auto].
  - intros r rs H. destruct (R1 _ _ H) as [r1 [H1 [A1 [B1 [C1' D1']]]]].
    destruct (R2 _ _ H1) as [r2 [H2 [A2 [B2 [C2' D2']]]]].
    exists r2. repeat split; congruence.
Qed.

Lemma returns_impl (o : outcome) (P Q : State -> Prop) :
  returns o P -> (forall st, P st -> Q st) -> returns o Q.
Proof. destruct o; simpl; auto. Qed.

Lemma returns_bind (o : outcome) (k : ret -> State -> outcome) (st : State) :
  returns o (frame st) ->
  (forall r st1, frame st st1 -> returns (k r st1) (frame st1)) ->
  returns (o >>= k) (frame st).
Proof.
  intros Ho Hk. destruct o as [| r st1 | err st1]; simpl in *; auto.
  eapply returns_impl; [apply Hk, Ho |].
  intros st2 H. eapply frame_trans; eauto.
Qed.

Lemma returns_done (o : outcome) (r : ret) (P : State -> Prop) :
  returns o P -> returns (o >>= fun _ st' => Done r st') P.
Proof. destruct o; simpl; auto. Qed.

(** A step that changes only signals, effects, memos or the microtask
    queue, and logs nothing. *)
Lemma frame_store (st st' : State) :
  wf st ->
  effectStack st' = effectStack st -> batchDepth st' = batchDepth st ->
  schedule st' = schedule st -> pending st' = pending st ->
  log st' = log st -> currentEffect st' = currentEffect st ->
  tokens st' = tokens st -> ress st' = ress st ->
  (forall s sg, sigs st !! s = Some sg ->
     exists sg', sigs st' !! s = Some sg' /\
       forall e, e ∈ subscribers sg -> e ∈ subscribers sg') ->
  (forall e ef, effs st !! e = Some ef ->
     exists ef', effs st' !! e = Some ef' /\ fn ef' = fn ef /\
       (disposed ef = true -> disposed ef' = true)) ->
  (forall m mm, memos st !! m = Some mm ->
     exists mm', memos st' !! m = Some mm' /\ out mm' = out mm) ->
  frame st st'.
Proof.
  intros Hwf E1 E2 E3 E4 E5 E6 E7 E8 HS HE HM. split; auto.
  - eapply wf_same; eauto.
  - exists []. rewrite app_nil_r, E4. split; [exact E5 |]. split; [constructor |].
    simpl. destruct (pending st); reflexivity.
  - rewrite E7. intros t tk H. eauto.
  - rewrite E8. intros r rs H. exists rs. auto.
Qed.

(** ** Every runtime function keeps the frame *)

Lemma sigs_insert_mono (l : list signal) (s : sid) (sg new : signal) :
  l !! s = Some sg ->
  (forall e, e ∈ subscribers sg -> e ∈ subscribers new) ->
  forall s' sg', l !! s' = Some sg' ->
    exists sg'', <[s := new]> l !! s' = Some sg'' /\
      forall e, e ∈ subscribers sg' -> e ∈ subscribers sg''.
Proof.
  intros Hs Hsub s' sg' H. destruct (decide (s = s')) as [<- | Hne].
  - exists new. split.
    + apply list_lookup_insert_eq. eapply lookup_lt_Some, Hs.
    + assert (sg' = sg) by congruence. subst sg'. exact Hsub.
  - exists sg'. split; [| auto]. rewrite list_lookup_insert_ne; auto.
Qed.

Lemma effs_alter_mono (l : list effect) (e : eid) (f : effect -> effect) :
  (forall x, fn (f x) = fn x /\ (disposed x = true -> disposed (f x) = true)) ->
  forall e' ef, l !! e' = Some ef ->
    exists ef', alter f e l !! e' = Some ef' /\ fn ef' = fn ef /\
      (disposed ef = true -> disposed ef' = true).
Proof.
  intros Hf e' ef H. destruct (decide (e = e')) as [<- | Hne].
  - exists (f ef). rewrite list_lookup_alter_eq, H. split; [reflexivity | apply Hf].
  - exists ef. rewrite list_lookup_alter_ne by auto. auto.
Qed.

Lemma memos_alter_mono (l : list memo) (m : mid) (f : memo -> memo) :
  (forall x, out (f x) = out x) ->
  forall m' mm, l !! m' = Some mm ->
    exists mm', alter f m l !! m' = Some mm' /\ out mm' = out mm.
Proof.
  intros Hf m' mm H. destruct (decide (m = m')) as [<- | Hne].
  - exists (f mm). rewrite list_lookup_alter_eq, H. split; [reflexivity | apply Hf].
  - exists mm. rewrite list_lookup_alter_ne by auto. auto.
Qed.

Lemma app_mono {A} (P : A -> A -> Prop) (l l' : list A) :
  (forall x, P x x) ->
  forall i x, l !! i = Some x -> exists x', (l ++ l') !! i = Some x' /\ P x x'.
Proof. intros HP i x H. exists x. split; [apply lookup_app_l_Some, H | apply HP]. Qed.

Lemma read_frame (s : sid) (st : State) : wf st -> frame st (read s st).2.
Proof.
  intros Hwf. unfold read. destruct (sigs st !! s) as [sg |] eqn:Hs;
    [| apply frame_refl, Hwf].
  destruct (currentEffect st); [| apply frame_refl, Hwf].
  apply frame_store; simpl; eauto.
  apply (sigs_insert_mono _ _ sg); [exact Hs |].
  simpl. intros x Hx. apply set_add_elem. auto.
Qed.

Lemma emit_frame (ev : event) (st : State) :
  wf st ->
  match ev with
  | EvInvoke _ k _ => length (effectStack st) <= k
  | EvDefer _ => False
  | _ => True
  end ->
  frame st (emit ev st).
Proof.
  intros Hwf Hev. split; simpl; eauto.
  - eapply wf_same; eauto.
  - exists [ev]. split; [reflexivity |]. split.
    + constructor; [| constructor]. destruct ev; auto; contradiction.
    + destruct ev; try contradiction; simpl; destruct (pending st); reflexivity.
  - intros r rs H. exists rs. auto.
Qed.

Lemma pending_add_frame (m : member) (st : State) :
  wf st -> returns (pending_add m st) (frame st).
Proof.
  intros Hwf. unfold pending_add. destruct (pending st) as [ps |] eqn:Hp; simpl;
    [| apply frame_refl, Hwf].
  destruct Hwf as [Hb Hn Ht Hc]. split; simpl; eauto.
  - split; simpl; auto.
    + right. destruct Hb as [[_ [Hb _]] | [H1 [_ H2]]]; [congruence |].
      split; [exact H1 |]. split; [eauto | exact H2].
    + intros ps' [= <-]. apply pend_add_NoDup, Hn, Hp.
  - exists [EvDefer m]. split; [reflexivity |]. split.
    + constructor; [exact I | constructor].
    + rewrite Hp. reflexivity.
  - intros r rs H. exists rs. auto.
Qed.

Lemma abort_frame (t : tid) (st : State) : wf st -> frame st (abort t st).
Proof.
  intros Hwf. pose proof Hwf as [Hb Hn Ht Hc]. unfold abort.
  set (f := fun x : token => mkToken (owner x) true).
  assert (Hlk : forall t' tk', alter f t (tokens st) !! t' = Some tk' ->
            exists tk, tokens st !! t' = Some tk /\ owner tk' = owner tk /\
              (aborted tk' = false -> tk' = tk)).
  { intros t' tk' H. destruct (decide (t = t')) as [<- | Hne].
    - rewrite list_lookup_alter_eq in H.
      destruct (tokens st !! t) as [tk |]; simpl in H; [| discriminate].
      injection H as <-. exists tk. simpl. split; [reflexivity |].
      split; [reflexivity | discriminate].
    - rewrite list_lookup_alter_ne in H by auto. eauto. }
  split; simpl; auto.
  - split; simpl; auto.
    + intros t' tk' H Ha. destruct (Hlk _ _ H) as [tk [H1 [_ H3]]].
      rewrite (H3 Ha). apply Ht; [exact H1 |]. rewrite <- (H3 Ha). exact Ha.
    + intros r rs t' H1 H2. destruct (Hc _ _ _ H1 H2) as [tk [H3 H4]].
      destruct (decide (t = t')) as [<- | Hne].
      * exists (f tk). rewrite list_lookup_alter_eq, H3. auto.
      * exists tk. rewrite list_lookup_alter_ne by auto. auto.
  - exists []. rewrite app_nil_r. split; [reflexivity |]. split; [constructor |].
    simpl. destruct (pending st); reflexivity.
  - intros s sg H. eauto.
  - intros e ef H. eauto.
  - intros m mm H. eauto.
  - intros t' tk H. destruct (decide (t = t')) as [<- | Hne].
    + exists (f tk). rewrite list_lookup_alter_eq, H. auto.
    + exists tk. rewrite list_lookup_alter_ne by auto. auto.
  - intros r rs H. exists rs. auto.
Qed.

Lemma is_aborted_abort (t : tid) (st : State) :
  t < length (tokens st) -> is_aborted t (abort t st) = true.
Proof.
  intros H. unfold is_aborted, abort. simpl. rewrite list_lookup_alter_eq.
  destruct (tokens st !! t) eqn:E; [reflexivity |].
  apply lookup_ge_None in E. lia.
Qed.

Lemma new_controller_frame (r : rid) (rs : resource) (st : State) :
  wf st ->
  ress st !! r = Some rs ->
  (forall t tk, tokens st !! t = Some tk -> owner tk = r -> aborted tk = true) ->
  frame st (new_controller r st).
Proof.
  intros Hwf Hr Hab. pose proof Hwf as [Hb Hn Ht Hc]. unfold new_controller.
  set (g := fun x : resource => mkResource _ _ _ _ _).
  split; simpl; auto.
  - split; simpl; auto.
    + intros t tk H Ha. apply lookup_app_Some in H as [H | [Hlen H]].
      * destruct (Ht _ _ H Ha) as [rs0 [H1 H2]].
        destruct (decide (r = owner tk)) as [Heq | Hne].
        -- specialize (Hab _ _ H (eq_sym Heq)). congruence.
        -- exists rs0. rewrite list_lookup_alter_ne by auto. auto.
      * destruct (t - length (tokens st)) as [| n] eqn:En; simpl in H; [| discriminate].
        injection H as <-. simpl. exists (g rs).
        rewrite list_lookup_alter_eq, Hr. split; [reflexivity |].
        simpl. f_equal. lia.
    + intros r' rs' t H1 H2. destruct (decide (r = r')) as [<- | Hne].
      * rewrite list_lookup_alter_eq, Hr in H1. injection H1 as <-.
        simpl in H2. injection H2 as <-.
        exists (mkToken r false). split; [| reflexivity].
        rewrite lookup_app_r by lia. rewrite Nat.sub_diag. reflexivity.
      * rewrite list_lookup_alter_ne in H1 by auto.
        destruct (Hc _ _ _ H1 H2) as [tk [H3 H4]].
        exists tk. split; [apply lookup_app_l_Some, H3 | exact H4].
  - exists []. rewrite app_nil_r. split; [reflexivity |]. split; [constructor |].
    simpl. destruct (pending st); reflexivity.
  - intros s sg H. eauto.
  - intros e ef H. eauto.
  - intros m mm H. eauto.
  - intros t tk H. exists tk. split; [apply lookup_app_l_Some, H | auto].
  - intros r' rs' H. destruct (decide (r = r')) as [<- | Hne].
    + exists (g rs'). rewrite list_lookup_alter_eq, H. simpl. auto.
    + exists rs'. rewrite list_lookup_alter_ne by auto. auto.
Qed.

Lemma batch_enter_wf (st : State) : wf st -> wf (batch_enter st).
Proof.
  intros [Hb Hn Ht Hc]. unfold batch_enter.
  destruct (Z.eqb_spec (batchDepth st) 0) as [Hz | Hz]; split; simpl; auto.
  - right. split; [lia |]. eauto.
  - intros ps [= <-]. constructor.
  - right. destruct Hb as [[B1 _] | [B1 [B2 B3]]]; [contradiction |].
    split; [lia | auto].
Qed.

(** refetch, before the batch: the old controller is aborted and a new one
    takes its place. *)
Lemma refetch_start_frame (r : rid) (rs : resource) (st : State) :
  wf st -> ress st !! r = Some rs ->
  frame st
    (new_controller r (match controller rs with Some t => abort t st | None => st end)).
Proof.
  intros Hwf Hr.
  set (st1 := match controller rs with Some t => abort t st | None => st end).
  assert (H1 : frame st st1).
  { subst st1. destruct (controller rs); [apply abort_frame | apply frame_refl]; auto. }
  assert (Hr1 : ress st1 !! r = Some rs).
  { subst st1. destruct (controller rs); exact Hr. }
  assert (Hab : forall t tk, tokens st1 !! t = Some tk -> owner tk = r ->
            aborted tk = true).
  { intros t tk Ht Ho. destruct (aborted tk) eqn:Ea; [reflexivity |].
    destruct (wf_tok _ (f_wf _ _ H1) _ _ Ht Ea) as [rs0 [Hrs0 Hc0]].
    rewrite Ho, Hr1 in Hrs0. injection Hrs0 as <-.
    subst st1. rewrite Hc0 in Ht. simpl in Ht.
    unfold abort in Ht. simpl in Ht. rewrite list_lookup_alter_eq in Ht.
    destruct (tokens st !! t); simpl in Ht; [| discriminate].
    injection Ht as <-. discriminate. }
  eapply frame_trans; [exact H1 |].
  apply (new_controller_frame r rs st1 (f_wf _ _ H1) Hr1 Hab).
Qed.

Section Frames.

Variable rec : prog -> State -> outcome.
Variable call : eid -> State -> outcome.
Hypothesis Hrec : forall p st, wf st -> returns (rec p st) (frame st).
Hypothesis Hcall : forall e st, wf st -> returns (call e st) (frame st).

Lemma notify_frame (s : sid) (effects : list eid) (st : State) :
  wf st -> returns (notify call s effects st) (frame st).
Proof.
  revert st. induction effects as [| e rest IH]; intros st Hwf; simpl.
  - apply frame_refl, Hwf.
  - destruct (has_subscriber s e st); [| apply IH, Hwf].
    apply returns_bind.
    + destruct (schedule st) as [[] |]; [apply pending_add_frame | apply Hcall]; exact Hwf.
    + intros _ st1 H. apply IH, H.
Qed.

Lemma write_frame (s : sid) (n : next) (st : State) :
  wf st -> returns (write call s n st) (frame st).
Proof.
  intros Hwf. unfold write. destruct (sigs st !! s) as [sg |] eqn:Hs;
    [| apply frame_refl, Hwf].
  destruct (Object_is _ _); [apply frame_refl, Hwf |].
  set (st0 := set_sigs _ st).
  assert (H0 : frame st st0).
  { apply frame_store; simpl; eauto.
    apply (sigs_insert_mono _ _ sg); [exact Hs | auto]. }
  assert (H1 : frame st0 (emit (EvSet s (candidate n (value sg)) (effectStack st)) st0)).
  { apply emit_frame; [apply H0 | exact I]. }
  eapply returns_impl; [apply notify_frame, H1 |].
  intros st2 H2. eapply frame_trans; [| exact H2].
  eapply frame_trans; eauto.
Qed.

Lemma flush_frame (effects : list member) (st : State) :
  wf st -> returns (flush rec call effects st) (frame st).
Proof.
  revert st. induction effects as [| [e | c] rest IH]; intros st Hwf; simpl.
  - apply frame_refl, Hwf.
  - apply returns_bind; [apply Hcall, Hwf |].
    intros _ st1 H. apply IH, H.
  - apply returns_bind; [apply Hrec, Hwf |].
    intros _ st1 H. apply IH, H.
Qed.

Lemma batch_exit_frame (st st3 st4 : State) :
  wf st ->
  frame st3 st4 ->
  effectStack st3 = effectStack st ->
  batchDepth st3 = (batchDepth st + 1)%Z ->
  pending st3 = (if (batchDepth st =? 0)%Z then Some [] else pending st) ->
  log st3 = log st -> currentEffect st3 = currentEffect st ->
  sigs st3 = sigs st -> effs st3 = effs st -> memos st3 = memos st ->
  tokens st3 = tokens st -> ress st3 = ress st ->
  returns (batch_exit rec call (schedule st) st4) (frame st).
Proof.
  intros Hwf [W S D C [new [L [P Q]]] U G E M T R] ES ED EP EL EC EG EE EM ET ER.
  unfold batch_exit. simpl. rewrite D, ED.
  replace (batchDepth st + 1 - 1)%Z with (batchDepth st) by lia.
  assert (Hbase : forall p' st5,
    effectStack st5 = effectStack st4 -> batchDepth st5 = batchDepth st ->
    schedule st5 = schedule st -> log st5 = log st4 ->
    currentEffect st5 = currentEffect st4 -> sigs st5 = sigs st4 ->
    effs st5 = effs st4 -> memos st5 = memos st4 -> tokens st5 = tokens st4 ->
    ress st5 = ress st4 -> pending st5 = p' ->
    p' = adds (defers new) <$> pending st ->
    frame st st5).
  { intros p' st5 A1 A2 A3 A4 A5 A6 A7 A8 A9 A10 A11 A12.
    destruct W as [Wb Wn Wt Wc]. destruct Hwf as [Hb Hn Ht Hc].
    split.
    - split.
      + rewrite A2, A3, A11, A12.
        destruct Hb as [[B1 [B2 B3]] | [B1 [[ps B2] B3]]].
        * left. rewrite B2. auto.
        * right. rewrite B2. simpl. eauto.
      + rewrite A11, A12. intros ps Hps.
        destruct (pending st) as [ps0 |] eqn:Hp0; simpl in Hps; [| discriminate].
        injection Hps as <-. apply adds_NoDup, Hn. reflexivity.
      + rewrite A9, A10. exact Wt.
      + rewrite A9, A10. exact Wc.
    - congruence.
    - exact A2.
    - exact A3.
    - exists new. rewrite A4, L, EL, A11, <- ES. auto.
    - rewrite A5, <- EC, <- ES. exact U.
    - rewrite A6, <- EG. exact G.
    - rewrite A7, <- EE. exact E.
    - rewrite A8, <- EM. exact M.
    - rewrite A9, <- ET. exact T.
    - rewrite A10, <- ER. exact R. }
  destruct (Z.eqb_spec (batchDepth st) 0) as [Hz | Hz].
  - rewrite Q, EP. simpl.
    assert (Hp : pending st = None).
    { destruct Hwf as [[[_ [Hp _]] | [Hp _]] _ _ _]; [exact Hp | lia]. }
    eapply returns_impl.
    + apply flush_frame.
      apply (f_wf st (set_pending None
        (set_batchDepth (batchDepth st) (set_schedule (schedule st) st4)))).
      apply (Hbase None); simpl; auto. rewrite Hp. reflexivity.
    + intros st6 H6. eapply frame_trans; [| exact H6].
      apply (Hbase None); simpl; auto. rewrite Hp. reflexivity.
  - simpl. apply (Hbase (pending st4)); simpl; auto. rewrite Q, EP. reflexivity.
Qed.

Lemma batch_frame (f : State -> outcome) (st : State) :
  (forall st, wf st -> returns (f st) (frame st)) ->
  wf st -> returns (batch rec call f st) (frame st).
Proof.
  intros Hf Hwf. unfold batch.
  pose proof (batch_enter_wf st Hwf) as W3.
  assert (Hx : forall st4, frame (batch_enter st) st4 ->
              returns (batch_exit rec call (schedule st) st4) (frame st)).
  { intros st4 H4. eapply batch_exit_frame; eauto; unfold batch_enter;
      destruct (Z.eqb_spec (batchDepth st) 0); reflexivity. }
  specialize (Hf _ W3).
  destruct (f (batch_enter st)) as [| r st4 | err st4]; simpl in Hf; auto.
  - specialize (Hx st4 Hf). destruct (batch_exit _ _ _); simpl in *; auto.
  - specialize (Hx st4 Hf). destruct (batch_exit _ _ _); simpl in *; auto.
Qed.

Lemma untrack_frame (f : State -> outcome) (st : State) :
  (forall st, wf st -> returns (f st) (frame st)) ->
  wf st -> returns (untrack f st) (frame st).
Proof.
  intros Hf Hwf. unfold untrack.
  assert (W : wf (set_currentEffect None st)) by (eapply wf_same; eauto).
  specialize (Hf _ W).
  assert (Hx : forall st4, frame (set_currentEffect None st) st4 ->
              frame st (set_currentEffect (currentEffect st) st4)).
  { intros st4 [W4 S D C L U G E M T R]. simpl in *.
    split; simpl; auto. eapply wf_same; eauto. }
  destruct (f _); simpl in *; auto.
Qed.

Lemma forEach_cleanup_frame (e : eid) (n i : nat) (st : State) :
  wf st -> returns (forEach_cleanup rec e n i st) (frame st).
Proof.
  revert i st. induction n as [| n IH]; intros i st Hwf; simpl.
  - apply frame_refl, Hwf.
  - destruct (effs st !! e ≫= _); [| apply IH, Hwf].
    apply returns_bind; [apply Hrec, Hwf |].
    intros _ st1 H. apply IH, H.
Qed.

Lemma guarded_write_frame (t : tid) (s : sid) (v : val) (st : State) :
  wf st -> returns (guarded_write call t s v st) (frame st).
Proof.
  intros Hwf. unfold guarded_write. destruct (is_aborted t st).
  - apply frame_refl, Hwf.
  - apply write_frame, Hwf.
Qed.

Lemma absorb_frame (o : outcome) (st : State) :
  returns o (frame st) -> returns (absorb o) (frame st).
Proof. destruct o; simpl; auto. Qed.

Lemma settle_frame (r : rid) (t : tid) (res : settlement) (st : State) :
  wf st -> returns (settle rec call r t res st) (frame st).
Proof.
  intros Hwf. unfold settle. destruct (ress st !! r) as [rs |];
    [| apply frame_refl, Hwf].
  apply absorb_frame.
  assert (Htried : returns
    match res with
    | Resolved result => batch rec call (guarded_write call t (data rs) result) st
    | Rejected err => Thrown err st
    end (frame st)).
  { destruct res; [| apply frame_refl, Hwf].
    apply batch_frame; [| exact Hwf]. intros; apply guarded_write_frame; auto. }
  destruct (match res with Resolved _ => _ | Rejected _ => _ end)
    as [| r1 st1 | err st1]; simpl in Htried; simpl; auto.
  - eapply returns_impl.
    + apply batch_frame; [| apply Htried]. intros; apply guarded_write_frame; auto.
    + intros st2 H2. eapply frame_trans; eauto.
  - assert (Hc : returns (batch rec call (guarded_write call t (error rs) err) st1)
                   (frame st)).
    { eapply returns_impl.
      + apply batch_frame; [| apply Htried]. intros; apply guarded_write_frame; auto.
      + intros st2 H2. eapply frame_trans; eauto. }
    destruct (batch rec call (guarded_write call t (error rs) err) st1)
      as [| r2 st2 | err2 st2]; simpl in Hc; simpl; auto.
    + eapply returns_impl.
      * apply batch_frame; [| apply Hc]. intros; apply guarded_write_frame; auto.
      * intros st3 H3. eapply frame_trans; eauto.
    + apply returns_bind.
      * eapply returns_impl.
        -- apply batch_frame; [| apply Hc]. intros; apply guarded_write_frame; auto.
        -- intros st3 H3. eapply frame_trans; eauto.
      * intros _ st3 H3. simpl. apply frame_refl, H3.
Qed.

Lemma refetch_frame (r : rid) (st : State) :
  wf st -> returns (refetch rec call r st) (frame st).
Proof.
  intros Hwf. unfold refetch. destruct (ress st !! r) as [rs |] eqn:Hr;
    [| apply frame_refl, Hwf].
  pose proof (refetch_start_frame r rs st Hwf Hr) as H3.
  apply absorb_frame.
  eapply returns_impl; [| intros st' H; eapply frame_trans; [exact H3 | exact H]].
  apply returns_bind.
  - apply batch_frame; [| apply H3].
    intros st0 H0. apply returns_bind; [apply write_frame, H0 |].
    intros _ st' H'. apply write_frame, H'.
  - intros _ st4 H4. pose proof (Hrec (fetcher rs) st4 (f_wf _ _ H4)) as Hf.
    destruct (rec (fetcher rs) st4) as [| r5 st5 | err st5]; simpl in Hf; simpl; auto.
    eapply returns_impl; [apply settle_frame, Hf |].
    intros st6 H6. eapply frame_trans; eauto.
Qed.

Lemma disposeShot_frame (r : rid) (st : State) :
  wf st -> frame st (disposeShot r st).
Proof.
  intros Hwf. unfold disposeShot. destruct (ress st !! r ≫= controller).
  - apply abort_frame, Hwf.
  - apply frame_refl, Hwf.
Qed.

Lemma set_memos_frame (m : mid) (f : memo -> memo) (st : State) :
  (forall x, out (f x) = out x) ->
  wf st -> frame st (set_memos (alter f m (memos st)) st).
Proof.
  intros Hf Hwf. apply frame_store; simpl; eauto.
  apply memos_alter_mono, Hf.
Qed.

Lemma set_cleanup_frame (e : eid) (f : list prog -> list prog) (st : State) :
  wf st -> frame st (set_cleanup e f st).
Proof.
  intros Hwf. apply frame_store; simpl; eauto.
  apply effs_alter_mono. simpl. auto.
Qed.

Lemma memo_fn_frame (m : mid) (f : prog) (st : State) :
  wf st -> returns (memo_fn rec call m f st) (frame st).
Proof.
  intros Hwf. unfold memo_fn. apply returns_bind; [apply Hrec, Hwf |].
  intros r st1 H1. destruct (memos st1 !! m) as [mm |];
    [| apply frame_refl, H1].
  destruct (negb _ || negb _); [| apply frame_refl, H1].
  set (st2 := set_memos _ st1).
  assert (H2 : frame st1 st2) by (apply set_memos_frame; [auto | apply H1]).
  eapply returns_impl; [| intros st' H; eapply frame_trans; [exact H2 | exact H]].
  apply returns_bind.
  - apply untrack_frame; [| apply H2].
    intros st0 H0. apply batch_frame; [| exact H0].
    intros st0' H0'. apply write_frame, H0'.
  - intros _ st3 H3. simpl. apply set_memos_frame; [auto | apply H3].
Qed.

Lemma run_fn_frame (b : body) (st : State) :
  wf st -> returns (run_fn rec call b st) (frame st).
Proof.
  intros Hwf. destruct b; simpl.
  - apply Hrec, Hwf.
  - apply memo_fn_frame, Hwf.
  - apply returns_bind; [apply Hrec, Hwf |].
    intros _ st1 H1. apply refetch_frame, H1.
Qed.

Lemma effect_call_called (e : eid) (st : State) :
  wf st -> returns (effect_call rec call e st) (called e st).
Proof.
  intros Hwf. unfold effect_call.
  assert (Hno : called e st (emit (EvInvoke e (length (effectStack st)) false) st)).
  { split; [apply emit_frame; [exact Hwf | simpl; lia] |].
    exists false, []. split; [reflexivity | constructor]. }
  destruct (effs st !! e) as [ef |]; [| exact Hno].
  destruct (disposed ef); [exact Hno |]. clear Hno.
  set (st1 := set_currentEffect (Some e) _).
  assert (W1 : wf st1) by (subst st1; eapply wf_same; eauto).
  assert (Hpop : forall st', frame st1 st' ->
    called e st (set_currentEffect (last (removelast (effectStack st')))
                   (set_effectStack (removelast (effectStack st')) st'))).
  { intros st' [W Hs D C [new [L [P Q]]] U G E M T R]. subst st1. simpl in *.
    rewrite Hs, removelast_last.
    assert (P' : deeper (S (length (effectStack st))) new).
    { eapply deeper_le; [| exact P]. rewrite length_app. simpl. lia. }
    split.
    - split; simpl; auto.
      + eapply wf_same; eauto.
      + exists (EvInvoke e (length (effectStack st)) true :: new).
        split; [rewrite L, <- app_assoc; reflexivity |]. split.
        * constructor; [simpl; lia |]. eapply deeper_le; [| exact P']. lia.
        * exact Q.
    - exists true, new. simpl. split; [rewrite L, <- app_assoc; reflexivity | exact P']. }
  match goal with |- returns (finally ?c _) _ =>
    assert (Hc : returns c (frame st1)) end.
  { match goal with |- returns (match ?t with _ => _ end) _ =>
      assert (Ht : returns t (frame st1)) end.
    { apply returns_bind; [apply forEach_cleanup_frame, W1 |].
      intros _ st2 H2.
      eapply returns_impl;
        [| intros st' H; eapply frame_trans;
             [apply (set_cleanup_frame e (fun _ => [])), H2 | exact H]].
      apply returns_bind; [apply run_fn_frame, set_cleanup_frame, H2 |].
      intros [v | c] st4 H4; simpl.
      - apply frame_refl, H4.
      - apply set_cleanup_frame, H4. }
    destruct (forEach_cleanup _ _ _ _ _ >>= _) as [| r2 st2 | err st2];
      simpl in Ht; simpl; auto.
    eapply frame_trans; [exact Ht |]. apply emit_frame; [apply Ht | exact I]. }
  destruct (match _ with Thrown _ _ => _ | _ => _ end) as [| r2 st2 | err st2];
    simpl in Hc; simpl; auto.
Qed.

Lemma effect_call_frame (e : eid) (st : State) :
  wf st -> returns (effect_call rec call e st) (frame st).
Proof.
  intros Hwf. eapply returns_impl; [apply effect_call_called, Hwf |].
  intros st' [H _]. exact H.
Qed.

Lemma effs_app_frame (x : effect) (st : State) :
  wf st -> frame st (set_effs (effs st ++ [x]) st).
Proof.
  intros Hwf. apply frame_store; simpl; eauto.
  intros e ef H. exists ef. split; [apply lookup_app_l_Some, H | auto].
Qed.

Lemma sigs_app_frame (x : list signal) (st : State) :
  wf st -> frame st (set_sigs (sigs st ++ x) st).
Proof.
  intros Hwf. apply frame_store; simpl; eauto.
  intros s sg H. exists sg. split; [apply lookup_app_l_Some, H | auto].
Qed.

Lemma memos_app_frame (x : memo) (st : State) :
  wf st -> frame st (set_memos (memos st ++ [x]) st).
Proof.
  intros Hwf. apply frame_store; simpl; eauto.
  intros m mm H. exists mm. split; [apply lookup_app_l_Some, H | auto].
Qed.

Lemma microtasks_frame (x : list rid) (st : State) :
  wf st -> frame st (set_microtasks x st).
Proof. intros Hwf. apply frame_store; simpl; eauto. Qed.

Lemma ress_app_frame (d l e : sid) (f : prog) (st : State) :
  wf st -> frame st (set_ress (ress st ++ [mkResource d l e f None]) st).
Proof.
  intros Hwf. pose proof Hwf as [Hb Hn Ht Hc]. split; simpl; auto.
  - split; simpl; auto.
    + intros t tk H Ha. destruct (Ht _ _ H Ha) as [rs [H1 H2]].
      exists rs. split; [apply lookup_app_l_Some, H1 | exact H2].
    + intros r rs t H1 H2. apply lookup_app_Some in H1 as [H1 | [_ H1]].
      * eapply Hc; eauto.
      * destruct (r - length (ress st)); simpl in H1; [| discriminate].
        injection H1 as <-. discriminate.
  - exists []. rewrite app_nil_r. split; [reflexivity |]. split; [constructor |].
    simpl. destruct (pending st); reflexivity.
  - intros s sg H. eauto.
  - intros e' ef H. eauto.
  - intros m mm H. eauto.
  - intros t tk H. eauto.
  - intros r rs H. exists rs. split; [apply lookup_app_l_Some, H | auto].
Qed.

Lemma onClimax_frame (b : body) (st : State) :
  wf st -> returns (onClimax rec call b st) (frame st).
Proof.
  intros Hwf. unfold onClimax.
  pose proof (effs_app_frame (mkEffect b false []) st Hwf) as H1.
  apply returns_done.
  eapply returns_impl; [apply batch_frame; [apply Hcall | apply H1] |].
  intros st' H. eapply frame_trans; eauto.
Qed.

Lemma dispose_frame (e : eid) (st : State) :
  wf st -> returns (dispose rec e st) (frame st).
Proof.
  intros Hwf. unfold dispose.
  set (st1 := set_effs _ st).
  assert (H1 : frame st st1).
  { apply frame_store; simpl; eauto. apply effs_alter_mono. simpl. auto. }
  eapply returns_impl; [| intros st' H; eapply frame_trans; [exact H1 | exact H]].
  apply returns_bind; [apply forEach_cleanup_frame, H1 |].
  intros _ st2 H2. simpl. apply set_cleanup_frame, H2.
Qed.

Lemma knotMemo_frame (f : prog) (st : State) :
  wf st -> returns (knotMemo rec call f st) (frame st).
Proof.
  intros Hwf. unfold knotMemo, createMoan.
  set (st1 := set_memos _ st). set (st2 := set_sigs _ st1).
  assert (H1 : frame st st1) by apply memos_app_frame, Hwf.
  assert (H2 : frame st1 st2) by apply sigs_app_frame, H1.
  apply returns_done.
  eapply returns_impl; [apply onClimax_frame, H2 |].
  intros st' H. eapply frame_trans; [exact H1 |]. eapply frame_trans; eauto.
Qed.

Lemma loadShot_frame (f : prog) (deps : option prog) (init : val) (st : State) :
  wf st -> returns (loadShot rec call f deps init st) (frame st).
Proof.
  intros Hwf. unfold loadShot.
  set (st1 := set_sigs _ st). set (st2 := set_ress _ st1).
  assert (H1 : frame st st1) by apply sigs_app_frame, Hwf.
  assert (H2 : frame st1 st2) by apply ress_app_frame, H1.
  assert (H12 : frame st st2) by (eapply frame_trans; eauto).
  destruct deps as [dp |].
  - apply returns_done.
    eapply returns_impl; [apply onClimax_frame, H2 |].
    intros st' H. eapply frame_trans; eauto.
  - simpl. eapply frame_trans; [exact H12 |]. apply microtasks_frame, H2.
Qed.

Lemma step_frame (p : prog) (st : State) :
  wf st -> returns (step rec call p st) (frame st).
Proof.
  intros Hwf. destruct p; cbn [step].
  - apply frame_refl, Hwf.
  - apply frame_refl, Hwf.
  - apply frame_refl, Hwf.
  - pose proof (read_frame s st Hwf) as H. destruct (read s st) as [v st1].
    simpl in H. eapply returns_impl; [apply Hrec, H |].
    intros st' H'. eapply frame_trans; eauto.
  - apply returns_bind; [apply write_frame, Hwf |]. intros _ st1 H. apply Hrec, H.
  - apply returns_bind; [apply write_frame, Hwf |]. intros _ st1 H. apply Hrec, H.
  - eapply returns_impl; [apply Hrec, sigs_app_frame, Hwf |].
    intros st' H'. eapply frame_trans; [apply sigs_app_frame, Hwf | exact H'].
  - apply returns_bind; [apply onClimax_frame, Hwf |]. intros _ st1 H. apply Hrec, H.
  - apply returns_bind; [apply dispose_frame, Hwf |]. intros _ st1 H. apply Hrec, H.
  - apply returns_bind; [apply knotMemo_frame, Hwf |]. intros _ st1 H. apply Hrec, H.
  - apply returns_bind; [apply batch_frame; [apply Hrec | exact Hwf] |].
    intros _ st1 H. apply Hrec, H.
  - apply returns_bind; [apply untrack_frame; [apply Hrec | exact Hwf] |].
    intros r st1 H. apply Hrec, H.
  - apply returns_bind; [apply loadShot_frame, Hwf |]. intros _ st1 H. apply Hrec, H.
  - apply returns_bind; [apply loadShot_frame, Hwf |]. intros _ st1 H. apply Hrec, H.
  - apply returns_bind; [apply refetch_frame, Hwf |]. intros _ st1 H. apply Hrec, H.
  - eapply returns_impl; [apply Hrec, disposeShot_frame, Hwf |].
    intros st' H'. eapply frame_trans; [apply disposeShot_frame, Hwf | exact H'].
  - apply returns_bind; [apply pending_add_frame, Hwf |]. intros _ st1 H. apply Hrec, H.
  - apply returns_bind.
    + destruct (0 <? batchDepth st)%Z; [apply pending_add_frame | apply Hrec]; exact Hwf.
    + intros _ st1 H. apply Hrec, H.
Qed.

End Frames.

Lemma exec_invoke_frame (fuel : nat) :
  (forall p st, wf st -> returns (exec fuel p st) (frame st)) /\
  (forall e st, wf st -> returns (invoke fuel e st) (frame st)).
Proof.
  induction fuel as [| n [IHe IHi]]; split; intros x st Hwf; simpl; auto.
  - apply step_frame; auto.
  - apply effect_call_frame; auto.
Qed.

Lemma exec_frame (fuel : nat) (p : prog) (st : State) :
  wf st -> returns (exec fuel p st) (frame st).
Proof. apply exec_invoke_frame. Qed.

Lemma invoke_frame (fuel : nat) (e : eid) (st : State) :
  wf st -> returns (invoke fuel e st) (frame st).
Proof. apply exec_invoke_frame. Qed.

Lemma invoke_called (fuel : nat) (e : eid) (st : State) :
  wf st -> returns (invoke fuel e st) (called e st).
Proof.
  intros Hwf. destruct fuel as [| n]; simpl; [exact I |].
  apply effect_call_called; [apply exec_frame | apply invoke_frame | exact Hwf].
Qed.

(** The effect function never throws: whatever its body or a cleanup
    callback throws is caught and logged. *)
Lemma effect_call_never_throws (rec : prog -> State -> outcome)
    (call : eid -> State -> outcome) (e : eid) (st : State) (err : val) (st' : State) :
  effect_call rec call e st <> Thrown err st'.
Proof.
  unfold effect_call. destruct (effs st !! e) as [ef |]; [| discriminate].
  destruct (disposed ef); [discriminate |].
  match goal with |- finally ?c _ <> _ => destruct c eqn:Hc end;
    simpl; try discriminate.
  exfalso. revert Hc.
  match goal with |- match ?t with _ => _ end = _ -> _ => destruct t end;
    discriminate.
Qed.

(** * Fuel

    Fuel only bounds the depth of calls: a call that returns with some fuel
    returns the same with more. *)

Lemma bind_more (o o' : outcome) (k k' : ret -> State -> outcome) :
  (o <> OutOfFuel -> o' = o) ->
  (forall r st, k r st <> OutOfFuel -> k' r st = k r st) ->
  o >>= k <> OutOfFuel -> o' >>= k' = o >>= k.
Proof.
  intros Ho Hk H. destruct o as [| r st | err st]; simpl in *.
  - contradiction.
  - rewrite Ho by discriminate. simpl. apply Hk, H.
  - rewrite Ho by discriminate. reflexivity.
Qed.

Lemma finally_more (o o' : outcome) (fin : State -> State) :
  (o <> OutOfFuel -> o' = o) ->
  finally o fin <> OutOfFuel -> finally o' fin = finally o fin.
Proof.
  intros Ho H. destruct o; simpl in *; [contradiction | ..];
    rewrite Ho by discriminate; reflexivity.
Qed.

Lemma absorb_more (o o' : outcome) :
  (o <> OutOfFuel -> o' = o) -> absorb o <> OutOfFuel -> absorb o' = absorb o.
Proof.
  intros Ho H. destruct o; simpl in *; [contradiction | ..];
    rewrite Ho by discriminate; reflexivity.
Qed.

Section More.

Variables rec rec' : prog -> State -> outcome.
Variables call call' : eid -> State -> outcome.
Hypothesis Hrec : forall p st, rec p st <> OutOfFuel -> rec' p st = rec p st.
Hypothesis Hcall : forall e st, call e st <> OutOfFuel -> call' e st = call e st.

Lemma notify_more (s : sid) (effects : list eid) (st : State) :
  notify call s effects st <> OutOfFuel ->
  notify call' s effects st = notify call s effects st.
Proof.
  revert st. induction effects as [| e rest IH]; intros st H; simpl in *; [reflexivity |].
  destruct (has_subscriber s e st); [| apply IH, H].
  apply bind_more; [| intros; apply IH; assumption | exact H].
  destruct (schedule st) as [[] |]; [reflexivity | apply Hcall].
Qed.

Lemma write_more (s : sid) (n : next) (st : State) :
  write call s n st <> OutOfFuel -> write call' s n st = write call s n st.
Proof.
  unfold write. destruct (sigs st !! s); [| reflexivity].
  destruct (Object_is _ _); [reflexivity | apply notify_more].
Qed.

Lemma flush_more (effects : list member) (st : State) :
  flush rec call effects st <> OutOfFuel ->
  flush rec' call' effects st = flush rec call effects st.
Proof.
  revert st. induction effects as [| [e | c] rest IH]; intros st H; simpl in *;
    [reflexivity | |].
  - apply bind_more; [apply Hcall | intros; apply IH; assumption | exact H].
  - apply bind_more; [apply Hrec | intros; apply IH; assumption | exact H].
Qed.

Lemma batch_exit_more (prev : option scheduler) (st : State) :
  batch_exit rec call prev st <> OutOfFuel ->
  batch_exit rec' call' prev st = batch_exit rec call prev st.
Proof.
  unfold batch_exit. destruct (_ =? _)%Z; [| reflexivity].
  destruct (pending _); [apply flush_more | reflexivity].
Qed.

Lemma batch_more (f f' : State -> outcome) (st : State) :
  (forall st, f st <> OutOfFuel -> f' st = f st) ->
  batch rec call f st <> OutOfFuel -> batch rec' call' f' st = batch rec call f st.
Proof.
  intros Hf H. unfold batch in *.
  destruct (f (batch_enter st)) as [| r st4 | err st4] eqn:E; [contradiction | ..];
    rewrite Hf, E by congruence;
    (apply bind_more; [apply batch_exit_more | reflexivity | exact H]).
Qed.

Lemma untrack_more (f f' : State -> outcome) (st : State) :
  (forall st, f st <> OutOfFuel -> f' st = f st) ->
  untrack f st <> OutOfFuel -> untrack f' st = untrack f st.
Proof. intros Hf. unfold untrack. apply finally_more, Hf. Qed.

Lemma forEach_cleanup_more (e : eid) (n i : nat) (st : State) :
  forEach_cleanup rec e n i st <> OutOfFuel ->
  forEach_cleanup rec' e n i st = forEach_cleanup rec e n i st.
Proof.
  revert i st. induction n as [| n IH]; intros i st H; simpl in *; [reflexivity |].
  destruct (effs st !! e ≫= _); [| apply IH, H].
  apply bind_more; [apply Hrec | intros; apply IH; assumption | exact H].
Qed.

Lemma guarded_write_more (t : tid) (s : sid) (v : val) (st : State) :
  guarded_write call t s v st <> OutOfFuel ->
  guarded_write call' t s v st = guarded_write call t s v st.
Proof.
  unfold guarded_write. destruct (is_aborted t st); [reflexivity | apply write_more].
Qed.

Lemma batch_guarded_more (t : tid) (s : sid) (v : val) (st : State) :
  batch rec call (guarded_write call t s v) st <> OutOfFuel ->
  batch rec' call' (guarded_write call' t s v) st = batch rec call (guarded_write call t s v) st.
Proof. apply batch_more. intros. apply guarded_write_more. assumption. Qed.

Lemma settle_more (r : rid) (t : tid) (res : settlement) (st : State) :
  settle rec call r t res st <> OutOfFuel ->
  settle rec' call' r t res st = settle rec call r t res st.
Proof.
  unfold settle. destruct (ress st !! r) as [rs |]; [| reflexivity].
  intros H. apply absorb_more; [| exact H]. clear H.
  assert (Htried :
    match res with
    | Resolved result => batch rec call (guarded_write call t (data rs) result) st
    | Rejected err => Thrown err st
    end <> OutOfFuel ->
    match res with
    | Resolved result => batch rec' call' (guarded_write call' t (data rs) result) st
    | Rejected err => Thrown err st
    end =
    match res with
    | Resolved result => batch rec call (guarded_write call t (data rs) result) st
    | Rejected err => Thrown err st
    end).
  { destruct res; [apply batch_guarded_more | reflexivity]. }
  destruct (match res with Resolved _ => batch rec call _ st | Rejected _ => _ end)
    as [| r1 st1 | e1 st1] eqn:E; intros H; [contradiction | ..];
    rewrite Htried by discriminate.
  - apply batch_guarded_more, H.
  - destruct (batch rec call (guarded_write call t (error rs) e1) st1)
      as [| r2 st2 | e2 st2] eqn:E2; [contradiction | ..];
      rewrite batch_guarded_more, E2 by congruence.
    + apply batch_guarded_more, H.
    + apply bind_more; [apply batch_guarded_more | reflexivity | exact H].
Qed.

Lemma refetch_more (r : rid) (st : State) :
  refetch rec call r st <> OutOfFuel ->
  refetch rec' call' r st = refetch rec call r st.
Proof.
  unfold refetch. destruct (ress st !! r) as [rs |]; [| reflexivity].
  intros H. apply absorb_more; [| exact H]. clear H.
  apply bind_more.
  - apply batch_more. intros st0 H0.
    apply bind_more; [apply write_more | intros; apply write_more; assumption | exact H0].
  - intros _ st4 H4.
    destruct (rec (fetcher rs) st4) as [| r5 st5 | e5 st5] eqn:E; [contradiction | ..];
      rewrite Hrec, E by congruence; [reflexivity | apply settle_more, H4].
Qed.

Lemma memo_fn_more (m : mid) (f : prog) (st : State) :
  memo_fn rec call m f st <> OutOfFuel ->
  memo_fn rec' call' m f st = memo_fn rec call m f st.
Proof.
  unfold memo_fn. apply bind_more; [apply Hrec |].
  intros r st1. destruct (memos st1 !! m); [| reflexivity].
  destruct (_ || _); [| reflexivity].
  apply bind_more; [| reflexivity].
  apply untrack_more. intros st0. apply batch_more. intros st0'. apply write_more.
Qed.

Lemma run_fn_more (b : body) (st : State) :
  run_fn rec call b st <> OutOfFuel -> run_fn rec' call' b st = run_fn rec call b st.
Proof.
  destruct b; simpl.
  - apply Hrec.
  - apply memo_fn_more.
  - apply bind_more; [apply Hrec | intros; apply refetch_more; assumption].
Qed.

Lemma effect_call_more (e : eid) (st : State) :
  effect_call rec call e st <> OutOfFuel ->
  effect_call rec' call' e st = effect_call rec call e st.
Proof.
  unfold effect_call. destruct (effs st !! e) as [ef |]; [| reflexivity].
  destruct (disposed ef); [reflexivity |].
  intros H. apply finally_more; [| exact H]. clear H.
  match goal with |- match ?t with _ => _ end <> _ -> match ?t' with _ => _ end = _ =>
    assert (Ht : t <> OutOfFuel -> t' = t) end.
  { apply bind_more; [apply forEach_cleanup_more |].
    intros _ st2. apply bind_more; [apply run_fn_more | reflexivity]. }
  match type of Ht with ?t <> _ -> _ => destruct t as [| r2 st2 | e2 st2] eqn:E end;
    intros H; [contradiction | ..]; rewrite Ht by discriminate; reflexivity.
Qed.

Lemma onClimax_more (b : body) (st : State) :
  onClimax rec call b st <> OutOfFuel -> onClimax rec' call' b st = onClimax rec call b st.
Proof.
  unfold onClimax. apply bind_more; [| reflexivity].
  apply batch_more. intros. apply Hcall. assumption.
Qed.

Lemma dispose_more (e : eid) (st : State) :
  dispose rec e st <> OutOfFuel -> dispose rec' e st = dispose rec e st.
Proof. unfold dispose. apply bind_more; [apply forEach_cleanup_more | reflexivity]. Qed.

Lemma knotMemo_more (f : prog) (st : State) :
  knotMemo rec call f st <> OutOfFuel -> knotMemo rec' call' f st = knotMemo rec call f st.
Proof.
  unfold knotMemo, createMoan. apply bind_more; [apply onClimax_more | reflexivity].
Qed.

Lemma loadShot_more (f : prog) (deps : option prog) (init : val) (st : State) :
  loadShot rec call f deps init st <> OutOfFuel ->
  loadShot rec' call' f deps init st = loadShot rec call f deps init st.
Proof.
  unfold loadShot. destruct deps; [| reflexivity].
  apply bind_more; [apply onClimax_more | reflexivity].
Qed.

Lemma step_more (p : prog) (st : State) :
  step rec call p st <> OutOfFuel -> step rec' call' p st = step rec call p st.
Proof.
  destruct p; cbn [step]; try reflexivity.
  - destruct (read s st). apply Hrec.
  - apply bind_more; [apply write_more | intros; apply Hrec; assumption].
  - apply bind_more; [apply write_more | intros; apply Hrec; assumption].
  - destruct (createMoan init st). apply Hrec.
  - apply bind_more; [apply onClimax_more | intros; apply Hrec; assumption].
  - apply bind_more; [apply dispose_more | intros; apply Hrec; assumption].
  - apply bind_more; [apply knotMemo_more | intros; apply Hrec; assumption].
  - apply bind_more; [apply batch_more, Hrec | intros; apply Hrec; assumption].
  - apply bind_more; [apply untrack_more, Hrec | intros; apply Hrec; assumption].
  - apply bind_more; [apply loadShot_more | intros; apply Hrec; assumption].
  - apply bind_more; [apply loadShot_more | intros; apply Hrec; assumption].
  - apply bind_more; [apply refetch_more | intros; apply Hrec; assumption].
  - apply Hrec.
  - apply bind_more; [reflexivity | intros; apply Hrec; assumption].
  - apply bind_more; [| intros; apply Hrec; assumption].
    destruct (0 <? batchDepth st)%Z; [reflexivity | apply Hrec].
Qed.

End More.

Lemma exec_invoke_more (n : nat) :
  (forall p st, exec n p st <> OutOfFuel -> exec (S n) p st = exec n p st) /\
  (forall e st, invoke n e st <> OutOfFuel -> invoke (S n) e st = invoke n e st).
Proof.
  induction n as [| n [IHe IHi]]; split; intros x st H;
    try (exfalso; apply H; reflexivity).
  - apply (step_more (exec n) (exec (S n)) (invoke n) (invoke (S n)) IHe IHi), H.
  - apply (effect_call_more (exec n) (exec (S n)) (invoke n) (invoke (S n)) IHe IHi), H.
Qed.

(** More fuel does not change what a callback does. *)
Lemma exec_fuel (n m : nat) (p : prog) (st : State) :
  n <= m -> exec n p st <> OutOfFuel -> exec m p st = exec n p st.
Proof.
  induction 1 as [| m Hle IH]; [reflexivity |]. intros H.
  rewrite <- (IH H). apply exec_invoke_more. rewrite (IH H). exact H.
Qed.

Lemma invoke_fuel (n m : nat) (e : eid) (st : State) :
  n <= m -> invoke n e st <> OutOfFuel -> invoke m e st = invoke n e st.
Proof.
  induction 1 as [| m Hle IH]; [reflexivity |]. intros H.
  rewrite <- (IH H). apply exec_invoke_more. rewrite (IH H). exact H.
Qed.

(** ** Calls that change no signal *)

Lemma no_sets_app (a b : list event) : no_sets (a ++ b) <-> no_sets a /\ no_sets b.
Proof. unfold no_sets. apply Forall_app. Qed.

Lemma fresh_calls_app (k : nat) (a b : list event) :
  fresh_calls k a -> fresh_calls k b -> fresh_calls k (a ++ b).
Proof. unfold fresh_calls. intros. apply Forall_app. auto. Qed.

Lemma effs_length_mono (st st' : State) :
  frame st st' -> length (effs st) <= length (effs st').
Proof.
  intros F. destruct (effs st) as [| x l] eqn:E using rev_ind; [simpl; lia |].
  destruct (f_effs _ _ F (length l) x) as [ef' [H _]].
  - rewrite E. apply list_lookup_middle. reflexivity.
  - apply lookup_lt_Some in H. rewrite length_app. simpl. lia.
Qed.

Lemma quiet_refl (k : nat) (st : State) : quiet k st st.
Proof.
  intros new H _. rewrite <- (app_nil_r (log st)) in H at 1.
  apply app_inv_head in H. subst new. split; constructor.
Qed.

Lemma quiet_same_log (k : nat) (st st' : State) : log st' = log st -> quiet k st st'.
Proof.
  intros E new H _. rewrite E in H. rewrite <- (app_nil_r (log st)) in H at 1.
  apply app_inv_head in H. subst new. split; constructor.
Qed.

Lemma quiet_trans (k : nat) (a b c : State) :
  frame a b -> frame b c -> quiet k a b -> quiet k b c -> quiet k a c.
Proof.
  intros Fab Fbc Qab Qbc new H Hn.
  destruct (f_log _ _ Fab) as [n1 [L1 _]]. destruct (f_log _ _ Fbc) as [n2 [L2 _]].
  rewrite L2, L1, <- app_assoc in H. apply app_inv_head in H. subst new.
  apply no_sets_app in Hn as [Hn1 Hn2].
  destruct (Qab n1 L1 Hn1) as [D1 F1]. destruct (Qbc n2 L2 Hn2) as [D2 F2].
  split; [rewrite defers_app, effects_of_app, D1, D2; reflexivity |
          apply fresh_calls_app; assumption].
Qed.

(** A step that starts by changing a signal is not in question. *)
Lemma quiet_after_set (k : nat) (s : sid) (v : val) (stk : list eid)
    (st st1 st' : State) :
  log st1 = log st ++ [EvSet s v stk] -> frame st1 st' -> quiet k st st'.
Proof.
  intros E F new H Hn. destruct (f_log _ _ F) as [n [L _]].
  rewrite L, E, <- app_assoc in H. apply app_inv_head in H. subst new.
  inversion Hn as [| ev l Hev _]; subst. contradiction.
Qed.

Lemma quiet_plus (k : nat) (ev : event) (st st1 st' : State) :
  match ev with EvError _ _ => True | _ => False end ->
  frame st st1 -> quiet k st st1 -> log st' = log st1 ++ [ev] -> quiet k st st'.
Proof.
  intros Hev F Q E new H Hn. destruct (f_log _ _ F) as [n [L _]].
  rewrite E, L, <- app_assoc in H. apply app_inv_head in H. subst new.
  apply no_sets_app in Hn as [Hn1 _]. destruct (Q n L Hn1) as [D Fr].
  split.
  - rewrite defers_app, effects_of_app, D. destruct ev; simpl; auto; contradiction.
  - apply fresh_calls_app; [exact Fr |]. constructor; [| constructor].
    destruct ev; auto; contradiction.
Qed.

Lemma wf_drain (prev : option scheduler) (z : Z) (st : State) :
  wf st -> z = 0%Z -> prev = None ->
  wf (set_pending None (set_batchDepth z (set_schedule prev st))).
Proof.
  intros [Hb Hn Ht Hc] -> ->. split; simpl; auto. discriminate.
Qed.

Lemma calm_refl (k : nat) (st : State) : wf st -> calm k st st.
Proof. intros Hwf. split; [apply frame_refl, Hwf | apply quiet_refl]. Qed.

Lemma calm_trans (k : nat) (a b c : State) : calm k a b -> calm k b c -> calm k a c.
Proof.
  intros [F1 Q1] [F2 Q2]. split; [eapply frame_trans | eapply quiet_trans]; eauto.
Qed.

(** A step that logs nothing. *)
Lemma calm_silent (k : nat) (st st' : State) :
  frame st st' -> log st' = log st -> calm k st st'.
Proof. intros F E. split; [exact F | apply quiet_same_log, E]. Qed.

Lemma calm_more (k : nat) (st st' : State) :
  calm k st st' -> k <= length (effs st) -> wf st' /\ k <= length (effs st').
Proof.
  intros [F _] Hk. split; [apply F |]. pose proof (effs_length_mono _ _ F). lia.
Qed.

Lemma returns_calm (o : outcome) (k : nat) (st : State) :
  returns o (frame st) -> returns o (quiet k st) -> returns o (calm k st).
Proof. destruct o; simpl; unfold calm; auto. Qed.

Lemma returns_calm_bind (o : outcome) (f : ret -> State -> outcome) (k : nat)
    (st : State) :
  returns o (calm k st) ->
  (forall r st1, calm k st st1 -> returns (f r st1) (calm k st1)) ->
  returns (o >>= f) (calm k st).
Proof.
  intros Ho Hf. destruct o as [| r st1 | err st1]; simpl in *; auto.
  eapply returns_impl; [apply Hf, Ho |].
  intros st2 H2. eapply calm_trans; eauto.
Qed.

Lemma returns_calm_after (o : outcome) (k : nat) (st st1 : State) :
  calm k st st1 -> returns o (calm k st1) -> returns o (calm k st).
Proof.
  intros H1 Ho. eapply returns_impl; [exact Ho |].
  intros st2 H2. eapply calm_trans; eauto.
Qed.

Lemma absorb_calm (o : outcome) (k : nat) (st : State) :
  returns o (calm k st) -> returns (absorb o) (calm k st).
Proof. destruct o; simpl; auto. Qed.

Lemma invoked_app (a b : list event) : invoked (a ++ b) = invoked a ++ invoked b.
Proof. unfold invoked. apply flat_map_app. Qed.

Lemma fresh_calls_count (k : nat) (l : list event) (e : eid) :
  fresh_calls k l -> e < k -> count_occ Nat.eq_dec (invoked l) e = 0.
Proof.
  intros H He. induction H as [| ev l Hev _ IH]; [reflexivity |].
  destruct ev; simpl; auto.
  destruct (Nat.eq_dec e0 e); [lia | exact IH].
Qed.

Lemma adds_no_effects (l ps : list member) :
  effects_of l = [] -> effects_of (adds l ps) = effects_of ps.
Proof.
  revert ps. induction l as [| [e | c] l IH]; intros ps H; simpl in *;
    [reflexivity | discriminate |].
  rewrite (IH _ H), effects_of_app. simpl. apply app_nil_r.
Qed.

Section Quiet.

Variable rec : prog -> State -> outcome.
Variable call : eid -> State -> outcome.
Hypothesis Hrec : forall p k st,
  wf st -> k <= length (effs st) -> returns (rec p st) (calm k st).
Hypothesis Hcall : forall e k st,
  wf st -> k <= length (effs st) -> returns (call e st) (calm_call k e st).

Lemma rec_frame (p : prog) (st : State) : wf st -> returns (rec p st) (frame st).
Proof.
  intros Hwf. eapply returns_impl; [apply (Hrec p 0 st Hwf); lia |].
  intros st' [F _]. exact F.
Qed.

Lemma call_frame (e : eid) (st : State) : wf st -> returns (call e st) (frame st).
Proof.
  intros Hwf. eapply returns_impl; [apply (Hcall e 0 st Hwf); lia |].
  intros st' [[F _] _]. exact F.
Qed.

(** A call of a new effect is a call of a fresh effect. *)
Lemma call_calm (e : eid) (k : nat) (st : State) :
  wf st -> k <= length (effs st) -> k <= e -> returns (call e st) (calm k st).
Proof.
  intros Hwf Hk He. eapply returns_impl; [apply (Hcall e k st Hwf Hk) |].
  intros st' [[F [live [rest [L _]]]] Q]. split; [exact F |].
  intros new H Hn. rewrite L in H. apply app_inv_head in H. subst new.
  inversion Hn as [| ev l _ Hn']; subst.
  destruct (Q live rest L Hn') as [D Fr].
  split; [exact D | constructor; [exact He | exact Fr]].
Qed.

(** A pending set that holds no effect: the functions in it are run. *)
Lemma flush_functions_calm (members : list member) (k : nat) (st : State) :
  effects_of members = [] -> wf st -> k <= length (effs st) ->
  returns (flush rec call members st) (calm k st).
Proof.
  revert st. induction members as [| [e | c] rest IH]; intros st H Hwf Hk; simpl in *.
  - apply calm_refl, Hwf.
  - discriminate.
  - apply returns_calm_bind; [apply Hrec; assumption |].
    intros _ st1 H1. apply IH; [exact H | eapply calm_more; eauto ..].
Qed.

Lemma write_calm (s : sid) (n : next) (k : nat) (st : State) :
  wf st -> returns (write call s n st) (calm k st).
Proof.
  intros Hwf. apply returns_calm; [apply (write_frame call call_frame), Hwf |].
  unfold write. destruct (sigs st !! s) as [sg |] eqn:Hs;
    [| apply quiet_refl].
  destruct (Object_is _ _); [apply quiet_refl |].
  set (st0 := set_sigs _ st).
  assert (H0 : frame st st0).
  { apply frame_store; simpl; eauto.
    apply (sigs_insert_mono _ _ sg); [exact Hs | auto]. }
  assert (H1 : frame st0 (emit (EvSet s (candidate n (value sg)) (effectStack st)) st0)).
  { apply emit_frame; [apply H0 | exact I]. }
  eapply returns_impl; [apply (notify_frame call call_frame), H1 |].
  intros st2 H2. eapply quiet_after_set; [| exact H2]. reflexivity.
Qed.

Lemma batch_calm (f : State -> outcome) (k : nat) (st : State) :
  (forall st, wf st -> k <= length (effs st) -> returns (f st) (calm k st)) ->
  wf st -> k <= length (effs st) -> returns (batch rec call f st) (calm k st).
Proof.
  intros Hf Hwf Hk.
  pose proof (batch_enter_wf st Hwf) as W3.
  assert (El : log (batch_enter st) = log st /\ effs (batch_enter st) = effs st).
  { unfold batch_enter. destruct (batchDepth st =? 0)%Z; split; reflexivity. }
  destruct El as [El Ee].
  assert (Hf3 : returns (f (batch_enter st)) (calm k (batch_enter st))).
  { apply Hf; [exact W3 | rewrite Ee; exact Hk]. }
  assert (Hx : forall st4, frame (batch_enter st) st4 ->
              returns (batch_exit rec call (schedule st) st4) (frame st)).
  { intros st4 H4. eapply (batch_exit_frame rec call rec_frame call_frame); eauto; unfold batch_enter;
      destruct (Z.eqb_spec (batchDepth st) 0); reflexivity. }
  assert (Hq : forall st4, frame (batch_enter st) st4 -> quiet k (batch_enter st) st4 ->
                returns (batch_exit rec call (schedule st) st4) (quiet k st)).
  { intros st4 F4 Q4. unfold batch_exit. simpl.
    destruct (f_log _ _ F4) as [n4 [L4 [_ P4]]]. rewrite El in L4.
    assert (Q4' : quiet k st st4).
    { intros new H Hn. apply Q4; [rewrite El; exact H | exact Hn]. }
    destruct (Z.eqb_spec (batchDepth st4 - 1) 0) as [Hz | Hz];
      [| simpl; intros new H Hn; apply Q4'; assumption].
    destruct (pending st4) as [L |] eqn:Hp;
      [| simpl; intros new H Hn; apply Q4'; assumption].
    assert (Hd : batchDepth st = 0%Z).
    { pose proof (f_depth _ _ F4) as D. unfold batch_enter in D. simpl in D. lia. }
    assert (Hs : schedule st = None).
    { destruct Hwf as [[[_ [_ S0]] | [B _]] _ _ _]; [exact S0 | lia]. }
    pose proof (wf_drain (schedule st) (batchDepth st4 - 1)%Z st4 (f_wf _ _ F4) Hz Hs) as W5.
    pose proof (flush_frame rec call rec_frame call_frame L _ W5) as F5.
    assert (K5 : k <= length (effs st4)).
    { pose proof (effs_length_mono _ _ F4) as Hm. rewrite Ee in Hm. lia. }
    assert (Hfl : effects_of L = [] ->
              returns (flush rec call L
                         (set_pending None
                            (set_batchDepth (batchDepth st4 - 1)%Z
                               (set_schedule (schedule st) st4))))
                (quiet k
                   (set_pending None
                      (set_batchDepth (batchDepth st4 - 1)%Z
                         (set_schedule (schedule st) st4))))).
    { intros HL. eapply returns_impl;
        [apply flush_functions_calm; [exact HL | exact W5 | exact K5] |].
      intros st6 [_ Q6]. exact Q6. }
    destruct (flush rec call L _) as [| r6 st6 | e6 st6]; simpl in F5, Hfl |- *; auto;
      intros new H Hn; destruct (f_log _ _ F5) as [n5 [L5 _]]; simpl in L5;
      pose proof L5 as L5'; rewrite L4, <- app_assoc in L5';
      rewrite L5' in H; apply app_inv_head in H; subst new;
      apply no_sets_app in Hn as [Hn4 Hn5];
      destruct (Q4' n4 L4 Hn4) as [D4 Fr4];
      (assert (HL : effects_of L = []);
       [unfold batch_enter in P4; rewrite Hd in P4; simpl in P4;
        injection P4 as ->; rewrite (adds_no_effects _ _ D4); reflexivity |]);
      destruct (Hfl HL n5 L5 Hn5) as [D5 Fr5];
      (split; [rewrite defers_app, effects_of_app, D4, D5; reflexivity |
               apply fresh_calls_app; assumption]). }
  unfold batch.
  destruct (f (batch_enter st)) as [| r st4 | err st4]; simpl in Hf3; auto;
    destruct Hf3 as [F4 Q4]; specialize (Hx st4 F4); specialize (Hq st4 F4 Q4);
    destruct (batch_exit _ _ _); simpl in *; unfold calm; auto.
Qed.

Lemma untrack_calm (f : State -> outcome) (k : nat) (st : State) :
  (forall st, wf st -> k <= length (effs st) -> returns (f st) (calm k st)) ->
  wf st -> k <= length (effs st) -> returns (untrack f st) (calm k st).
Proof.
  intros Hf Hwf Hk. unfold untrack.
  assert (W : wf (set_currentEffect None st)) by (eapply wf_same; eauto).
  specialize (Hf _ W Hk).
  assert (Hx : forall st4, calm k (set_currentEffect None st) st4 ->
              calm k st (set_currentEffect (currentEffect st) st4)).
  { intros st4 [[W4 S D C L U G E M T R] Q]. simpl in *.
    split; [split; simpl; auto; eapply wf_same; eauto |].
    intros new H Hn. apply (Q new H Hn). }
  destruct (f _); simpl in *; auto.
Qed.

Lemma forEach_cleanup_calm (e : eid) (n i : nat) (k : nat) (st : State) :
  wf st -> k <= length (effs st) ->
  returns (forEach_cleanup rec e n i st) (calm k st).
Proof.
  revert i st. induction n as [| n IH]; intros i st Hwf Hk; simpl.
  - apply calm_refl, Hwf.
  - destruct (effs st !! e ≫= _); [| apply IH; assumption].
    apply returns_calm_bind; [apply Hrec; assumption |].
    intros _ st1 H. apply IH; eapply calm_more; eauto.
Qed.

Lemma guarded_batch_calm (t : tid) (s : sid) (v : val) (k : nat) (st : State) :
  wf st -> k <= length (effs st) ->
  returns (batch rec call (guarded_write call t s v) st) (calm k st).
Proof.
  intros Hwf Hk. apply batch_calm; [| exact Hwf | exact Hk].
  intros st0 W0 _. unfold guarded_write. destruct (is_aborted t st0).
  - apply calm_refl, W0.
  - apply write_calm, W0.
Qed.

Lemma settle_calm (r : rid) (t : tid) (res : settlement) (k : nat) (st : State) :
  wf st -> k <= length (effs st) ->
  returns (settle rec call r t res st) (calm k st).
Proof.
  intros Hwf Hk. unfold settle. destruct (ress st !! r) as [rs |];
    [| apply calm_refl, Hwf].
  apply absorb_calm.
  assert (Htried : returns
    match res with
    | Resolved result => batch rec call (guarded_write call t (data rs) result) st
    | Rejected err => Thrown err st
    end (calm k st)).
  { destruct res; [apply guarded_batch_calm; assumption | apply calm_refl, Hwf]. }
  destruct (match res with Resolved _ => _ | Rejected _ => _ end)
    as [| r1 st1 | err st1]; simpl in Htried; simpl; auto.
  - eapply returns_calm_after; [exact Htried |].
    apply guarded_batch_calm; eapply calm_more; eauto.
  - assert (Hc : returns (batch rec call (guarded_write call t (error rs) err) st1)
                   (calm k st)).
    { eapply returns_calm_after; [exact Htried |].
      apply guarded_batch_calm; eapply calm_more; eauto. }
    destruct (batch rec call (guarded_write call t (error rs) err) st1)
      as [| r2 st2 | err2 st2]; simpl in Hc; simpl; auto.
    + eapply returns_calm_after; [exact Hc |].
      apply guarded_batch_calm; eapply calm_more; eauto.
    + apply returns_calm_bind.
      * eapply returns_calm_after; [exact Hc |].
        apply guarded_batch_calm; eapply calm_more; eauto.
      * intros _ st3 H3. simpl. apply calm_refl. eapply calm_more; eauto.
Qed.

Lemma refetch_calm (r : rid) (k : nat) (st : State) :
  wf st -> k <= length (effs st) ->
  returns (refetch rec call r st) (calm k st).
Proof.
  intros Hwf Hk. unfold refetch. destruct (ress st !! r) as [rs |] eqn:Hr;
    [| apply calm_refl, Hwf].
  assert (H3 : calm k st
    (new_controller r (match controller rs with Some t => abort t st | None => st end))).
  { apply calm_silent; [apply refetch_start_frame; assumption |].
    destruct (controller rs); reflexivity. }
  apply absorb_calm. eapply returns_calm_after; [exact H3 |].
  destruct (calm_more _ _ _ H3 Hk) as [W3 K3].
  apply returns_calm_bind.
  - apply batch_calm; [| exact W3 | exact K3].
    intros st0 W0 K0. apply returns_calm_bind; [apply write_calm, W0 |].
    intros _ st' H'. apply write_calm. eapply calm_more; eauto.
  - intros _ st4 H4. destruct (calm_more _ _ _ H4 K3) as [W4 K4].
    pose proof (Hrec (fetcher rs) k st4 W4 K4) as Hf.
    destruct (rec (fetcher rs) st4) as [| r5 st5 | err st5]; simpl in Hf; simpl; auto.
    eapply returns_calm_after; [exact Hf |].
    apply settle_calm; eapply calm_more; eauto.
Qed.

Lemma set_memos_calm (m : mid) (f : memo -> memo) (k : nat) (st : State) :
  (forall x, out (f x) = out x) ->
  wf st -> calm k st (set_memos (alter f m (memos st)) st).
Proof.
  intros Hf Hwf. apply calm_silent; [apply set_memos_frame; assumption | reflexivity].
Qed.

Lemma set_cleanup_calm (e : eid) (f : list prog -> list prog) (k : nat) (st : State) :
  wf st -> calm k st (set_cleanup e f st).
Proof.
  intros Hwf. apply calm_silent; [apply set_cleanup_frame, Hwf | reflexivity].
Qed.

Lemma memo_fn_calm (m : mid) (f : prog) (k : nat) (st : State) :
  wf st -> k <= length (effs st) ->
  returns (memo_fn rec call m f st) (calm k st).
Proof.
  intros Hwf Hk. unfold memo_fn. apply returns_calm_bind; [apply Hrec; assumption |].
  intros r st1 H1. destruct (calm_more _ _ _ H1 Hk) as [W1 K1].
  destruct (memos st1 !! m) as [mm |]; [| apply calm_refl, W1].
  destruct (negb _ || negb _); [| apply calm_refl, W1].
  set (st2 := set_memos _ st1).
  assert (H2 : calm k st1 st2) by (apply set_memos_calm; [auto | exact W1]).
  destruct (calm_more _ _ _ H2 K1) as [W2 K2].
  eapply returns_calm_after; [exact H2 |].
  apply returns_calm_bind.
  - apply untrack_calm; [| exact W2 | exact K2].
    intros st0 W0 K0. apply batch_calm; [| exact W0 | exact K0].
    intros st0' W0' _. apply write_calm, W0'.
  - intros _ st3 H3. simpl. apply set_memos_calm; [auto |]. eapply calm_more; eauto.
Qed.

Lemma run_fn_calm (b : body) (k : nat) (st : State) :
  wf st -> k <= length (effs st) ->
  returns (run_fn rec call b st) (calm k st).
Proof.
  intros Hwf Hk. destruct b; simpl.
  - apply Hrec; assumption.
  - apply memo_fn_calm; assumption.
  - apply returns_calm_bind; [apply Hrec; assumption |].
    intros _ st1 H1. apply refetch_calm; eapply calm_more; eauto.
Qed.

Lemma effect_call_calm (e : eid) (k : nat) (st : State) :
  wf st -> k <= length (effs st) ->
  returns (effect_call rec call e st) (calm_call k e st).
Proof.
  intros Hwf Hk.
  pose proof (effect_call_called rec call rec_frame call_frame e st Hwf) as Hc.
  assert (Hq : returns (effect_call rec call e st) (quiet_call k e st)).
  { clear Hc. unfold effect_call.
    assert (Hno : quiet_call k e st (emit (EvInvoke e (length (effectStack st)) false) st)).
    { intros live rest H _. simpl in H. apply app_inv_head in H.
      injection H as _ <-. split; constructor. }
    destruct (effs st !! e) as [ef |]; [| exact Hno].
    destruct (disposed ef); [exact Hno |]. clear Hno.
    set (st1 := set_currentEffect (Some e) _).
    assert (W1 : wf st1) by (subst st1; eapply wf_same; eauto).
    assert (K1 : k <= length (effs st1)) by exact Hk.
    assert (Hpop : forall st', calm k st1 st' ->
      quiet_call k e st (set_currentEffect (last (removelast (effectStack st')))
                     (set_effectStack (removelast (effectStack st')) st'))).
    { intros st' [F Q] live rest H Hn. simpl in H.
      destruct (f_log _ _ F) as [new [L _]]. subst st1. simpl in L.
      rewrite L, <- app_assoc in H. apply app_inv_head in H. simpl in H.
      injection H as _ <-. apply (Q new); [| exact Hn].
      simpl. rewrite L, <- app_assoc. reflexivity. }
    match goal with |- returns (finally ?c _) _ =>
      assert (Hc : returns c (calm k st1)) end.
    { match goal with |- returns (match ?t with _ => _ end) _ =>
        assert (Ht : returns t (calm k st1)) end.
      { apply returns_calm_bind; [apply forEach_cleanup_calm; assumption |].
        intros _ st2 H2. destruct (calm_more _ _ _ H2 K1) as [W2 K2].
        pose proof (set_cleanup_calm e (fun _ => []) k st2 W2) as H3.
        destruct (calm_more _ _ _ H3 K2) as [W3 K3].
        eapply returns_calm_after; [exact H3 |].
        apply returns_calm_bind; [apply run_fn_calm; assumption |].
        intros [v | c] st4 H4; simpl.
        - apply calm_refl. eapply calm_more; eauto.
        - apply set_cleanup_calm. eapply calm_more; eauto. }
      destruct (forEach_cleanup _ _ _ _ _ >>= _) as [| r2 st2 | err st2];
        simpl in Ht; simpl; auto.
      destruct Ht as [Ft Qt]. split.
      - eapply frame_trans; [exact Ft |]. apply emit_frame; [apply Ft | exact I].
      - eapply (quiet_plus k (EvError e err)); [exact I | exact Ft | exact Qt | reflexivity]. }
    destruct (match _ with Thrown _ _ => _ | _ => _ end) as [| r2 st2 | err st2];
      simpl in Hc; simpl; auto. }
  destruct (effect_call rec call e st); simpl in *; unfold calm_call; auto.
Qed.

Lemma onClimax_calm (b : body) (k : nat) (st : State) :
  wf st -> k <= length (effs st) ->
  returns (onClimax rec call b st) (calm k st).
Proof.
  intros Hwf Hk. unfold onClimax. apply returns_done.
  assert (H1 : calm k st (set_effs (effs st ++ [mkEffect b false []]) st)).
  { apply calm_silent; [apply effs_app_frame, Hwf | reflexivity]. }
  destruct (calm_more _ _ _ H1 Hk) as [W1 K1].
  eapply returns_calm_after; [exact H1 |].
  apply batch_calm; [| exact W1 | exact K1].
  intros st0 W0 K0. apply call_calm; assumption.
Qed.

Lemma dispose_calm (e : eid) (k : nat) (st : State) :
  wf st -> k <= length (effs st) ->
  returns (dispose rec e st) (calm k st).
Proof.
  intros Hwf Hk. unfold dispose.
  set (st1 := set_effs _ st).
  assert (H1 : calm k st st1).
  { apply calm_silent; [| reflexivity].
    apply frame_store; simpl; eauto. apply effs_alter_mono. simpl. auto. }
  destruct (calm_more _ _ _ H1 Hk) as [W1 K1].
  eapply returns_calm_after; [exact H1 |].
  apply returns_calm_bind; [apply forEach_cleanup_calm; assumption |].
  intros _ st2 H2. simpl. apply set_cleanup_calm. eapply calm_more; eauto.
Qed.

Lemma knotMemo_calm (f : prog) (k : nat) (st : State) :
  wf st -> k <= length (effs st) ->
  returns (knotMemo rec call f st) (calm k st).
Proof.
  intros Hwf Hk. unfold knotMemo, createMoan. apply returns_done.
  set (st1 := set_memos _ st). set (st2 := set_sigs _ st1).
  assert (H1 : calm k st st1)
    by (apply calm_silent; [apply memos_app_frame, Hwf | reflexivity]).
  destruct (calm_more _ _ _ H1 Hk) as [W1 K1].
  assert (H2 : calm k st1 st2)
    by (apply calm_silent; [apply sigs_app_frame, W1 | reflexivity]).
  destruct (calm_more _ _ _ H2 K1) as [W2 K2].
  eapply returns_calm_after; [exact H1 |].
  eapply returns_calm_after; [exact H2 |].
  apply onClimax_calm; assumption.
Qed.

Lemma loadShot_calm (f : prog) (deps : option prog) (init : val) (k : nat) (st : State) :
  wf st -> k <= length (effs st) ->
  returns (loadShot rec call f deps init st) (calm k st).
Proof.
  intros Hwf Hk. unfold loadShot.
  set (st1 := set_sigs _ st). set (st2 := set_ress _ st1).
  assert (H1 : calm k st st1)
    by (apply calm_silent; [apply sigs_app_frame, Hwf | reflexivity]).
  destruct (calm_more _ _ _ H1 Hk) as [W1 K1].
  assert (H2 : calm k st1 st2)
    by (apply calm_silent; [apply ress_app_frame, W1 | reflexivity]).
  destruct (calm_more _ _ _ H2 K1) as [W2 K2].
  destruct deps as [dp |].
  - apply returns_done.
    eapply returns_calm_after; [exact H1 |].
    eapply returns_calm_after; [exact H2 |].
    apply onClimax_calm; assumption.
  - simpl. eapply calm_trans; [exact H1 |]. eapply calm_trans; [exact H2 |].
    apply calm_silent; [apply microtasks_frame, W2 | reflexivity].
Qed.

Lemma pending_add_function_calm (c : prog) (k : nat) (st : State) :
  wf st -> returns (pending_add (Fun c) st) (calm k st).
Proof.
  intros Hwf. apply returns_calm; [apply pending_add_frame, Hwf |].
  unfold pending_add. destruct (pending st); simpl; [| apply quiet_refl].
  intros new H _. apply app_inv_head in H. subst new. split; [reflexivity |].
  constructor; [exact I | constructor].
Qed.

Lemma step_calm (p : prog) (k : nat) (st : State) :
  wf st -> k <= length (effs st) ->
  returns (step rec call p st) (calm k st).
Proof.
  intros Hwf Hk.
  assert (Hk' : forall st1, calm k st st1 -> forall q, returns (rec q st1) (calm k st1)).
  { intros st1 H q. apply Hrec; eapply calm_more; eauto. }
  destruct p; cbn [step].
  - apply calm_refl, Hwf.
  - apply calm_refl, Hwf.
  - apply calm_refl, Hwf.
  - assert (H : calm k st (read s st).2).
    { apply calm_silent; [apply read_frame, Hwf |].
      unfold read. destruct (sigs st !! s); [| reflexivity].
      destruct (currentEffect st); reflexivity. }
    destruct (read s st) as [v st1]. simpl in H.
    eapply returns_calm_after; [exact H |]. apply Hk', H.
  - apply returns_calm_bind; [apply write_calm, Hwf |]. intros ? st1 H. apply Hk', H.
  - apply returns_calm_bind; [apply write_calm, Hwf |]. intros ? st1 H. apply Hk', H.
  - assert (H : calm k st (set_sigs (sigs st ++ [mkSignal init []]) st))
      by (apply calm_silent; [apply sigs_app_frame, Hwf | reflexivity]).
    eapply returns_calm_after; [exact H |]. apply Hk', H.
  - apply returns_calm_bind; [apply onClimax_calm; assumption |].
    intros ? st1 H. apply Hk', H.
  - apply returns_calm_bind; [apply dispose_calm; assumption |].
    intros ? st1 H. apply Hk', H.
  - apply returns_calm_bind; [apply knotMemo_calm; assumption |].
    intros ? st1 H. apply Hk', H.
  - apply returns_calm_bind; [apply batch_calm; [intros; apply Hrec | |]; assumption |].
    intros ? st1 H. apply Hk', H.
  - apply returns_calm_bind; [apply untrack_calm; [intros; apply Hrec | |]; assumption |].
    intros ? st1 H. apply Hk', H.
  - apply returns_calm_bind; [apply loadShot_calm; assumption |].
    intros ? st1 H. apply Hk', H.
  - apply returns_calm_bind; [apply loadShot_calm; assumption |].
    intros ? st1 H. apply Hk', H.
  - apply returns_calm_bind; [apply refetch_calm; assumption |].
    intros ? st1 H. apply Hk', H.
  - assert (H : calm k st (disposeShot r st)).
    { apply calm_silent; [apply disposeShot_frame, Hwf |].
      unfold disposeShot. destruct (ress st !! r ≫= controller); reflexivity. }
    eapply returns_calm_after; [exact H |]. apply Hk', H.
  - apply returns_calm_bind; [apply pending_add_function_calm, Hwf |].
    intros ? st1 H. apply Hk', H.
  - apply returns_calm_bind.
    + destruct (0 <? batchDepth st)%Z;
        [apply pending_add_function_calm, Hwf | apply Hrec; assumption].
    + intros ? st1 H. apply Hk', H.
Qed.

Hypothesis Hcatch : forall e st err st', call e st <> Thrown err st'.

(** The loop over the pending set, when no signal changes while it runs:
    an effect that existed before it is called as often as the set holds
    it. *)
Lemma flush_calls_nothing_else (effects : list eid) (k : nat) (st st' : State)
    (new : list event) :
  wf st -> k <= length (effs st) ->
  ends (flush rec call (map Eff effects) st) st' ->
  log st' = log st ++ new -> no_sets new ->
  forall e, e < k ->
    count_occ Nat.eq_dec (invoked new) e = count_occ Nat.eq_dec effects e.
Proof.
  revert st new. induction effects as [| a rest IH]; intros st new Hwf Hk H L Hn e He.
  - simpl in H. subst st'. rewrite <- (app_nil_r (log st)) in L at 1.
    apply app_inv_head in L. subst new. reflexivity.
  - simpl in H. pose proof (Hcall a k st Hwf Hk) as Hc.
    pose proof (Hcatch a st) as Hno.
    destruct (call a st) as [| r st1 | err st1]; simpl in H, Hc;
      [contradiction | |].
    + clear Hno. destruct Hc as [[F [live [tail [La _]]]] Q].
      pose proof (f_wf _ _ F) as W1.
      assert (K1 : k <= length (effs st1))
        by (pose proof (effs_length_mono _ _ F); lia).
      pose proof (flush_frame rec call rec_frame call_frame (map Eff rest) st1 W1) as F'.
      destruct (flush rec call (map Eff rest) st1) as [| r2 st2 | err2 st2] eqn:E2;
        simpl in H, F'; [contradiction | subst st2 ..];
        destruct (f_log _ _ F') as [n2 [L2 _]];
        rewrite L2, La, <- app_assoc in L; apply app_inv_head in L; subst new;
        simpl in Hn; inversion Hn as [| ev l _ Hn']; subst;
        apply no_sets_app in Hn' as [Hn1 Hn2];
        destruct (Q live tail La Hn1) as [_ Fr];
        (assert (IH' : count_occ Nat.eq_dec (invoked n2) e = count_occ Nat.eq_dec rest e)
          by (apply (IH st1 n2 W1 K1); [rewrite E2; reflexivity | exact L2 | exact Hn2
                                        | exact He]));
        change (EvInvoke a (length (effectStack st)) live :: tail ++ n2)
          with ((EvInvoke a (length (effectStack st)) live :: tail) ++ n2);
        rewrite invoked_app, count_occ_app, IH';
        change (invoked (EvInvoke a (length (effectStack st)) live :: tail))
          with (a :: invoked tail);
        cbn [count_occ]; rewrite (fresh_calls_count k tail e Fr He);
        destruct (Nat.eq_dec a e); reflexivity.
    + exfalso. eapply Hno. reflexivity.
Qed.

End Quiet.

Lemma exec_invoke_calm (fuel : nat) :
  (forall p k st, wf st -> k <= length (effs st) ->
     returns (exec fuel p st) (calm k st)) /\
  (forall e k st, wf st -> k <= length (effs st) ->
     returns (invoke fuel e st) (calm_call k e st)).
Proof.
  induction fuel as [| n [IHe IHi]]; split; intros x k st Hwf Hk; simpl; auto.
  - apply step_calm; auto.
  - apply effect_call_calm; auto.
Qed.

(** A callback that changes no signal schedules no effect and runs none but
    those it creates. *)
Lemma exec_calm (fuel : nat) (p : prog) (k : nat) (st : State) :
  wf st -> k <= length (effs st) -> returns (exec fuel p st) (calm k st).
Proof. apply exec_invoke_calm. Qed.

Lemma invoke_calm (fuel : nat) (e : eid) (k : nat) (st : State) :
  wf st -> k <= length (effs st) -> returns (invoke fuel e st) (calm_call k e st).
Proof. apply exec_invoke_calm. Qed.

(** ** Calls made with a batch open

    With a batch open the setters hand the subscribers to the scheduling
    function and run none, and no batch that ends is the outermost: the
    only effects that run are those that onClimax creates. *)

Lemma snug_refl (k : nat) (st : State) : wf st -> snug k st st.
Proof.
  intros Hwf. split; [apply frame_refl, Hwf |].
  intros new H. rewrite <- (app_nil_r (log st)) in H at 1.
  apply app_inv_head in H. subst new. constructor.
Qed.

Lemma snug_trans (k : nat) (a b c : State) : snug k a b -> snug k b c -> snug k a c.
Proof.
  intros [F1 Q1] [F2 Q2]. split; [eapply frame_trans; eauto |].
  intros new H. destruct (f_log _ _ F1) as [n1 [L1 _]]. destruct (f_log _ _ F2) as [n2 [L2 _]].
  rewrite L2, L1, <- app_assoc in H. apply app_inv_head in H. subst new.
  apply fresh_calls_app; [apply Q1, L1 | apply Q2, L2].
Qed.

Lemma snug_silent (k : nat) (st st' : State) :
  frame st st' -> log st' = log st -> snug k st st'.
Proof.
  intros F E. split; [exact F |]. intros new H. rewrite E in H.
  rewrite <- (app_nil_r (log st)) in H at 1. apply app_inv_head in H. subst new.
  constructor.
Qed.

(** A step that logs something else than the call of an effect. *)
Lemma snug_emit (k : nat) (ev : event) (st st' : State) :
  match ev with EvInvoke _ _ _ => False | _ => True end ->
  frame st st' -> log st' = log st ++ [ev] -> snug k st st'.
Proof.
  intros Hev F E. split; [exact F |]. intros new H. rewrite E in H.
  apply app_inv_head in H. subst new. constructor; [| constructor].
  destruct ev; try exact I. contradiction.
Qed.

Lemma snug_more (k : nat) (st st' : State) :
  snug k st st' -> (0 < batchDepth st)%Z -> k <= length (effs st) ->
  wf st' /\ (0 < batchDepth st')%Z /\ k <= length (effs st').
Proof.
  intros [F _] Hd Hk. split; [apply F |]. split; [rewrite (f_depth _ _ F); exact Hd |].
  pose proof (effs_length_mono _ _ F). lia.
Qed.

Lemma returns_snug_bind (o : outcome) (f : ret -> State -> outcome) (k : nat)
    (st : State) :
  returns o (snug k st) ->
  (forall r st1, snug k st st1 -> returns (f r st1) (snug k st1)) ->
  returns (o >>= f) (snug k st).
Proof.
  intros Ho Hf. destruct o as [| r st1 | err st1]; simpl in *; auto.
  eapply returns_impl; [apply Hf, Ho |].
  intros st2 H2. eapply snug_trans; eauto.
Qed.

Lemma returns_snug_after (o : outcome) (k : nat) (st st1 : State) :
  snug k st st1 -> returns o (snug k st1) -> returns o (snug k st).
Proof.
  intros H1 Ho. eapply returns_impl; [exact Ho |].
  intros st2 H2. eapply snug_trans; eauto.
Qed.

Lemma absorb_snug (o : outcome) (k : nat) (st : State) :
  returns o (snug k st) -> returns (absorb o) (snug k st).
Proof. destruct o; simpl; auto. Qed.

Lemma open_defers (st : State) :
  wf st -> (0 < batchDepth st)%Z -> schedule st = Some Defer.
Proof. intros [[[B _] | [_ [_ S]]] _ _ _] Hd; [lia | exact S]. Qed.

Lemma pending_add_snug (m : member) (k : nat) (st : State) :
  wf st -> returns (pending_add m st) (snug k st).
Proof.
  intros Hwf. pose proof (pending_add_frame m st Hwf) as F. unfold pending_add in *.
  destruct (pending st); simpl in *; [| apply snug_refl, Hwf].
  eapply (snug_emit k (EvDefer m)); [exact I | exact F | reflexivity].
Qed.

Section Snug.

Variable rec : prog -> State -> outcome.
Variable call : eid -> State -> outcome.
Hypothesis Frec : forall p st, wf st -> returns (rec p st) (frame st).
Hypothesis Fcall : forall e st, wf st -> returns (call e st) (frame st).
Hypothesis Hrec : forall p k st,
  wf st -> (0 < batchDepth st)%Z -> k <= length (effs st) ->
  returns (rec p st) (snug k st).
Hypothesis Hcall : forall e k st,
  wf st -> (0 < batchDepth st)%Z -> k <= length (effs st) -> k <= e ->
  returns (call e st) (snug k st).

Lemma notify_snug (s : sid) (effects : list eid) (k : nat) (st : State) :
  wf st -> (0 < batchDepth st)%Z -> returns (notify call s effects st) (snug k st).
Proof.
  revert st. induction effects as [| e rest IH]; intros st Hwf Hd; simpl.
  - apply snug_refl, Hwf.
  - destruct (has_subscriber s e st); [| apply IH; assumption].
    rewrite (open_defers st Hwf Hd).
    apply returns_snug_bind; [apply pending_add_snug, Hwf |].
    intros _ st1 [F1 _]. apply IH; [apply F1 | rewrite (f_depth _ _ F1); exact Hd].
Qed.

Lemma write_snug (s : sid) (n : next) (k : nat) (st : State) :
  wf st -> (0 < batchDepth st)%Z -> returns (write call s n st) (snug k st).
Proof.
  intros Hwf Hd. unfold write. destruct (sigs st !! s) as [sg |] eqn:Hs;
    [| apply snug_refl, Hwf].
  destruct (Object_is _ _); [apply snug_refl, Hwf |].
  set (st0 := set_sigs _ st).
  assert (H0 : frame st st0).
  { apply frame_store; simpl; eauto.
    apply (sigs_insert_mono _ _ sg); [exact Hs | auto]. }
  assert (H1 : frame st0 (emit (EvSet s (candidate n (value sg)) (effectStack st)) st0)).
  { apply emit_frame; [apply H0 | exact I]. }
  assert (S1 : snug k st (emit (EvSet s (candidate n (value sg)) (effectStack st)) st0)).
  { eapply (snug_emit k (EvSet s (candidate n (value sg)) (effectStack st)));
      [exact I | eapply frame_trans; eauto | reflexivity]. }
  eapply returns_snug_after; [exact S1 |].
  apply notify_snug; [apply H1 | exact Hd].
Qed.

Lemma batch_snug (f : State -> outcome) (k : nat) (st : State) :
  (forall st, wf st -> (0 < batchDepth st)%Z -> k <= length (effs st) ->
     returns (f st) (snug k st)) ->
  wf st -> (0 < batchDepth st)%Z -> k <= length (effs st) ->
  returns (batch rec call f st) (snug k st).
Proof.
  intros Hf Hwf Hd Hk.
  pose proof (batch_enter_wf st Hwf) as W3.
  assert (El : log (batch_enter st) = log st /\ effs (batch_enter st) = effs st /\
               batchDepth (batch_enter st) = (batchDepth st + 1)%Z).
  { unfold batch_enter. destruct (batchDepth st =? 0)%Z; repeat split; reflexivity. }
  destruct El as [El [Ee Ed]].
  assert (Hf3 : returns (f (batch_enter st)) (snug k (batch_enter st))).
  { apply Hf; [exact W3 | lia | rewrite Ee; exact Hk]. }
  assert (Hx : forall st4, frame (batch_enter st) st4 ->
              returns (batch_exit rec call (schedule st) st4) (frame st)).
  { intros st4 H4. eapply (batch_exit_frame rec call Frec Fcall); eauto; unfold batch_enter;
      destruct (Z.eqb_spec (batchDepth st) 0); reflexivity. }
  unfold batch.
  destruct (f (batch_enter st)) as [| r st4 | err st4]; simpl in Hf3; auto;
    destruct Hf3 as [F4 Q4]; specialize (Hx st4 F4);
    (assert (Hy : batch_exit rec call (schedule st) st4 =
                  Done undefined
                    (set_batchDepth (batchDepth st4 - 1)%Z (set_schedule (schedule st) st4)));
     [unfold batch_exit; simpl; rewrite (f_depth _ _ F4), Ed;
      destruct (Z.eqb_spec (batchDepth st + 1 - 1) 0); [lia | reflexivity] |]);
    rewrite Hy in *; simpl in *; (split; [exact Hx |]);
    intros new H; simpl in H; apply Q4; rewrite El; exact H.
Qed.

Lemma untrack_snug (f : State -> outcome) (k : nat) (st : State) :
  (forall st, wf st -> (0 < batchDepth st)%Z -> k <= length (effs st) ->
     returns (f st) (snug k st)) ->
  wf st -> (0 < batchDepth st)%Z -> k <= length (effs st) ->
  returns (untrack f st) (snug k st).
Proof.
  intros Hf Hwf Hd Hk. unfold untrack.
  assert (W : wf (set_currentEffect None st)) by (eapply wf_same; eauto).
  specialize (Hf _ W Hd Hk).
  assert (Hx : forall st4, snug k (set_currentEffect None st) st4 ->
              snug k st (set_currentEffect (currentEffect st) st4)).
  { intros st4 [[W4 S D C L U G E M T R] Q]. simpl in *.
    split; [split; simpl; auto; eapply wf_same; eauto |].
    intros new H. apply (Q new H). }
  destruct (f _); simpl in *; auto.
Qed.

Lemma forEach_cleanup_snug (e : eid) (n i : nat) (k : nat) (st : State) :
  wf st -> (0 < batchDepth st)%Z -> k <= length (effs st) ->
  returns (forEach_cleanup rec e n i st) (snug k st).
Proof.
  revert i st. induction n as [| n IH]; intros i st Hwf Hd Hk; simpl.
  - apply snug_refl, Hwf.
  - destruct (effs st !! e ≫= _); [| apply IH; assumption].
    apply returns_snug_bind; [apply Hrec; assumption |].
    intros _ st1 H. destruct (snug_more _ _ _ H Hd Hk) as [W1 [D1 K1]].
    apply IH; assumption.
Qed.

Lemma guarded_batch_snug (t : tid) (s : sid) (v : val) (k : nat) (st : State) :
  wf st -> (0 < batchDepth st)%Z -> k <= length (effs st) ->
  returns (batch rec call (guarded_write call t s v) st) (snug k st).
Proof.
  intros Hwf Hd Hk. apply batch_snug; [| exact Hwf | exact Hd | exact Hk].
  intros st0 W0 D0 _. unfold guarded_write. destruct (is_aborted t st0).
  - apply snug_refl, W0.
  - apply write_snug; assumption.
Qed.

Lemma settle_snug (r : rid) (t : tid) (res : settlement) (k : nat) (st : State) :
  wf st -> (0 < batchDepth st)%Z -> k <= length (effs st) ->
  returns (settle rec call r t res st) (snug k st).
Proof.
  intros Hwf Hd Hk. unfold settle. destruct (ress st !! r) as [rs |];
    [| apply snug_refl, Hwf].
  assert (Hb : forall s v st1, snug k st st1 ->
            returns (batch rec call (guarded_write call t s v) st1) (snug k st)).
  { intros s v st1 H1. destruct (snug_more _ _ _ H1 Hd Hk) as [W1 [D1 K1]].
    eapply returns_snug_after; [exact H1 |]. apply guarded_batch_snug; assumption. }
  apply absorb_snug.
  assert (Htried : returns
    match res with
    | Resolved result => batch rec call (guarded_write call t (data rs) result) st
    | Rejected err => Thrown err st
    end (snug k st)).
  { destruct res; [apply guarded_batch_snug; assumption | apply snug_refl, Hwf]. }
  destruct (match res with Resolved _ => _ | Rejected _ => _ end)
    as [| r1 st1 | err st1]; simpl in Htried; simpl; [exact I | |].
  - apply Hb, Htried.
  - pose proof (Hb (error rs) err st1 Htried) as Hc.
    destruct (batch rec call (guarded_write call t (error rs) err) st1)
      as [| r2 st2 | err2 st2]; simpl in Hc; simpl; [exact I | |].
    + apply Hb, Hc.
    + pose proof (Hb (loading rs) (VBool false) st2 Hc) as Hl.
      destruct (batch rec call (guarded_write call t (loading rs) (VBool false)) st2);
        simpl in *; auto.
Qed.

Lemma refetch_snug (r : rid) (k : nat) (st : State) :
  wf st -> (0 < batchDepth st)%Z -> k <= length (effs st) ->
  returns (refetch rec call r st) (snug k st).
Proof.
  intros Hwf Hd Hk. unfold refetch. destruct (ress st !! r) as [rs |] eqn:Hr;
    [| apply snug_refl, Hwf].
  assert (H3 : snug k st
    (new_controller r (match controller rs with Some t => abort t st | None => st end))).
  { apply snug_silent; [apply refetch_start_frame; assumption |].
    destruct (controller rs); reflexivity. }
  apply absorb_snug. eapply returns_snug_after; [exact H3 |].
  destruct (snug_more _ _ _ H3 Hd Hk) as [W3 [D3 K3]].
  apply returns_snug_bind.
  - apply batch_snug; [| exact W3 | exact D3 | exact K3].
    intros st0 W0 D0 K0. apply returns_snug_bind; [apply write_snug; assumption |].
    intros _ st' H'. destruct (snug_more _ _ _ H' D0 K0) as [W' [D' K']].
    apply write_snug; assumption.
  - intros _ st4 H4. destruct (snug_more _ _ _ H4 D3 K3) as [W4 [D4 K4]].
    pose proof (Hrec (fetcher rs) k st4 W4 D4 K4) as Hf.
    destruct (rec (fetcher rs) st4) as [| r5 st5 | err st5]; simpl in Hf; simpl; auto.
    eapply returns_snug_after; [exact Hf |].
    destruct (snug_more _ _ _ Hf D4 K4) as [W5 [D5 K5]].
    apply settle_snug; assumption.
Qed.

Lemma memo_fn_snug (m : mid) (f : prog) (k : nat) (st : State) :
  wf st -> (0 < batchDepth st)%Z -> k <= length (effs st) ->
  returns (memo_fn rec call m f st) (snug k st).
Proof.
  intros Hwf Hd Hk. unfold memo_fn. apply returns_snug_bind; [apply Hrec; assumption |].
  intros r st1 H1. destruct (snug_more _ _ _ H1 Hd Hk) as [W1 [D1 K1]].
  destruct (memos st1 !! m) as [mm |]; [| apply snug_refl, W1].
  destruct (negb _ || negb _); [| apply snug_refl, W1].
  set (st2 := set_memos _ st1).
  assert (H2 : snug k st1 st2).
  { apply snug_silent; [apply set_memos_frame; [auto | exact W1] | reflexivity]. }
  destruct (snug_more _ _ _ H2 D1 K1) as [W2 [D2 K2]].
  eapply returns_snug_after; [exact H2 |].
  apply returns_snug_bind.
  - apply untrack_snug; [| exact W2 | exact D2 | exact K2].
    intros st0 W0 D0 K0. apply batch_snug; [| exact W0 | exact D0 | exact K0].
    intros st0' W0' D0' _. apply write_snug; assumption.
  - intros _ st3 H3. simpl. destruct (snug_more _ _ _ H3 D2 K2) as [W3 _].
    apply snug_silent; [apply set_memos_frame; [auto | exact W3] | reflexivity].
Qed.

Lemma run_fn_snug (b : body) (k : nat) (st : State) :
  wf st -> (0 < batchDepth st)%Z -> k <= length (effs st) ->
  returns (run_fn rec call b st) (snug k st).
Proof.
  intros Hwf Hd Hk. destruct b; simpl.
  - apply Hrec; assumption.
  - apply memo_fn_snug; assumption.
  - apply returns_snug_bind; [apply Hrec; assumption |].
    intros _ st1 H1. destruct (snug_more _ _ _ H1 Hd Hk) as [W1 [D1 K1]].
    apply refetch_snug; assumption.
Qed.

Lemma effect_call_snug (e : eid) (k : nat) (st : State) :
  wf st -> (0 < batchDepth st)%Z -> k <= length (effs st) -> k <= e ->
  returns (effect_call rec call e st) (snug k st).
Proof.
  intros Hwf Hd Hk He.
  pose proof (effect_call_frame rec call Frec Fcall e st Hwf) as Hc.
  assert (Hq : returns (effect_call rec call e st)
                 (fun st' => forall new, log st' = log st ++ new -> fresh_calls k new)).
  { clear Hc. unfold effect_call.
    assert (Hno : forall new,
      log (emit (EvInvoke e (length (effectStack st)) false) st) = log st ++ new ->
      fresh_calls k new).
    { intros new H. simpl in H. apply app_inv_head in H. subst new.
      constructor; [exact He | constructor]. }
    destruct (effs st !! e) as [ef |]; [| exact Hno].
    destruct (disposed ef); [exact Hno |]. clear Hno.
    set (st1 := set_currentEffect (Some e) _).
    assert (W1 : wf st1) by (subst st1; eapply wf_same; eauto).
    assert (K1 : k <= length (effs st1)) by exact Hk.
    assert (D1 : (0 < batchDepth st1)%Z) by exact Hd.
    assert (Hpop : forall st', snug k st1 st' ->
      forall new,
        log (set_currentEffect (last (removelast (effectStack st')))
               (set_effectStack (removelast (effectStack st')) st')) = log st ++ new ->
        fresh_calls k new).
    { intros st' [F Q] new H. simpl in H.
      destruct (f_log _ _ F) as [n1 [L _]]. pose proof (Q n1 L) as Fr.
      subst st1. simpl in L. rewrite L, <- app_assoc in H. apply app_inv_head in H.
      subst new. constructor; [exact He | exact Fr]. }
    match goal with |- returns (finally ?c _) _ =>
      assert (Hc : returns c (snug k st1)) end.
    { match goal with |- returns (match ?t with _ => _ end) _ =>
        assert (Ht : returns t (snug k st1)) end.
      { apply returns_snug_bind; [apply forEach_cleanup_snug; assumption |].
        intros _ st2 H2. destruct (snug_more _ _ _ H2 D1 K1) as [W2 [D2 K2]].
        assert (H3 : snug k st2 (set_cleanup e (fun _ => []) st2))
          by (apply snug_silent; [apply set_cleanup_frame, W2 | reflexivity]).
        destruct (snug_more _ _ _ H3 D2 K2) as [W3 [D3 K3]].
        eapply returns_snug_after; [exact H3 |].
        apply returns_snug_bind; [apply run_fn_snug; assumption |].
        intros [v | c] st4 H4; simpl; destruct (snug_more _ _ _ H4 D3 K3) as [W4 _].
        - apply snug_refl, W4.
        - apply snug_silent; [apply set_cleanup_frame, W4 | reflexivity]. }
      destruct (forEach_cleanup _ _ _ _ _ >>= _) as [| r2 st2 | err st2];
        simpl in Ht; simpl; auto.
      eapply snug_trans; [exact Ht |].
      eapply (snug_emit k (EvError e err)); [exact I | | reflexivity].
      apply emit_frame; [apply Ht | exact I]. }
    destruct (match _ with Thrown _ _ => _ | _ => _ end) as [| r2 st2 | err st2];
      simpl in Hc; simpl; [exact I | apply Hpop, Hc ..]. }
  destruct (effect_call rec call e st); simpl in *; unfold snug; auto.
Qed.

Lemma onClimax_snug (b : body) (k : nat) (st : State) :
  wf st -> (0 < batchDepth st)%Z -> k <= length (effs st) ->
  returns (onClimax rec call b st) (snug k st).
Proof.
  intros Hwf Hd Hk. unfold onClimax. apply returns_done.
  assert (H1 : snug k st (set_effs (effs st ++ [mkEffect b false []]) st)).
  { apply snug_silent; [apply effs_app_frame, Hwf | reflexivity]. }
  destruct (snug_more _ _ _ H1 Hd Hk) as [W1 [D1 K1]].
  eapply returns_snug_after; [exact H1 |].
  apply batch_snug; [| exact W1 | exact D1 | exact K1].
  intros st0 W0 D0 K0. apply Hcall; assumption.
Qed.

Lemma dispose_snug (e : eid) (k : nat) (st : State) :
  wf st -> (0 < batchDepth st)%Z -> k <= length (effs st) ->
  returns (dispose rec e st) (snug k st).
Proof.
  intros Hwf Hd Hk. unfold dispose.
  set (st1 := set_effs _ st).
  assert (H1 : snug k st st1).
  { apply snug_silent; [| reflexivity].
    apply frame_store; simpl; eauto. apply effs_alter_mono. simpl. auto. }
  destruct (snug_more _ _ _ H1 Hd Hk) as [W1 [D1 K1]].
  eapply returns_snug_after; [exact H1 |].
  apply returns_snug_bind; [apply forEach_cleanup_snug; assumption |].
  intros _ st2 H2. simpl. destruct (snug_more _ _ _ H2 D1 K1) as [W2 _].
  apply snug_silent; [apply set_cleanup_frame, W2 | reflexivity].
Qed.

Lemma knotMemo_snug (f : prog) (k : nat) (st : State) :
  wf st -> (0 < batchDepth st)%Z -> k <= length (effs st) ->
  returns (knotMemo rec call f st) (snug k st).
Proof.
  intros Hwf Hd Hk. unfold knotMemo, createMoan. apply returns_done.
  set (st1 := set_memos _ st). set (st2 := set_sigs _ st1).
  assert (H1 : snug k st st1)
    by (apply snug_silent; [apply memos_app_frame, Hwf | reflexivity]).
  destruct (snug_more _ _ _ H1 Hd Hk) as [W1 [D1 K1]].
  assert (H2 : snug k st1 st2)
    by (apply snug_silent; [apply sigs_app_frame, W1 | reflexivity]).
  destruct (snug_more _ _ _ H2 D1 K1) as [W2 [D2 K2]].
  eapply returns_snug_after; [exact H1 |].
  eapply returns_snug_after; [exact H2 |].
  apply onClimax_snug; assumption.
Qed.

Lemma loadShot_snug (f : prog) (deps : option prog) (init : val) (k : nat) (st : State) :
  wf st -> (0 < batchDepth st)%Z -> k <= length (effs st) ->
  returns (loadShot rec call f deps init st) (snug k st).
Proof.
  intros Hwf Hd Hk. unfold loadShot.
  set (st1 := set_sigs _ st). set (st2 := set_ress _ st1).
  assert (H1 : snug k st st1)
    by (apply snug_silent; [apply sigs_app_frame, Hwf | reflexivity]).
  destruct (snug_more _ _ _ H1 Hd Hk) as [W1 [D1 K1]].
  assert (H2 : snug k st1 st2)
    by (apply snug_silent; [apply ress_app_frame, W1 | reflexivity]).
  destruct (snug_more _ _ _ H2 D1 K1) as [W2 [D2 K2]].
  destruct deps as [dp |].
  - apply returns_done.
    eapply returns_snug_after; [exact H1 |].
    eapply returns_snug_after; [exact H2 |].
    apply onClimax_snug; assumption.
  - simpl. eapply snug_trans; [exact H1 |]. eapply snug_trans; [exact H2 |].
    apply snug_silent; [apply microtasks_frame, W2 | reflexivity].
Qed.

Lemma step_snug (p : prog) (k : nat) (st : State) :
  wf st -> (0 < batchDepth st)%Z -> k <= length (effs st) ->
  returns (step rec call p st) (snug k st).
Proof.
  intros Hwf Hd Hk.
  assert (Hk' : forall st1, snug k st st1 -> forall q, returns (rec q st1) (snug k st1)).
  { intros st1 H q. destruct (snug_more _ _ _ H Hd Hk) as [W1 [D1 K1]].
    apply Hrec; assumption. }
  destruct p; cbn [step].
  - apply snug_refl, Hwf.
  - apply snug_refl, Hwf.
  - apply snug_refl, Hwf.
  - assert (H : snug k st (read s st).2).
    { apply snug_silent; [apply read_frame, Hwf |].
      unfold read. destruct (sigs st !! s); [| reflexivity].
      destruct (currentEffect st); reflexivity. }
    destruct (read s st) as [v st1]. simpl in H.
    eapply returns_snug_after; [exact H |]. apply Hk', H.
  - apply returns_snug_bind; [apply write_snug; assumption |].
    intros ? st1 H. apply Hk', H.
  - apply returns_snug_bind; [apply write_snug; assumption |].
    intros ? st1 H. apply Hk', H.
  - assert (H : snug k st (set_sigs (sigs st ++ [mkSignal init []]) st))
      by (apply snug_silent; [apply sigs_app_frame, Hwf | reflexivity]).
    eapply returns_snug_after; [exact H |]. apply Hk', H.
  - apply returns_snug_bind; [apply onClimax_snug; assumption |].
    intros ? st1 H. apply Hk', H.
  - apply returns_snug_bind; [apply dispose_snug; assumption |].
    intros ? st1 H. apply Hk', H.
  - apply returns_snug_bind; [apply knotMemo_snug; assumption |].
    intros ? st1 H. apply Hk', H.
  - apply returns_snug_bind;
      [apply batch_snug; [intros; apply Hrec | | |]; assumption |].
    intros ? st1 H. apply Hk', H.
  - apply returns_snug_bind;
      [apply untrack_snug; [intros; apply Hrec | | |]; assumption |].
    intros ? st1 H. apply Hk', H.
  - apply returns_snug_bind; [apply loadShot_snug; assumption |].
    intros ? st1 H. apply Hk', H.
  - apply returns_snug_bind; [apply loadShot_snug; assumption |].
    intros ? st1 H. apply Hk', H.
  - apply returns_snug_bind; [apply refetch_snug; assumption |].
    intros ? st1 H. apply Hk', H.
  - assert (H : snug k st (disposeShot r st)).
    { apply snug_silent; [apply disposeShot_frame, Hwf |].
      unfold disposeShot. destruct (ress st !! r ≫= controller); reflexivity. }
    eapply returns_snug_after; [exact H |]. apply Hk', H.
  - apply returns_snug_bind; [apply pending_add_snug, Hwf |].
    intros ? st1 H. apply Hk', H.
  - apply returns_snug_bind.
    + destruct (Z.ltb_spec 0 (batchDepth st)); [apply pending_add_snug, Hwf | lia].
    + intros ? st1 H. apply Hk', H.
Qed.

End Snug.

Lemma exec_invoke_snug (fuel : nat) :
  (forall p k st, wf st -> (0 < batchDepth st)%Z -> k <= length (effs st) ->
     returns (exec fuel p st) (snug k st)) /\
  (forall e k st, wf st -> (0 < batchDepth st)%Z -> k <= length (effs st) -> k <= e ->
     returns (invoke fuel e st) (snug k st)).
Proof.
  induction fuel as [| fuel [IHe IHi]]; [split; intros; exact I |].
  split; intros; simpl.
  - apply (step_snug (exec fuel) (invoke fuel) (exec_frame fuel) (invoke_frame fuel)
             IHe IHi); assumption.
  - apply (effect_call_snug (exec fuel) (invoke fuel) (exec_frame fuel) (invoke_frame fuel)
             IHe); assumption.
Qed.

(** While a callback runs with a batch open, no effect runs but those that
    the callback creates. *)
Lemma exec_snug (fuel : nat) (p : prog) (k : nat) (st : State) :
  wf st -> (0 < batchDepth st)%Z -> k <= length (effs st) ->
  returns (exec fuel p st) (snug k st).
Proof. apply exec_invoke_snug. Qed.

(** ** Memos and the setters in scope

    A callback that has the setter of no memo's output signal in scope
    changes such a signal only through the effect of the memo, and leaves
    every memo with the value of its output signal cached. *)

Lemma scoped_mono (p : prog) :
  forall W W' : sid -> Prop, (forall s, W s -> W' s) -> scoped W p -> scoped W' p.
Proof.
  induction p as [v | c IH | err | s k IH | s v k IH | s f k IH | init k IH
                 | f IHf k IH | e k IH | f IHf k IH | f IHf k IH | f IHf k IH
                 | f IHf init k IH | f IHf deps IHd init k IH | r k IH | r k IH
                 | c IHc k IH | c IHc k IH];
    intros W W' HW H; simpl in *; try exact I; try tauto.
  - eapply IH; eauto.
  - intros v. eapply IH; eauto.
  - destruct H; split; [auto | eapply IH; eauto].
  - destruct H; split; [auto | eapply IH; eauto].
  - intros s. eapply IH; [| apply H]. simpl. intros x [-> | Hx]; auto.
  - destruct H as [H1 H2]; split; [eapply IHf; eauto |]. intros x. eapply IH; eauto.
  - eapply IH; eauto.
  - destruct H as [H1 H2]; split; [eapply IHf; eauto |]. intros x. eapply IH; eauto.
  - destruct H as [H1 H2]; split; [eapply IHf; eauto | eapply IH; eauto].
  - destruct H as [H1 H2]; split; [eapply IHf; eauto |]. intros x. eapply IH; eauto.
  - destruct H as [H1 H2]; split; [eapply IHf; eauto |]. intros x. eapply IH; eauto.
  - destruct H as [H1 [H2 H3]]; split; [eapply IHf; eauto |].
    split; [eapply IHd; eauto |]. intros x. eapply IH; eauto.
  - eapply IH; eauto.
  - eapply IH; eauto.
  - destruct H as [H1 H2]; split; [eapply IHc; eauto | eapply IH; eauto].
  - destruct H as [H1 H2]; split; [eapply IHc; eauto | eapply IH; eauto].
Qed.

Lemma scoped_body_mono (b : body) (W W' : sid -> Prop) :
  (forall s, W s -> W' s) -> scoped_body W b -> scoped_body W' b.
Proof. destruct b; simpl; apply scoped_mono. Qed.

Lemma scoped_ret_mono (r : ret) (W W' : sid -> Prop) :
  (forall s, W s -> W' s) -> scoped_ret W r -> scoped_ret W' r.
Proof. destruct r; simpl; [auto | apply scoped_mono]. Qed.

Lemma frame_grows (st st' : State) : frame st st' -> grows st st'.
Proof.
  intros F. split.
  - destruct (f_log _ _ F) as [new [L _]]. eauto.
  - destruct (sigs st) as [| x l] eqn:E; [simpl; lia |].
    destruct (lookup_lt_is_Some_2 (sigs st) (length l)) as [sg Hs];
      [rewrite E; simpl; lia |].
    destruct (f_sigs _ _ F _ _ Hs) as [sg' [Hs' _]].
    apply lookup_lt_Some in Hs'. rewrite <- E. rewrite E in *. simpl in *. lia.
  - intros m mm H. apply (f_memos _ _ F _ _ H).
  - intros e ef H. destruct (f_effs _ _ F _ _ H) as [ef' [H1 [H2 _]]]. eauto.
Qed.

Lemma grows_refl (st : State) : grows st st.
Proof.
  split; eauto. exists []. symmetry. apply app_nil_r.
Qed.

Lemma grows_trans (a b c : State) : grows a b -> grows b c -> grows a c.
Proof.
  intros [[n1 L1] S1 M1 E1] [[n2 L2] S2 M2 E2]. split.
  - exists (n1 ++ n2). rewrite L2, L1, app_assoc. reflexivity.
  - lia.
  - intros m mm H. destruct (M1 _ _ H) as [mm1 [H1 O1]].
    destruct (M2 _ _ H1) as [mm2 [H2 O2]]. exists mm2. split; [exact H2 | congruence].
  - intros e ef H. destruct (E1 _ _ H) as [ef1 [H1 O1]].
    destruct (E2 _ _ H1) as [ef2 [H2 O2]]. exists ef2. split; [exact H2 | congruence].
Qed.

(** An ordinary signal stays ordinary. *)
Lemma ordinary_mono (st st' : State) (s : sid) :
  grows st st' ->
  (forall m mm, memos st' !! m = Some mm ->
     m < length (memos st) \/ length (sigs st) <= out mm) ->
  ordinary st s -> ordinary st' s.
Proof.
  intros G Hf [Hs Hm]. split; [pose proof (g_sigs _ _ G); lia |].
  intros m mm H. destruct (Hf _ _ H) as [Hl | Hl]; [| lia].
  destruct (lookup_lt_is_Some_2 _ _ Hl) as [mm0 H0].
  destruct (g_memos _ _ G _ _ H0) as [mm' [H' O]].
  rewrite H in H'. injection H' as <-. rewrite O. apply (Hm _ _ H0).
Qed.

Lemma kept_ordinary (st st' : State) (s : sid) : kept st st' -> ordinary st s -> ordinary st' s.
Proof. intros K. apply ordinary_mono; apply K. Qed.

Lemma kept_scoped (st st' : State) (p : prog) :
  kept st st' -> scoped (ordinary st) p -> scoped (ordinary st') p.
Proof. intros K. apply scoped_mono. intros s. apply kept_ordinary, K. Qed.

Lemma own_event_mono (st st' : State) (ev : event) :
  kept st st' -> own_event st ev -> own_event st' ev.
Proof.
  intros K. destruct ev as [| | s v stk |]; simpl; auto.
  intros [H | [m [mm [Hm [Ho [e [ef [f [Ht [He Hf]]]]]]]]]];
    [left; eapply kept_ordinary; eauto |].
  right. destruct (g_memos _ _ (k_grows _ _ K) _ _ Hm) as [mm' [Hm' Ho']].
  destruct (g_effs _ _ (k_grows _ _ K) _ _ He) as [ef' [He' Hf']].
  exists m, mm'. split; [exact Hm' |]. split; [congruence |].
  exists e, ef', f. split; [exact Ht |]. split; [exact He' | congruence].
Qed.

Lemma sets_of_app (s : sid) (a b : list event) :
  sets_of s (a ++ b) = sets_of s a ++ sets_of s b.
Proof. unfold sets_of. apply flat_map_app. Qed.

Lemma last_cons_default (l : list val) (x y z : val) :
  List.last (x :: l) y = List.last (x :: l) z.
Proof.
  revert x. induction l as [| w l IH]; intros x; [reflexivity |].
  change (List.last (w :: l) y = List.last (w :: l) z). apply IH.
Qed.

Lemma steps_from_app (v0 : val) (a b : list val) :
  steps_from v0 a -> steps_from (List.last a v0) b -> steps_from v0 (a ++ b).
Proof.
  revert v0. induction a as [| v a IH]; intros v0 Ha Hb; simpl in *; [exact Hb |].
  destruct Ha as [H1 H2]. split; [exact H1 |]. apply IH; [exact H2 |].
  destruct a; [exact Hb |]. rewrite (last_cons_default _ _ _ v0). exact Hb.
Qed.

Lemma last_app_default (v0 : val) (a b : list val) :
  List.last (a ++ b) v0 = List.last b (List.last a v0).
Proof.
  revert v0. induction a as [| v a IH]; intros v0; [reflexivity |].
  destruct a as [| w a].
  - destruct b as [| x b]; [reflexivity |].
    change (List.last (x :: b) v0 = List.last (x :: b) v). apply last_cons_default.
  - change (List.last ((w :: a) ++ b) v0 = List.last b (List.last (w :: a) v0)).
    apply IH.
Qed.

Lemma sig_value_lookup (s : sid) (sg : signal) (st : State) :
  sigs st !! s = Some sg -> sig_value s st = value sg.
Proof. intros H. unfold sig_value. rewrite H. reflexivity. Qed.

Lemma kept_refl (st : State) : kept st st.
Proof.
  split.
  - apply grows_refl.
  - intros m mm H. left. eapply lookup_lt_Some, H.
  - intros new H. rewrite <- (app_nil_r (log st)) in H at 1.
    apply app_inv_head in H. subst new. constructor.
  - intros s sg new H L. rewrite <- (app_nil_r (log st)) in L at 1.
    apply app_inv_head in L. subst new. simpl. split; [exact I |].
    apply sig_value_lookup, H.
Qed.

Lemma kept_trans (a b c : State) : kept a b -> kept b c -> kept a c.
Proof.
  intros K1 K2. pose proof K1 as [G1 F1 O1 A1]. pose proof K2 as [G2 F2 O2 A2].
  destruct (g_log _ _ G1) as [n1 L1]. destruct (g_log _ _ G2) as [n2 L2].
  split.
  - eapply grows_trans; eauto.
  - intros m mm H. destruct (F2 _ _ H) as [Hl | Hl].
    + destruct (lookup_lt_is_Some_2 _ _ Hl) as [mm0 H0].
      destruct (g_memos _ _ G2 _ _ H0) as [mm' [H' O]].
      rewrite H in H'. injection H' as <-. rewrite O. apply (F1 _ _ H0).
    + right. pose proof (g_sigs _ _ G1). lia.
  - intros new H. rewrite L2, L1, <- app_assoc in H. apply app_inv_head in H. subst new.
    apply Forall_app. split; [| apply O2, L2].
    eapply Forall_impl; [apply O1, L1 |]. intros ev. apply own_event_mono, K2.
  - intros s sg new H L. rewrite L2, L1, <- app_assoc in L. apply app_inv_head in L.
    subst new. destruct (A1 s sg n1 H L1) as [S1 V1].
    assert (Hb : exists sg', sigs b !! s = Some sg').
    { apply lookup_lt_is_Some_2. apply lookup_lt_Some in H.
      pose proof (g_sigs _ _ G1). lia. }
    destruct Hb as [sg' Hb]. destruct (A2 s sg' n2 Hb L2) as [S2 V2].
    rewrite (sig_value_lookup _ _ _ Hb) in V1. rewrite V1 in S2, V2.
    rewrite sets_of_app. split; [apply steps_from_app; assumption |].
    rewrite V2. symmetry. apply last_app_default.
Qed.

Lemma held_refl (st : State) : wf st -> sealed st -> held st st.
Proof.
  intros Hwf Hs. split; [apply frame_refl, Hwf |]. split; [apply kept_refl | exact Hs].
Qed.

Lemma held_trans (a b c : State) : held a b -> held b c -> held a c.
Proof.
  intros [F1 [K1 _]] [F2 [K2 S2]].
  split; [eapply frame_trans; eauto |]. split; [eapply kept_trans; eauto | exact S2].
Qed.

(** A step that logs no change of a signal and leaves the signals and the
    memos that exist as they are. *)
Lemma kept_quietly (st st' : State) (evs : list event) :
  grows st st' -> log st' = log st ++ evs ->
  Forall (fun ev => match ev with EvSet _ _ _ => False | _ => True end) evs ->
  length (memos st') = length (memos st) ->
  (forall s sg, sigs st !! s = Some sg -> sig_value s st' = value sg) ->
  kept st st'.
Proof.
  intros G L Hev Hm Hv. split; [exact G | | |].
  - intros m mm H. left. rewrite <- Hm. eapply lookup_lt_Some, H.
  - intros new H. rewrite L in H. apply app_inv_head in H. subst new.
    eapply Forall_impl; [exact Hev |]. intros [] Hx; simpl; auto. contradiction.
  - intros s sg new H H'. rewrite L in H'. apply app_inv_head in H'. subst new.
    assert (E : sets_of s evs = []).
    { clear -Hev. induction Hev as [| ev l Hx _ IH]; [reflexivity |].
      unfold sets_of in *. simpl. rewrite IH. destruct ev; try reflexivity. contradiction. }
    rewrite E. simpl. split; [exact I | apply Hv, H].
Qed.

Lemma safe_trans (a b c : State) : safe a b -> safe b c -> safe a c.
Proof. intros [K1 _] [K2 S2]. split; [eapply kept_trans; eauto | exact S2]. Qed.

Lemma held_after (a b c : State) : frame a b -> kept a b -> held b c -> held a c.
Proof.
  intros F1 K1 [F2 [K2 S2]].
  split; [eapply frame_trans; eauto |]. split; [eapply kept_trans; eauto | exact S2].
Qed.

Lemma held_wf (st st' : State) : held st st' -> wf st'.
Proof. intros [F _]. apply F. Qed.

Lemma held_sealed (st st' : State) : held st st' -> sealed st'.
Proof. intros [_ [_ S]]. exact S. Qed.

Lemma held_scoped (st st' : State) (p : prog) :
  held st st' -> scoped (ordinary st) p -> scoped (ordinary st') p.
Proof. intros [_ [K _]]. apply kept_scoped, K. Qed.

Lemma held_ordinary (st st' : State) (s : sid) :
  held st st' -> ordinary st s -> ordinary st' s.
Proof. intros [_ [K _]]. apply kept_ordinary, K. Qed.

(** The invariant, carried to a state with the same signals and memos, or
    with other cached values. *)
Lemma sealed_memos (st st' : State) :
  sealed st ->
  length (sigs st') = length (sigs st) ->
  (forall m mm', memos st' !! m = Some mm' ->
     exists mm, memos st !! m = Some mm /\ out mm' = out mm) ->
  (forall m mm', memos st' !! m = Some mm' -> sig_value (out mm') st' = cached mm') ->
  (forall r rs', ress st' !! r = Some rs' ->
     exists rs, ress st !! r = Some rs /\ data rs' = data rs /\ loading rs' = loading rs /\
       error rs' = error rs /\ fetcher rs' = fetcher rs) ->
  (forall e ef', effs st' !! e = Some ef' ->
     scoped_body (ordinary st) (fn ef') /\ Forall (scoped (ordinary st)) (cleanup ef')) ->
  (forall ps c, pending st' = Some ps -> Fun c ∈ ps -> scoped (ordinary st) c) ->
  sealed st'.
Proof.
  intros Hs Hl Hm Ha Hr He Hp.
  assert (Ho : forall s, ordinary st s -> ordinary st' s).
  { intros s [H1 H2]. split; [lia |]. intros m mm' H.
    destruct (Hm _ _ H) as [mm [H' ->]]. eapply H2, H'. }
  split.
  - intros m mm' H. destruct (Hm _ _ H) as [mm [H' ->]]. rewrite Hl. eapply s_outs; eauto.
  - intros m m' mm1 mm2 H1 H2 E. destruct (Hm _ _ H1) as [x1 [X1 O1]].
    destruct (Hm _ _ H2) as [x2 [X2 O2]]. eapply (s_inj _ Hs); eauto. congruence.
  - exact Ha.
  - intros r rs' H. destruct (Hr _ _ H) as [rs [H' [-> [-> [-> ->]]]]].
    destruct (s_ress _ Hs _ _ H') as [A [B [C D]]].
    repeat split; try (apply Ho; assumption). eapply scoped_mono; eauto.
  - intros e ef' H. destruct (He _ _ H) as [A B]. split.
    + eapply scoped_body_mono; eauto.
    + eapply Forall_impl; [exact B |]. intros c. apply scoped_mono, Ho.
  - intros ps c H Hc. eapply scoped_mono; [exact Ho | eapply Hp; eauto].
Qed.

Lemma sealed_alike (st st' : State) :
  sealed st ->
  length (sigs st') = length (sigs st) ->
  memos st' = memos st ->
  (forall m mm, memos st !! m = Some mm -> sig_value (out mm) st' = sig_value (out mm) st) ->
  (forall r rs', ress st' !! r = Some rs' ->
     exists rs, ress st !! r = Some rs /\ data rs' = data rs /\ loading rs' = loading rs /\
       error rs' = error rs /\ fetcher rs' = fetcher rs) ->
  (forall e ef', effs st' !! e = Some ef' ->
     scoped_body (ordinary st) (fn ef') /\ Forall (scoped (ordinary st)) (cleanup ef')) ->
  (forall ps c, pending st' = Some ps -> Fun c ∈ ps -> scoped (ordinary st) c) ->
  sealed st'.
Proof.
  intros Hs Hl Hm Hv Hr He Hp. apply (sealed_memos st); auto.
  - intros m mm' H. rewrite Hm in H. eauto.
  - intros m mm' H. rewrite Hm in H. rewrite (Hv _ _ H). eapply s_agree; eauto.
Qed.

(** A step that changes no signal and no memo. *)
Lemma safe_quietly (st st' : State) (evs : list event) :
  sealed st ->
  log st' = log st ++ evs ->
  Forall (fun ev => match ev with EvSet _ _ _ => False | _ => True end) evs ->
  length (sigs st') = length (sigs st) ->
  (forall s sg, sigs st !! s = Some sg -> sig_value s st' = value sg) ->
  memos st' = memos st ->
  (forall r rs', ress st' !! r = Some rs' ->
     exists rs, ress st !! r = Some rs /\ data rs' = data rs /\ loading rs' = loading rs /\
       error rs' = error rs /\ fetcher rs' = fetcher rs) ->
  (forall e ef, effs st !! e = Some ef ->
     exists ef', effs st' !! e = Some ef' /\ fn ef' = fn ef) ->
  (forall e ef', effs st' !! e = Some ef' ->
     scoped_body (ordinary st) (fn ef') /\ Forall (scoped (ordinary st)) (cleanup ef')) ->
  (forall ps c, pending st' = Some ps -> Fun c ∈ ps -> scoped (ordinary st) c) ->
  safe st st'.
Proof.
  intros Hs L Hev Hl Hv Hm Hr Hg He Hp. split.
  - apply (kept_quietly st st' evs); auto; [| rewrite Hm; reflexivity].
    split; [eauto | lia | | exact Hg].
    intros m mm H. rewrite Hm. eauto.
  - apply (sealed_alike st); auto.
    intros m mm H. pose proof (s_outs _ Hs _ _ H) as Ho.
    destruct (lookup_lt_is_Some_2 _ _ Ho) as [sg Hsg].
    rewrite (Hv _ _ Hsg). symmetry. apply sig_value_lookup, Hsg.
Qed.

(** A step that leaves the store as it is. *)
Lemma safe_same (st st' : State) (evs : list event) :
  sealed st ->
  log st' = log st ++ evs ->
  Forall (fun ev => match ev with EvSet _ _ _ => False | _ => True end) evs ->
  sigs st' = sigs st -> memos st' = memos st -> ress st' = ress st ->
  effs st' = effs st ->
  (forall ps c, pending st' = Some ps -> Fun c ∈ ps -> scoped (ordinary st) c) ->
  safe st st'.
Proof.
  intros Hs L Hev E1 E2 E3 E4 Hp.
  apply (safe_quietly st st' evs); auto.
  - rewrite E1. reflexivity.
  - intros s sg H. unfold sig_value. rewrite E1, H. reflexivity.
  - intros r rs' H. rewrite E3 in H. exists rs'. auto.
  - intros e ef H. rewrite E4. eauto.
  - intros e ef' H. rewrite E4 in H. apply (s_effs _ Hs _ _ H).
Qed.

Lemma held_silent (st st' : State) :
  frame st st' -> safe st st' -> held st st'.
Proof. intros F S. split; assumption. Qed.

(** The change of a signal. *)
Lemma kept_set (s : sid) (v : val) (sg : signal) (st : State) :
  sigs st !! s = Some sg ->
  Object_is (value sg) v = false ->
  own_event st (EvSet s v (effectStack st)) ->
  kept st (emit (EvSet s v (effectStack st))
             (set_sigs (<[s := mkSignal v (subscribers sg)]> (sigs st)) st)).
Proof.
  intros Hs Hne Ho. split.
  - split; simpl; eauto. rewrite length_insert. lia.
  - intros m mm H. left. simpl in H. eapply lookup_lt_Some, H.
  - intros new H. simpl in H. apply app_inv_head in H. subst new.
    constructor; [| constructor]. simpl in *.
    destruct Ho as [[H1 H2] | H]; [left | right; exact H].
    split; [simpl; rewrite length_insert; exact H1 | exact H2].
  - intros s' sg' new H L. simpl in L. apply app_inv_head in L. subst new.
    unfold sets_of, sig_value. simpl.
    destruct (Nat.eqb_spec s s') as [<- | Hn]; simpl.
    + rewrite Hs in H. injection H as <-.
      rewrite list_lookup_insert_eq by (eapply lookup_lt_Some, Hs). auto.
    + rewrite list_lookup_insert_ne by exact Hn. rewrite H. auto.
Qed.

Lemma returns_held_bind (o : outcome) (f : ret -> State -> outcome) (st : State) :
  returns o (held st) ->
  (forall r st1, held st st1 -> returns (f r st1) (held st1)) ->
  returns (o >>= f) (held st).
Proof.
  intros Ho Hf. destruct o as [| r st1 | err st1]; simpl in *; auto.
  eapply returns_impl; [apply Hf, Ho |].
  intros st2 H2. eapply held_trans; eauto.
Qed.

Lemma returns_held_after (o : outcome) (st st1 : State) :
  held st st1 -> returns o (held st1) -> returns o (held st).
Proof.
  intros H1 Ho. eapply returns_impl; [exact Ho |].
  intros st2 H2. eapply held_trans; eauto.
Qed.

Lemma returns_held_past (o : outcome) (st st1 : State) :
  frame st st1 -> kept st st1 -> returns o (held st1) -> returns o (held st).
Proof.
  intros F K Ho. eapply returns_impl; [exact Ho |].
  intros st2 H2. eapply held_after; eauto.
Qed.

Lemma absorb_held (o : outcome) (st : State) :
  returns o (held st) -> returns (absorb o) (held st).
Proof. destruct o; simpl; auto. Qed.

Lemma yields_returns (o : outcome) (P : State -> Prop) (Q : State -> ret -> Prop) :
  yields o P Q -> returns o P.
Proof. destruct o; simpl; tauto. Qed.

Lemma yields_held_bind (o : outcome) (f : ret -> State -> outcome) (st : State)
    (Q : State -> ret -> Prop) :
  returns o (held st) ->
  (forall r st1, held st st1 -> yields (f r st1) (held st1) Q) ->
  yields (o >>= f) (held st) Q.
Proof.
  intros Ho Hf. destruct o as [| r st1 | err st1]; simpl in *; auto.
  specialize (Hf r st1 Ho).
  destruct (f r st1) as [| r2 st2 | err2 st2]; simpl in *; auto.
  - destruct Hf as [H2 HQ]. split; [eapply held_trans; eauto | exact HQ].
  - eapply held_trans; eauto.
Qed.

Lemma yields_held_after (o : outcome) (st st1 : State) (Q : State -> ret -> Prop) :
  held st st1 -> yields o (held st1) Q -> yields o (held st) Q.
Proof.
  intros H1 Ho. destruct o as [| r2 st2 | err2 st2]; simpl in *; auto.
  - destruct Ho as [H2 HQ]. split; [eapply held_trans; eauto | exact HQ].
  - eapply held_trans; eauto.
Qed.

Lemma elem_of_pend_add (c : prog) (m : member) (ps : list member) :
  Fun c ∈ pend_add m ps -> Fun c ∈ ps \/ m = Fun c.
Proof.
  unfold pend_add. destruct m as [e | c'].
  - destruct (existsb _ ps); [auto |]. rewrite elem_of_app, list_elem_of_singleton.
    intros [H | H]; [auto | discriminate].
  - rewrite elem_of_app, list_elem_of_singleton. intros [H | H]; auto.
Qed.

Lemma pending_add_held (m : member) (st : State) :
  wf st -> sealed st ->
  (forall c, m = Fun c -> scoped (ordinary st) c) ->
  returns (pending_add m st) (held st).
Proof.
  intros Hwf Hs Hm. pose proof (pending_add_frame m st Hwf) as F. unfold pending_add in *.
  destruct (pending st) as [ps |] eqn:Hp; simpl in *; [| apply held_refl; assumption].
  split; [exact F |].
  apply (safe_same st _ [EvDefer m]); auto; simpl.
  intros ps' c E Hc. injection E as <-.
  destruct (elem_of_pend_add _ _ _ Hc) as [H | H]; [eapply s_pend; eauto | auto].
Qed.

Section Held.

Variable rec : prog -> State -> outcome.
Variable call : eid -> State -> outcome.
Hypothesis Frec : forall p st, wf st -> returns (rec p st) (frame st).
Hypothesis Fcall : forall e st, wf st -> returns (call e st) (frame st).
Hypothesis Hrec : forall p st,
  wf st -> sealed st -> scoped (ordinary st) p ->
  yields (rec p st) (held st) (fun st' => scoped_ret (ordinary st')).
Hypothesis Hcall : forall e st, wf st -> sealed st -> returns (call e st) (held st).

Lemma rec_held (p : prog) (st : State) :
  wf st -> sealed st -> scoped (ordinary st) p -> returns (rec p st) (held st).
Proof. intros. eapply yields_returns, Hrec; assumption. Qed.

Lemma notify_held (s : sid) (effects : list eid) (st : State) :
  wf st -> sealed st -> returns (notify call s effects st) (held st).
Proof.
  revert st. induction effects as [| e rest IH]; intros st Hwf Hs; simpl.
  - apply held_refl; assumption.
  - destruct (has_subscriber s e st); [| apply IH; assumption].
    apply returns_held_bind.
    + destruct (schedule st) as [[] |]; [| apply Hcall; assumption].
      apply pending_add_held; [assumption .. | discriminate].
    + intros _ st1 H1. apply IH; [eapply held_wf | eapply held_sealed]; eauto.
Qed.

(** A write: the signal is an ordinary one, or it is the output of a memo
    whose effect is the innermost one running and whose cached value is the
    new value already. *)
Lemma write_held (s : sid) (n : next) (st : State) :
  wf st ->
  (forall sg, sigs st !! s = Some sg ->
     Object_is (value sg) (candidate n (value sg)) = true -> sealed st) ->
  (forall sg, sigs st !! s = Some sg ->
     Object_is (value sg) (candidate n (value sg)) = false ->
     own_event st (EvSet s (candidate n (value sg)) (effectStack st)) /\
     sealed (set_sigs (<[s := mkSignal (candidate n (value sg)) (subscribers sg)]> (sigs st))
               st)) ->
  (sigs st !! s = None -> sealed st) ->
  returns (write call s n st) (held st).
Proof.
  intros Hwf Heq Hne Hno. unfold write. destruct (sigs st !! s) as [sg |] eqn:Hs;
    [| apply held_refl; auto].
  destruct (Object_is _ _) eqn:Ho; [apply held_refl; eauto |].
  destruct (Hne sg eq_refl Ho) as [Hown Hseal].
  set (st0 := set_sigs _ st) in *.
  assert (H0 : frame st st0).
  { apply frame_store; simpl; eauto.
    apply (sigs_insert_mono _ _ sg); [exact Hs | auto]. }
  assert (H1 : frame st0 (emit (EvSet s (candidate n (value sg)) (effectStack st)) st0)).
  { apply emit_frame; [apply H0 | exact I]. }
  assert (S1 : held st (emit (EvSet s (candidate n (value sg)) (effectStack st)) st0)).
  { split; [eapply frame_trans; eauto |]. split; [apply kept_set; assumption |].
    destruct Hseal; split; assumption. }
  eapply returns_held_after; [exact S1 |].
  apply notify_held; [apply H1 | apply S1].
Qed.

Lemma sealed_write (s : sid) (v : val) (sg : signal) (st : State) :
  sealed st -> sigs st !! s = Some sg -> ordinary st s ->
  sealed (set_sigs (<[s := mkSignal v (subscribers sg)]> (sigs st)) st).
Proof.
  intros Hs Hg [_ Ho]. apply (sealed_alike st); simpl; auto.
  - apply length_insert.
  - intros m mm H. unfold sig_value. simpl.
    rewrite list_lookup_insert_ne; [reflexivity |]. intros E. eapply Ho; eauto.
  - intros r rs' H. exists rs'. auto.
  - intros e ef' H. apply (s_effs _ Hs _ _ H).
  - intros ps c H. apply (s_pend _ Hs _ _ H).
Qed.

Lemma write_ordinary_held (s : sid) (n : next) (st : State) :
  wf st -> sealed st -> ordinary st s -> returns (write call s n st) (held st).
Proof.
  intros Hwf Hs Ho. apply write_held; auto.
  intros sg Hg _. split; [left; exact Ho | apply sealed_write; assumption].
Qed.

Lemma flush_held (effects : list member) (st : State) :
  wf st -> sealed st ->
  (forall c, Fun c ∈ effects -> scoped (ordinary st) c) ->
  returns (flush rec call effects st) (held st).
Proof.
  revert st. induction effects as [| [e | c] rest IH]; intros st Hwf Hs Hc; simpl.
  - apply held_refl; assumption.
  - apply returns_held_bind; [apply Hcall; assumption |].
    intros _ st1 H1. apply IH; [eapply held_wf | eapply held_sealed |]; eauto.
    intros c Hin. eapply held_scoped; [exact H1 |]. apply Hc. apply list_elem_of_further, Hin.
  - apply returns_held_bind; [apply rec_held; auto; apply Hc, list_elem_of_here |].
    intros _ st1 H1. apply IH; [eapply held_wf | eapply held_sealed |]; eauto.
    intros c' Hin. eapply held_scoped; [exact H1 |]. apply Hc. apply list_elem_of_further, Hin.
Qed.

(** [kept] and [sealed] look at the trace and the store only. *)
Lemma kept_conv (a a' b b' : State) :
  log a' = log a -> sigs a' = sigs a -> memos a' = memos a -> effs a' = effs a ->
  log b' = log b -> sigs b' = sigs b -> memos b' = memos b -> effs b' = effs b ->
  kept a b -> kept a' b'.
Proof.
  intros A1 A2 A3 A4 B1 B2 B3 B4.
  destruct a, a', b, b'; simpl in *; subst.
  intros [[Gl Gs Gm Ge] Fr O Ac].
  split; [split |..]; simpl in *; auto.
Qed.

Lemma sealed_conv (b b' : State) :
  sigs b' = sigs b -> memos b' = memos b -> ress b' = ress b -> effs b' = effs b ->
  (forall ps c, pending b' = Some ps -> Fun c ∈ ps ->
     exists ps0, pending b = Some ps0 /\ Fun c ∈ ps0) ->
  sealed b -> sealed b'.
Proof.
  intros B1 B2 B3 B4 B5 Hs. apply (sealed_alike b); auto.
  - rewrite B1. reflexivity.
  - intros m mm H. unfold sig_value. rewrite B1. reflexivity.
  - intros r rs' H. rewrite B3 in H. exists rs'. auto.
  - intros e ef' H. rewrite B4 in H. apply (s_effs _ Hs _ _ H).
  - intros ps c H Hc. destruct (B5 _ _ H Hc) as [ps0 [H0 Hc0]]. eapply s_pend; eauto.
Qed.

Lemma batch_held (f : State -> outcome) (st : State) :
  wf st ->
  returns (f (batch_enter st)) (held (batch_enter st)) ->
  returns (batch rec call f st) (held st).
Proof.
  intros Hwf Hf.
  pose proof (batch_enter_wf st Hwf) as W3.
  assert (El : log (batch_enter st) = log st /\ sigs (batch_enter st) = sigs st /\
               memos (batch_enter st) = memos st /\ effs (batch_enter st) = effs st).
  { unfold batch_enter. destruct (batchDepth st =? 0)%Z; repeat split; reflexivity. }
  destruct El as [El [Es [Em Ee]]].
  assert (Hx : forall st4, frame (batch_enter st) st4 ->
              returns (batch_exit rec call (schedule st) st4) (frame st)).
  { intros st4 H4. eapply (batch_exit_frame rec call Frec Fcall); eauto; unfold batch_enter;
      destruct (Z.eqb_spec (batchDepth st) 0); reflexivity. }
  assert (Hq : forall st4, held (batch_enter st) st4 ->
              returns (batch_exit rec call (schedule st) st4) (safe st4)).
  { intros st4 [F4 [K4 S4]]. unfold batch_exit. simpl.
    destruct (Z.eqb_spec (batchDepth st4 - 1) 0) as [Hz | Hz].
    - assert (Hd : batchDepth st = 0%Z).
      { pose proof (f_depth _ _ F4) as D. unfold batch_enter in D. simpl in D. lia. }
      assert (Hs : schedule st = None).
      { destruct Hwf as [[[_ [_ S0]] | [B _]] _ _ _]; [exact S0 | lia]. }
      pose proof (wf_drain (schedule st) (batchDepth st4 - 1)%Z st4 (f_wf _ _ F4) Hz Hs)
        as W5.
      match type of W5 with wf ?x => set (st5 := x) in * end.
      assert (S5 : safe st4 st5).
      { apply (safe_same _ _ []); auto; simpl; [symmetry; apply app_nil_r | discriminate]. }
      destruct (pending st4) as [L |] eqn:Hp; [| exact S5].
      assert (F5 : returns (flush rec call L st5) (held st5)).
      { apply flush_held; [exact W5 | apply S5 |].
        intros c Hc. apply (s_pend _ S4 _ _ Hp Hc). }
      eapply returns_impl; [exact F5 |].
      intros st6 [_ S6]. eapply safe_trans; eauto.
    - simpl. apply (safe_same _ _ []); auto; simpl; [symmetry; apply app_nil_r |].
      intros ps c H. apply (s_pend _ S4 _ _ H). }
  assert (Hk : forall st4 st5, held (batch_enter st) st4 -> safe st4 st5 -> safe st st5).
  { intros st4 st5 [_ [K4 _]] [K5 S5]. split; [| exact S5].
    eapply kept_trans; [| exact K5].
    eapply (kept_conv (batch_enter st) st st4 st4); eauto. }
  unfold batch.
  destruct (f (batch_enter st)) as [| r st4 | err st4]; simpl in Hf; auto;
    specialize (Hx st4 (proj1 Hf)); specialize (Hq st4 Hf);
    destruct (batch_exit rec call (schedule st) st4) as [| r5 st5 | err5 st5];
    simpl in *; auto; split; eauto.
Qed.

Lemma untrack_held (f : State -> outcome) (st : State) :
  wf st ->
  returns (f (set_currentEffect None st)) (held (set_currentEffect None st)) ->
  returns (untrack f st) (held st).
Proof.
  intros Hwf Hf. unfold untrack.
  assert (Hx : forall st4, held (set_currentEffect None st) st4 ->
              held st (set_currentEffect (currentEffect st) st4)).
  { intros st4 [[W4 S D C L U G E M T R] [K4 S4]]. simpl in *.
    split; [split; simpl; auto; eapply wf_same; eauto |]. split.
    - eapply (kept_conv (set_currentEffect None st) st st4); eauto.
    - eapply (sealed_conv st4); eauto. }
  destruct (f _); simpl in *; auto.
Qed.

Lemma forEach_cleanup_held (e : eid) (n i : nat) (st : State) :
  wf st -> sealed st -> returns (forEach_cleanup rec e n i st) (held st).
Proof.
  revert i st. induction n as [| n IH]; intros i st Hwf Hs; simpl.
  - apply held_refl; assumption.
  - destruct (effs st !! e ≫= _) as [c |] eqn:Hc; [| apply IH; assumption].
    assert (Hsc : scoped (ordinary st) c).
    { destruct (effs st !! e) as [ef |] eqn:He; [| discriminate]. simpl in Hc.
      destruct (s_effs _ Hs _ _ He) as [_ Hall].
      rewrite Forall_forall in Hall. apply Hall. eapply list_elem_of_lookup_2, Hc. }
    apply returns_held_bind; [apply rec_held; assumption |].
    intros _ st1 H. apply IH; [eapply held_wf | eapply held_sealed]; eauto.
Qed.

Lemma sealed_batch_enter (st : State) : sealed st -> sealed (batch_enter st).
Proof.
  intros Hs. apply (sealed_conv st); auto;
    try (unfold batch_enter; destruct (batchDepth st =? 0)%Z; reflexivity).
  intros ps c H Hc. unfold batch_enter in H.
  destruct (batchDepth st =? 0)%Z; simpl in H; [| eauto].
  injection H as <-. inversion Hc.
Qed.

Lemma ordinary_batch_enter (st : State) (s : sid) :
  ordinary st s -> ordinary (batch_enter st) s.
Proof. unfold batch_enter. destruct (batchDepth st =? 0)%Z; auto. Qed.

Lemma guarded_batch_held (t : tid) (s : sid) (v : val) (st : State) :
  wf st -> sealed st -> ordinary st s ->
  returns (batch rec call (guarded_write call t s v) st) (held st).
Proof.
  intros Hwf Hs Ho. apply batch_held; [exact Hwf |].
  pose proof (batch_enter_wf st Hwf) as W0.
  pose proof (sealed_batch_enter st Hs) as S0.
  unfold guarded_write. destruct (is_aborted t _).
  - apply held_refl; assumption.
  - apply write_ordinary_held; auto. apply ordinary_batch_enter, Ho.
Qed.

Lemma settle_held (r : rid) (t : tid) (res : settlement) (st : State) :
  wf st -> sealed st -> returns (settle rec call r t res st) (held st).
Proof.
  intros Hwf Hs. unfold settle. destruct (ress st !! r) as [rs |] eqn:Hr;
    [| apply held_refl; assumption].
  destruct (s_ress _ Hs _ _ Hr) as [Od [Ol [Oe _]]].
  assert (Hb : forall s v st1, ordinary st s -> held st st1 ->
            returns (batch rec call (guarded_write call t s v) st1) (held st)).
  { intros s v st1 Ho H1. eapply returns_held_after; [exact H1 |].
    apply guarded_batch_held; [eapply held_wf | eapply held_sealed |
                               eapply held_ordinary]; eauto. }
  apply absorb_held.
  assert (Htried : returns
    match res with
    | Resolved result => batch rec call (guarded_write call t (data rs) result) st
    | Rejected err => Thrown err st
    end (held st)).
  { destruct res; [apply guarded_batch_held; assumption | apply held_refl; assumption]. }
  destruct (match res with Resolved _ => _ | Rejected _ => _ end)
    as [| r1 st1 | err st1]; simpl in Htried; simpl; [exact I | |].
  - apply Hb; assumption.
  - pose proof (Hb (error rs) err st1 Oe Htried) as Hc.
    destruct (batch rec call (guarded_write call t (error rs) err) st1)
      as [| r2 st2 | err2 st2]; simpl in Hc; simpl; [exact I | |].
    + apply Hb; assumption.
    + pose proof (Hb (loading rs) (VBool false) st2 Ol Hc) as Hl.
      destruct (batch rec call (guarded_write call t (loading rs) (VBool false)) st2);
        simpl in *; auto.
Qed.

Lemma refetch_start_safe (r : rid) (rs : resource) (st : State) :
  sealed st -> ress st !! r = Some rs ->
  safe st (new_controller r (match controller rs with Some t => abort t st | None => st end)).
Proof.
  intros Hs Hr.
  apply (safe_quietly _ _ []); auto.
  - destruct (controller rs); simpl; symmetry; apply app_nil_r.
  - destruct (controller rs); reflexivity.
  - intros s sg H. unfold sig_value. destruct (controller rs); simpl; rewrite H; reflexivity.
  - destruct (controller rs); reflexivity.
  - intros x rs' H.
    assert (H' : alter (fun x0 => mkResource (data x0) (loading x0) (error x0) (fetcher x0)
                          (Some (length (tokens
                             (match controller rs with Some t => abort t st | None => st end)))))
                   r (ress st) !! x = Some rs').
    { destruct (controller rs); exact H. }
    clear H. destruct (decide (x = r)) as [-> | Hne].
    + rewrite list_lookup_alter_eq, Hr in H'. simpl in H'. injection H' as <-.
      exists rs. simpl. auto.
    + rewrite list_lookup_alter_ne in H' by auto. exists rs'. auto.
  - intros e ef H. exists ef. destruct (controller rs); simpl; auto.
  - intros e ef' H. apply (s_effs _ Hs e ef'). destruct (controller rs); exact H.
  - intros ps c H. apply (s_pend _ Hs ps c). destruct (controller rs); exact H.
Qed.

Lemma refetch_held (r : rid) (st : State) :
  wf st -> sealed st -> returns (refetch rec call r st) (held st).
Proof.
  intros Hwf Hs. unfold refetch. destruct (ress st !! r) as [rs |] eqn:Hr;
    [| apply held_refl; assumption].
  destruct (s_ress _ Hs _ _ Hr) as [Od [Ol [Oe Of]]].
  assert (H3 : held st
    (new_controller r (match controller rs with Some t => abort t st | None => st end))).
  { split; [apply refetch_start_frame; assumption | apply refetch_start_safe; assumption]. }
  apply absorb_held. eapply returns_held_after; [exact H3 |].
  pose proof (held_wf _ _ H3) as W3. pose proof (held_sealed _ _ H3) as S3.
  apply returns_held_bind.
  - apply batch_held; [exact W3 |].
    pose proof (batch_enter_wf _ W3) as W0. pose proof (sealed_batch_enter _ S3) as S0.
    apply returns_held_bind.
    + apply write_ordinary_held; auto. apply ordinary_batch_enter.
      eapply held_ordinary; eauto.
    + intros _ st' H'. apply write_ordinary_held;
        [eapply held_wf | eapply held_sealed |]; eauto.
      eapply held_ordinary; [exact H' |]. apply ordinary_batch_enter.
      eapply held_ordinary; eauto.
  - intros _ st4 H4.
    pose proof (held_wf _ _ H4) as W4. pose proof (held_sealed _ _ H4) as S4.
    assert (Sf : scoped (ordinary st4) (fetcher rs)).
    { eapply held_scoped; [exact H4 |]. eapply held_scoped; [exact H3 | exact Of]. }
    pose proof (rec_held (fetcher rs) st4 W4 S4 Sf) as Hf.
    destruct (rec (fetcher rs) st4) as [| r5 st5 | err st5]; simpl in Hf; simpl; auto.
    eapply returns_held_after; [exact Hf |].
    apply settle_held; [eapply held_wf | eapply held_sealed]; eauto.
Qed.

Lemma batch_enter_store (st : State) :
  log (batch_enter st) = log st /\ sigs (batch_enter st) = sigs st /\
  memos (batch_enter st) = memos st /\ effs (batch_enter st) = effs st /\
  ress (batch_enter st) = ress st /\ effectStack (batch_enter st) = effectStack st.
Proof. unfold batch_enter. destruct (batchDepth st =? 0)%Z; repeat split; reflexivity. Qed.

(** The memo stores a new value: the cache first, then the signal. *)
Lemma kept_memos_alter (m : mid) (g : memo -> memo) (st : State) :
  (forall x, out (g x) = out x) ->
  kept st (set_memos (alter g m (memos st)) st).
Proof.
  intros Hg. apply (kept_quietly _ _ []); simpl; auto.
  - split; simpl; eauto; [exists []; symmetry; apply app_nil_r |].
    intros m0 mm H. destruct (decide (m0 = m)) as [-> | Hne].
    + rewrite list_lookup_alter_eq, H. simpl. eauto.
    + rewrite list_lookup_alter_ne by auto. eauto.
  - symmetry. apply app_nil_r.
  - apply length_alter.
  - intros s sg H. apply sig_value_lookup, H.
Qed.

Lemma sealed_cache (m : mid) (mm : memo) (g : memo -> memo) (st st' : State) :
  sealed st -> memos st !! m = Some mm ->
  (forall x, out (g x) = out x) ->
  length (sigs st') = length (sigs st) ->
  memos st' = alter g m (memos st) ->
  sig_value (out mm) st' = cached (g mm) ->
  (forall s, s <> out mm -> sig_value s st' = sig_value s st) ->
  ress st' = ress st -> effs st' = effs st ->
  (forall ps c, pending st' = Some ps -> Fun c ∈ ps ->
     exists ps0, pending st = Some ps0 /\ Fun c ∈ ps0) ->
  sealed st'.
Proof.
  intros Hs Hm Hg Hl Hms Hv Hother Hr He Hp.
  assert (Hlk : forall m0 mm', memos st' !! m0 = Some mm' ->
            exists mm0, memos st !! m0 = Some mm0 /\ out mm' = out mm0 /\
              (m0 = m -> mm0 = mm /\ mm' = g mm) /\ (m0 <> m -> mm' = mm0)).
  { intros m0 mm' H. rewrite Hms in H. destruct (decide (m0 = m)) as [-> | Hne].
    - rewrite list_lookup_alter_eq, Hm in H. simpl in H. injection H as <-.
      exists mm. rewrite Hg. intuition congruence.
    - rewrite list_lookup_alter_ne in H by auto. exists mm'. intuition congruence. }
  apply (sealed_memos st); auto.
  - intros m0 mm' H. destruct (Hlk _ _ H) as [mm0 [H0 [O _]]]. eauto.
  - intros m0 mm' H. destruct (Hlk _ _ H) as [mm0 [H0 [O [A B]]]].
    destruct (decide (m0 = m)) as [-> | Hne].
    + destruct (A eq_refl) as [-> ->]. rewrite Hg. exact Hv.
    + rewrite (B Hne). rewrite Hother; [eapply s_agree; eauto |].
      intros E. apply Hne. eapply (s_inj _ Hs); eauto.
  - intros r rs' H. rewrite Hr in H. exists rs'. auto.
  - intros e ef' H. rewrite He in H. apply (s_effs _ Hs _ _ H).
  - intros ps c H Hc. destruct (Hp _ _ H Hc) as [ps0 [H0 Hc0]]. eapply s_pend; eauto.
Qed.

Lemma memo_fn_held (m : mid) (f : prog) (st : State) :
  wf st -> sealed st -> scoped (ordinary st) f ->
  memo_on_top st m (effectStack st) ->
  returns (memo_fn rec call m f st) (held st).
Proof.
  intros Hwf Hs Hsc Htop. unfold memo_fn.
  apply returns_held_bind; [apply rec_held; assumption |].
  intros r st1 H1.
  pose proof (held_wf _ _ H1) as W1. pose proof (held_sealed _ _ H1) as S1.
  assert (Htop1 : memo_on_top st1 m (effectStack st1)).
  { destruct Htop as [e [ef [f0 [Ht [He Hf]]]]]. destruct H1 as [F1 _].
    destruct (f_effs _ _ F1 _ _ He) as [ef' [He' [Hf' _]]].
    exists e, ef', f0. rewrite (f_stack _ _ F1). split; [exact Ht |].
    split; [exact He' | congruence]. }
  destruct (memos st1 !! m) as [mm |] eqn:Hm; [| apply held_refl; assumption].
  destruct (negb _ || negb _) eqn:Hc; [| apply held_refl; assumption].
  set (g := fun x => mkMemo (initialized x) (ret_val r) (out x)).
  set (st2 := set_memos (alter g m (memos st1)) st1).
  assert (F2 : frame st1 st2) by (apply set_memos_frame; [auto | exact W1]).
  assert (K2 : kept st1 st2) by (apply kept_memos_alter; auto).
  pose proof (f_wf _ _ F2) as W2.
  eapply (returns_held_past _ st1 st2); [exact F2 | exact K2 |].
  assert (W2' : wf (set_currentEffect None st2)) by (eapply wf_same; eauto).
  pose proof (batch_enter_wf _ W2') as W3.
  set (S := batch_enter (set_currentEffect None st2)) in *.
  assert (Es : sigs S = sigs st1) by apply (batch_enter_store (set_currentEffect None st2)).
  assert (Em : memos S = alter g m (memos st1))
    by apply (batch_enter_store (set_currentEffect None st2)).
  assert (Ee : effs S = effs st1) by apply (batch_enter_store (set_currentEffect None st2)).
  assert (Er : ress S = ress st1) by apply (batch_enter_store (set_currentEffect None st2)).
  assert (Ek : effectStack S = effectStack st1)
    by apply (batch_enter_store (set_currentEffect None st2)).
  assert (Ep : forall ps c, pending S = Some ps ->
            Fun c ∈ ps -> exists ps0, pending st1 = Some ps0 /\ Fun c ∈ ps0).
  { intros ps c H Hx. unfold S, batch_enter in H. simpl in H.
    destruct (batchDepth st1 =? 0)%Z; simpl in H; [| eauto].
    injection H as <-. inversion Hx. }
  pose proof (s_outs _ S1 _ _ Hm) as Hout.
  assert (Hg : forall x, out (g x) = out x) by reflexivity.
  apply returns_held_bind.
  - apply untrack_held; [exact W2 |]. apply batch_held; [exact W2' |]. fold S.
    apply write_held; [exact W3 | | |].
    + intros sg Hsg Ho. simpl in Ho. apply Object_is_eq in Ho.
      apply (sealed_cache m mm g st1 S S1 Hm Hg);
        [rewrite Es; reflexivity | exact Em | | | exact Er | exact Ee | exact Ep].
      * unfold sig_value. rewrite Hsg. simpl. congruence.
      * intros s _. unfold sig_value. rewrite Es. reflexivity.
    + intros sg Hsg Ho. simpl in Ho. split.
      * right. exists m, (g mm). rewrite Em.
        rewrite list_lookup_alter_eq, Hm. simpl. split; [reflexivity |].
        split; [reflexivity |].
        change (memo_on_top S m (effectStack S)).
        unfold memo_on_top. rewrite Ek, Ee. exact Htop1.
      * apply (sealed_cache m mm g st1 _ S1 Hm Hg);
          [cbn [sigs set_sigs]; rewrite length_insert, Es; reflexivity | exact Em | |
          | exact Er | exact Ee | exact Ep].
        -- unfold sig_value. cbn [sigs set_sigs].
           rewrite list_lookup_insert_eq; [reflexivity |]. rewrite Es. exact Hout.
        -- intros s Hne. unfold sig_value. cbn [sigs set_sigs].
           rewrite list_lookup_insert_ne by auto. rewrite Es. reflexivity.
    + intros Hsg. rewrite Es in Hsg. apply lookup_ge_None in Hsg. lia.
  - intros _ st3 H3. simpl.
    pose proof (held_wf _ _ H3) as W3'. pose proof (held_sealed _ _ H3) as S3.
    split; [apply set_memos_frame; [auto | exact W3'] |].
    split; [apply kept_memos_alter; auto |].
    destruct (memos st3 !! m) as [mm3 |] eqn:Hm3.
    + apply (sealed_cache m mm3 (fun x => mkMemo true (cached x) (out x)) st3 _ S3 Hm3);
        [reflexivity | reflexivity | reflexivity | | intros; reflexivity | reflexivity
        | reflexivity | intros; eauto].
      exact (s_agree _ S3 _ _ Hm3).
    + apply (sealed_conv st3); simpl; auto; [| intros; eauto].
      apply list_eq. intros i. destruct (decide (i = m)) as [-> | Hne].
      * rewrite list_lookup_alter_eq, Hm3. reflexivity.
      * rewrite list_lookup_alter_ne by auto. reflexivity.
Qed.

(** What the runtime's own functions return is not a function. *)
Lemma batch_value (f : State -> outcome) (st : State) (r : ret) (st' : State) :
  batch rec call f st = Done r st' -> r = undefined.
Proof.
  unfold batch. destruct (f (batch_enter st)); try discriminate;
    destruct (batch_exit _ _ _ _); simpl; try discriminate; congruence.
Qed.

Lemma settle_value (x : rid) (t : tid) (res : settlement) (st : State) (r : ret)
    (st' : State) :
  settle rec call x t res st = Done r st' -> r = undefined.
Proof.
  unfold settle. destruct (ress st !! x) as [rs |]; [| congruence].
  match goal with |- absorb ?o = _ -> _ =>
    assert (Ho : forall r st', o = Done r st' -> r = undefined) end.
  { intros r0 st0.
    destruct (match res with Resolved _ => _ | Rejected _ => _ end) as [| r1 st1 | e1 st1];
      try discriminate; [apply batch_value |].
    destruct (batch rec call (guarded_write call t (error rs) e1) st1) as [| r2 st2 | e2 st2];
      try discriminate; [apply batch_value |].
    destruct (batch rec call (guarded_write call t (loading rs) (VBool false)) st2);
      simpl; discriminate. }
  match goal with |- absorb ?o = _ -> _ => destruct o eqn:E end; simpl;
    try discriminate; [| congruence].
  intros H. injection H as <- <-. eapply Ho. reflexivity.
Qed.

Lemma refetch_value (x : rid) (st : State) (r : ret) (st' : State) :
  refetch rec call x st = Done r st' -> r = undefined.
Proof.
  unfold refetch. destruct (ress st !! x) as [rs |]; [| congruence].
  match goal with |- absorb ?o = _ -> _ => destruct o as [| r1 st1 | e1 st1] eqn:E end;
    simpl; try discriminate; [| congruence].
  intros H. injection H as <- <-.
  destruct (batch rec call _ _) as [| r2 st2 | e2 st2]; simpl in E; try discriminate.
  destruct (rec (fetcher rs) st2) as [| r3 st3 | e3 st3]; try discriminate;
    [congruence | eapply settle_value; eauto].
Qed.

Lemma memo_fn_value (m : mid) (f : prog) (st : State) (r : ret) (st' : State) :
  memo_fn rec call m f st = Done r st' -> r = undefined.
Proof.
  unfold memo_fn. destruct (rec f st) as [| r0 st1 | e0 st1]; simpl; try discriminate.
  destruct (memos st1 !! m); [| congruence].
  destruct (negb _ || negb _); [| congruence].
  destruct (untrack _ _); simpl; try discriminate; congruence.
Qed.

Lemma yields_value (o : outcome) (P : State -> Prop) (Q : State -> ret -> Prop) :
  returns o P -> (forall r st', o = Done r st' -> r = undefined) ->
  (forall st', Q st' undefined) -> yields o P Q.
Proof.
  intros Ho Hv HQ. destruct o as [| r st' | e st']; simpl in *; auto.
  split; [exact Ho |]. rewrite (Hv r st' eq_refl). apply HQ.
Qed.

Lemma run_fn_held (b : body) (st : State) :
  wf st -> sealed st -> scoped_body (ordinary st) b ->
  (forall m f, b = MemoFn m f -> memo_on_top st m (effectStack st)) ->
  yields (run_fn rec call b st) (held st) (fun st' => scoped_ret (ordinary st')).
Proof.
  intros Hwf Hs Hb Htop. destruct b as [f | m f | r deps]; simpl in *.
  - apply Hrec; assumption.
  - apply yields_value; [| apply memo_fn_value | intros; exact I].
    apply memo_fn_held; eauto.
  - apply yields_value; [| | intros; exact I].
    + apply returns_held_bind; [apply rec_held; assumption |].
      intros _ st1 H1. apply refetch_held; [eapply held_wf | eapply held_sealed]; eauto.
    + intros r0 st'. destruct (rec deps st); simpl; try discriminate.
      apply refetch_value.
Qed.

Lemma set_cleanup_safe (e : eid) (g : list prog -> list prog) (st : State) :
  sealed st ->
  (forall ef, effs st !! e = Some ef -> Forall (scoped (ordinary st)) (g (cleanup ef))) ->
  safe st (set_cleanup e g st).
Proof.
  intros Hs Hg. apply (safe_quietly _ _ []); simpl; auto.
  - symmetry. apply app_nil_r.
  - intros s sg H. apply sig_value_lookup, H.
  - intros r rs' H. exists rs'. auto.
  - intros x ef H. destruct (decide (x = e)) as [-> | Hne].
    + rewrite list_lookup_alter_eq, H. simpl. eauto.
    + rewrite list_lookup_alter_ne by auto. eauto.
  - intros x ef' H. destruct (decide (x = e)) as [-> | Hne].
    + rewrite list_lookup_alter_eq in H. destruct (effs st !! e) as [ef |] eqn:He;
        [| discriminate]. simpl in H. injection H as <-. simpl.
      split; [apply (s_effs _ Hs _ _ He) | apply Hg; reflexivity].
    + rewrite list_lookup_alter_ne in H by auto. apply (s_effs _ Hs _ _ H).
  - intros ps c H. apply (s_pend _ Hs _ _ H).
Qed.

Lemma set_cleanup_held (e : eid) (g : list prog -> list prog) (st : State) :
  wf st -> sealed st ->
  (forall ef, effs st !! e = Some ef -> Forall (scoped (ordinary st)) (g (cleanup ef))) ->
  held st (set_cleanup e g st).
Proof.
  intros Hwf Hs Hg. split; [apply set_cleanup_frame, Hwf | apply set_cleanup_safe; auto].
Qed.

Lemma last_snoc_eid (l : list eid) (e : eid) : last (l ++ [e]) = Some e.
Proof. apply last_snoc. Qed.

(** The closure of an effect. *)
Lemma effect_call_held (e : eid) (st : State) :
  wf st -> sealed st -> returns (effect_call rec call e st) (held st).
Proof.
  intros Hwf Hs.
  pose proof (effect_call_frame rec call Frec Fcall e st Hwf) as Hc.
  assert (Hq : returns (effect_call rec call e st) (safe st)).
  { clear Hc. unfold effect_call.
    assert (Hno : safe st (emit (EvInvoke e (length (effectStack st)) false) st)).
    { apply (safe_same _ _ [EvInvoke e (length (effectStack st)) false]); auto.
      intros ps c H. apply (s_pend _ Hs _ _ H). }
    destruct (effs st !! e) as [ef |] eqn:He; [| exact Hno].
    destruct (disposed ef); [exact Hno |]. clear Hno.
    set (st1 := set_currentEffect (Some e) _).
    assert (W1 : wf st1) by (subst st1; eapply wf_same; eauto).
    assert (S1 : safe st st1).
    { apply (safe_same _ _ [EvInvoke e (length (effectStack st)) true]); auto.
      intros ps c H. apply (s_pend _ Hs _ _ H). }
    assert (Hpop : forall st', held st1 st' ->
      safe st (set_currentEffect (last (removelast (effectStack st')))
                 (set_effectStack (removelast (effectStack st')) st'))).
    { intros st' [F [K S]]. eapply safe_trans; [exact S1 |].
      eapply safe_trans; [split; [exact K | exact S] |].
      apply (safe_same _ _ []); auto; simpl; [symmetry; apply app_nil_r |].
      intros ps c H. apply (s_pend _ S _ _ H). }
    match goal with |- returns (finally ?c _) _ =>
      assert (Hc : returns c (held st1)) end.
    { match goal with |- returns (match ?t with _ => _ end) _ =>
        assert (Ht : returns t (held st1)) end.
      { apply returns_held_bind; [apply forEach_cleanup_held; [exact W1 | apply S1] |].
        intros _ st2 H2.
        pose proof (held_wf _ _ H2) as W2. pose proof (held_sealed _ _ H2) as S2.
        assert (H3 : held st2 (set_cleanup e (fun _ => []) st2))
          by (apply set_cleanup_held; auto).
        pose proof (held_wf _ _ H3) as W3. pose proof (held_sealed _ _ H3) as S3.
        eapply returns_held_after; [exact H3 |].
        destruct (f_effs _ _ (proj1 H2) e ef He) as [ef2 [He2 [Hf2 _]]].
        assert (He3 : effs (set_cleanup e (fun _ => []) st2) !! e
                      = Some (mkEffect (fn ef2) (disposed ef2) [])).
        { unfold set_cleanup. simpl. rewrite list_lookup_alter_eq, He2. reflexivity. }
        assert (Hy : yields (run_fn rec call (fn ef) (set_cleanup e (fun _ => []) st2))
                       (held (set_cleanup e (fun _ => []) st2))
                       (fun st' => scoped_ret (ordinary st'))).
        { apply run_fn_held; auto.
          - rewrite <- Hf2. apply (s_effs _ S3 _ _ He3).
          - intros m f Hb. exists e, (mkEffect (fn ef2) (disposed ef2) []), f.
            split; [| split; [exact He3 | simpl; congruence]].
            simpl. rewrite (f_stack _ _ (proj1 H2)). subst st1. simpl.
            apply last_snoc_eid. }
        destruct (run_fn rec call (fn ef) _) as [| result st4 | err st4];
          simpl in Hy |- *; auto.
        destruct Hy as [H4 Hr].
        pose proof (held_wf _ _ H4) as W4. pose proof (held_sealed _ _ H4) as S4.
        destruct result as [v | c]; simpl; [exact H4 |].
        eapply held_trans; [exact H4 |].
        { apply set_cleanup_held; auto. intros ef4 He4.
          apply Forall_app. split; [apply (s_effs _ S4 _ _ He4) |].
          constructor; [exact Hr | constructor]. } }
      destruct (forEach_cleanup _ _ _ _ _ >>= _) as [| r2 st2 | err st2];
        simpl in Ht; simpl; auto.
      eapply held_trans; [exact Ht |].
      split; [apply emit_frame; [apply Ht | exact I] |].
      apply (safe_same _ _ [EvError e err]); auto; [apply Ht |].
      intros ps c H. apply (s_pend _ (held_sealed _ _ Ht) _ _ H). }
    destruct (match _ with Thrown _ _ => _ | _ => _ end) as [| r2 st2 | err st2];
      simpl in Hc; simpl; [exact I | apply Hpop, Hc ..]. }
  destruct (effect_call rec call e st); simpl in *; unfold held; auto.
Qed.

Lemma effs_app_held (x : effect) (st : State) :
  wf st -> sealed st ->
  scoped_body (ordinary st) (fn x) -> Forall (scoped (ordinary st)) (cleanup x) ->
  held st (set_effs (effs st ++ [x]) st).
Proof.
  intros Hwf Hs Hb Hc. split; [apply effs_app_frame, Hwf |].
  apply (safe_quietly _ _ []); simpl; auto.
  - symmetry. apply app_nil_r.
  - intros s sg H. apply sig_value_lookup, H.
  - intros r rs' H. exists rs'. auto.
  - intros e ef H. exists ef. split; [| reflexivity]. apply lookup_app_l_Some, H.
  - intros e ef' H. apply lookup_app_Some in H.
    destruct H as [H | [_ H]]; [apply (s_effs _ Hs _ _ H) |].
    apply list_lookup_singleton_Some in H. destruct H as [_ <-]. auto.
  - intros ps c H. apply (s_pend _ Hs _ _ H).
Qed.

Lemma onClimax_held (b : body) (st : State) :
  wf st -> sealed st -> scoped_body (ordinary st) b ->
  returns (onClimax rec call b st) (held st).
Proof.
  intros Hwf Hs Hb. unfold onClimax. apply returns_done.
  assert (H1 : held st (set_effs (effs st ++ [mkEffect b false []]) st)).
  { apply effs_app_held; auto. }
  pose proof (held_wf _ _ H1) as W1. pose proof (held_sealed _ _ H1) as S1.
  eapply returns_held_after; [exact H1 |].
  apply batch_held; [exact W1 |].
  apply Hcall; [apply batch_enter_wf, W1 | apply sealed_batch_enter, S1].
Qed.

Lemma dispose_held (e : eid) (st : State) :
  wf st -> sealed st -> returns (dispose rec e st) (held st).
Proof.
  intros Hwf Hs. unfold dispose.
  set (st1 := set_effs _ st).
  assert (H1 : held st st1).
  { split; [apply frame_store; simpl; eauto; apply effs_alter_mono; simpl; auto |].
    apply (safe_quietly _ _ []); simpl; auto.
    - symmetry. apply app_nil_r.
    - intros s sg H. apply sig_value_lookup, H.
    - intros r rs' H. exists rs'. auto.
    - intros x ef H. destruct (decide (x = e)) as [-> | Hne].
      + rewrite list_lookup_alter_eq, H. simpl. eauto.
      + rewrite list_lookup_alter_ne by auto. eauto.
    - intros x ef' H. destruct (decide (x = e)) as [-> | Hne].
      + rewrite list_lookup_alter_eq in H. destruct (effs st !! e) as [ef |] eqn:He;
          [| discriminate]. simpl in H. injection H as <-. simpl.
        apply (s_effs _ Hs _ _ He).
      + rewrite list_lookup_alter_ne in H by auto. apply (s_effs _ Hs _ _ H).
    - intros ps c H. apply (s_pend _ Hs _ _ H). }
  pose proof (held_wf _ _ H1) as W1. pose proof (held_sealed _ _ H1) as S1.
  eapply returns_held_after; [exact H1 |].
  apply returns_held_bind; [apply forEach_cleanup_held; assumption |].
  intros _ st2 H2. simpl.
  apply set_cleanup_held; [eapply held_wf | eapply held_sealed |]; eauto.
Qed.

(** The invariant, carried to a state with more signals, memos, resources
    or effects. *)
Lemma sealed_next (st st' : State) :
  sealed st ->
  length (sigs st) <= length (sigs st') ->
  (forall m mm', memos st' !! m = Some mm' ->
     (exists mm, memos st !! m = Some mm /\ out mm' = out mm) \/
     (length (sigs st) <= out mm' /\ out mm' < length (sigs st') /\
      forall m2 mm2, memos st' !! m2 = Some mm2 -> out mm2 = out mm' -> m2 = m)) ->
  (forall m mm', memos st' !! m = Some mm' -> sig_value (out mm') st' = cached mm') ->
  (forall r rs', ress st' !! r = Some rs' ->
     ordinary st (data rs') /\ ordinary st (loading rs') /\ ordinary st (error rs') /\
     scoped (ordinary st) (fetcher rs')) ->
  (forall e ef', effs st' !! e = Some ef' ->
     scoped_body (ordinary st) (fn ef') /\ Forall (scoped (ordinary st)) (cleanup ef')) ->
  (forall ps c, pending st' = Some ps -> Fun c ∈ ps -> scoped (ordinary st) c) ->
  sealed st'.
Proof.
  intros Hs Hl Hm Ha Hr He Hp.
  assert (Ho : forall s, ordinary st s -> ordinary st' s).
  { intros s [H1 H2]. split; [lia |]. intros m mm' H.
    destruct (Hm _ _ H) as [[mm [H' ->]] | [Hn _]]; [eapply H2, H' | lia]. }
  split.
  - intros m mm' H. destruct (Hm _ _ H) as [[mm [H' ->]] | [_ [Hn _]]]; [| exact Hn].
    pose proof (s_outs _ Hs _ _ H'). lia.
  - intros m m' mm1 mm2 H1 H2 E.
    destruct (Hm _ _ H1) as [[x1 [X1 O1]] | [_ [_ U1]]];
      [| symmetry; eapply U1; eauto].
    destruct (Hm _ _ H2) as [[x2 [X2 O2]] | [_ [_ U2]]]; [| eapply U2; eauto].
    eapply (s_inj _ Hs); eauto. congruence.
  - exact Ha.
  - intros r rs' H. destruct (Hr _ _ H) as [A [B [C D]]].
    repeat split; try (apply Ho; assumption). eapply scoped_mono; eauto.
  - intros e ef' H. destruct (He _ _ H) as [A B]. split.
    + eapply scoped_body_mono; eauto.
    + eapply Forall_impl; [exact B |]. intros c. apply scoped_mono, Ho.
  - intros ps c H Hc. eapply scoped_mono; [exact Ho | eapply Hp; eauto].
Qed.

Lemma sigs_app_held (l : list signal) (st : State) :
  wf st -> sealed st -> held st (set_sigs (sigs st ++ l) st).
Proof.
  intros Hwf Hs. split; [apply sigs_app_frame, Hwf |].
  assert (Hv : forall s sg, sigs st !! s = Some sg ->
            sig_value s (set_sigs (sigs st ++ l) st) = value sg).
  { intros s sg H. unfold sig_value. simpl. rewrite (lookup_app_l_Some _ _ _ _ H).
    reflexivity. }
  split.
  - apply (kept_quietly _ _ []); simpl; auto; [| symmetry; apply app_nil_r].
    split; simpl; eauto; [exists []; symmetry; apply app_nil_r |].
    rewrite length_app. lia.
  - apply (sealed_next st); simpl; auto.
    + rewrite length_app. lia.
    + intros m mm' H. left. eauto.
    + intros m mm' H. pose proof (s_outs _ Hs _ _ H) as Ho.
      destruct (lookup_lt_is_Some_2 _ _ Ho) as [sg Hsg].
      rewrite (Hv _ _ Hsg). rewrite <- (s_agree _ Hs _ _ H).
      symmetry. apply sig_value_lookup, Hsg.
    + intros r rs' H. apply (s_ress _ Hs _ _ H).
    + intros e ef' H. apply (s_effs _ Hs _ _ H).
    + intros ps c H. apply (s_pend _ Hs _ _ H).
Qed.

Lemma ordinary_new (st st' : State) (s : sid) :
  sealed st -> length (sigs st) <= s -> s < length (sigs st') -> memos st' = memos st ->
  ordinary st' s.
Proof.
  intros Hs H1 H2 Hm. split; [exact H2 |]. intros m mm H. rewrite Hm in H.
  pose proof (s_outs _ Hs _ _ H). lia.
Qed.

(** knotMemo, up to the call of onClimax. *)
Lemma knotMemo_setup_held (st : State) :
  wf st -> sealed st ->
  held st (set_sigs (sigs st ++ [mkSignal VUndef []])
             (set_memos (memos st ++ [mkMemo false VUndef (length (sigs st))]) st)).
Proof.
  intros Hwf Hs.
  set (st1 := set_memos _ st). set (st2 := set_sigs _ st1).
  assert (F : frame st st2).
  { eapply frame_trans; [apply memos_app_frame, Hwf |].
    apply (sigs_app_frame [mkSignal VUndef []] st1).
    apply (f_wf st), memos_app_frame, Hwf. }
  assert (Hv : forall s sg, sigs st !! s = Some sg -> sig_value s st2 = value sg).
  { intros s sg H. unfold sig_value. simpl. rewrite (lookup_app_l_Some _ _ _ _ H).
    reflexivity. }
  assert (Hnew : forall m mm', memos st2 !! m = Some mm' ->
            memos st !! m = Some mm' \/
            (m = length (memos st) /\ mm' = mkMemo false VUndef (length (sigs st)))).
  { intros m mm' H. simpl in H. apply lookup_app_Some in H.
    destruct H as [H | [Hge H]]; [left; exact H | right].
    apply list_lookup_singleton_Some in H. destruct H as [H <-]. split; [lia | reflexivity]. }
  split; [exact F |]. split.
  - split.
    + apply frame_grows, F.
    + intros m mm H. destruct (Hnew _ _ H) as [H' | [-> ->]].
      * left. eapply lookup_lt_Some, H'.
      * right. simpl. lia.
    + intros new H. simpl in H. rewrite <- (app_nil_r (log st)) in H at 1.
      apply app_inv_head in H. subst new. constructor.
    + intros s sg new H L. simpl in L. rewrite <- (app_nil_r (log st)) in L at 1.
      apply app_inv_head in L. subst new. simpl. split; [exact I | apply Hv, H].
  - apply (sealed_next st); auto.
    + simpl. rewrite length_app. lia.
    + intros m mm' H. destruct (Hnew _ _ H) as [H' | [-> ->]]; [left; eauto | right].
      simpl. rewrite length_app. simpl. split; [lia |]. split; [lia |].
      intros m2 mm2 H2 E. destruct (Hnew _ _ H2) as [H2' | [-> _]]; [| reflexivity].
      pose proof (s_outs _ Hs _ _ H2'). simpl in E. lia.
    + intros m mm' H. destruct (Hnew _ _ H) as [H' | [-> ->]].
      * pose proof (s_outs _ Hs _ _ H') as Ho.
        destruct (lookup_lt_is_Some_2 _ _ Ho) as [sg Hsg].
        rewrite (Hv _ _ Hsg). rewrite <- (s_agree _ Hs _ _ H').
        symmetry. apply sig_value_lookup, Hsg.
      * unfold sig_value. simpl. rewrite lookup_app_r by lia.
        rewrite Nat.sub_diag. reflexivity.
    + intros r rs' H. apply (s_ress _ Hs _ _ H).
    + intros e ef' H. apply (s_effs _ Hs _ _ H).
    + intros ps c H. apply (s_pend _ Hs _ _ H).
Qed.

Lemma knotMemo_held (f : prog) (st : State) :
  wf st -> sealed st -> scoped (ordinary st) f ->
  returns (knotMemo rec call f st) (held st).
Proof.
  intros Hwf Hs Hf. unfold knotMemo, createMoan. apply returns_done.
  pose proof (knotMemo_setup_held st Hwf Hs) as H2.
  eapply returns_held_after; [exact H2 |].
  apply onClimax_held; [eapply held_wf | eapply held_sealed |]; eauto.
  simpl. eapply held_scoped; eauto.
Qed.

Lemma ress_app_held (d l e : sid) (f : prog) (st : State) :
  wf st -> sealed st ->
  ordinary st d -> ordinary st l -> ordinary st e -> scoped (ordinary st) f ->
  held st (set_ress (ress st ++ [mkResource d l e f None]) st).
Proof.
  intros Hwf Hs Hd Hl He Hf. split; [apply ress_app_frame, Hwf |]. split.
  - apply (kept_quietly _ _ []); simpl; auto; [| symmetry; apply app_nil_r |].
    + split; simpl; eauto. exists []. symmetry. apply app_nil_r.
    + intros s sg H. apply sig_value_lookup, H.
  - apply (sealed_next st); simpl; auto.
    + intros m mm' H. left. eauto.
    + intros m mm' H. apply (s_agree _ Hs _ _ H).
    + intros r rs' H. apply lookup_app_Some in H.
      destruct H as [H | [_ H]]; [apply (s_ress _ Hs _ _ H) |].
      apply list_lookup_singleton_Some in H. destruct H as [_ <-]. simpl. auto.
    + intros x ef' H. apply (s_effs _ Hs _ _ H).
    + intros ps c H. apply (s_pend _ Hs _ _ H).
Qed.

Lemma microtasks_held (x : list rid) (st : State) :
  wf st -> sealed st -> held st (set_microtasks x st).
Proof.
  intros Hwf Hs. split; [apply microtasks_frame, Hwf |].
  apply (safe_same _ _ []); simpl; auto; [symmetry; apply app_nil_r |].
  intros ps c H. apply (s_pend _ Hs _ _ H).
Qed.

Lemma loadShot_held (f : prog) (deps : option prog) (init : val) (st : State) :
  wf st -> sealed st -> scoped (ordinary st) f ->
  (forall dp, deps = Some dp -> scoped (ordinary st) dp) ->
  returns (loadShot rec call f deps init st) (held st).
Proof.
  intros Hwf Hs Hf Hd. unfold loadShot.
  set (st1 := set_sigs _ st). set (st2 := set_ress _ st1).
  assert (H1 : held st st1) by (apply sigs_app_held; assumption).
  pose proof (held_wf _ _ H1) as W1. pose proof (held_sealed _ _ H1) as S1.
  assert (Hn : forall k, k < 3 -> ordinary st1 (length (sigs st) + k)).
  { intros k Hk. apply (ordinary_new st); auto; [lia |].
    subst st1. simpl. rewrite length_app. simpl. lia. }
  assert (H2 : held st1 st2).
  { apply (ress_app_held _ _ _ _ _ W1 S1);
      [rewrite <- (Nat.add_0_r (length (sigs st))) | | |]; try (apply Hn; lia).
    eapply held_scoped; eauto. }
  pose proof (held_wf _ _ H2) as W2. pose proof (held_sealed _ _ H2) as S2.
  destruct deps as [dp |].
  - apply returns_done.
    eapply returns_held_after; [exact H1 |].
    eapply returns_held_after; [exact H2 |].
    apply onClimax_held; auto. simpl.
    eapply held_scoped; [exact H2 |]. eapply held_scoped; [exact H1 |]. auto.
  - simpl. eapply held_trans; [exact H1 |]. eapply held_trans; [exact H2 |].
    apply microtasks_held; assumption.
Qed.

Lemma read_held (s : sid) (st : State) : wf st -> sealed st -> held st (read s st).2.
Proof.
  intros Hwf Hs. split; [apply read_frame, Hwf |].
  unfold read. destruct (sigs st !! s) as [sg |] eqn:Hg;
    [| split; [apply kept_refl | exact Hs]].
  destruct (currentEffect st); simpl; [| split; [apply kept_refl | exact Hs]].
  apply (safe_quietly _ _ []); simpl; auto.
  - symmetry. apply app_nil_r.
  - apply length_insert.
  - intros s' sg' H. unfold sig_value. simpl. destruct (decide (s = s')) as [<- | Hne].
    + rewrite list_lookup_insert_eq by (eapply lookup_lt_Some, Hg). simpl. congruence.
    + rewrite list_lookup_insert_ne by auto. rewrite H. reflexivity.
  - intros r rs' H. exists rs'. auto.
  - intros e ef H. eauto.
  - intros e ef' H. apply (s_effs _ Hs _ _ H).
  - intros ps c H. apply (s_pend _ Hs _ _ H).
Qed.

Lemma disposeShot_held (r : rid) (st : State) :
  wf st -> sealed st -> held st (disposeShot r st).
Proof.
  intros Hwf Hs. split; [apply disposeShot_frame, Hwf |].
  unfold disposeShot. destruct (ress st !! r ≫= controller);
    [| split; [apply kept_refl | exact Hs]].
  apply (safe_same _ _ []); simpl; auto; [symmetry; apply app_nil_r |].
  intros ps c H. apply (s_pend _ Hs _ _ H).
Qed.

Lemma step_held (p : prog) (st : State) :
  wf st -> sealed st -> scoped (ordinary st) p ->
  yields (step rec call p st) (held st) (fun st' => scoped_ret (ordinary st')).
Proof.
  intros Hwf Hs Hsc.
  assert (Hk : forall st1 q, held st st1 -> scoped (ordinary st) q ->
            yields (rec q st1) (held st1) (fun st' => scoped_ret (ordinary st'))).
  { intros st1 q H Hq. apply Hrec; [eapply held_wf | eapply held_sealed |
                                    eapply held_scoped]; eauto. }
  destruct p; cbn [step]; simpl in Hsc.
  - split; [apply held_refl; assumption | exact I].
  - split; [apply held_refl; assumption | exact Hsc].
  - apply held_refl; assumption.
  - pose proof (read_held s st Hwf Hs) as H.
    destruct (read s st) as [v st1]. simpl in H.
    eapply yields_held_after; [exact H |]. apply Hk; auto.
  - destruct Hsc as [Ho Hq]. apply yields_held_bind;
      [apply write_ordinary_held; assumption |].
    intros ? st1 H. apply Hk; assumption.
  - destruct Hsc as [Ho Hq]. apply yields_held_bind;
      [apply write_ordinary_held; assumption |].
    intros ? st1 H. apply Hk; assumption.
  - pose proof (sigs_app_held [mkSignal init []] st Hwf Hs) as H.
    unfold createMoan. eapply yields_held_after; [exact H |].
    apply Hrec; [eapply held_wf | eapply held_sealed |]; eauto.
    eapply scoped_mono; [| apply Hsc]. simpl. intros x [-> | Hx].
    + apply (ordinary_new st); auto. simpl. rewrite length_app. simpl. lia.
    + eapply held_ordinary; eauto.
  - destruct Hsc as [Hf Hq]. apply yields_held_bind; [apply onClimax_held; assumption |].
    intros ? st1 H. apply Hk; auto.
  - apply yields_held_bind; [apply dispose_held; assumption |].
    intros ? st1 H. apply Hk; auto.
  - destruct Hsc as [Hf Hq]. apply yields_held_bind; [apply knotMemo_held; assumption |].
    intros ? st1 H. apply Hk; auto.
  - destruct Hsc as [Hf Hq]. apply yields_held_bind.
    + apply batch_held; [exact Hwf |]. apply rec_held;
        [apply batch_enter_wf, Hwf | apply sealed_batch_enter, Hs |].
      eapply scoped_mono; [| exact Hf]. intros x. apply ordinary_batch_enter.
    + intros ? st1 H. apply Hk; auto.
  - destruct Hsc as [Hf Hq]. apply yields_held_bind.
    + apply untrack_held; [exact Hwf |]. apply rec_held; [eapply wf_same; eauto | | exact Hf].
      apply (sealed_conv st); auto. intros; eauto.
    + intros ? st1 H. apply Hk; auto.
  - destruct Hsc as [Hf Hq]. apply yields_held_bind;
      [apply loadShot_held; auto; discriminate |].
    intros ? st1 H. apply Hk; auto.
  - destruct Hsc as [Hf [Hd Hq]]. apply yields_held_bind;
      [apply loadShot_held; auto; intros dp E; injection E as <-; exact Hd |].
    intros ? st1 H. apply Hk; auto.
  - apply yields_held_bind; [apply refetch_held; assumption |].
    intros ? st1 H. apply Hk; auto.
  - pose proof (disposeShot_held r st Hwf Hs) as H.
    eapply yields_held_after; [exact H |]. apply Hk; auto.
  - destruct Hsc as [Hc Hq]. apply yields_held_bind.
    + apply pending_add_held; auto. intros c' E. injection E as <-. exact Hc.
    + intros ? st1 H. apply Hk; auto.
  - destruct Hsc as [Hc Hq]. apply yields_held_bind.
    + destruct (0 <? batchDepth st)%Z; [| apply rec_held; assumption].
      apply pending_add_held; auto. intros c' E. injection E as <-. exact Hc.
    + intros ? st1 H. apply Hk; auto.
Qed.

End Held.

Lemma exec_invoke_held (fuel : nat) :
  (forall p st, wf st -> sealed st -> scoped (ordinary st) p ->
     yields (exec fuel p st) (held st) (fun st' => scoped_ret (ordinary st'))) /\
  (forall e st, wf st -> sealed st -> returns (invoke fuel e st) (held st)).
Proof.
  induction fuel as [| fuel [IHe IHi]]; [split; intros; exact I |].
  split; intros; simpl.
  - apply (step_held (exec fuel) (invoke fuel) (exec_frame fuel) (invoke_frame fuel)
             IHe IHi); assumption.
  - apply (effect_call_held (exec fuel) (invoke fuel) (exec_frame fuel) (invoke_frame fuel)
             IHe IHi); assumption.
Qed.

(** A callback with the setter of no memo's output in scope leaves the
    memos as the runtime keeps them, and every change of a signal that it
    causes is the change of an ordinary signal or is made by the effect of
    the memo whose output the signal is. *)
Lemma exec_held (fuel : nat) (p : prog) (st : State) :
  wf st -> sealed st -> scoped (ordinary st) p ->
  returns (exec fuel p st) (held st).
Proof. intros. eapply yields_returns, exec_invoke_held; assumption. Qed.

(** ** Closed states are well formed *)

Lemma wf_initial : wf initial.
Proof.
  split; simpl.
  - left. auto.
  - discriminate.
  - intros t tk H. rewrite lookup_nil in H. discriminate.
  - intros r rs t H. rewrite lookup_nil in H. discriminate.
Qed.

Lemma idle_initial : idle initial.
Proof. split; [apply wf_initial | reflexivity ..]. Qed.

Lemma ends_frame (fuel : nat) (p : prog) (st st' : State) :
  wf st -> ends (exec fuel p st) st' -> frame st st'.
Proof.
  intros Hwf H. pose proof (exec_frame fuel p st Hwf) as F.
  destruct (exec fuel p st); simpl in *; [contradiction | subst; exact F ..].
Qed.

Lemma state_after_frame (fuel : nat) (p : prog) (st : State) :
  wf st -> frame st (state_after fuel p st).
Proof.
  intros Hwf. unfold state_after. pose proof (exec_frame fuel p st Hwf) as F.
  destruct (exec fuel p st); simpl in *; [apply frame_refl, Hwf | exact F ..].
Qed.

Lemma frame_idle (st st' : State) :
  idle st -> frame st st' -> microtasks st' = [] -> idle st'.
Proof.
  intros [W D S C M] F M'. split.
  - apply F.
  - rewrite (f_depth _ _ F). exact D.
  - rewrite (f_stack _ _ F). exact S.
  - destruct (f_cur _ _ F) as [H | H]; rewrite H; [exact C | rewrite S; reflexivity].
  - exact M'.
Qed.

(** ** Signals: writes of the value already held *)

(** C3. A write whose candidate value (the literal, or the updater applied to
    the previous value) is Object.is-equal to the value the signal holds
    returns at once and leaves the whole state as it was: the stored value,
    every subscriber set, the pending set and the trace of effect calls are
    unchanged, whatever the subscribers are. *)
Theorem C3_write_of_equal_value_is_identity
    (call : eid -> State -> outcome) (s : sid) (n : next) (sg : signal) (st : State) :
  sigs st !! s = Some sg ->
  Object_is (value sg) (candidate n (value sg)) = true ->
  write call s n st = Done undefined st.
Proof.
  intros Hs Heq. unfold write. rewrite Hs, Heq. reflexivity.
Qed.

Lemma C3_write_of_equal_value_witness :
  write (invoke 10) 0 (Lit (VNum 5)) five = Done undefined five /\
  write (invoke 10) 0 (Upd (fun v => v)) five = Done undefined five.
Proof.
  split.
  - apply (C3_write_of_equal_value_is_identity (invoke 10) 0 (Lit (VNum 5))
             (mkSignal (VNum 5) [0]) five); reflexivity.
  - apply (C3_write_of_equal_value_is_identity (invoke 10) 0 (Upd (fun v => v))
             (mkSignal (VNum 5) [0]) five); reflexivity.
Defined.

(** ** Batches *)

Lemma only_effects (ps : list member) :
  functions_of ps = [] -> ps = map Eff (effects_of ps).
Proof.
  induction ps as [| [e | c] ps IH]; simpl; intros H; [reflexivity | | discriminate].
  rewrite <- IH by exact H. reflexivity.
Qed.

Lemma effects_of_elem (e : eid) (l : list member) : e ∈ effects_of l <-> Eff e ∈ l.
Proof.
  induction l as [| [x | c] l IH]; simpl.
  - rewrite !elem_of_nil. tauto.
  - rewrite !elem_of_cons, IH. split; intros [H | H]; auto; left; congruence.
  - rewrite elem_of_cons, IH. split; [auto | intros [H | H]; [discriminate | exact H]].
Qed.

Section Drain.

Variable rec : prog -> State -> outcome.
Variable call : eid -> State -> outcome.
Hypothesis Hcall : forall e st, wf st -> returns (call e st) (called e st).
Hypothesis Hcatch : forall e st err st', call e st <> Thrown err st'.

(** The loop that empties the pending set calls its members in order,
    each once; anything else that runs, runs inside one of these calls. *)
Lemma flush_calls_in_order (effects : list eid) (st st' : State) :
  wf st ->
  ends (flush rec call (map Eff effects) st) st' ->
  frame st st' /\
  exists new, log st' = log st ++ new /\
    invoked_at (length (effectStack st)) new = effects.
Proof.
  revert st. induction effects as [| e rest IH]; intros st Hwf H; simpl in H.
  - subst st'. split; [apply frame_refl, Hwf |].
    exists []. rewrite app_nil_r. auto.
  - pose proof (Hcall e st Hwf) as Hc. pose proof (Hcatch e st) as Hn.
    destruct (call e st) as [| r st1 | err st1]; simpl in H, Hc;
      [contradiction | | exfalso; eapply Hn; reflexivity].
    destruct Hc as [F [live [tail [L P]]]].
    destruct (IH st1 (f_wf _ _ F) H) as [F' [new [L' I']]].
    split; [eapply frame_trans; eauto |].
    exists (EvInvoke e (length (effectStack st)) live :: tail ++ new).
    split.
    + rewrite L', L, <- app_assoc. reflexivity.
    + simpl. rewrite Nat.eqb_refl, invoked_at_app, (deeper_invoked _ _ P).
      simpl. f_equal. rewrite <- (f_stack _ _ F). exact I'.
Qed.

End Drain.

Lemma invoke_never_throws (fuel : nat) (e : eid) (st : State) (err : val) (st' : State) :
  invoke fuel e st <> Thrown err st'.
Proof.
  destruct fuel; simpl; [discriminate | apply effect_call_never_throws].
Qed.

Lemma count_occ_once (l : list nat) (x : nat) :
  NoDup l -> x ∈ l -> count_occ Nat.eq_dec l x = 1.
Proof.
  intros Hn Hx.
  apply NoDup_count_occ'; [apply NoDup_ListNoDup, Hn | apply list_elem_of_In, Hx].
Qed.

(** With a batch open, a write that changes the value hands every
    subscriber of the signal to the scheduling function, in subscription
    order, and runs none. *)
Lemma notify_defers (call : eid -> State -> outcome) (s : sid) (effects : list eid)
    (st : State) (ps : list member) :
  schedule st = Some Defer -> pending st = Some ps ->
  (forall e, In e effects -> has_subscriber s e st = true) ->
  exists st',
    notify call s effects st = Done undefined st' /\
    log st' = log st ++ map (fun e => EvDefer (Eff e)) effects /\
    pending st' = Some (adds (map Eff effects) ps) /\
    sigs st' = sigs st.
Proof.
  revert st ps. induction effects as [| e rest IH]; intros st ps Hs Hp Hsub; simpl.
  - exists st. rewrite app_nil_r. auto.
  - rewrite (Hsub e (or_introl eq_refl)), Hs. unfold pending_add. rewrite Hp. simpl.
    set (st1 := emit (EvDefer (Eff e)) (set_pending (Some (pend_add (Eff e) ps)) st)).
    assert (Hsub1 : forall x, In x rest -> has_subscriber s x st1 = true).
    { intros x Hx. unfold has_subscriber. simpl. apply (Hsub x). right. exact Hx. }
    destruct (IH st1 (pend_add (Eff e) ps) Hs eq_refl Hsub1) as [st' [H1 [H2 [H3 H4]]]].
    exists st'. split; [exact H1 |]. split; [| auto].
    rewrite H2. simpl. rewrite <- app_assoc. reflexivity.
Qed.

Lemma write_schedules_subscribers (call : eid -> State -> outcome) (s : sid) (n : next)
    (sg : signal) (st : State) (ps : list member) :
  sigs st !! s = Some sg ->
  Object_is (value sg) (candidate n (value sg)) = false ->
  schedule st = Some Defer -> pending st = Some ps ->
  exists st',
    write call s n st = Done undefined st' /\
    log st' = log st ++ EvSet s (candidate n (value sg)) (effectStack st) ::
               map (fun e => EvDefer (Eff e)) (subscribers sg) /\
    pending st' = Some (adds (map Eff (subscribers sg)) ps) /\
    sig_value s st' = candidate n (value sg).
Proof.
  intros Hs Hne Hd Hp. unfold write. rewrite Hs, Hne.
  set (st1 := emit _ _).
  assert (Hlk : sigs st1 !! s = Some (mkSignal (candidate n (value sg)) (subscribers sg))).
  { subst st1. simpl. apply list_lookup_insert_eq. eapply lookup_lt_Some, Hs. }
  assert (Hsub : forall e, In e (subscribers sg) -> has_subscriber s e st1 = true).
  { intros e He. unfold has_subscriber. rewrite Hlk. simpl.
    apply set_has_elem, list_elem_of_In, He. }
  destruct (notify_defers call s (subscribers sg) st1 ps Hd Hp Hsub)
    as [st' [H1 [H2 [H3 H4]]]].
  exists st'. split; [exact H1 |]. split; [| split; [exact H3 |]].
  - rewrite H2. subst st1. simpl. rewrite <- app_assoc. reflexivity.
  - unfold sig_value. rewrite H4, Hlk. reflexivity.
Qed.


Lemma wf_cascade_state : wf cascade_state.
Proof. apply (f_wf initial), state_after_frame, wf_initial. Defined.

Lemma wf_five : wf five.
Proof. apply (f_wf initial), state_after_frame, wf_initial. Defined.



(** ** Subscriber sets *)

(** C5, as the code has it.  Nothing removes an effect from a subscriber
    set: an effect that is in the set of a signal is still in it after any
    later call into the runtime that returns or throws, be it a write, a
    run of the effect that no longer reads the signal, a batch, or the
    disposal of the effect. *)
Theorem C5_subscribers_are_never_removed
    (fuel : nat) (p : prog) (st st' : State) (s : sid) (e : eid) :
  wf st ->
  ends (exec fuel p st) st' ->
  e ∈ sig_subscribers s st ->
  e ∈ sig_subscribers s st'.
Proof.
  intros Hwf H He. pose proof (ends_frame _ _ _ _ Hwf H) as F.
  unfold sig_subscribers in *.
  destruct (sigs st !! s) as [sg |] eqn:Hs; [| inversion He].
  destruct (f_sigs _ _ F _ _ Hs) as [sg' [Hs' Hsub]].
  rewrite Hs'. apply Hsub, He.
Qed.

Lemma wf_stale_before : wf stale_before.
Proof. apply (f_wf initial), state_after_frame, wf_initial. Defined.

Lemma C5_subscribers_witness :
  wf stale_before /\ 0 ∈ sig_subscribers 0 stale_before /\
  0 ∈ sig_subscribers 0 stale_state.
Proof.
  split; [exact wf_stale_before |].
  assert (H : 0 ∈ sig_subscribers 0 stale_before) by (vm_compute; repeat constructor).
  split; [exact H |].
  apply (C5_subscribers_are_never_removed 20 stale_rest stale_before stale_state 0 0
           wf_stale_before); [vm_compute; reflexivity | exact H].
Defined.

(** C5, as stated, fails.  Effect 0 has been disposed and signal 0 has
    fired twice since; the effect is still in the subscriber set of the
    signal. *)
Lemma C5_disposed_effect_stays_subscribed :
  is_disposed 0 stale_state = true /\
  0 ∈ sig_subscribers 0 stale_state /\
  ~ no_disposed_subscriber stale_state.
Proof.
  assert (H : 0 ∈ sig_subscribers 0 stale_state) by (vm_compute; repeat constructor).
  split; [vm_compute; reflexivity |]. split; [exact H |].
  intros Hno. specialize (Hno 0 0 H). vm_compute in Hno. discriminate.
Qed.

(** The same without disposal: the effect stops reading s when flag becomes
    false, and still every later write of s runs it; it is in the subscriber
    set of s after those runs as before. *)
Lemma stale_subscription_outlives_its_runs :
  exists st',
    exec 20 conditional_reader initial = Done (RVal VUndef) st' /\
    sig_value 0 st' = VBool false /\
    log st' = [EvInvoke 0 0 true;
               EvSet 0 (VBool false) []; EvInvoke 0 0 true;
               EvSet 1 (VNum 1) []; EvInvoke 0 0 true;
               EvSet 1 (VNum 2) []; EvInvoke 0 0 true] /\
    sig_subscribers 1 st' = [0].
Proof. eexists. split; [vm_compute; reflexivity |]. repeat split. Qed.

(** ** Memos *)

Lemma sealed_initial : sealed initial.
Proof.
  split; simpl; intros *; rewrite ?lookup_nil; try discriminate.
Qed.

(** The states that scoped callbacks reach are sealed. *)
Lemma state_after_held (fuel : nat) (p : prog) (st : State) :
  wf st -> sealed st -> scoped (ordinary st) p -> held st (state_after fuel p st).
Proof.
  intros Hwf Hs Hp. unfold state_after. pose proof (exec_held fuel p st Hwf Hs Hp) as H.
  destruct (exec fuel p st); simpl in *; [apply held_refl; assumption | exact H ..].
Qed.

Lemma wf_memo_settled : wf memo_settled.
Proof. apply (f_wf initial), state_after_frame, wf_initial. Defined.

Lemma sealed_memo_settled : sealed memo_settled.
Proof.
  apply (held_sealed initial), state_after_held;
    [exact wf_initial | exact sealed_initial |].
  simpl. intros s. split; intros; exact I.
Defined.

(** The trees of the model name signals by number.  A tree that names the
    output signal of a memo as the target of a write stands for no program
    of the source, where the setter of that signal is a local variable of
    knotMemo; it is not scoped, and it does change the signal from outside
    the effect of the memo. *)
Lemma unscoped_write_reaches_the_output :
  ~ scoped (ordinary memo_settled) (Write 1 (VNum 42) skip) /\
  exists st',
    exec 20 (Write 1 (VNum 42) skip) memo_settled = Done (RVal VUndef) st' /\
    log st' = log memo_settled ++ [EvSet 1 (VNum 42) []] /\
    sig_value 1 st' = VNum 42.
Proof.
  split.
  - intros [[_ H] _]. apply (H 0 (mkMemo true (VNum 1) 1)); reflexivity.
  - eexists. split; [vm_compute; reflexivity |]. split; reflexivity.
Qed.



(** The run of the witness: the output signal changes at s = 2 and at
    s = 5, both times with effect 0, the effect of the memo, running alone;
    at s = 4 the memo's effect runs and changes nothing. *)
Lemma memo_flips_trace :
  log memo_flipped = log memo_settled ++
    [EvSet 0 (VNum 2) []; EvInvoke 0 0 true; EvSet 1 (VNum 0) [0];
     EvSet 0 (VNum 4) []; EvInvoke 0 0 true;
     EvSet 0 (VNum 5) []; EvInvoke 0 0 true; EvSet 1 (VNum 1) [0]] /\
  memos memo_flipped = [mkMemo true (VNum 1) 1] /\
  sig_value 1 memo_flipped = VNum 1.
Proof. vm_compute. repeat split. Qed.

(** ** Effects that throw *)

(** What holds of every call of an effect: it returns, whatever the body
    threw, and it leaves the effect stack as it found it. *)
Lemma effect_call_restores_stack (fuel : nat) (e : eid) (st st' : State) :
  wf st -> ends (invoke fuel e st) st' ->
  effectStack st' = effectStack st /\
  (exists r, invoke fuel e st = Done r st') /\
  forall s x, x ∈ sig_subscribers s st -> x ∈ sig_subscribers s st'.
Proof.
  intros Hwf H. pose proof (invoke_frame fuel e st Hwf) as F.
  pose proof (invoke_never_throws fuel e st) as Hn.
  destruct (invoke fuel e st) as [| r st1 | err st1]; simpl in *;
    [contradiction | subst st1 | exfalso; eapply Hn; reflexivity].
  split; [apply F |]. split; [eauto |].
  intros s x Hx. unfold sig_subscribers in *.
  destruct (sigs st !! s) as [sg |] eqn:Hs; [| inversion Hx].
  destruct (f_sigs _ _ F _ _ Hs) as [sg' [Hs' Hsub]].
  rewrite Hs'. apply Hsub, Hx.
Qed.

(** C7 at the failing input.  Effect 1 is running and has entered untrack,
    so there is no current effect; a write makes effect 0 run, and its body
    throws.  The error is caught and logged, the stack is back at depth 1
    and effect 0 is still subscribed, but the current effect is now effect 1
    and no longer what it was before the call.  Seen from outside: after
    g.write(1) effect 1 is subscribed to t, which it reads only inside
    untrack. *)
Theorem C7_current_effect_not_restored_inside_untrack :
  currentEffect inside_untrack = None /\
  effectStack inside_untrack = [1] /\
  (exists st',
     invoke 5 0 inside_untrack = Done undefined st' /\
     effectStack st' = [1] /\
     last (log st') = Some (EvError 0 (VStr "boom")) /\
     0 ∈ sig_subscribers 1 st' /\
     currentEffect st' = Some 1) /\
  sig_subscribers 2 throwing_state = [] /\
  sig_subscribers 2 (state_after 20 (Write 0 (VNum 1) skip) throwing_state) = [1].
Proof.
  split; [reflexivity |]. split; [reflexivity |]. split.
  - eexists. split; [vm_compute; reflexivity |].
    split; [reflexivity |]. split; [reflexivity |].
    split; [vm_compute; repeat constructor | reflexivity].
  - split; vm_compute; reflexivity.
Qed.

(** ** Resources *)

(** A batch whose body does nothing, entered with no batch open, leaves the
    state as it was. *)
Lemma batch_of_nothing (rec : prog -> State -> outcome)
    (call : eid -> State -> outcome) (f : State -> outcome)
    (r : ret) (st : State) :
  batchDepth st = 0%Z -> pending st = None -> schedule st = None ->
  f (batch_enter st) = Done r (batch_enter st) ->
  batch rec call f st = Done undefined st.
Proof.
  intros Hd Hp Hs Hf. unfold batch. rewrite Hf.
  unfold batch_exit, batch_enter. destruct st; simpl in *. subst. reflexivity.
Qed.

Lemma is_aborted_batch_enter (t : tid) (st : State) :
  is_aborted t (batch_enter st) = is_aborted t st.
Proof. unfold batch_enter. destruct (batchDepth st =? 0)%Z; reflexivity. Qed.

Lemma guarded_write_aborted (call : eid -> State -> outcome) (t : tid) (s : sid)
    (v : val) (st : State) :
  is_aborted t st = true -> guarded_write call t s v st = Done undefined st.
Proof. intros H. unfold guarded_write. rewrite H. reflexivity. Qed.

(** The settlement of a fetch whose signal has fired writes nothing: with no
    batch open it leaves the state as it was, whether the fetch resolved or
    rejected, the [finally] block included. *)
Lemma settle_aborted (rec : prog -> State -> outcome)
    (call : eid -> State -> outcome) (r : rid) (t : tid)
    (res : settlement) (st : State) :
  batchDepth st = 0%Z -> pending st = None -> schedule st = None ->
  is_aborted t st = true ->
  settle rec call r t res st = Done undefined st.
Proof.
  intros Hd Hp Hs Ha. unfold settle. destruct (ress st !! r) as [rs |]; [| reflexivity].
  assert (Hb : forall s v, batch rec call (guarded_write call t s v) st = Done undefined st).
  { intros s v. apply (batch_of_nothing rec call _ undefined); auto.
    apply guarded_write_aborted. rewrite is_aborted_batch_enter. exact Ha. }
  destruct res; rewrite ?Hb; simpl; rewrite ?Hb; reflexivity.
Qed.

Lemma idle_batch (st : State) :
  idle st -> batchDepth st = 0%Z /\ pending st = None /\ schedule st = None.
Proof.
  intros [[Hb _ _ _] D _ _ _]. destruct Hb as [[_ [P S]] | [B _]]; [auto | lia].
Qed.

Lemma drain_frame (fuel : nat) (st st' : State) :
  wf st -> drain fuel st = Some st' -> frame st st' /\ microtasks st' = [].
Proof.
  revert st. induction fuel as [| n IH]; intros st Hwf H; simpl in H; [discriminate |].
  destruct (microtasks st) as [| r rest] eqn:Hm.
  - injection H as <-. split; [apply frame_refl, Hwf | exact Hm].
  - assert (F0 : frame st (set_microtasks rest st)) by apply microtasks_frame, Hwf.
    pose proof (refetch_frame (exec n) (invoke n) (exec_frame n) (invoke_frame n)
                  r _ (f_wf _ _ F0)) as F1.
    destruct (refetch _ _ r _) as [| r1 st1 | e1 st1]; simpl in F1; [discriminate | ..];
      destruct (IH st1 (f_wf _ _ F1) H) as [F2 M];
      (split; [| exact M]);
      eapply frame_trans; [exact F0 | eapply frame_trans; eauto | exact F0 |
                           eapply frame_trans; eauto].
Qed.

Lemma run_task_frame (fuel : nat) (t : task) (st st' : State) :
  idle st -> run_task fuel t st = Some st' -> frame st st' /\ idle st'.
Proof.
  intros Hi H. pose proof (idle_wf _ Hi) as Hwf. unfold run_task in H.
  match type of H with match ?o with _ => _ end = _ =>
    assert (Ho : returns o (frame st)) end.
  { destruct t as [p | tok res]; [apply exec_frame, Hwf |].
    destruct (token_owner tok st); [| simpl; apply frame_refl, Hwf].
    apply settle_frame; [apply exec_frame | apply invoke_frame | exact Hwf]. }
  match type of H with match ?o with _ => _ end = _ => destruct o as [| r1 st1 | e1 st1] end;
    simpl in Ho; [discriminate | ..];
    destruct (drain_frame _ _ _ (f_wf _ _ Ho) H) as [F M];
    assert (F' : frame st st') by (eapply frame_trans; eauto);
    (split; [exact F' | eapply frame_idle; eauto]).
Qed.

Lemma run_tasks_frame (fuel : nat) (ts : list task) (st st' : State) :
  idle st -> run_tasks fuel ts st = Some st' -> frame st st' /\ idle st'.
Proof.
  revert st. induction ts as [| t rest IH]; intros st Hi H; simpl in H.
  - injection H as <-. split; [apply frame_refl, Hi | exact Hi].
  - destruct (run_task fuel t st) as [st1 |] eqn:H1; [| discriminate].
    destruct (run_task_frame _ _ _ _ Hi H1) as [F1 I1].
    destruct (IH _ I1 H) as [F2 I2]. split; [eapply frame_trans; eauto | exact I2].
Qed.

Lemma run_tasks_app (fuel : nat) (ts1 ts2 : list task) (st : State) :
  run_tasks fuel (ts1 ++ ts2) st =
  match run_tasks fuel ts1 st with
  | Some st1 => run_tasks fuel ts2 st1
  | None => None
  end.
Proof.
  revert st. induction ts1 as [| t rest IH]; intros st; simpl; [reflexivity |].
  destruct (run_task fuel t st); [apply IH | reflexivity].
Qed.

Lemma frame_aborted (t : tid) (st st' : State) :
  frame st st' -> is_aborted t st = true -> is_aborted t st' = true.
Proof.
  intros F H. unfold is_aborted in *.
  destruct (tokens st !! t) as [tk |] eqn:Ht; [| discriminate].
  destruct (f_tokens _ _ F _ _ Ht) as [tk' [Ht' [_ Ha]]]. rewrite Ht'. auto.
Qed.

(** The settlement task of a fetch whose signal has fired changes nothing. *)
Lemma run_task_settle_aborted (fuel : nat) (t : tid) (res : settlement) (st : State) :
  idle st -> is_aborted t st = true ->
  run_task (S fuel) (Settle t res) st = Some st.
Proof.
  intros Hi Ha. destruct (idle_batch _ Hi) as [D [P S']].
  unfold run_task.
  assert (Hs : match token_owner t st with
               | Some r => settle (exec (S fuel)) (invoke (S fuel)) r t res st
               | None => Done undefined st
               end = Done undefined st).
  { destruct (token_owner t st); [apply settle_aborted; auto | reflexivity]. }
  rewrite Hs. simpl. rewrite (idle_micro _ Hi). reflexivity.
Qed.

Lemma abort_abort (t : tid) (st : State) : abort t (abort t st) = abort t st.
Proof.
  unfold abort, set_tokens. simpl. f_equal. rewrite list_alter_alter_eq.
  apply list_alter_ext; [intros x _; reflexivity | reflexivity].
Qed.

(** refetch fires the signal of the controller it replaces. *)
Lemma refetch_aborts_previous (rec : prog -> State -> outcome)
    (call : eid -> State -> outcome) (r : rid) (rs : resource) (a : tid) (st : State) :
  (forall p st, wf st -> returns (rec p st) (frame st)) ->
  (forall e st, wf st -> returns (call e st) (frame st)) ->
  wf st -> ress st !! r = Some rs -> controller rs = Some a ->
  returns (refetch rec call r st) (fun st' => is_aborted a st' = true).
Proof.
  intros Hrec Hcall Hwf Hr Hc.
  assert (E : refetch rec call r st = refetch rec call r (abort a st)).
  { unfold refetch. simpl. rewrite Hr, Hc, abort_abort. reflexivity. }
  rewrite E.
  destruct (wf_ctrl _ Hwf _ _ _ Hr Hc) as [tk [Ht _]].
  eapply returns_impl.
  - apply refetch_frame; auto. apply (f_wf st), abort_frame, Hwf.
  - intros st' F. eapply frame_aborted; [exact F |].
    apply is_aborted_abort. eapply lookup_lt_Some, Ht.
Qed.

Lemma idle_shot_started : idle shot_started.
Proof.
  unfold shot_started, tasks_after.
  destruct (run_tasks 20 [Run shot_setup] initial) as [st' |] eqn:H.
  - apply (run_tasks_frame _ _ _ _ idle_initial H).
  - apply idle_initial.
Defined.

Lemma exec_refetch_aborts (n : nat) (r : rid) (rs : resource) (a : tid) (k : prog)
    (st : State) :
  wf st -> ress st !! r = Some rs -> controller rs = Some a ->
  returns (exec (S n) (Refetch r k) st) (frame st) /\
  returns (exec (S n) (Refetch r k) st) (fun st' => is_aborted a st' = true).
Proof.
  intros Hwf Hr Hc. split; [apply exec_frame, Hwf |].
  cbn [exec step].
  pose proof (refetch_aborts_previous (exec n) (invoke n) r rs a st
                (exec_frame n) (invoke_frame n) Hwf Hr Hc) as Ha.
  pose proof (refetch_frame (exec n) (invoke n) (exec_frame n) (invoke_frame n)
                r st Hwf) as Hf.
  destruct (refetch (exec n) (invoke n) r st) as [| r2 st2 | e2 st2];
    simpl in Ha, Hf |- *; auto.
  eapply returns_impl; [apply exec_frame, Hf |].
  intros st' F. eapply frame_aborted; eauto.
Qed.

(** Where the signal of a fetch has fired, its settlement can be deleted
    from any schedule of tasks: the run is the same. *)
Lemma aborted_settlement_can_be_erased (fuel : nat) (a : tid) (res : settlement)
    (before after : list task) (st : State) :
  idle st -> is_aborted a st = true ->
  run_tasks (S fuel) (before ++ Settle a res :: after) st
    = run_tasks (S fuel) (before ++ after) st.
Proof.
  intros Hi Ha. rewrite !run_tasks_app.
  destruct (run_tasks (S fuel) before st) as [st2 |] eqn:H2; [| reflexivity].
  destruct (run_tasks_frame _ _ _ _ Hi H2) as [F2 I2].
  cbn [run_tasks].
  rewrite (run_task_settle_aborted fuel a res st2 I2 (frame_aborted _ _ _ F2 Ha)).
  reflexivity.
Qed.

(** C4. Let fetch A be in flight (the controller of the resource is A's)
    when refetch is called again.  The call fires A's signal.  Wherever the
    settlement of A then falls in the schedule of later tasks, and whatever
    A settles with, the run is the one in which A never settles: A's
    settlement writes no signal, so what data, error and loading hold is
    what the later fetches wrote.  With one effect reading data: A starts,
    B starts, B resolves with "B", then A resolves with "A"; data holds
    "B", loading is false, error is null. *)
Theorem C4_superseded_fetch_writes_nothing
    (fuel : nat) (r : rid) (rs : resource) (a : tid) (res : settlement) (k : prog)
    (before after : list task) (st : State) :
  idle st ->
  ress st !! r = Some rs ->
  controller rs = Some a ->
  returns (exec (S fuel) (Refetch r k) st) (fun st' => is_aborted a st' = true) /\
  run_tasks fuel (Run (Refetch r k) :: before ++ Settle a res :: after) st
    = run_tasks fuel (Run (Refetch r k) :: before ++ after) st /\
  (sig_value 0 (tasks_after 20 overlap shot_started) = VStr "B" /\
   sig_value 1 (tasks_after 20 overlap shot_started) = VBool false /\
   sig_value 2 (tasks_after 20 overlap shot_started) = VNull).
Proof.
  intros Hi Hr Hc.
  split; [apply (exec_refetch_aborts fuel r rs a k st (idle_wf _ Hi) Hr Hc) |].
  split; [| vm_compute; auto].
  destruct fuel as [| n]; [reflexivity |].
  cbn [run_tasks].
  destruct (run_task (S n) (Run (Refetch r k)) st) as [st1 |] eqn:H1; [| reflexivity].
  destruct (run_task_frame _ _ _ _ Hi H1) as [F1 I1].
  assert (A1 : is_aborted a st1 = true).
  { unfold run_task in H1.
    pose proof (exec_refetch_aborts n r rs a k st (idle_wf _ Hi) Hr Hc) as [Hf Ha].
    destruct (exec (S n) (Refetch r k) st) as [| r0 st0 | e0 st0];
      simpl in Ha, Hf; [discriminate | ..];
      destruct (drain_frame _ _ _ (f_wf _ _ Hf) H1) as [Fd _];
      eapply frame_aborted; eauto. }
  apply aborted_settlement_can_be_erased; assumption.
Qed.

Lemma C4_superseded_fetch_witness :
  idle shot_started /\
  returns (exec 21 (Refetch 0 skip) shot_started) (fun st' => is_aborted 0 st' = true) /\
  run_tasks 20 overlap shot_started
    = run_tasks 20 [Run (Refetch 0 skip); Settle 1 (Resolved (VStr "B"))] shot_started /\
  (sig_value 0 (tasks_after 20 overlap shot_started) = VStr "B" /\
   sig_value 1 (tasks_after 20 overlap shot_started) = VBool false /\
   sig_value 2 (tasks_after 20 overlap shot_started) = VNull).
Proof.
  split; [exact idle_shot_started |].
  apply (C4_superseded_fetch_writes_nothing 20 0
           (mkResource 0 1 2 skip (Some 0)) 0 (Resolved (VStr "A")) skip
           [Settle 1 (Resolved (VStr "B"))] [] shot_started idle_shot_started);
    reflexivity.
Defined.

(** Once dispose has been called, every signal of the resource's fetches
    has fired. *)
Lemma disposeShot_aborts_all (r : rid) (rs : resource) (t : tid) (st : State) :
  wf st -> ress st !! r = Some rs -> token_owner t st = Some r ->
  is_aborted t (disposeShot r st) = true.
Proof.
  intros Hwf Hr Ho. pose proof (disposeShot_frame r st Hwf) as F.
  unfold token_owner in Ho.
  destruct (tokens st !! t) as [tk |] eqn:Ht; simpl in Ho; [| discriminate].
  injection Ho as Ho.
  destruct (aborted tk) eqn:Ha.
  - eapply frame_aborted; [exact F |]. unfold is_aborted. rewrite Ht. exact Ha.
  - destruct (wf_tok _ Hwf _ _ Ht Ha) as [rs0 [Hr0 Hc0]].
    rewrite Ho, Hr in Hr0. injection Hr0 as <-.
    unfold disposeShot. rewrite Hr. simpl. rewrite Hc0.
    apply is_aborted_abort. eapply lookup_lt_Some, Ht.
Qed.

Lemma token_owner_disposeShot (r : rid) (t : tid) (st : State) :
  token_owner t (disposeShot r st) = token_owner t st.
Proof.
  unfold disposeShot. destruct (ress st !! r ≫= controller) as [c |]; [| reflexivity].
  unfold token_owner, abort. simpl.
  destruct (decide (c = t)) as [<- | Hne].
  - rewrite list_lookup_alter_eq. destruct (tokens st !! c); reflexivity.
  - rewrite list_lookup_alter_ne by auto. reflexivity.
Qed.

Lemma run_task_disposeShot (fuel : nat) (r : rid) (st : State) :
  microtasks (disposeShot r st) = [] ->
  run_task (S (S fuel)) (Run (DisposeShot r skip)) st = Some (disposeShot r st).
Proof.
  intros M. unfold run_task, skip. cbn [exec step drain]. rewrite M. reflexivity.
Qed.

(** C10. The settlement of a fetch whose signal has fired writes none of
    data, error and loading, in the try, the catch and the finally block
    alike: it leaves the state as it was.  So after dispose, however the
    fetches of the resource settle, the signals are what they were when
    dispose was called: a fetch that was in flight leaves loading true and
    data and error untouched. *)
Theorem C10_fetch_aborted_by_dispose_writes_nothing
    (fuel : nat) (r : rid) (rs : resource) (st : State)
    (late : list (tid * settlement)) :
  idle st ->
  ress st !! r = Some rs ->
  Forall (fun x => token_owner x.1 st = Some r) late ->
  (forall rec call t res,
     is_aborted t st = true -> settle rec call r t res st = Done undefined st) /\
  run_tasks (S (S fuel))
    (Run (DisposeShot r skip) :: map (fun x => Settle x.1 x.2) late) st
    = Some (disposeShot r st) /\
  sigs (disposeShot r st) = sigs st.
Proof.
  intros Hi Hr Hl. destruct (idle_batch _ Hi) as [D [P S']].
  split; [intros rec call t res Ha; apply settle_aborted; auto |].
  split; [| unfold disposeShot; destruct (ress st !! r ≫= controller); reflexivity].
  pose proof (disposeShot_frame r st (idle_wf _ Hi)) as F.
  assert (M : microtasks (disposeShot r st) = []).
  { unfold disposeShot. destruct (ress st !! r ≫= controller); apply Hi. }
  pose proof (frame_idle _ _ Hi F M) as I1.
  cbn [run_tasks]. rewrite (run_task_disposeShot fuel r st M).
  induction late as [| [t res] rest IH]; [reflexivity |].
  inversion Hl as [| x l Hx Hrest]; subst. simpl in Hx.
  cbn [map run_tasks]. simpl fst. simpl snd.
  rewrite (run_task_settle_aborted (S fuel) t res _ I1).
  - apply IH, Hrest.
  - eapply disposeShot_aborts_all; eauto. apply Hi.
Qed.

Lemma C10_fetch_aborted_witness :
  idle shot_started /\
  sig_value 1 shot_started = VBool true /\
  ((forall rec call t res,
      is_aborted t shot_started = true ->
      settle rec call 0 t res shot_started = Done undefined shot_started) /\
   run_tasks 3 disposed_in_flight shot_started = Some (disposeShot 0 shot_started) /\
   sigs (disposeShot 0 shot_started) = sigs shot_started).
Proof.
  split; [exact idle_shot_started |]. split; [reflexivity |].
  apply (C10_fetch_aborted_by_dispose_writes_nothing 1 0
           (mkResource 0 1 2 skip (Some 0)) shot_started
           [(0, Resolved (VStr "A"))] idle_shot_started).
  - reflexivity.
  - repeat constructor.
Defined.

(** * The hydration engine *)

(** C9 at the failing input: the virtual list of keys 0, 1 against the live
    items 1, 0.  The first virtual child has key 0; the live node at the
    cursor records key 1 and the next live node records key 0.  The engine
    writes the key of a virtual node into data-key as a string, but tests
    [vnode.props?.key] for truthiness before it compares or searches: the
    key 0 is falsy, so nodesMatch accepts the node at the cursor on its tag
    alone, the sibling whose recorded key matches is neither searched nor
    moved, its text is rewritten in another node and it is removed at the
    end of the pass.  With the keys 1, 2, 3 against the live items 3, 1, 2
    the same loop moves the nodes into place and creates none. *)
Theorem C9_key_zero_is_not_searched :
  is_keyed (vli 0) = true /\
  truthy_pval (key_of (vli 0)) = false /\
  children_of zero_live 0 = [1; 3] /\
  recorded_key_is zero_live (vli 0) 1 = false /\
  recorded_key_is zero_live (vli 0) 3 = true /\
  nodesMatch (vli 0) 1 zero_live = true /\
  In 3 (following zero_live 1) /\
  zero_result = Hydrated 0 (dom_of zero_result) /\
  children_of (dom_of zero_result) 0 = [1; 5] /\
  parent_of (dom_of zero_result) 3 = None /\
  length (nodes (dom_of zero_result)) = length (nodes zero_live) + 2 /\
  (reorder_result = Hydrated 0 (dom_of reorder_result) /\
   child_labels reorder_live 0 = ["li#3"; "li#1"; "li#2"] /\
   child_labels (dom_of reorder_result) 0 = ["li#1"; "li#2"; "li#3"] /\
   children_of (dom_of reorder_result) 0 = [3; 5; 1] /\
   length (nodes (dom_of reorder_result)) = length (nodes reorder_live)).
Proof. vm_compute. repeat split; auto. Qed.

(** C1 at the failing input: <div><b></b><p></p></div> against
    div [span; p].  The b is replaced by a new span; the cursor is then
    read from the b that was just taken out of the tree, which has no next
    sibling, so the live p is skipped, a second p is created for the
    virtual p and the old one stays: the live children are span, p, p, and
    the live tree is not structurally equal to the virtual tree. *)
Theorem C1_replaced_child_loses_the_cursor :
  structurally_equal drift_live (VElem "div" [] [VElem "b" [] []; VElem "p" [] []]) 0
    = true /\
  child_labels drift_live 0 = ["b"; "p"] /\
  nextSibling drift_live 1 = Some 2 /\
  (exists d1 d2,
     createDOMElementForHydration (VElem "span" [] []) drift_live = Created (Some 3) d1 /\
     replaceChild 0 3 1 d1 = Some d2 /\
     children_of d2 0 = [3; 2] /\
     nextSibling d2 1 = None) /\
  drift_result = Hydrated 0 (dom_of drift_result) /\
  child_labels (dom_of drift_result) 0 = ["span"; "p"; "p"] /\
  structurally_equal (dom_of drift_result) drift_vnode 0 = false.
Proof.
  split; [reflexivity |]. split; [reflexivity |]. split; [reflexivity |].
  split; [eexists; eexists; repeat split; vm_compute; reflexivity |].
  vm_compute. repeat split.
Qed.

(** A virtual child that is an object without type makes the repair path
    throw: createDOMElementForHydration does not return for it. *)
Lemma object_without_type_throws :
  hydrateDOMElement development (VElem "div" [] [VElem "" [] []]) 0
    (parse (Tag "div" [] [Tag "b" [] []]) empty_document).2
  = HydrateThrows "RangeError"
      (logHydrationWarning development "Node mismatch, replacing"
         (parse (Tag "div" [] [Tag "b" [] []]) empty_document).2).
Proof. reflexivity. Qed.

(** * Mounting *)

(** cowgirl of [src/app/client.js] throws for an invalid target, before it
    has done anything. *)
Lemma client_cowgirl_rejects_invalid_target (b : browser) (container : target) (w : world) :
  valid_target b (page w) container = false ->
  client_cowgirl b container w
    = Throws "cumstack: Container must be a valid HTMLElement or selector" w.
Proof.
  unfold valid_target, client_cowgirl.
  destruct container as [s | n |]; [destruct (querySelector b s) | |];
    try reflexivity; intros ->; reflexivity.
Qed.

(** C8 at the failing input, and at every other: the cowgirl that the
    package exports is the one of [src/app/client/index.js]; whatever the
    mount target, it returns, having set the language, installed the
    navigation listener and initialised the components, and it does for an
    invalid target what it does for a valid one. *)
Theorem C8_exported_cowgirl_ignores_the_target
    (b : browser) (container : target) (w : world) :
  (exists w',
     cowgirl b container w = Returns w' /\
     In SetupNavigation (performed w') /\ In InitComponents (performed w')) /\
  cowgirl b container w = cowgirl b NoNode w /\
  valid_target app_browser (page fresh_world) NoNode = false /\
  valid_target app_browser (page fresh_world) (Selector "#missing") = false /\
  cowgirl app_browser NoNode fresh_world
    = Returns
        {| page := app_page; clientRouter := false; isRouterInitialized := false;
           performed := [InitHMR; SetWindowInitComponents; ClearPreferredLanguage;
                         SetLanguage "en" false; SetupNavigation; InitComponents] |} /\
  client_cowgirl app_browser NoNode fresh_world
    = Throws "cumstack: Container must be a valid HTMLElement or selector" fresh_world.
Proof.
  split; [| repeat split].
  unfold cowgirl, index_cowgirl. eexists. split; [reflexivity |].
  simpl. rewrite !in_app_iff. simpl. auto.
Qed.
(** * More of the reactive runtime: theorems *)

(** ** The scheduling state across calls

    The theorems of this part are about runs that stay within the call
    stack: a run that exhausts it has no outcome in the model ([OutOfFuel]),
    where an engine throws a RangeError at the call that did not fit. *)

Lemma flush_never_throws (rec : prog -> State -> outcome)
    (call : eid -> State -> outcome) (effects : list member)
    (st : State) (err : val) (st' : State) :
  (forall e st err st', call e st <> Thrown err st') ->
  functions_of effects = [] ->
  flush rec call effects st <> Thrown err st'.
Proof.
  intros Hcatch. revert st. induction effects as [| [e | c] rest IH]; intros st Hf; simpl.
  - discriminate.
  - pose proof (Hcatch e st) as Hn.
    destruct (call e st) as [| r st1 | err1 st1]; simpl.
    + discriminate.
    + apply IH, Hf.
    + exfalso. eapply Hn. reflexivity.
  - discriminate.
Qed.

(** The finally block of batch throws nothing of its own, unless a function
    handed to the scheduling function is pending. *)
Lemma batch_exit_never_throws (fuel : nat) (st st4 : State) (err : val) (st' : State) :
  wf st -> frame (batch_enter st) st4 ->
  (forall ps, pending st4 = Some ps -> functions_of ps = []) ->
  batch_exit (exec fuel) (invoke fuel) (schedule st) st4 <> Thrown err st'.
Proof.
  intros Hwf F Hf. unfold batch_exit. simpl.
  destruct (batchDepth st4 - 1 =? 0)%Z eqn:Hz; [| discriminate].
  destruct (f_log _ _ F) as [new [_ [_ P]]].
  assert (Hp : exists ps, pending (batch_enter st) = Some ps).
  { destruct (wf_batch _ (batch_enter_wf st Hwf)) as [[B _] | [_ [B _]]]; [| exact B].
    unfold batch_enter in B. simpl in B.
    destruct Hwf as [[[B0 _] | [B0 _]] _ _ _]; lia. }
  destruct Hp as [ps Hp]. rewrite Hp in P. simpl in P. rewrite P.
  apply flush_never_throws; [apply invoke_never_throws | apply Hf, P].
Qed.

(** X1: a callback that returns or throws without exhausting the call stack
    leaves the effect stack, the batch depth and the scheduling function as
    it found them, whatever it did in between (nested batches, effects that
    throw, functions handed to the scheduling function, untrack); with no
    batch open, no effect is left pending.  The current effect is the one it
    found or the top of the stack. *)
Theorem callback_restores_the_scheduling_state
    (fuel : nat) (p : prog) (st st' : State) :
  wf st -> ends (exec fuel p st) st' ->
  effectStack st' = effectStack st /\
  batchDepth st' = batchDepth st /\
  schedule st' = schedule st /\
  (pending st = None -> pending st' = None) /\
  (currentEffect st' = currentEffect st \/
   currentEffect st' = last (effectStack st)).
Proof.
  intros Hwf H. pose proof (ends_frame _ _ _ _ Hwf H) as F.
  destruct F as [W S D C [new [L [P Q]]] U G E M T R].
  repeat split; auto.
  intros Hp. rewrite Q, Hp. reflexivity.
Qed.

Lemma callback_restores_witness :
  wf cascade_state /\ ends (exec 20 cascade_batch cascade_state) cascade_after /\
  effectStack cascade_after = effectStack cascade_state /\
  batchDepth cascade_after = batchDepth cascade_state /\
  schedule cascade_after = schedule cascade_state /\
  (pending cascade_state = None -> pending cascade_after = None) /\
  (currentEffect cascade_after = currentEffect cascade_state \/
   currentEffect cascade_after = last (effectStack cascade_state)).
Proof.
  assert (H : ends (exec 20 cascade_batch cascade_state) cascade_after)
    by (vm_compute; reflexivity).
  split; [exact wf_cascade_state |]. split; [exact H |].
  exact (callback_restores_the_scheduling_state 20 cascade_batch cascade_state
           cascade_after wf_cascade_state H).
Defined.

Lemma defers_functions_app (a b : list event) :
  functions_of (defers a) <> [] -> functions_of (defers (a ++ b)) <> [].
Proof.
  intros H. rewrite defers_app, functions_of_app.
  destruct (functions_of (defers a)); [contradiction | discriminate].
Qed.



(** X3: when the function given to batch throws and the pending set holds
    no function handed to the scheduling function, batch throws the same
    error once its finally block is done: the block adds no error of its own
    (the effects it runs catch theirs), and the batch depth and the
    scheduling function are as before the call; an outermost batch leaves
    nothing pending. *)
Theorem batch_rethrows_the_error_of_its_body
    (fuel : nat) (f : prog) (st st1 : State) (err : val) :
  wf st ->
  exec fuel f (batch_enter st) = Thrown err st1 ->
  (forall ps, pending st1 = Some ps -> functions_of ps = []) ->
  match batch (exec fuel) (invoke fuel) (exec fuel f) st with
  | Thrown err' st' =>
    err' = err /\ batchDepth st' = batchDepth st /\ schedule st' = schedule st /\
    (batchDepth st = 0%Z -> pending st' = None)
  | Done _ _ => False
  | OutOfFuel => True
  end.
Proof.
  intros Hwf H1 Hp.
  pose proof (batch_frame (exec fuel) (invoke fuel) (exec_frame fuel) (invoke_frame fuel)
                (exec fuel f) st (exec_frame fuel f) Hwf) as Fb.
  pose proof (exec_frame fuel f (batch_enter st) (batch_enter_wf st Hwf)) as F1.
  unfold batch in *. rewrite H1 in *. simpl in F1.
  pose proof (batch_exit_never_throws fuel st st1) as Hx.
  destruct (batch_exit (exec fuel) (invoke fuel) (schedule st) st1) as [| r5 st5 | err5 st5];
    simpl in *; [exact I | | exfalso; eapply Hx; eauto].
  destruct Fb as [W S D C [new [L [P Q]]] U G E M T R].
  repeat split; auto.
  intros Hd. rewrite Q.
  destruct Hwf as [[[_ [B _]] | [B _]] _ _ _]; [rewrite B; reflexivity | lia].
Qed.

Lemma batch_rethrows_witness :
  wf five /\
  exec 20 throwing_body (batch_enter five)
    = Thrown (VStr "boom") (state_after 20 throwing_body (batch_enter five)) /\
  functions_of (default [] (pending (state_after 20 throwing_body (batch_enter five)))) = [] /\
  match batch (exec 20) (invoke 20) (exec 20 throwing_body) five with
  | Thrown err' st' =>
    err' = VStr "boom" /\ batchDepth st' = batchDepth five /\
    schedule st' = schedule five /\ (batchDepth five = 0%Z -> pending st' = None)
  | Done _ _ => False
  | OutOfFuel => True
  end.
Proof.
  assert (H : exec 20 throwing_body (batch_enter five)
              = Thrown (VStr "boom") (state_after 20 throwing_body (batch_enter five)))
    by (vm_compute; reflexivity).
  assert (Hp : forall ps,
            pending (state_after 20 throwing_body (batch_enter five)) = Some ps ->
            functions_of ps = []).
  { intros ps E. vm_compute in E. injection E as <-. reflexivity. }
  split; [exact wf_five |]. split; [exact H |]. split; [vm_compute; reflexivity |].
  exact (batch_rethrows_the_error_of_its_body 20 throwing_body five _ (VStr "boom")
           wf_five H Hp).
Defined.

(** ** Disposed effects *)

Lemma runs_of_app (e : eid) (a b : list event) :
  runs_of e (a ++ b) = runs_of e a + runs_of e b.
Proof. unfold runs_of. rewrite List.filter_app, length_app. reflexivity. Qed.

Lemma disposed_mono (e : eid) (st st' : State) :
  frame st st' -> is_disposed e st = true -> is_disposed e st' = true.
Proof.
  intros F. unfold is_disposed. destruct (effs st !! e) as [ef |] eqn:E; [| discriminate].
  destruct (f_effs _ _ F e ef E) as [ef' [-> [_ H]]]. exact H.
Qed.

Lemma resting_silent (st st' : State) : log st' = log st -> resting st st'.
Proof.
  intros E new e H _. rewrite E in H. rewrite <- (app_nil_r (log st)) in H at 1.
  apply app_inv_head in H. subst new. reflexivity.
Qed.

Lemma resting_trans (a b c : State) :
  frame a b -> frame b c -> resting a b -> resting b c -> resting a c.
Proof.
  intros Fab Fbc Rab Rbc new e H He.
  destruct (f_log _ _ Fab) as [n1 [L1 _]]. destruct (f_log _ _ Fbc) as [n2 [L2 _]].
  rewrite L2, L1, <- app_assoc in H. apply app_inv_head in H. subst new.
  rewrite runs_of_app, (Rab n1 e L1 He), (Rbc n2 e L2 (disposed_mono e a b Fab He)).
  reflexivity.
Qed.

(** One more event that is not the run of a disposed effect. *)
Lemma resting_event (ev : event) (st st1 st' : State) :
  frame st st1 -> resting st st1 -> log st' = log st1 ++ [ev] ->
  (forall e, is_disposed e st = true -> runs_of e [ev] = 0) ->
  resting st st'.
Proof.
  intros F R E Hev new e H He. destruct (f_log _ _ F) as [n [L _]].
  rewrite E, L, <- app_assoc in H. apply app_inv_head in H. subst new.
  rewrite runs_of_app, (R n e L He), (Hev e He). reflexivity.
Qed.

Lemma settled_refl (st : State) : wf st -> settled st st.
Proof. intros Hwf. split; [apply frame_refl, Hwf | apply resting_silent; reflexivity]. Qed.

Lemma settled_trans (a b c : State) : settled a b -> settled b c -> settled a c.
Proof.
  intros [F1 R1] [F2 R2]. split; [eapply frame_trans | eapply resting_trans]; eauto.
Qed.

Lemma settled_silent (st st' : State) :
  frame st st' -> log st' = log st -> settled st st'.
Proof. intros F E. split; [exact F | apply resting_silent, E]. Qed.

Lemma returns_settled_bind (o : outcome) (f : ret -> State -> outcome) (st : State) :
  returns o (settled st) ->
  (forall r st1, settled st st1 -> returns (f r st1) (settled st1)) ->
  returns (o >>= f) (settled st).
Proof.
  intros Ho Hf. destruct o as [| r st1 | err st1]; simpl in *; auto.
  eapply returns_impl; [apply Hf, Ho |].
  intros st2 H2. eapply settled_trans; eauto.
Qed.

Lemma returns_settled_after (o : outcome) (st st1 : State) :
  settled st st1 -> returns o (settled st1) -> returns o (settled st).
Proof.
  intros H1 Ho. eapply returns_impl; [exact Ho |].
  intros st2 H2. eapply settled_trans; eauto.
Qed.

Lemma absorb_settled (o : outcome) (st : State) :
  returns o (settled st) -> returns (absorb o) (settled st).
Proof. destruct o; simpl; auto. Qed.

Section Settled.

Variable rec : prog -> State -> outcome.
Variable call : eid -> State -> outcome.
Hypothesis Hrec : forall p st, wf st -> returns (rec p st) (settled st).
Hypothesis Hcall : forall e st, wf st -> returns (call e st) (settled st).

Lemma rec_frame' (p : prog) (st : State) : wf st -> returns (rec p st) (frame st).
Proof.
  intros Hwf. eapply returns_impl; [apply (Hrec p st Hwf) |]. intros st' [F _]. exact F.
Qed.

Lemma call_frame' (e : eid) (st : State) : wf st -> returns (call e st) (frame st).
Proof.
  intros Hwf. eapply returns_impl; [apply (Hcall e st Hwf) |]. intros st' [F _]. exact F.
Qed.

Lemma pending_add_settled (m : member) (st : State) :
  wf st -> returns (pending_add m st) (settled st).
Proof.
  intros Hwf. pose proof (pending_add_frame m st Hwf) as F.
  unfold pending_add in *. destruct (pending st) as [ps |]; simpl in *.
  - split; [exact F |]. intros new x H _. simpl in H. apply app_inv_head in H.
    subst new. reflexivity.
  - apply settled_refl, Hwf.
Qed.

Lemma notify_settled (s : sid) (effects : list eid) (st : State) :
  wf st -> returns (notify call s effects st) (settled st).
Proof.
  revert st. induction effects as [| e rest IH]; intros st Hwf; simpl.
  - apply settled_refl, Hwf.
  - destruct (has_subscriber s e st); [| apply IH, Hwf].
    apply returns_settled_bind.
    + destruct (schedule st) as [[] |]; [apply pending_add_settled | apply Hcall]; exact Hwf.
    + intros _ st1 H. apply IH, H.
Qed.

Lemma write_settled (s : sid) (n : next) (st : State) :
  wf st -> returns (write call s n st) (settled st).
Proof.
  intros Hwf. unfold write. destruct (sigs st !! s) as [sg |] eqn:Hs;
    [| apply settled_refl, Hwf].
  destruct (Object_is _ _); [apply settled_refl, Hwf |].
  set (st0 := set_sigs _ st).
  assert (H0 : frame st st0).
  { apply frame_store; simpl; eauto.
    apply (sigs_insert_mono _ _ sg); [exact Hs | auto]. }
  assert (H1 : frame st0 (emit (EvSet s (candidate n (value sg)) (effectStack st)) st0)).
  { apply emit_frame; [apply H0 | exact I]. }
  eapply returns_settled_after; [| apply notify_settled, H1].
  split; [eapply frame_trans; eauto |].
  intros new x H _. simpl in H. apply app_inv_head in H. subst new. reflexivity.
Qed.

Lemma flush_settled (effects : list member) (st : State) :
  wf st -> returns (flush rec call effects st) (settled st).
Proof.
  revert st. induction effects as [| [e | c] rest IH]; intros st Hwf; simpl.
  - apply settled_refl, Hwf.
  - apply returns_settled_bind; [apply Hcall, Hwf |].
    intros _ st1 H. apply IH, H.
  - apply returns_settled_bind; [apply Hrec, Hwf |].
    intros _ st1 H. apply IH, H.
Qed.

Lemma batch_settled (f : State -> outcome) (st : State) :
  (forall st, wf st -> returns (f st) (settled st)) ->
  wf st -> returns (batch rec call f st) (settled st).
Proof.
  intros Hf Hwf.
  pose proof (batch_enter_wf st Hwf) as W3.
  assert (El : log (batch_enter st) = log st /\ effs (batch_enter st) = effs st).
  { unfold batch_enter. destruct (batchDepth st =? 0)%Z; split; reflexivity. }
  destruct El as [El Ee].
  pose proof (Hf _ W3) as Hf3.
  assert (Hx : forall st4, frame (batch_enter st) st4 ->
              returns (batch_exit rec call (schedule st) st4) (frame st)).
  { intros st4 H4. eapply (batch_exit_frame rec call rec_frame' call_frame'); eauto; unfold batch_enter;
      destruct (Z.eqb_spec (batchDepth st) 0); reflexivity. }
  assert (Hq : forall st4, frame (batch_enter st) st4 -> resting (batch_enter st) st4 ->
                returns (batch_exit rec call (schedule st) st4) (resting st)).
  { intros st4 F4 Q4. unfold batch_exit. simpl.
    destruct (f_log _ _ F4) as [n4 [L4 _]]. rewrite El in L4.
    assert (Q4' : resting st st4).
    { intros new e H He. apply Q4; [rewrite El; exact H |].
      unfold is_disposed in *. rewrite Ee. exact He. }
    destruct (Z.eqb_spec (batchDepth st4 - 1) 0) as [Hz | Hz];
      [| simpl; intros new e H He; apply (Q4' new e); assumption].
    destruct (pending st4) as [L |] eqn:Hp;
      [| simpl; intros new e H He; apply (Q4' new e); assumption].
    assert (Hd : batchDepth st = 0%Z).
    { pose proof (f_depth _ _ F4) as D. unfold batch_enter in D. simpl in D. lia. }
    assert (Hs : schedule st = None).
    { destruct Hwf as [[[_ [_ S0]] | [B _]] _ _ _]; [exact S0 | lia]. }
    pose proof (wf_drain (schedule st) (batchDepth st4 - 1)%Z st4 (f_wf _ _ F4) Hz Hs) as W5.
    pose proof (flush_settled L _ W5) as F5.
    assert (Hm : forall e, is_disposed e st = true -> is_disposed e st4 = true).
    { intros e He. apply (disposed_mono e (batch_enter st) st4 F4).
      unfold is_disposed in *. rewrite Ee. exact He. }
    destruct (flush rec call L _) as [| r6 st6 | e6 st6]; simpl in F5 |- *; auto;
      destruct F5 as [F5 R5]; intros new e H He;
      destruct (f_log _ _ F5) as [n5 [L5 _]]; simpl in L5;
      rewrite L5, L4, <- app_assoc in H; apply app_inv_head in H; subst new;
      rewrite runs_of_app, (Q4' n4 e L4 He), (R5 n5 e L5 (Hm e He)); reflexivity. }
  unfold batch.
  destruct (f (batch_enter st)) as [| r st4 | err st4]; simpl in Hf3; auto;
    destruct Hf3 as [F4 Q4]; specialize (Hx st4 F4); specialize (Hq st4 F4 Q4);
    destruct (batch_exit _ _ _); simpl in *; unfold settled; auto.
Qed.

Lemma untrack_settled (f : State -> outcome) (st : State) :
  (forall st, wf st -> returns (f st) (settled st)) ->
  wf st -> returns (untrack f st) (settled st).
Proof.
  intros Hf Hwf. unfold untrack.
  assert (W : wf (set_currentEffect None st)) by (eapply wf_same; eauto).
  specialize (Hf _ W).
  assert (Hx : forall st4, settled (set_currentEffect None st) st4 ->
              settled st (set_currentEffect (currentEffect st) st4)).
  { intros st4 [[W4 S D C L U G E M T R] Q]. simpl in *.
    split; [split; simpl; auto; eapply wf_same; eauto |].
    intros new e H He. apply (Q new e H He). }
  destruct (f _); simpl in *; auto.
Qed.

Lemma forEach_cleanup_settled (e : eid) (n i : nat) (st : State) :
  wf st -> returns (forEach_cleanup rec e n i st) (settled st).
Proof.
  revert i st. induction n as [| n IH]; intros i st Hwf; simpl.
  - apply settled_refl, Hwf.
  - destruct (effs st !! e ≫= _); [| apply IH; assumption].
    apply returns_settled_bind; [apply Hrec; assumption |].
    intros _ st1 H. apply IH, H.
Qed.

Lemma guarded_batch_settled (t : tid) (s : sid) (v : val) (st : State) :
  wf st -> returns (batch rec call (guarded_write call t s v) st) (settled st).
Proof.
  intros Hwf. apply batch_settled; [| exact Hwf].
  intros st0 W0. unfold guarded_write. destruct (is_aborted t st0).
  - apply settled_refl, W0.
  - apply write_settled, W0.
Qed.

Lemma settle_settled (r : rid) (t : tid) (res : settlement) (st : State) :
  wf st -> returns (settle rec call r t res st) (settled st).
Proof.
  intros Hwf. unfold settle. destruct (ress st !! r) as [rs |];
    [| apply settled_refl, Hwf].
  apply absorb_settled.
  assert (Htried : returns
    match res with
    | Resolved result => batch rec call (guarded_write call t (data rs) result) st
    | Rejected err => Thrown err st
    end (settled st)).
  { destruct res; [apply guarded_batch_settled; assumption | apply settled_refl, Hwf]. }
  destruct (match res with Resolved _ => _ | Rejected _ => _ end)
    as [| r1 st1 | err st1]; simpl in Htried; simpl; auto.
  - eapply returns_settled_after; [exact Htried |].
    apply guarded_batch_settled, Htried.
  - assert (Hc : returns (batch rec call (guarded_write call t (error rs) err) st1)
                   (settled st)).
    { eapply returns_settled_after; [exact Htried |].
      apply guarded_batch_settled, Htried. }
    destruct (batch rec call (guarded_write call t (error rs) err) st1)
      as [| r2 st2 | err2 st2]; simpl in Hc; simpl; auto.
    + eapply returns_settled_after; [exact Hc |].
      apply guarded_batch_settled, Hc.
    + apply returns_settled_bind.
      * eapply returns_settled_after; [exact Hc |].
        apply guarded_batch_settled, Hc.
      * intros _ st3 H3. simpl. apply settled_refl, H3.
Qed.

Lemma refetch_settled (r : rid) (st : State) :
  wf st -> returns (refetch rec call r st) (settled st).
Proof.
  intros Hwf. unfold refetch. destruct (ress st !! r) as [rs |] eqn:Hr;
    [| apply settled_refl, Hwf].
  assert (H3 : settled st
    (new_controller r (match controller rs with Some t => abort t st | None => st end))).
  { apply settled_silent; [apply refetch_start_frame; assumption |].
    destruct (controller rs); reflexivity. }
  apply absorb_settled. eapply returns_settled_after; [exact H3 |].
  apply returns_settled_bind.
  - apply batch_settled; [| apply H3].
    intros st0 W0. apply returns_settled_bind; [apply write_settled, W0 |].
    intros _ st' H'. apply write_settled, H'.
  - intros _ st4 H4.
    pose proof (Hrec (fetcher rs) st4 (f_wf _ _ (proj1 H4))) as Hf.
    destruct (rec (fetcher rs) st4) as [| r5 st5 | err st5]; simpl in Hf; simpl; auto.
    eapply returns_settled_after; [exact Hf |].
    apply settle_settled, Hf.
Qed.

Lemma set_memos_settled (m : mid) (f : memo -> memo) (st : State) :
  (forall x, out (f x) = out x) ->
  wf st -> settled st (set_memos (alter f m (memos st)) st).
Proof.
  intros Hf Hwf. apply settled_silent; [apply set_memos_frame; assumption | reflexivity].
Qed.

Lemma set_cleanup_settled (e : eid) (f : list prog -> list prog) (st : State) :
  wf st -> settled st (set_cleanup e f st).
Proof.
  intros Hwf. apply settled_silent; [apply set_cleanup_frame, Hwf | reflexivity].
Qed.

Lemma memo_fn_settled (m : mid) (f : prog) (st : State) :
  wf st -> returns (memo_fn rec call m f st) (settled st).
Proof.
  intros Hwf. unfold memo_fn. apply returns_settled_bind; [apply Hrec; assumption |].
  intros r st1 H1. pose proof (f_wf _ _ (proj1 H1)) as W1.
  destruct (memos st1 !! m) as [mm |]; [| apply settled_refl, W1].
  destruct (negb _ || negb _); [| apply settled_refl, W1].
  set (st2 := set_memos _ st1).
  assert (H2 : settled st1 st2) by (apply set_memos_settled; [auto | exact W1]).
  eapply returns_settled_after; [exact H2 |].
  apply returns_settled_bind.
  - apply untrack_settled; [| apply H2].
    intros st0 W0. apply batch_settled; [| exact W0].
    intros st0' W0'. apply write_settled, W0'.
  - intros _ st3 H3. simpl. apply set_memos_settled; [auto | apply H3].
Qed.

Lemma run_fn_settled (b : body) (st : State) :
  wf st -> returns (run_fn rec call b st) (settled st).
Proof.
  intros Hwf. destruct b; simpl.
  - apply Hrec; assumption.
  - apply memo_fn_settled; assumption.
  - apply returns_settled_bind; [apply Hrec; assumption |].
    intros _ st1 H1. apply refetch_settled, H1.
Qed.

(** The closure of an effect: a disposed effect returns at once. *)
Lemma effect_call_settled (e : eid) (st : State) :
  wf st -> returns (effect_call rec call e st) (settled st).
Proof.
  intros Hwf.
  pose proof (effect_call_frame rec call rec_frame' call_frame' e st Hwf) as Hc.
  assert (Hq : returns (effect_call rec call e st) (resting st)).
  { clear Hc. unfold effect_call.
    assert (Hno : resting st (emit (EvInvoke e (length (effectStack st)) false) st)).
    { intros new x H _. simpl in H. apply app_inv_head in H. subst new. reflexivity. }
    destruct (effs st !! e) as [ef |] eqn:He; [| exact Hno].
    destruct (disposed ef) eqn:Hd; [exact Hno |]. clear Hno.
    set (st1 := set_currentEffect (Some e) _).
    assert (W1 : wf st1) by (subst st1; eapply wf_same; eauto).
    assert (Hpop : forall st', settled st1 st' ->
      resting st (set_currentEffect (last (removelast (effectStack st')))
                     (set_effectStack (removelast (effectStack st')) st'))).
    { intros st' [F Q] new x H Hx. simpl in H.
      destruct (f_log _ _ F) as [n [L _]]. pose proof L as L'. subst st1. simpl in L'.
      rewrite L', <- app_assoc in H. apply app_inv_head in H. subst new.
      rewrite runs_of_app, (Q n x L Hx). unfold runs_of. cbn.
      destruct (Nat.eqb_spec e x) as [-> | _]; [| reflexivity].
      unfold is_disposed in Hx. rewrite He in Hx. congruence. }
    match goal with |- returns (finally ?c _) _ =>
      assert (Hc : returns c (settled st1)) end.
    { match goal with |- returns (match ?t with _ => _ end) _ =>
        assert (Ht : returns t (settled st1)) end.
      { apply returns_settled_bind; [apply forEach_cleanup_settled; assumption |].
        intros _ st2 H2. pose proof (f_wf _ _ (proj1 H2)) as W2.
        pose proof (set_cleanup_settled e (fun _ => []) st2 W2) as H3.
        eapply returns_settled_after; [exact H3 |].
        apply returns_settled_bind; [apply run_fn_settled, H3 |].
        intros [v | c] st4 H4; simpl.
        - apply settled_refl, H4.
        - apply set_cleanup_settled, H4. }
      destruct (forEach_cleanup _ _ _ _ _ >>= _) as [| r2 st2 | err st2];
        simpl in Ht; simpl; auto.
      destruct Ht as [Ft Qt]. split.
      - eapply frame_trans; [exact Ft |]. apply emit_frame; [apply Ft | exact I].
      - eapply (resting_event (EvError e err)); [exact Ft | exact Qt | reflexivity |].
        intros; reflexivity. }
    destruct (match _ with Thrown _ _ => _ | _ => _ end) as [| r2 st2 | err st2];
      simpl in Hc; simpl; auto. }
  destruct (effect_call rec call e st); simpl in *; unfold settled; auto.
Qed.

Lemma onClimax_settled (b : body) (st : State) :
  wf st -> returns (onClimax rec call b st) (settled st).
Proof.
  intros Hwf. unfold onClimax.
  assert (H1 : settled st (set_effs (effs st ++ [mkEffect b false []]) st)).
  { apply settled_silent; [apply effs_app_frame, Hwf | reflexivity]. }
  eapply returns_settled_after; [exact H1 |].
  apply returns_done. apply batch_settled; [| apply H1].
  intros st0 W0. apply Hcall, W0.
Qed.

Lemma dispose_settled (e : eid) (st : State) :
  wf st -> returns (dispose rec e st) (settled st).
Proof.
  intros Hwf. unfold dispose.
  set (st1 := set_effs _ st).
  assert (H1 : settled st st1).
  { apply settled_silent; [| reflexivity].
    apply frame_store; simpl; eauto. apply effs_alter_mono. simpl. auto. }
  eapply returns_settled_after; [exact H1 |].
  apply returns_settled_bind; [apply forEach_cleanup_settled, H1 |].
  intros _ st2 H2. simpl. apply set_cleanup_settled, H2.
Qed.

Lemma knotMemo_settled (f : prog) (st : State) :
  wf st -> returns (knotMemo rec call f st) (settled st).
Proof.
  intros Hwf. unfold knotMemo, createMoan.
  set (st1 := set_memos _ st). set (st2 := set_sigs _ st1).
  assert (H1 : settled st st1)
    by (apply settled_silent; [apply memos_app_frame, Hwf | reflexivity]).
  assert (H2 : settled st1 st2)
    by (apply settled_silent; [apply sigs_app_frame, H1 | reflexivity]).
  eapply returns_settled_after; [exact H1 |].
  eapply returns_settled_after; [exact H2 |].
  apply returns_done. apply onClimax_settled, H2.
Qed.

Lemma loadShot_settled (f : prog) (deps : option prog) (init : val) (st : State) :
  wf st -> returns (loadShot rec call f deps init st) (settled st).
Proof.
  intros Hwf. unfold loadShot.
  set (st1 := set_sigs _ st). set (st2 := set_ress _ st1).
  assert (H1 : settled st st1)
    by (apply settled_silent; [apply sigs_app_frame, Hwf | reflexivity]).
  assert (H2 : settled st1 st2)
    by (apply settled_silent; [apply ress_app_frame, H1 | reflexivity]).
  destruct deps as [dp |].
  - eapply returns_settled_after; [exact H1 |].
    eapply returns_settled_after; [exact H2 |].
    apply returns_done. apply onClimax_settled, H2.
  - simpl. eapply settled_trans; [exact H1 |]. eapply settled_trans; [exact H2 |].
    apply settled_silent; [apply microtasks_frame, H2 | reflexivity].
Qed.

Lemma step_settled (p : prog) (st : State) :
  wf st -> returns (step rec call p st) (settled st).
Proof.
  intros Hwf.
  assert (Hk' : forall st1, settled st st1 -> forall q, returns (rec q st1) (settled st1)).
  { intros st1 H q. apply Hrec, H. }
  destruct p; cbn [step].
  - apply settled_refl, Hwf.
  - apply settled_refl, Hwf.
  - apply settled_refl, Hwf.
  - assert (H : settled st (read s st).2).
    { apply settled_silent; [apply read_frame, Hwf |].
      unfold read. destruct (sigs st !! s); [| reflexivity].
      destruct (currentEffect st); reflexivity. }
    destruct (read s st) as [v st1]. simpl in H.
    eapply returns_settled_after; [exact H |]. apply Hk', H.
  - apply returns_settled_bind; [apply write_settled, Hwf |]. intros ? st1 H. apply Hk', H.
  - apply returns_settled_bind; [apply write_settled, Hwf |]. intros ? st1 H. apply Hk', H.
  - assert (H : settled st (set_sigs (sigs st ++ [mkSignal init []]) st))
      by (apply settled_silent; [apply sigs_app_frame, Hwf | reflexivity]).
    eapply returns_settled_after; [exact H |]. apply Hk', H.
  - apply returns_settled_bind; [apply onClimax_settled; assumption |].
    intros ? st1 H. apply Hk', H.
  - apply returns_settled_bind; [apply dispose_settled; assumption |].
    intros ? st1 H. apply Hk', H.
  - apply returns_settled_bind; [apply knotMemo_settled; assumption |].
    intros ? st1 H. apply Hk', H.
  - apply returns_settled_bind; [apply batch_settled; [intros; apply Hrec |]; assumption |].
    intros ? st1 H. apply Hk', H.
  - apply returns_settled_bind; [apply untrack_settled; [intros; apply Hrec |]; assumption |].
    intros ? st1 H. apply Hk', H.
  - apply returns_settled_bind; [apply loadShot_settled; assumption |].
    intros ? st1 H. apply Hk', H.
  - apply returns_settled_bind; [apply loadShot_settled; assumption |].
    intros ? st1 H. apply Hk', H.
  - apply returns_settled_bind; [apply refetch_settled; assumption |].
    intros ? st1 H. apply Hk', H.
  - assert (H : settled st (disposeShot r st)).
    { apply settled_silent; [apply disposeShot_frame, Hwf |].
      unfold disposeShot. destruct (ress st !! r ≫= controller); reflexivity. }
    eapply returns_settled_after; [exact H |]. apply Hk', H.
  - apply returns_settled_bind; [apply pending_add_settled, Hwf |].
    intros ? st1 H. apply Hk', H.
  - apply returns_settled_bind.
    + destruct (0 <? batchDepth st)%Z; [apply pending_add_settled | apply Hrec]; exact Hwf.
    + intros ? st1 H. apply Hk', H.
Qed.

End Settled.

Lemma exec_invoke_settled (fuel : nat) :
  (forall p st, wf st -> returns (exec fuel p st) (settled st)) /\
  (forall e st, wf st -> returns (invoke fuel e st) (settled st)).
Proof.
  induction fuel as [| n [IHe IHi]]; split; intros x st Hwf; simpl; auto.
  - apply step_settled; auto.
  - apply effect_call_settled; auto.
Qed.

Lemma exec_settled (fuel : nat) (p : prog) (st : State) :
  wf st -> returns (exec fuel p st) (settled st).
Proof. apply exec_invoke_settled. Qed.

Lemma ends_returns (o : outcome) (P : State -> Prop) (st' : State) :
  ends o st' -> returns o P -> P st'.
Proof. destruct o; simpl; intros H HP; [contradiction | subst; exact HP ..]. Qed.

(** X4: the function of a disposed effect never runs again: whatever a
    callback does (write the signals the effect is still subscribed to, open
    batches, create other effects), the calls the effect gets return at
    once, and the effect stays disposed. *)
Theorem disposed_effect_never_runs_again
    (fuel : nat) (p : prog) (st st' : State) (e : eid) :
  wf st -> is_disposed e st = true -> ends (exec fuel p st) st' ->
  runs_of e (drop (length (log st)) (log st')) = 0 /\ is_disposed e st' = true.
Proof.
  intros Hwf He H.
  destruct (ends_returns _ _ _ H (exec_settled fuel p st Hwf)) as [F R].
  destruct (f_log _ _ F) as [new [L _]].
  split; [| eapply disposed_mono; eauto].
  rewrite L, drop_app_length. apply (R new e L He).
Qed.

Lemma wf_stale_state : wf stale_state.
Proof. apply (f_wf stale_before), state_after_frame, wf_stale_before. Defined.

Lemma disposed_effect_witness :
  wf stale_state /\ is_disposed 0 stale_state = true /\
  ends (exec 20 (Write 0 (VNum 3) skip) stale_state)
    (state_after 20 (Write 0 (VNum 3) skip) stale_state) /\
  runs_of 0 (drop (length (log stale_state))
               (log (state_after 20 (Write 0 (VNum 3) skip) stale_state))) = 0 /\
  is_disposed 0 (state_after 20 (Write 0 (VNum 3) skip) stale_state) = true.
Proof.
  assert (H : ends (exec 20 (Write 0 (VNum 3) skip) stale_state)
                (state_after 20 (Write 0 (VNum 3) skip) stale_state))
    by (vm_compute; reflexivity).
  assert (He : is_disposed 0 stale_state = true) by (vm_compute; reflexivity).
  split; [exact wf_stale_state |]. split; [exact He |]. split; [exact H |].
  exact (disposed_effect_never_runs_again 20 (Write 0 (VNum 3) skip) stale_state _ 0
           wf_stale_state He H).
Defined.

Lemma alter_same {A : Type} (f : A -> A) (i : nat) (l : list A) (x : A) :
  l !! i = Some x -> f x = x -> alter f i l = l.
Proof.
  revert i. induction l as [| y l IH]; intros [| i] H Hf; simpl in *; try discriminate.
  - injection H as ->. rewrite Hf. reflexivity.
  - f_equal. apply IH; assumption.
Qed.

Lemma set_effs_same (st : State) : set_effs (effs st) st = st.
Proof. destruct st. reflexivity. Qed.



(** ** Resources: what a settlement leaves *)

(** A guarded write to a signal that no effect subscribes to, with no batch
    open. *)
Lemma guarded_batch_alone (rec : prog -> State -> outcome)
    (call : eid -> State -> outcome) (t : tid) (s : sid) (v : val)
    (sg : signal) (st : State) :
  idle st -> is_aborted t st = false ->
  sigs st !! s = Some sg -> subscribers sg = [] ->
  exists st',
    batch rec call (guarded_write call t s v) st = Done undefined st' /\
    idle st' /\
    sigs st' = <[s := mkSignal v []]> (sigs st) /\
    tokens st' = tokens st /\ ress st' = ress st /\ currentEffect st' = currentEffect st.
Proof.
  intros Hi Ha Hs Hn. destruct (idle_batch _ Hi) as [D [P S']].
  destruct Hi as [Hwf _ Ist Icur Imic].
  unfold batch, guarded_write. rewrite is_aborted_batch_enter, Ha.
  unfold write.
  assert (Hs' : sigs (batch_enter st) !! s = Some sg).
  { unfold batch_enter. rewrite D. exact Hs. }
  rewrite Hs'. simpl.
  destruct (Object_is (value sg) v) eqn:Ho.
  - apply Object_is_eq in Ho. unfold batch_exit, batch_enter. rewrite D. simpl.
    eexists. split; [reflexivity |]. simpl.
    split; [| repeat split; auto].
    + destruct Hwf as [Hb Hn' Ht Hc]. split; simpl; auto.
      split; simpl; auto. discriminate.
    + symmetry. apply list_insert_id. rewrite Hs. f_equal.
      destruct sg as [x subs]. simpl in *. subst. reflexivity.
  - rewrite Hn. simpl. unfold batch_exit, batch_enter. rewrite D. simpl.
    eexists. split; [reflexivity |]. simpl.
    split; [| repeat split; auto].
    destruct Hwf as [Hb Hn' Ht Hc]. split; simpl; auto.
    split; simpl; auto. discriminate.
Qed.

Lemma read_value (s : sid) (st : State) : (read s st).1 = sig_value s st.
Proof.
  unfold read, sig_value. destruct (sigs st !! s); [| reflexivity].
  destruct (currentEffect st); reflexivity.
Qed.

Lemma read_sigs_value (s s' : sid) (st : State) :
  sig_value s' (read s st).2 = sig_value s' st.
Proof.
  unfold read, sig_value. destruct (sigs st !! s) as [sg |] eqn:E; [| reflexivity].
  destruct (currentEffect st); [| reflexivity]. simpl.
  destruct (decide (s = s')) as [<- | Hne].
  - rewrite list_lookup_insert_eq by (eapply lookup_lt_Some, E). rewrite E. reflexivity.
  - rewrite list_lookup_insert_ne by exact Hne. reflexivity.
Qed.

Lemma hasError_value (rs : resource) (st : State) :
  (Shot.hasError rs st).1 = truthy (sig_value (error rs) st).
Proof.
  unfold Shot.hasError. rewrite <- read_value. destruct (read (error rs) st). reflexivity.
Qed.

Lemma success_value (rs : resource) (st : State) :
  (Shot.success rs st).1 =
  negb (truthy (sig_value (loading rs) st)) && negb (truthy (sig_value (error rs) st)).
Proof.
  unfold Shot.success. rewrite <- (read_value (loading rs)).
  rewrite <- (read_sigs_value (loading rs) (error rs) st), <- read_value.
  destruct (read (loading rs) st) as [l st1]. simpl.
  destruct (truthy l); [reflexivity |].
  destruct (read (error rs) st1). reflexivity.
Qed.

Lemma idle_value (rs : resource) (init : val) (st : State) :
  (Shot.idle rs init st).1 =
  negb (truthy (sig_value (loading rs) st)) && strict_equal (sig_value (data rs) st) init.
Proof.
  unfold Shot.idle. rewrite <- (read_value (loading rs)).
  rewrite <- (read_sigs_value (loading rs) (data rs) st), <- read_value.
  destruct (read (loading rs) st) as [l st1]. simpl.
  destruct (truthy l); [reflexivity |].
  destruct (read (data rs) st1). reflexivity.
Qed.

(** X6: the settlement of the current fetch of a resource whose signals no
    effect subscribes to.  A resolved fetch stores the result and clears
    loading; a rejected one stores the reason, clears loading and keeps the
    data of the fetch before.  hasError() is the truthiness of the reason:
    a fetch rejected with a falsy reason (null, undefined, 0, the empty
    string, false) leaves hasError() false and success() true. *)
Theorem settlement_sets_the_status
    (rec : prog -> State -> outcome)
    (call : eid -> State -> outcome) (r : rid) (rs : resource) (t : tid)
    (res : settlement) (d l e : signal) (init : val) (st : State) :
  idle st -> ress st !! r = Some rs -> is_aborted t st = false ->
  sigs st !! data rs = Some d -> sigs st !! loading rs = Some l ->
  sigs st !! error rs = Some e ->
  subscribers d = [] -> subscribers l = [] -> subscribers e = [] ->
  data rs <> loading rs -> data rs <> error rs -> loading rs <> error rs ->
  exists st',
    settle rec call r t res st = Done undefined st' /\ idle st' /\
    sig_value (loading rs) st' = VBool false /\
    match res with
    | Resolved result =>
      sig_value (data rs) st' = result /\ sig_value (error rs) st' = value e /\
      (Shot.success rs st').1 = negb (truthy (value e)) /\
      (Shot.idle rs init st').1 = strict_equal result init
    | Rejected reason =>
      sig_value (data rs) st' = value d /\ sig_value (error rs) st' = reason /\
      (Shot.hasError rs st').1 = truthy reason /\
      (Shot.success rs st').1 = negb (truthy reason)
    end.
Proof.
  intros Hi Hr Ha Hd Hl He Sd Sl Se N1 N2 N3.
  unfold settle. rewrite Hr.
  assert (Hfin : forall st1 s sg v,
    idle st1 -> is_aborted t st1 = false ->
    sigs st1 = <[s := mkSignal v []]> (sigs st) -> sigs st !! s = Some sg ->
    s <> loading rs ->
    exists st',
      batch rec call (guarded_write call t (loading rs) (VBool false)) st1
        = Done undefined st' /\ idle st' /\
      sig_value (loading rs) st' = VBool false /\
      sig_value s st' = v /\
      forall s', s' <> s -> s' <> loading rs -> sig_value s' st' = sig_value s' st).
  { intros st1 s sg v I1 A1 E1 Hs Hne.
    assert (Hl1 : sigs st1 !! loading rs = Some l).
    { rewrite E1, list_lookup_insert_ne by exact Hne. exact Hl. }
    destruct (guarded_batch_alone rec call t (loading rs) (VBool false) l st1 I1 A1 Hl1 Sl)
      as [st' [B [I' [G [_ _]]]]].
    exists st'. split; [exact B |]. split; [exact I' |].
    unfold sig_value. rewrite G, E1. repeat split.
    - rewrite list_lookup_insert_eq; [reflexivity |].
      rewrite length_insert. eapply lookup_lt_Some, Hl.
    - rewrite list_lookup_insert_ne by auto.
      rewrite list_lookup_insert_eq; [reflexivity | eapply lookup_lt_Some, Hs].
    - intros s' H1 H2. rewrite !list_lookup_insert_ne by auto. reflexivity. }
  destruct res as [result | reason].
  - destruct (guarded_batch_alone rec call t (data rs) result d st Hi Ha Hd Sd)
      as [st1 [B1 [I1 [G1 [T1 _]]]]].
    rewrite B1.
    assert (A1 : is_aborted t st1 = false) by (unfold is_aborted in *; rewrite T1; exact Ha).
    destruct (Hfin st1 (data rs) d result I1 A1 G1 Hd N1) as [st' [B [I' [V1 [V2 V3]]]]].
    exists st'. simpl. rewrite B. simpl.
    split; [reflexivity |]. split; [exact I' |]. split; [exact V1 |].
    assert (V4 : sig_value (error rs) st' = value e).
    { rewrite V3 by auto. unfold sig_value. rewrite He. reflexivity. }
    split; [exact V2 |]. split; [exact V4 |].
    rewrite success_value, idle_value, V1, V2, V4. auto.
  - simpl.
    destruct (guarded_batch_alone rec call t (error rs) reason e st Hi Ha He Se)
      as [st1 [B1 [I1 [G1 [T1 _]]]]].
    rewrite B1.
    assert (A1 : is_aborted t st1 = false) by (unfold is_aborted in *; rewrite T1; exact Ha).
    destruct (Hfin st1 (error rs) e reason I1 A1 G1 He (not_eq_sym N3))
      as [st' [B [I' [V1 [V2 V3]]]]].
    exists st'. rewrite B. simpl.
    split; [reflexivity |]. split; [exact I' |]. split; [exact V1 |].
    assert (V4 : sig_value (data rs) st' = value d).
    { rewrite V3 by auto. unfold sig_value. rewrite Hd. reflexivity. }
    split; [exact V4 |]. split; [exact V2 |].
    rewrite success_value, hasError_value, V1, V2. auto.
Qed.

Lemma idle_shot_alone : idle shot_alone.
Proof.
  unfold shot_alone, tasks_after.
  destruct (run_tasks 20 [Run (LoadShot skip VNull (fun _ => skip))] initial)
    as [st' |] eqn:H.
  - apply (run_tasks_frame _ _ _ _ idle_initial H).
  - apply idle_initial.
Defined.

Lemma settlement_status_witness :
  idle shot_alone /\
  exists st',
    settle (exec 10) (invoke 10) 0 0 (Rejected VNull) shot_alone = Done undefined st' /\ idle st' /\
    sig_value 1 st' = VBool false /\
    sig_value 0 st' = VNull /\ sig_value 2 st' = VNull /\
    (Shot.hasError (mkResource 0 1 2 skip (Some 0)) st').1 = false /\
    (Shot.success (mkResource 0 1 2 skip (Some 0)) st').1 = true.
Proof.
  split; [exact idle_shot_alone |].
  apply (settlement_sets_the_status (exec 10) (invoke 10) 0 (mkResource 0 1 2 skip (Some 0)) 0
           (Rejected VNull) (mkSignal VNull []) (mkSignal (VBool true) [])
           (mkSignal VNull []) VNull shot_alone idle_shot_alone);
    try (vm_compute; reflexivity); simpl; lia.
Defined.

(** ** Effects that feed themselves *)

Lemma exec_skip_nest (n : nat) (st : State) :
  exec (nest_fuel n) skip st = Done (RVal VUndef) st.
Proof. destruct n; reflexivity. Qed.

Section Feedback.

Variable e : eid.
Variable s : sid.
Variable f : val -> val.

Lemma feeding_run (n : nat) :
  forall st, feeding e s f st -> moves f n (sig_value s st) = true ->
  exists st',
    invoke (nest_fuel n) e st = Done undefined st' /\ feeding e s f st' /\
    effectStack st' = effectStack st /\
    sig_value s st' = after_moves f n (sig_value s st) /\
    log st' = log st ++ EvInvoke e (length (effectStack st)) true ::
      match n with
      | O => []
      | S n' => nest_trace e s f n' (f (sig_value s st)) (effectStack st ++ [e])
      end.
Proof.
  assert (Hadd : set_add e [e] = [e])
    by (unfold set_add; simpl; rewrite Nat.eqb_refl; reflexivity).
  induction n as [| n IH]; intros st [Hs [He [sg [Hg Hsub]]]] Hm;
    assert (Hv : sig_value s st = value sg) by (unfold sig_value; rewrite Hg; reflexivity);
    simpl in Hm; rewrite Hv in Hm |- *.
  - simpl. unfold effect_call. rewrite He. simpl.
    unfold cleanup_length. simpl. rewrite He. simpl.
    unfold read. simpl. rewrite Hg. simpl.
    unfold write. simpl.
    rewrite list_lookup_insert_eq by (eapply lookup_lt_Some, Hg). simpl.
    rewrite Hm. simpl.
    eexists. split; [reflexivity |].
    rewrite removelast_last, Hsub, Hadd.
    split; [| split; [reflexivity | split; [| reflexivity]]].
    + split; [exact Hs |]. split.
      * simpl. rewrite list_lookup_alter_eq, He. reflexivity.
      * simpl. eexists. split;
          [apply list_lookup_insert_eq; eapply lookup_lt_Some, Hg | reflexivity].
    + unfold sig_value. simpl.
      rewrite list_lookup_insert_eq by (eapply lookup_lt_Some, Hg). reflexivity.
  - apply andb_true_iff in Hm. destruct Hm as [Hne Hm]. apply negb_true_iff in Hne.
    cbn [nest_fuel invoke]. unfold effect_call. rewrite He. simpl.
    unfold cleanup_length. simpl. rewrite He. simpl.
    unfold read. simpl. rewrite Hg. simpl.
    unfold write. simpl.
    rewrite list_lookup_insert_eq by (eapply lookup_lt_Some, Hg). simpl.
    rewrite Hne, Hsub, Hadd, list_insert_insert_eq. simpl.
    unfold has_subscriber. simpl.
    rewrite list_lookup_insert_eq by (eapply lookup_lt_Some, Hg). simpl.
    unfold set_has. simpl. rewrite Nat.eqb_refl. simpl. rewrite Hs.
    match goal with |- context [invoke (nest_fuel n) e ?x] =>
      destruct (IH x) as [st2 [E2 [F2 [K2 [V2 L2]]]]] end.
    + split; [exact Hs |]. split.
      * simpl. rewrite list_lookup_alter_eq, He. reflexivity.
      * simpl. eexists. split;
          [apply list_lookup_insert_eq; eapply lookup_lt_Some, Hg | reflexivity].
    + unfold sig_value. simpl.
      rewrite list_lookup_insert_eq by (eapply lookup_lt_Some, Hg). exact Hm.
    + rewrite E2. simpl. rewrite exec_skip_nest. simpl.
      eexists. split; [reflexivity |].
      assert (Vin : forall x, sig_value s
                (emit (EvSet s (f (value sg)) (effectStack st ++ [e]))
                   (set_sigs (<[s:=mkSignal (f (value sg)) [e]]> (sigs st)) x))
              = f (value sg)).
      { intros x. unfold sig_value. simpl.
        rewrite list_lookup_insert_eq by (eapply lookup_lt_Some, Hg). reflexivity. }
      rewrite Vin in V2, L2. simpl in K2, L2.
      destruct F2 as [S2 [E2' G2]].
      split; [| split; [| split]].
      * split; [exact S2 |]. split; [exact E2' | exact G2].
      * simpl. rewrite K2. apply removelast_last.
      * unfold sig_value in *. simpl. exact V2.
      * simpl. rewrite L2, <- (app_assoc (log st ++ _)), <- (app_assoc (log st)). simpl.
        destruct n; reflexivity.
Qed.

(** A write of a value that moves [n] times before the function comes to
    rest. *)
Lemma feeding_write_nests (n : nat) (v : val) (st : State) :
  feeding e s f st -> Object_is (sig_value s st) v = false -> moves f n v = true ->
  exists st',
    exec (S (nest_fuel n)) (Write s v skip) st = Done (RVal VUndef) st' /\
    feeding e s f st' /\
    effectStack st' = effectStack st /\
    sig_value s st' = after_moves f n v /\
    log st' = log st ++ nest_trace e s f n v (effectStack st).
Proof.
  intros [Hs [He [sg [Hg Hsub]]]] Hne Hm.
  simpl. unfold write. rewrite Hg. simpl.
  unfold sig_value in Hne. rewrite Hg in Hne. rewrite Hne, Hsub. simpl.
  unfold has_subscriber. simpl.
  rewrite list_lookup_insert_eq by (eapply lookup_lt_Some, Hg). simpl.
  unfold set_has. simpl. rewrite Nat.eqb_refl. simpl. rewrite Hs.
  assert (Vin : forall x, sig_value s
            (emit (EvSet s v (effectStack st)) (set_sigs (<[s:=mkSignal v [e]]> (sigs st)) x)) = v).
  { intros x. unfold sig_value. simpl.
    rewrite list_lookup_insert_eq by (eapply lookup_lt_Some, Hg). reflexivity. }
  match goal with |- context [invoke (nest_fuel n) e ?x] =>
    destruct (feeding_run n x) as [st2 [E2 [F2 [K2 [V2 L2]]]]] end.
  - split; [exact Hs |]. split; [exact He |]. simpl. eexists. split;
      [apply list_lookup_insert_eq; eapply lookup_lt_Some, Hg | reflexivity].
  - rewrite Vin. exact Hm.
  - rewrite E2. simpl. rewrite exec_skip_nest. rewrite Vin in V2, L2. simpl in K2, L2.
    exists st2. split; [reflexivity |]. split; [exact F2 |]. split; [exact K2 |].
    split; [exact V2 |]. rewrite L2, <- (app_assoc (log st)). simpl.
    destruct n; reflexivity.
Qed.

End Feedback.

Lemma invoked_at_above (e : eid) (s : sid) (f : val -> val) (n : nat) :
  forall v stk k, k < length stk -> invoked_at k (nest_trace e s f n v stk) = [].
Proof.
  induction n as [| n IH]; intros v stk k Hk; simpl;
    destruct (Nat.eqb_spec (length stk) k); try lia; [reflexivity |].
  apply IH. rewrite length_app. simpl. lia.
Qed.

Lemma nest_trace_runs (e : eid) (s : sid) (f : val -> val) (n : nat) :
  forall v stk,
    runs_of e (nest_trace e s f n v stk) = S n /\
    forall i, i <= n -> invoked_at (length stk + i) (nest_trace e s f n v stk) = [e].
Proof.
  induction n as [| n IH]; intros v stk.
  - split; [unfold runs_of; simpl; rewrite Nat.eqb_refl; reflexivity |].
    intros i Hi. assert (i = 0) by lia. subst i. rewrite Nat.add_0_r. simpl.
    rewrite Nat.eqb_refl. reflexivity.
  - destruct (IH (f v) (stk ++ [e])) as [R D]. rewrite length_app in D. simpl in D.
    split.
    + unfold runs_of in *. cbn [nest_trace List.filter]. rewrite Nat.eqb_refl.
      simpl. rewrite R. reflexivity.
    + intros [| i] Hi; cbn [nest_trace invoked_at flat_map].
      * rewrite Nat.add_0_r, Nat.eqb_refl. simpl. f_equal.
        apply invoked_at_above. rewrite length_app. simpl. lia.
      * destruct (Nat.eqb_spec (length stk) (length stk + S i)); [lia |]. simpl.
        replace (length stk + S i) with (length stk + 1 + i) by lia. apply D. lia.
Qed.

Lemma moves_rest (f : val -> val) (n : nat) :
  forall v, moves f n v = true ->
    Object_is (after_moves f n v) (f (after_moves f n v)) = true.
Proof.
  induction n as [| n IH]; intros v H; simpl in *; [exact H |].
  apply andb_true_iff in H. apply IH, H.
Qed.

(** X7: the runtime has no guard against an effect that triggers itself.
    Let the only subscriber of a signal be an effect that reads the signal
    and writes back a function f of what it read, and let no batch be open.
    A write of a value that f changes n times in a row before it comes to
    rest runs the effect n + 1 times, each run started from inside the one
    before with one more effect on the stack, and returns with the signal
    at rest, as long as the call stack holds n + 1 nested runs: how deep
    the runs nest is decided by f alone. *)
Theorem write_to_a_self_feeding_effect_nests
    (e : eid) (s : sid) (f : val -> val) (n : nat) (v : val) (st : State) :
  feeding e s f st -> Object_is (sig_value s st) v = false -> moves f n v = true ->
  exists fuel st',
    exec fuel (Write s v skip) st = Done undefined st' /\
    log st' = log st ++ nest_trace e s f n v (effectStack st) /\
    runs_of e (nest_trace e s f n v (effectStack st)) = S n /\
    (forall i, i <= n ->
       invoked_at (length (effectStack st) + i)
         (nest_trace e s f n v (effectStack st)) = [e]) /\
    sig_value s st' = after_moves f n v /\
    Object_is (after_moves f n v) (f (after_moves f n v)) = true /\
    effectStack st' = effectStack st /\
    feeding e s f st'.
Proof.
  intros Hf Hne Hm.
  destruct (feeding_write_nests e s f n v st Hf Hne Hm) as [st' [E [F [K [V L]]]]].
  destruct (nest_trace_runs e s f n v (effectStack st)) as [R D].
  exists (S (nest_fuel n)), st'. repeat split; auto; try apply F.
  apply moves_rest, Hm.
Qed.

Lemma feeding_feeder : feeding 0 0 toward_three feeder.
Proof.
  split; [reflexivity |]. split; [reflexivity |]. eexists. split; reflexivity.
Defined.

Lemma self_feeding_witness :
  feeding 0 0 toward_three feeder /\
  Object_is (sig_value 0 feeder) (VNum 0) = false /\
  moves toward_three 3 (VNum 0) = true /\
  exists fuel st',
    exec fuel (Write 0 (VNum 0) skip) feeder = Done undefined st' /\
    log st' = log feeder ++ nest_trace 0 0 toward_three 3 (VNum 0) (effectStack feeder) /\
    runs_of 0 (nest_trace 0 0 toward_three 3 (VNum 0) (effectStack feeder)) = 4 /\
    (forall i, i <= 3 ->
       invoked_at (length (effectStack feeder) + i)
         (nest_trace 0 0 toward_three 3 (VNum 0) (effectStack feeder)) = [0]) /\
    sig_value 0 st' = after_moves toward_three 3 (VNum 0) /\
    Object_is (after_moves toward_three 3 (VNum 0))
      (toward_three (after_moves toward_three 3 (VNum 0))) = true /\
    effectStack st' = effectStack feeder /\
    feeding 0 0 toward_three st'.
Proof.
  split; [exact feeding_feeder |]. split; [reflexivity |]. split; [reflexivity |].
  exact (write_to_a_self_feeding_effect_nests 0 0 toward_three 3 (VNum 0) feeder
           feeding_feeder eq_refl eq_refl).
Defined.
(** * Internationalisation: theorems *)

(** ** Splitting and joining *)

Lemma split_not_nil (c : ascii) (s : string) : I18n.split c s <> [].
Proof.
  destruct s as [| x r]; simpl; [discriminate |].
  destruct (Ascii.eqb x c); [discriminate |]. destruct (I18n.split c r); discriminate.
Qed.

Lemma split_free (c : ascii) (s : string) : has_char c s = false -> I18n.split c s = [s].
Proof.
  induction s as [| x r IH]; simpl; [reflexivity |].
  intros H. apply orb_false_elim in H as [H1 H2]. rewrite H1, (IH H2). reflexivity.
Qed.

(** The text before the first separator is the first piece. *)
Lemma split_app (c : ascii) (a b : string) :
  has_char c a = false ->
  I18n.split c (a ++ String c b) = a :: I18n.split c b.
Proof.
  induction a as [| x r IH]; simpl; intros H.
  - rewrite Ascii.eqb_refl. reflexivity.
  - apply orb_false_elim in H as [H1 H2]. rewrite H1, (IH H2). reflexivity.
Qed.

Lemma split_pieces_free (c : ascii) (s : string) :
  Forall (fun p => has_char c p = false) (I18n.split c s).
Proof.
  induction s as [| x r IH]; simpl.
  - repeat constructor.
  - destruct (Ascii.eqb x c) eqn:E; [constructor; [reflexivity | exact IH] |].
    destruct (I18n.split c r) as [| h t]; [repeat constructor; simpl; rewrite E; reflexivity |].
    inversion IH as [| ? ? Hh Ht]; subst. constructor; [| exact Ht].
    simpl. rewrite E, Hh. reflexivity.
Qed.

Lemma split_join (l : list string) :
  l <> [] -> Forall (fun p => has_char "/" p = false) l ->
  I18n.split "/" (I18n.join l) = l.
Proof.
  unfold I18n.join. induction l as [| a l IH]; intros Hne Hl; [congruence |].
  inversion Hl as [| ? ? Ha Hl']; subst.
  destruct l as [| b l]; simpl.
  - apply split_free, Ha.
  - change (String.concat "/" (b :: l)) with (String.concat "/" (b :: l)) in *.
    change (a ++ String "/" "" ++ String.concat "/" (b :: l))%string
      with (a ++ String "/" (String.concat "/" (b :: l)))%string.
    rewrite (split_app "/" a _ Ha). f_equal. apply IH; [discriminate | exact Hl'].
Qed.

Lemma segments_slash (s : string) : I18n.segments (String "/" s) = I18n.segments s.
Proof. unfold I18n.segments. simpl. reflexivity. Qed.

Lemma segments_free (path : string) :
  Forall (fun p => has_char "/" p = false /\ I18n.nonempty p = true) (I18n.segments path).
Proof.
  unfold I18n.segments. pose proof (split_pieces_free "/" path) as H.
  induction H as [| x l Hx _ IH]; simpl; [constructor |].
  destruct (I18n.nonempty x) eqn:E; [constructor; auto | exact IH].
Qed.

Lemma filter_nonempty_id (l : list string) :
  Forall (fun p => I18n.nonempty p = true) l -> List.filter I18n.nonempty l = l.
Proof.
  induction 1 as [| x l Hx _ IH]; simpl; [reflexivity |]. rewrite Hx, IH. reflexivity.
Qed.

(** The segments of a path rebuilt from segments. *)
Lemma segments_join (l : list string) :
  Forall (fun p => has_char "/" p = false /\ I18n.nonempty p = true) l ->
  I18n.segments (String "/" (I18n.join l)) = l.
Proof.
  intros H. rewrite segments_slash. unfold I18n.segments.
  destruct l as [| a l]; [reflexivity |].
  rewrite split_join; [| discriminate | eapply Forall_impl; [exact H | intros ? []; auto]].
  apply filter_nonempty_id. eapply Forall_impl; [exact H | intros ? []; auto].
Qed.

Lemma segments_prefixed (l rest : string) :
  has_char "/" l = false -> I18n.nonempty l = true ->
  I18n.segments (String "/" (l ++ String "/" rest)) = l :: I18n.segments rest.
Proof.
  intros Hl Hn. rewrite segments_slash. unfold I18n.segments.
  rewrite (split_app "/" l rest Hl). simpl. rewrite Hn. reflexivity.
Qed.

(** X8: extractLanguageFromRoute undoes localizeRoute.  For a supported
    language that gets a prefix (explicit routing, or a language other than
    the default one), the localized path yields that language and the
    path again, in normal form: one leading slash, no empty segment, no
    trailing slash.  A path in normal form comes back as it was. *)
Theorem extractLanguageFromRoute_inverts_localizeRoute
    (path l : string) (w : I18n.world) :
  I18n.includes (I18n.getSupportedLanguages (I18n.i18n w)) (VStr l) = true ->
  I18n.nonempty l = true -> has_char "/" l = false ->
  I18n.explicitRouting (I18n.i18nConfiguration (I18n.i18n w)) = true \/
    strict_equal (VStr l) (I18n.getDefaultLanguage (I18n.i18n w)) = false ->
  I18n.extractLanguageFromRoute (I18n.localizeRoute path (VStr l) w).1 (I18n.i18n w)
    = (VStr l, String "/" (I18n.join (I18n.segments path))) /\
  I18n.segments (String "/" (I18n.join (I18n.segments path))) = I18n.segments path.
Proof.
  intros Hin Hn Hl Hpre. split.
  - unfold I18n.localizeRoute.
    assert (Ht : truthy (VStr l) = true) by exact Hn.
    rewrite Ht.
    assert (Hc : negb (I18n.explicitRouting (I18n.i18nConfiguration (I18n.i18n w))) &&
                 strict_equal (VStr l) (I18n.getDefaultLanguage (I18n.i18n w)) = false).
    { destruct Hpre as [-> | ->]; [reflexivity | apply andb_false_r]. }
    rewrite Hc. cbn [fst I18n.to_string]. unfold I18n.extractLanguageFromRoute.
    assert (Hs : I18n.segments ("/" ++ l ++ (if startsWith "/" path then path
                                         else "/" ++ path))%string
                 = l :: I18n.segments path).
    { destruct path as [| x r].
      - cbn [startsWith String.prefix String.append].
        apply (segments_prefixed l "" Hl Hn).
      - unfold startsWith. cbn [String.prefix String.append].
        destruct (ascii_dec "/" x) as [<- | Hx].
        + assert (Hp : String.prefix "" r = true) by (destruct r; reflexivity).
          rewrite Hp. rewrite (segments_prefixed l r Hl Hn), segments_slash. reflexivity.
        + apply (segments_prefixed l (String x r) Hl Hn). }
    rewrite Hs, Hin. reflexivity.
  - apply segments_join. eapply Forall_impl; [apply segments_free | auto].
Qed.

Lemma extractLanguageFromRoute_witness :
  I18n.extractLanguageFromRoute (I18n.localizeRoute "/about/" (VStr "sv") bilingual).1 (I18n.i18n bilingual)
    = (VStr "sv", "/about") /\
  I18n.segments "/about" = I18n.segments "/about/".
Proof.
  apply (extractLanguageFromRoute_inverts_localizeRoute "/about/" "sv" bilingual);
    try reflexivity.
  right. reflexivity.
Defined.

Lemma assoc_get_set_eq {V : Type} (k : string) (v : V) (l : list (string * V)) :
  assoc_get k (assoc_set k v l) = Some v.
Proof.
  induction l as [| [k' v'] l IH]; simpl.
  - rewrite String.eqb_refl. reflexivity.
  - destruct (String.eqb k k') eqn:E; simpl.
    + rewrite String.eqb_refl. reflexivity.
    + rewrite E. exact IH.
Qed.

Lemma assoc_get_set_ne {V : Type} (k k0 : string) (v : V) (l : list (string * V)) :
  k0 <> k -> assoc_get k0 (assoc_set k v l) = assoc_get k0 l.
Proof.
  intros Hne. induction l as [| [k' v'] l IH]; simpl.
  - destruct (String.eqb_spec k0 k); [contradiction | reflexivity].
  - destruct (String.eqb_spec k k') as [-> | Hk]; simpl.
    + destruct (String.eqb_spec k0 k'); [contradiction | reflexivity].
    + destruct (String.eqb k0 k'); [reflexivity | exact IH].
Qed.

(** A key that was set to [v], whatever was set to [v] after it. *)
Lemma assoc_get_set_same {V : Type} (k k0 : string) (v : V) (l : list (string * V)) :
  assoc_get k0 l = Some v -> assoc_get k0 (assoc_set k v l) = Some v.
Proof.
  intros H. destruct (String.eqb_spec k0 k) as [-> | Hne].
  - apply assoc_get_set_eq.
  - rewrite assoc_get_set_ne by exact Hne. exact H.
Qed.

(** X9: setLanguage persists the choice.  When setLanguage(l) returns in a
    browser for a supported language l, a later detectBrowserLanguage() and
    getUserLanguage() return l, getPreferredLanguage() returns l if the
    call came from an explicit language route, and the lang attribute of
    the document is l; the set of supported languages is as before. *)
Theorem setLanguage_persists_the_language
    (call : eid -> State -> outcome) (l : string) (isExplicitRoute : bool)
    (b : I18n.browser) (w w' : I18n.world) :
  I18n.window w = Some b ->
  I18n.includes (I18n.getSupportedLanguages (I18n.i18n w)) (VStr l) = true ->
  I18n.nonempty l = true ->
  I18n.setLanguage call (VStr l) isExplicitRoute w = I18n.Returned tt w' ->
  I18n.i18n w' = I18n.i18n w /\
  I18n.detectBrowserLanguage w' = VStr l /\
  I18n.getUserLanguage w' = VStr l /\
  (isExplicitRoute = true -> I18n.getPreferredLanguage w' = VStr l) /\
  (I18n.documentLang <$> I18n.window w') = Some l.
Proof.
  intros Hw Hin Hn H. unfold I18n.setLanguage in H. rewrite Hin in H.
  destruct (write call _ _ _) as [| r st | err st]; try discriminate.
  cbn [I18n.window I18n.set_runtime] in H. rewrite Hw in H. injection H as <-.
  cbn [I18n.to_string I18n.i18n I18n.set_window I18n.set_runtime I18n.window].
  split; [reflexivity |].
  set (b3 := I18n.setItem (I18n.userKey (I18n.i18n w)) l
               (if isExplicitRoute
                then I18n.setItem (I18n.pageKey (I18n.i18n w)) l (I18n.setItem "language" l b)
                else I18n.setItem "language" l b)).
  assert (H1 : I18n.getItem "language" (I18n.set_documentLang l b3) = Some l).
  { unfold I18n.getItem, b3. simpl. apply assoc_get_set_same. destruct isExplicitRoute; simpl.
    - apply assoc_get_set_same, assoc_get_set_eq.
    - apply assoc_get_set_eq. }
  assert (H2 : I18n.getItem (I18n.userKey (I18n.i18n w)) (I18n.set_documentLang l b3) = Some l).
  { unfold I18n.getItem, b3. simpl. apply assoc_get_set_eq. }
  unfold I18n.detectBrowserLanguage, I18n.getUserLanguage, I18n.getPreferredLanguage, I18n.stored_language.
  cbn [I18n.window I18n.i18n I18n.set_window I18n.set_runtime]. rewrite H1, H2, Hn, Hin. cbn [andb].
  repeat split; auto.
  intros ->.
  assert (H3 : I18n.getItem (I18n.pageKey (I18n.i18n w)) (I18n.set_documentLang l b3) = Some l).
  { unfold I18n.getItem, b3. simpl. apply assoc_get_set_same, assoc_get_set_eq. }
  rewrite H3, Hn, Hin. reflexivity.
Qed.

Lemma setLanguage_witness :
  exists w',
    I18n.setLanguage (invoke 10) (VStr "sv") true bilingual = I18n.Returned tt w' /\
    I18n.i18n w' = I18n.i18n bilingual /\
    I18n.detectBrowserLanguage w' = VStr "sv" /\
    I18n.getUserLanguage w' = VStr "sv" /\
    (true = true -> I18n.getPreferredLanguage w' = VStr "sv") /\
    (I18n.documentLang <$> I18n.window w') = Some "sv".
Proof.
  eexists. split; [vm_compute; reflexivity |].
  eapply (setLanguage_persists_the_language (invoke 10) "sv" true _ bilingual);
    reflexivity.
Defined.


(** ** initI18n in a browser *)

(** X19: in a browser initI18n makes no use of defaultLanguage unless
    detection is switched off.  With a window and detectBrowser not false,
    the call does the same whatever defaultLanguage and defaultLng are:
    it sets the same language, with the same effects, returns or throws
    alike, and leaves the same state but for the defaultLanguage stored in
    the configuration.  The language it sets is the one that
    detectBrowserLanguage finds under the new configuration. *)
Theorem initI18n_in_a_browser_ignores_defaultLanguage
    (call : eid -> State -> outcome) (o : I18n.options) (x y : val)
    (w : I18n.world) (b : I18n.browser) :
  I18n.window w = Some b ->
  I18n.o_detectBrowser o <> Some false ->
  I18n.initI18n call (with_defaultLanguage x y o) w =
    default_stored (I18n.or_else x (I18n.or_else y VNull)) (I18n.initI18n call o w) /\
  forall w', I18n.initI18n call o w = I18n.Returned tt w' ->
    exists b', I18n.window w' = Some b' /\
      I18n.documentLang b' =
        I18n.to_string (I18n.detectBrowserLanguage (I18n.set_i18n (I18n.i18n w') w)).
Proof.
  intros Hw Hd.
  assert (Hdet : match I18n.o_detectBrowser o with Some b0 => b0 | None => true end = true).
  { destruct (I18n.o_detectBrowser o) as [[|] |]; [reflexivity | | reflexivity].
    contradiction Hd. reflexivity. }
  unfold I18n.initI18n.
  cbn [with_defaultLanguage I18n.o_supportedLanguages I18n.o_explicitRouting
       I18n.o_defaultLanguage I18n.o_defaultLng I18n.o_fallbackLanguage I18n.o_fallbackLng
       I18n.o_page I18n.o_preferred I18n.o_user I18n.o_detectBrowser
       I18n.defaultLanguage I18n.window I18n.set_i18n I18n.runtime I18n.currentLanguage
       I18n.i18n I18n.set_runtime].
  rewrite Hw, Hdet. cbn [andb]. rewrite !orb_true_r.
  split.
  - match goal with
    | |- match write call ?s (Lit ?a) ?st with _ => _ end =
         default_stored _ (match write call ?s (Lit ?a') ?st with _ => _ end) =>
      change a with a'; destruct (write call s (Lit a') st)
    end; reflexivity.
  - intros w' H.
    match type of H with
    | match ?W with _ => _ end = _ => destruct W; try discriminate
    end.
    injection H as <-. eexists. split; reflexivity.
Qed.

Lemma initI18n_in_a_browser_witness :
  I18n.window bilingual =
    Some {| I18n.localStorage := []; I18n.documentLang := "";
            I18n.navigatorLanguage := "en-US"; I18n.pathname := "/sv/about/" |} /\
  I18n.o_detectBrowser no_options <> Some false /\
  (I18n.initI18n (invoke 10) (with_defaultLanguage (VStr "sv") VUndef no_options) bilingual =
    default_stored (I18n.or_else (VStr "sv") (I18n.or_else VUndef VNull))
      (I18n.initI18n (invoke 10) no_options bilingual) /\
   forall w', I18n.initI18n (invoke 10) no_options bilingual = I18n.Returned tt w' ->
    exists b', I18n.window w' = Some b' /\
      I18n.documentLang b' =
        I18n.to_string
          (I18n.detectBrowserLanguage (I18n.set_i18n (I18n.i18n w') bilingual))) /\
  exists w', I18n.initI18n (invoke 10) no_options bilingual = I18n.Returned tt w' /\
    I18n.getLanguage w' = (VStr "en", w').
Proof.
  split; [reflexivity |]. split; [discriminate |].
  split; [| eexists; split; reflexivity].
  apply (initI18n_in_a_browser_ignores_defaultLanguage (invoke 10) no_options
           (VStr "sv") VUndef bilingual
           {| I18n.localStorage := []; I18n.documentLang := "";
              I18n.navigatorLanguage := "en-US"; I18n.pathname := "/sv/about/" |});
    [reflexivity | discriminate].
Defined.
(** * Rendering to markup: theorems *)

Lemma escape_char_cases (c : ascii) :
  (c = "&"%char /\ escape_char c = "&amp;") \/
  (c = "<"%char /\ escape_char c = "&lt;") \/
  (c = ">"%char /\ escape_char c = "&gt;") \/
  (c = ascii_of_nat 34 /\ escape_char c = "&quot;") \/
  (c = "'"%char /\ escape_char c = "&#39;") \/
  (c <> "&"%char /\ c <> "<"%char /\ c <> ">"%char /\ c <> ascii_of_nat 34 /\
   c <> "'"%char /\ escape_char c = String c EmptyString).
Proof.
  unfold escape_char.
  destruct (Ascii.eqb_spec c "&"); [subst; auto |].
  destruct (Ascii.eqb_spec c "<"); [subst; auto 6 |].
  destruct (Ascii.eqb_spec c ">"); [subst; auto 6 |].
  destruct (Ascii.eqb_spec c (ascii_of_nat 34)); [subst; auto 8 |].
  destruct (Ascii.eqb_spec c "'"); [subst; auto 8 |].
  do 5 right. auto 10.
Qed.

Lemma escape_char_prefix_free (c1 c2 : ascii) (r1 r2 : string) :
  (escape_char c1 ++ r1)%string = (escape_char c2 ++ r2)%string -> c1 = c2 /\ r1 = r2.
Proof.
  intros H.
  destruct (escape_char_cases c1) as [[-> E1] | [[-> E1] | [[-> E1] | [[-> E1] | [[-> E1] |
    [A1 [A2 [A3 [A4 [A5 E1]]]]]]]]]];
  destruct (escape_char_cases c2) as [[-> E2] | [[-> E2] | [[-> E2] | [[-> E2] | [[-> E2] |
    [B1 [B2 [B3 [B4 [B5 E2]]]]]]]]]];
  rewrite ?E1, ?E2 in H; simpl in H; try discriminate;
  try (injection H as <-; auto; fail);
  try (injection H as ->; congruence);
  try (injection H as <-; congruence).
Qed.

(** X10: escapeHtml loses nothing: two strings with the same escaped form
    are the same string. *)
Theorem escapeHtml_is_injective (a b : string) :
  escapeHtml a = escapeHtml b -> a = b.
Proof.
  revert b. induction a as [| x a IH]; intros [| y b] H; simpl in H.
  - reflexivity.
  - exfalso. destruct (escape_char_cases y) as [[_ E] | [[_ E] | [[_ E] | [[_ E] | [[_ E] |
      [_ [_ [_ [_ [_ E]]]]]]]]]]; rewrite E in H; discriminate.
  - exfalso. destruct (escape_char_cases x) as [[_ E] | [[_ E] | [[_ E] | [[_ E] | [[_ E] |
      [_ [_ [_ [_ [_ E]]]]]]]]]]; rewrite E in H; discriminate.
  - destruct (escape_char_prefix_free _ _ _ _ H) as [-> H']. f_equal. apply IH, H'.
Qed.

Lemma escapeHtml_witness :
  escapeHtml "a<b" = escapeHtml "a<b" /\ "a<b" = "a<b".
Proof.
  assert (H : escapeHtml "a<b" = escapeHtml "a<b") by reflexivity.
  split; [exact H |]. exact (escapeHtml_is_injective "a<b" "a<b" H).
Defined.

Lemma count_char_app (c : ascii) (a b : string) :
  count_char c (a ++ b) = count_char c a + count_char c b.
Proof. induction a as [| x a IH]; simpl; [reflexivity |]. rewrite IH. lia. Qed.

Lemma markup_char_cases (c : ascii) :
  markup_char c = true ->
  c = "<"%char \/ c = ">"%char \/ c = ascii_of_nat 34 \/ c = "'"%char.
Proof.
  unfold markup_char. intros H.
  destruct (Ascii.eqb_spec c "<"); [auto |].
  destruct (Ascii.eqb_spec c ">"); [auto |].
  destruct (Ascii.eqb_spec c (ascii_of_nat 34)); [auto |].
  destruct (Ascii.eqb_spec c "'"); [auto | discriminate].
Qed.

Lemma escape_char_count (c x : ascii) :
  markup_char c = true -> count_char c (escape_char x) = 0.
Proof.
  intros Hc.
  destruct (escape_char_cases x) as [[_ E] | [[_ E] | [[_ E] | [[_ E] | [[_ E] |
      [A1 [A2 [A3 [A4 [A5 E]]]]]]]]]]; rewrite E;
  destruct (markup_char_cases c Hc) as [-> | [-> | [-> | ->]]]; try reflexivity;
  simpl; match goal with |- (if Ascii.eqb ?a ?b then _ else _) + 0 = 0 =>
    destruct (Ascii.eqb_spec a b); [congruence | reflexivity] end.
Qed.

(** What is escaped holds no angle bracket, no double quote and no
    apostrophe. *)
Lemma escapeHtml_count (c : ascii) (s : string) :
  markup_char c = true -> count_char c (escapeHtml s) = 0.
Proof.
  intros Hc. induction s as [| x s IH]; simpl; [reflexivity |].
  rewrite count_char_app, IH, (escape_char_count c x Hc). reflexivity.
Qed.

Lemma vnode_induction (P : vnode -> Prop) :
  P VNone -> (forall s, P (VText s)) -> (forall z, P (VNumber z)) ->
  (forall l, Forall P l -> P (VArr l)) ->
  (forall type props children, Forall P children -> P (VElem type props children)) ->
  forall v, P v.
Proof.
  intros H0 H1 H2 H3 H4.
  fix IH 1. intros [| s | z | l | type props children].
  - exact H0.
  - apply H1.
  - apply H2.
  - apply H3. induction l as [| x l IHl]; constructor; [apply IH | exact IHl].
  - apply H4. induction children as [| x l IHl]; constructor; [apply IH | exact IHl].
Qed.

Lemma count_char_has (c : ascii) (s : string) :
  has_char c s = false -> count_char c s = 0.
Proof.
  induction s as [| x s IH]; simpl; [reflexivity |].
  intros H. apply orb_false_elim in H as [H1 H2]. rewrite H1, (IH H2). reflexivity.
Qed.

Lemma count_char_concat (c : ascii) (sep : string) (l : list string) :
  count_char c sep = 0 ->
  count_char c (String.concat sep l) = list_sum (map (count_char c) l).
Proof.
  intros Hs. induction l as [| a l IH]; [reflexivity |].
  destruct l as [| b l].
  - simpl. lia.
  - change (String.concat sep (a :: b :: l))
      with (a ++ sep ++ String.concat sep (b :: l))%string.
    rewrite !count_char_app, Hs, IH. simpl. lia.
Qed.

Lemma replace_first_gt_count (s : string) :
  count_char "<" (replace_first_gt s) = count_char "<" s.
Proof.
  induction s as [| x s IH]; simpl; [reflexivity |].
  destruct (Ascii.eqb_spec x ">") as [-> | Hx]; simpl; [reflexivity |].
  rewrite IH. reflexivity.
Qed.

Lemma render_attr_count (kv : string * pval) :
  has_char "<" kv.1 = false -> count_char "<" (render_attr kv) = 0.
Proof.
  destruct kv as [key value]. cbn [fst]. intros Hk. unfold render_attr.
  assert (Hn : count_char "<" (if String.eqb key "className" then "class" else key) = 0).
  { destruct (String.eqb key "className"); [reflexivity | apply count_char_has, Hk]. }
  assert (He : forall s, count_char "<" (escapeHtml s) = 0)
    by (intros s; apply escapeHtml_count; reflexivity).
  destruct value; try destruct (String.eqb key "style");
    rewrite !count_char_app, Hn, !He; reflexivity.
Qed.

Lemma render_attrs_count (props : list (string * pval)) :
  forallb (fun kv => negb (has_char "<" kv.1)) props = true ->
  count_char "<" (render_attrs props) = 0.
Proof.
  intros H. unfold render_attrs. rewrite count_char_concat by reflexivity.
  induction props as [| kv props IH]; [reflexivity |].
  simpl in H. apply andb_prop in H as [H1 H2]. simpl.
  destruct (rendered_prop kv); simpl; [| apply IH, H2].
  rewrite render_attr_count, (IH H2); [reflexivity |].
  destruct (has_char "<" kv.1); [discriminate | reflexivity].
Qed.

Lemma openTag_count (type : string) (props : list (string * pval)) :
  has_char "<" type = false ->
  forallb (fun kv => negb (has_char "<" kv.1)) props = true ->
  count_char "<" (openTag type props) = 1.
Proof.
  intros Ht Hp. unfold openTag.
  destruct (String.eqb (render_attrs props) "");
    rewrite !count_char_app, ?(render_attrs_count props Hp), (count_char_has _ _ Ht);
    reflexivity.
Qed.

(** X11: text and attribute values never become markup.  When no tag name
    and no prop name of a virtual node holds a left angle bracket, the
    markup renderToString returns holds exactly one left angle bracket for
    every tag it writes: one for a void element, whose children it drops,
    an opening and a closing one for any other element. *)
Theorem renderToString_opens_only_its_tags (v : vnode) :
  names_free "<" v = true ->
  count_char "<" (renderToString v) = tags v.
Proof.
  induction v as [| s | z | l IH | type props children IH] using vnode_induction;
    intros Hn.
  - reflexivity.
  - apply escapeHtml_count. reflexivity.
  - apply escapeHtml_count. reflexivity.
  - simpl in *. rewrite count_char_concat by reflexivity. rewrite map_map. f_equal.
    induction IH as [| x l Hx _ IHl]; [reflexivity |].
    simpl in Hn. apply andb_prop in Hn as [H1 H2]. simpl. rewrite (Hx H1), (IHl H2).
    reflexivity.
  - simpl in Hn. apply andb_prop in Hn as [Hn Hc]. apply andb_prop in Hn as [Ht Hp].
    assert (Hsum : count_char "<" (String.concat "" (map renderToString children))
                   = list_sum (map tags children)).
    { rewrite count_char_concat by reflexivity. rewrite map_map. f_equal.
      clear Ht Hp. induction IH as [| x l Hx _ IHl]; [reflexivity |].
      simpl in Hc. apply andb_prop in Hc as [H1 H2]. simpl. rewrite (Hx H1), (IHl H2).
      reflexivity. }
    assert (Ht' : has_char "<" type = false)
      by (destruct (has_char "<" type); [discriminate | reflexivity]).
    cbn [renderToString tags].
    destruct (String.eqb type ""); [exact Hsum |].
    destruct (existsb (String.eqb type) selfClosing).
    + rewrite replace_first_gt_count. apply openTag_count; assumption.
    + rewrite !count_char_app, Hsum, (openTag_count type props Ht' Hp),
        (count_char_has _ _ Ht'). simpl. lia.
Qed.

Lemma renderToString_witness :
  names_free "<"
    (VElem "p" [("title", PStr "a<b"); ("onClick", PFn 0)]
       [VText "1 < 2"; VElem "br" [] [VText "lost"]]) = true /\
  count_char "<"
    (renderToString
       (VElem "p" [("title", PStr "a<b"); ("onClick", PFn 0)]
          [VText "1 < 2"; VElem "br" [] [VText "lost"]])) = 3.
Proof.
  assert (H : names_free "<"
    (VElem "p" [("title", PStr "a<b"); ("onClick", PFn 0)]
       [VText "1 < 2"; VElem "br" [] [VText "lost"]]) = true) by reflexivity.
  split; [exact H |].
  exact (renderToString_opens_only_its_tags _ H).
Defined.

(** * Routes: theorems *)

Lemma has_char_app (c : ascii) (a b : string) :
  has_char c (a ++ b) = has_char c a || has_char c b.
Proof.
  induction a as [| x a IH]; simpl; [reflexivity |]. rewrite IH. apply orb_assoc.
Qed.

Lemma nonempty_snoc (a : string) (x : ascii) :
  I18n.nonempty (a ++ String x EmptyString) = true.
Proof. destruct a; reflexivity. Qed.

Lemma matches_captures (ps : list Router.piece) :
  forall s caps, Router.matches ps s = Some caps -> Forall segment caps.
Proof.
  induction ps as [| p ps IH]; intros s caps H.
  - simpl in H. destruct s; [| discriminate]. injection H as <-. constructor.
  - destruct p as [c | | name].
    + simpl in H. destruct s as [| x r]; [discriminate |].
      destruct (Ascii.eqb x c); [| discriminate]. eapply IH, H.
    + revert H. induction s as [| x r IHs]; cbn [Router.matches]; intros H.
      * eapply IH, H.
      * destruct (Router.line_terminator x); [eapply IH, H |].
        match type of H with match ?w with _ => _ end = _ => destruct w as [c1 |] eqn:E end.
        -- injection H as <-. apply IHs. exact E.
        -- eapply IH, H.
    + cbn [Router.matches] in H.
      assert (G : forall s taken caps, has_char "/" taken = false ->
        (fix group (taken s : string) : option (list string) :=
           match s with
           | EmptyString => None
           | String x r =>
             if Ascii.eqb x "/" then None
             else
               match group (taken ++ String x EmptyString)%string r with
               | Some caps => Some caps
               | None =>
                 match Router.matches ps r with
                 | Some caps => Some ((taken ++ String x EmptyString)%string :: caps)
                 | None => None
                 end
               end
           end) taken s = Some caps -> Forall segment caps).
      { clear H s caps. induction s as [| x r IHs]; intros taken caps Ht H; [discriminate |].
        destruct (Ascii.eqb x "/") eqn:Ex; [discriminate |].
        assert (Ht' : has_char "/" (taken ++ String x EmptyString) = false).
        { rewrite has_char_app, Ht. simpl. rewrite Ex. reflexivity. }
        match type of H with match ?w with _ => _ end = _ => destruct w as [c1 |] eqn:E end.
        - injection H as <-. eapply IHs; [exact Ht' | exact E].
        - destruct (Router.matches ps r) as [c2 |] eqn:E2; [| discriminate].
          injection H as <-. constructor; [| eapply IH, E2].
          split; [apply nonempty_snoc | exact Ht']. }
      eapply G; [| exact H]. reflexivity.
Qed.

Lemma assign_values (ns cs : list string) (acc : list (string * string))
    (n v : string) :
  assoc_get n (Router.assign ns cs acc) = Some v ->
  In v cs \/ assoc_get n acc = Some v.
Proof.
  revert cs acc. induction ns as [| a ns IH]; intros [| c cs] acc H; simpl in H; auto.
  destruct (IH cs _ H) as [Hin | Hacc]; [left; right; exact Hin |].
  destruct (String.eqb a "__proto__"); [right; exact Hacc |].
  destruct (String.eqb_spec n a) as [-> | Hne].
  - rewrite assoc_get_set_eq in Hacc. injection Hacc as ->. left. left. reflexivity.
  - rewrite assoc_get_set_ne in Hacc by exact Hne. right. exact Hacc.
Qed.

(** X12: what matchRoute captures for a parameter is one path segment:
    when a path matches a pattern, the value of every parameter is not
    empty and holds no slash. *)
Theorem matchRoute_parameters_are_segments
    (path pattern : string) (m : Router.matching) (name value : string) :
  Router.matchRoute path pattern = Some m -> Router.matched m = true ->
  assoc_get name (Router.params m) = Some value ->
  I18n.nonempty value = true /\ has_char "/" value = false.
Proof.
  unfold Router.matchRoute, Router.parseRoute. intros H Hm Hv.
  destruct (Router.pieces pattern) as [ps |]; [| discriminate].
  destruct (Router.matches ps path) as [caps |] eqn:E.
  - injection H as <-. simpl in Hv.
    destruct (assign_values _ _ _ _ _ Hv) as [Hin | Hacc]; [| discriminate].
    pose proof (matches_captures ps path caps E) as Hc.
    rewrite Forall_forall in Hc. apply Hc, list_elem_of_In, Hin.
  - injection H as <-. discriminate.
Qed.

Lemma matchRoute_parameters_witness :
  Router.matchRoute "/user/42/posts/7" "/user/:id/posts/:post"
    = Some {| Router.matched := true; Router.params := [("id", "42"); ("post", "7")] |} /\
  Router.matched
    {| Router.matched := true; Router.params := [("id", "42"); ("post", "7")] |} = true /\
  assoc_get "id" [("id", "42"); ("post", "7")] = Some "42" /\
  I18n.nonempty "42" = true /\ has_char "/" "42" = false.
Proof.
  assert (H1 : Router.matchRoute "/user/42/posts/7" "/user/:id/posts/:post"
    = Some {| Router.matched := true; Router.params := [("id", "42"); ("post", "7")] |})
    by reflexivity.
  assert (H2 : Router.matched
    {| Router.matched := true; Router.params := [("id", "42"); ("post", "7")] |} = true)
    by reflexivity.
  assert (H3 : assoc_get "id" [("id", "42"); ("post", "7")] = Some "42") by reflexivity.
  split; [exact H1 |]. split; [exact H2 |]. split; [exact H3 |].
  exact (matchRoute_parameters_are_segments _ _ _ "id" "42" H1 H2 H3).
Defined.

Lemma string_app_nil_r (s : string) : (s ++ "")%string = s.
Proof. induction s; simpl; congruence. Qed.

Lemma string_app_assoc (a b c : string) : ((a ++ b) ++ c)%string = (a ++ b ++ c)%string.
Proof. induction a; simpl; congruence. Qed.

Lemma pieces_plain_app (p : string) (ps : list Router.piece) (q : string) :
  plain p = true -> Router.pieces q = Some ps ->
  Router.pieces (p ++ q) = Some (lits p ++ ps).
Proof.
  intros Hp Hq. induction p as [| c p IH]; simpl; [exact Hq |].
  simpl in Hp. apply andb_prop in Hp as [Hc Hp]. rewrite (IH Hp).
  unfold plain_char in Hc. apply andb_prop in Hc as [Hc H3]. apply andb_prop in Hc as [H1 H2].
  destruct (Ascii.eqb c "*"); [discriminate |].
  destruct (Ascii.eqb c ":"); [discriminate |].
  destruct (Router.syntax_char c); [discriminate |]. reflexivity.
Qed.

Lemma word_char_plain (c : ascii) : Router.word_char c = true -> plain_char c = true.
Proof.
  unfold Router.word_char, plain_char, Router.in_range.
  destruct c as [[] [] [] [] [] [] [] []]; vm_compute; intros H; congruence.
Qed.

Lemma word_plain (s : string) : word s = true -> plain s = true.
Proof.
  induction s as [| c s IH]; simpl; [reflexivity |].
  intros H. apply andb_prop in H as [H1 H2]. rewrite (word_char_plain c H1), (IH H2).
  reflexivity.
Qed.

Lemma leading_word_lits (n : string) :
  word n = true -> Router.leading_word (lits n) = (n, []).
Proof.
  induction n as [| c n IH]; simpl; [reflexivity |].
  intros H. apply andb_prop in H as [H1 H2]. rewrite H1, (IH H2). reflexivity.
Qed.

Lemma pieces_group (n : string) :
  word n = true -> I18n.nonempty n = true ->
  Router.pieces (String ":" n) = Some [Router.Group n].
Proof.
  intros Hw Hn. simpl.
  pose proof (pieces_plain_app n [] "" (word_plain n Hw) eq_refl) as H.
  rewrite !app_nil_r, string_app_nil_r in H.
  rewrite H, (leading_word_lits n Hw).
  unfold I18n.nonempty in Hn. destruct (String.eqb n ""); [discriminate | reflexivity].
Qed.

Lemma matches_lits (p : string) (ps : list Router.piece) (s : string) :
  Router.matches (lits p ++ ps) (p ++ s) = Router.matches ps s.
Proof.
  induction p as [| c p IH]; simpl; [reflexivity |]. rewrite Ascii.eqb_refl. exact IH.
Qed.

Lemma matches_lits_only (p s : string) :
  Router.matches (lits p) s = if String.eqb s p then Some [] else None.
Proof.
  revert s. induction p as [| c p IH]; intros [| x s]; simpl; try reflexivity.
  rewrite IH. destruct (Ascii.eqb x c); reflexivity.
Qed.

(** X13: a pattern without parameter, wildcard or other syntax matches one
    path, itself: letter for letter, with its slashes. *)
Theorem matchRoute_of_a_literal_pattern (path pattern : string) :
  plain pattern = true ->
  Router.matchRoute path pattern
    = Some {| Router.matched := String.eqb path pattern; Router.params := [] |}.
Proof.
  intros Hp. unfold Router.matchRoute, Router.parseRoute.
  pose proof (pieces_plain_app pattern [] "" Hp eq_refl) as H.
  rewrite app_nil_r, string_app_nil_r in H.
  rewrite H, matches_lits_only.
  assert (Hn : Router.names (lits pattern) = []).
  { clear. induction pattern; simpl; auto. }
  rewrite Hn. destruct (String.eqb path pattern); reflexivity.
Qed.

Lemma matchRoute_literal_witness :
  plain "/about" = true /\
  Router.matchRoute "/about/" "/about"
    = Some {| Router.matched := false; Router.params := [] |}.
Proof.
  split; [reflexivity |].
  exact (matchRoute_of_a_literal_pattern "/about/" "/about" eq_refl).
Defined.

Lemma matches_last_group (name value : string) :
  I18n.nonempty value = true -> has_char "/" value = false ->
  Router.matches [Router.Group name] value = Some [value].
Proof.
  intros Hn Hs. cbn [Router.matches].
  match goal with |- ?f EmptyString value = _ =>
    assert (G : forall s taken, I18n.nonempty s = true -> has_char "/" s = false ->
                f taken s = Some [(taken ++ s)%string]) end.
  { clear. induction s as [| x r IH]; intros taken Hn Hs; [discriminate |].
    simpl in Hs. apply orb_false_elim in Hs as [Hx Hr]. rewrite Hx.
    destruct r as [| y r'].
    - reflexivity.
    - rewrite (IH (taken ++ String x EmptyString)%string eq_refl Hr).
      rewrite string_app_assoc. reflexivity. }
  apply (G value "" Hn Hs).
Qed.

(** X14: a parameter at the end of a pattern captures the last segment of
    the path.  For a literal prefix and a parameter name of word
    characters other than [__proto__], every path made of the prefix and
    one segment matches, and the parameter is that segment. *)
Theorem matchRoute_captures_the_last_segment (prefix name value : string) :
  plain prefix = true -> word name = true -> I18n.nonempty name = true ->
  name <> "__proto__" ->
  I18n.nonempty value = true -> has_char "/" value = false ->
  Router.matchRoute (prefix ++ value) (prefix ++ String ":" name)
    = Some {| Router.matched := true; Router.params := [(name, value)] |}.
Proof.
  intros Hp Hw Hn Hproto Hv Hs. unfold Router.matchRoute, Router.parseRoute.
  rewrite (pieces_plain_app prefix _ _ Hp (pieces_group name Hw Hn)).
  rewrite matches_lits, (matches_last_group name value Hv Hs).
  assert (Hnames : Router.names (lits prefix ++ [Router.Group name]) = [name]).
  { clear. induction prefix; simpl; auto. }
  rewrite Hnames. cbn [Router.assign].
  destruct (String.eqb_spec name "__proto__"); [contradiction | reflexivity].
Qed.

Lemma matchRoute_captures_witness :
  plain "/user/" = true /\ word "id" = true /\ I18n.nonempty "id" = true /\
  "id" <> "__proto__" /\
  I18n.nonempty "42" = true /\ has_char "/" "42" = false /\
  Router.matchRoute "/user/42" "/user/:id"
    = Some {| Router.matched := true; Router.params := [("id", "42")] |}.
Proof.
  assert (Hne : "id" <> "__proto__") by discriminate.
  split; [reflexivity |]. split; [reflexivity |]. split; [reflexivity |].
  split; [exact Hne |]. split; [reflexivity |]. split; [reflexivity |].
  exact (matchRoute_captures_the_last_segment "/user/" "id" "42"
           eq_refl eq_refl eq_refl Hne eq_refl eq_refl).
Defined.

(** * More of the hydration engine: theorems

    ** What depends on the shape of the tree only *)

Lemma same_shape_refl (d : Dom) : same_shape d d.
Proof. reflexivity. Qed.

Lemma same_shape_trans (a b c : Dom) : same_shape a b -> same_shape b c -> same_shape a c.
Proof. unfold same_shape. congruence. Qed.

Lemma same_shape_at (d d' : Dom) (n : nid) :
  same_shape d d' ->
  match node_at d n, node_at d' n with
  | Some x, Some y => shape y = shape x
  | None, None => True
  | _, _ => False
  end.
Proof.
  unfold same_shape, node_at. intros H.
  assert (E : map shape (nodes d') !! n = map shape (nodes d) !! n) by (rewrite H; reflexivity).
  rewrite !list_lookup_fmap in E.
  destruct (nodes d !! n), (nodes d' !! n); simpl in E; try discriminate; auto.
  congruence.
Qed.

Ltac shape_cases H n :=
  let S := fresh "S" in
  pose proof (same_shape_at _ _ n H) as S;
  destruct (node_at _ n) as [[]|], (node_at _ n) as [[]|];
  try contradiction; try (unfold shape in S; simpl in S; injection S as -> -> -> -> ->);
  try reflexivity.

Lemma kind_of_shape (d d' : Dom) (n : nid) :
  same_shape d d' -> kind_of d' n = kind_of d n.
Proof. intros H. unfold kind_of. shape_cases H n. Qed.

Lemma is_kind_shape (k : nodeKind) (d d' : Dom) (n : nid) :
  same_shape d d' -> is_kind k d' n = is_kind k d n.
Proof. intros H. unfold is_kind. rewrite (kind_of_shape d d' n H). reflexivity. Qed.

Lemma tagName_shape (d d' : Dom) (n : nid) :
  same_shape d d' -> tagName d' n = tagName d n.
Proof. intros H. unfold tagName. shape_cases H n. Qed.

Lemma textContent_shape (d d' : Dom) (n : nid) :
  same_shape d d' -> textContent d' n = textContent d n.
Proof. intros H. unfold textContent. shape_cases H n. Qed.

Lemma children_of_shape (d d' : Dom) (n : nid) :
  same_shape d d' -> children_of d' n = children_of d n.
Proof. intros H. unfold children_of. shape_cases H n. Qed.

Lemma parent_of_shape (d d' : Dom) (n : nid) :
  same_shape d d' -> parent_of d' n = parent_of d n.
Proof. intros H. unfold parent_of. shape_cases H n. Qed.

Lemma firstChild_shape (d d' : Dom) (n : nid) :
  same_shape d d' -> firstChild d' n = firstChild d n.
Proof. intros H. unfold firstChild. rewrite (children_of_shape d d' n H). reflexivity. Qed.

Lemma following_shape (d d' : Dom) (n : nid) :
  same_shape d d' -> following d' n = following d n.
Proof.
  intros H. unfold following. rewrite (parent_of_shape d d' n H).
  destruct (parent_of d n) as [p |]; [| reflexivity].
  rewrite (children_of_shape d d' p H). reflexivity.
Qed.

Lemma nextSibling_shape (d d' : Dom) (n : nid) :
  same_shape d d' -> nextSibling d' n = nextSibling d n.
Proof. intros H. unfold nextSibling. rewrite (following_shape d d' n H). reflexivity. Qed.

Lemma is_blank_text_shape (d d' : Dom) (n : nid) :
  same_shape d d' -> is_blank_text d' n = is_blank_text d n.
Proof.
  intros H. unfold is_blank_text.
  rewrite (is_kind_shape _ d d' n H), (textContent_shape d d' n H). reflexivity.
Qed.

Lemma skipWhitespace_shape (d d' : Dom) (o : option nid) :
  same_shape d d' -> skipWhitespace d' o = skipWhitespace d o.
Proof.
  intros H. destruct o as [x |]; [| reflexivity]. unfold skipWhitespace.
  rewrite (following_shape d d' x H).
  generalize (x :: following d x). intros l. induction l as [| y l IH]; [reflexivity |].
  simpl. rewrite (is_blank_text_shape d d' y H), IH. reflexivity.
Qed.

Lemma is_text_with_shape (d d' : Dom) (n : nid) (s : string) :
  same_shape d d' -> is_text_with d' n s = is_text_with d n s.
Proof.
  intros H. unfold is_text_with.
  rewrite (is_kind_shape _ d d' n H), (textContent_shape d d' n H). reflexivity.
Qed.

(** Without a key, nodesMatch compares kinds and tags. *)
Lemma nodesMatch_shape (v : vnode) (d d' : Dom) (n : nid) :
  same_shape d d' -> truthy_pval (key_of v) = false ->
  nodesMatch v n d' = nodesMatch v n d.
Proof.
  intros H Hk. destruct v as [| s | z | l | type props children];
    try reflexivity; try apply (is_kind_shape _ d d' n H).
  unfold nodesMatch. rewrite Hk. cbn [andb].
  rewrite (is_kind_shape _ d d' n H), (tagName_shape d d' n H). reflexivity.
Qed.

Lemma fits_children_shape (rec rec' : vnode -> nid -> bool) (d d' : Dom)
    (vs : list vnode) :
  same_shape d d' ->
  Forall (fun v => forall n, rec' v n = rec v n) vs ->
  forall o, fits_children rec' d' vs o = fits_children rec d vs o.
Proof.
  intros H Hr. induction Hr as [| v vs Hv _ IH]; intros o; simpl; [reflexivity |].
  destruct o as [c |]; [| reflexivity].
  destruct (is_none v); [apply IH |].
  destruct (truthy_pval (key_of v)) eqn:Hk; [reflexivity |]. simpl.
  rewrite (nodesMatch_shape v d d' c H Hk), Hv, (nextSibling_shape d d' c H),
    (skipWhitespace_shape d d' _ H), IH. reflexivity.
Qed.

Lemma fits_shape (d d' : Dom) (v : vnode) :
  same_shape d d' -> forall n, fits d' v n = fits d v n.
Proof.
  intros H. induction v as [| s | z | l IH | type props children IH] using vnode_induction;
    intros n; simpl; try reflexivity; try apply (is_text_with_shape d d' n _ H).
  rewrite (is_kind_shape _ d d' n H), (tagName_shape d d' n H),
    (firstChild_shape d d' n H), (skipWhitespace_shape d d' _ H).
  f_equal. apply fits_children_shape; assumption.
Qed.

(** ** Props change no shape *)

Lemma map_alter_same {A B : Type} (g : A -> B) (f : A -> A) (i : nat) (l : list A) :
  (forall x, g (f x) = g x) -> map g (alter f i l) = map g l.
Proof.
  intros H. revert i. induction l as [| y l IH]; intros [| i]; simpl; try reflexivity.
  - rewrite H. reflexivity.
  - f_equal. apply IH.
Qed.

Lemma gentle_refl (d : Dom) : gentle d d.
Proof.
  split; [apply same_shape_refl |]. exists []. rewrite app_nil_r. split; [reflexivity | constructor].
Qed.

Lemma gentle_trans (a b c : Dom) : gentle a b -> gentle b c -> gentle a c.
Proof.
  intros [S1 [w1 [W1 F1]]] [S2 [w2 [W2 F2]]]. split; [eapply same_shape_trans; eauto |].
  exists (w1 ++ w2). rewrite W2, W1, app_assoc. split; [reflexivity |].
  apply Forall_app. auto.
Qed.

Lemma gentle_update (n : nid) (f : node -> node) (d : Dom) :
  (forall x, shape (f x) = shape x) -> gentle d (update n f d).
Proof.
  intros H. split.
  - unfold same_shape, update. simpl. apply map_alter_same, H.
  - exists []. rewrite app_nil_r. split; [reflexivity | constructor].
Qed.

Lemma gentle_warning (cfg : config) (message : string) (d : Dom) :
  attribute_warning message -> gentle d (logHydrationWarning cfg message d).
Proof.
  intros H. unfold logHydrationWarning.
  destruct (negb (isProduction cfg) && logMismatches cfg); [| apply gentle_refl].
  split; [reflexivity |]. exists [message]. split; [reflexivity | constructor; [exact H | constructor]].
Qed.

Lemma gentle_setAttribute (n : nid) (k v : string) (d : Dom) :
  gentle d (setAttribute n k v d).
Proof. apply gentle_update. reflexivity. Qed.

Lemma gentle_delegateEvent (eventName : string) (n : nid) (h : nat) (d : Dom) :
  gentle d (delegateEvent eventName n h d).
Proof.
  unfold delegateEvent.
  assert (G : gentle d (update n (fun x =>
                with_listeners (listeners x ++ [(eventName, h)]) x) d))
    by (apply gentle_update; reflexivity).
  destruct (existsb _ _); [exact G |].
  destruct G as [S [ws [W F]]]. split; [exact S |]. exists ws. auto.
Qed.

(** One prop of hydrateDOMElement changes attributes, styles, properties
    and handlers of the element, and nothing of the tree. *)
Lemma gentle_hydrate_prop (cfg : config) (element : nid) (kv : string * pval) (d : Dom) :
  gentle d (hydrate_prop cfg element kv d).
Proof.
  destruct kv as [key value]. unfold hydrate_prop.
  repeat match goal with
  | |- gentle _ (if ?c then _ else _) => destruct c
  | |- gentle _ (match ?v with PNull => _ | _ => _ end) => destruct v
  | |- gentle _ (match getAttribute ?a ?b ?c with _ => _ end) =>
      destruct (getAttribute a b c)
  | |- gentle ?x ?x => apply gentle_refl
  | |- gentle _ (setAttribute _ _ _ (logHydrationWarning _ _ _)) =>
      eapply gentle_trans; [apply gentle_warning | apply gentle_setAttribute];
      unfold attribute_warning; auto
  | |- gentle _ (setAttribute _ _ _ _) => apply gentle_setAttribute
  | |- gentle _ (delegateEvent _ _ _ _) => apply gentle_delegateEvent
  | |- gentle _ (assign_style _ _ _) => apply gentle_update; reflexivity
  | |- gentle _ (set_property _ _ _ _) => apply gentle_update; reflexivity
  | |- gentle _ (call_ref _ _ _) =>
      split; [reflexivity | exists []; rewrite app_nil_r; split; [reflexivity | constructor]]
  end.
Qed.

Lemma gentle_hydrate_props (cfg : config) (element : nid) (props : list (string * pval))
    (d : Dom) :
  gentle d (fold_left (fun acc kv => hydrate_prop cfg element kv acc) props d).
Proof.
  revert d. induction props as [| kv props IH]; intros d; simpl; [apply gentle_refl |].
  eapply gentle_trans; [apply gentle_hydrate_prop | apply IH].
Qed.

(** ** Hydration of a tree that fits *)

Lemma hydrate_children_fits (cfg : config) (element : nid) (vs : list vnode) :
  Forall (fun v => forall n d, fits d v n = true ->
            exists d', hydrateDOMElement cfg v n d = Hydrated n d' /\ gentle d d') vs ->
  forall o d, fits_children (fits d) d vs o = true ->
    exists d', hydrate_children cfg (hydrateDOMElement cfg) element vs o d
                 = Hydrated element d' /\ gentle d d'.
Proof.
  intros Hvs. induction Hvs as [| v vs Hv Hrest IH]; intros o d Hf.
  - destruct o; [discriminate |]. exists d. split; [reflexivity | apply gentle_refl].
  - destruct o as [c |]; [| discriminate]. cbn [fits_children] in Hf.
    cbn [hydrate_children]. destruct (is_none v); [apply IH, Hf |].
    apply andb_prop in Hf as [Hf H4]. apply andb_prop in Hf as [Hf H3].
    apply andb_prop in Hf as [H1 H2].
    rewrite H2. cbn [negb].
    destruct (Hv c d H3) as [d1 [E1 G1]]. rewrite E1.
    pose proof (proj1 G1) as S1.
    rewrite (skipWhitespace_shape d d1 _ S1).
    apply (fun H => ex_intro _ _ H) || idtac.
    destruct (IH (skipWhitespace d (nextSibling d c)) d1) as [d2 [E2 G2]].
    + rewrite (fits_children_shape (fits d) (fits d1) d d1 vs S1); [exact H4 |].
      apply Forall_forall. intros x _ n. apply fits_shape, S1.
    + exists d2. split; [exact E2 | eapply gentle_trans; eauto].
Qed.



(** ** Logging does nothing but log *)

Lemma with_warnings_same (d : Dom) : with_warnings (warnings d) d = d.
Proof. destruct d; reflexivity. Qed.

Section Muted.

Variable ws : list string.

Local Notation "'mute' d" := (with_warnings ws d) (at level 10).

Lemma update_muted n f d : update n f (mute d) = mute (update n f d).
Proof. reflexivity. Qed.

Lemma alloc_muted x d : alloc x (mute d) = ((alloc x d).1, mute (alloc x d).2).
Proof. reflexivity. Qed.

Lemma setAttribute_muted n k v d : setAttribute n k v (mute d) = mute (setAttribute n k v d).
Proof. reflexivity. Qed.

Lemma set_property_muted n k v d : set_property n k v (mute d) = mute (set_property n k v d).
Proof. reflexivity. Qed.

Lemma assign_style_muted n o d : assign_style n o (mute d) = mute (assign_style n o d).
Proof. reflexivity. Qed.

Lemma call_ref_muted h n d : call_ref h n (mute d) = mute (call_ref h n d).
Proof. reflexivity. Qed.

Lemma delegateEvent_muted e n h d :
  delegateEvent e n h (mute d) = mute (delegateEvent e n h d).
Proof.
  unfold delegateEvent. cbn.
  destruct (existsb (String.eqb e) (delegatedEvents d)); reflexivity.
Qed.

Lemma detach_muted n d : detach n (mute d) = mute (detach n d).
Proof.
  unfold detach. change (parent_of (mute d) n) with (parent_of d n).
  destruct (parent_of d n); reflexivity.
Qed.

Lemma adopt_muted p ns d : adopt p ns (mute d) = mute (adopt p ns d).
Proof.
  unfold adopt. revert d. induction ns as [| n ns IH]; intros d; [reflexivity |].
  cbn [fold_left]. rewrite update_muted. apply IH.
Qed.

Lemma take_muted n d : take n (mute d) = ((take n d).1, mute (take n d).2).
Proof.
  unfold take. change (is_kind DOCUMENT_FRAGMENT_NODE (mute d) n)
    with (is_kind DOCUMENT_FRAGMENT_NODE d n).
  destruct (is_kind DOCUMENT_FRAGMENT_NODE d n); cbn [fst snd].
  - reflexivity.
  - rewrite detach_muted. reflexivity.
Qed.

Lemma appendChild_muted p c d : appendChild p c (mute d) = mute (appendChild p c d).
Proof.
  unfold appendChild. rewrite take_muted. destruct (take c d) as [ns d1]. cbn [fst snd].
  rewrite update_muted. apply adopt_muted.
Qed.

Lemma insertBefore_muted p c r d :
  insertBefore p c r (mute d) = with_warnings ws <$> insertBefore p c r d.
Proof.
  unfold insertBefore. change (is_child (mute d) p r) with (is_child d p r).
  destruct (negb (is_child d p r)); [reflexivity |].
  destruct (Nat.eqb c r); [reflexivity |].
  rewrite take_muted. destruct (take c d) as [ns d1]. cbn [fst snd].
  rewrite update_muted, adopt_muted. reflexivity.
Qed.

Lemma replaceChild_muted p new old d :
  replaceChild p new old (mute d) = with_warnings ws <$> replaceChild p new old d.
Proof.
  unfold replaceChild. change (is_child (mute d) p old) with (is_child d p old).
  destruct (negb (is_child d p old)); [reflexivity |].
  destruct (Nat.eqb new old); [reflexivity |].
  rewrite take_muted. destruct (take new d) as [ns d1]. cbn [fst snd].
  rewrite update_muted, adopt_muted. reflexivity.
Qed.

Lemma removeChild_muted p c d :
  removeChild p c (mute d) = with_warnings ws <$> removeChild p c d.
Proof.
  unfold removeChild. change (is_child (mute d) p c) with (is_child d p c).
  destruct (is_child d p c); [| reflexivity]. cbn. rewrite detach_muted. reflexivity.
Qed.

Lemma replace_in_parent_muted a b d :
  replace_in_parent a b (mute d) = with_warnings ws <$> replace_in_parent a b d.
Proof.
  unfold replace_in_parent. change (parent_of (mute d) b) with (parent_of d b).
  destruct (parent_of d b); [apply replaceChild_muted | reflexivity].
Qed.

Lemma create_prop_muted n kv d : create_prop n kv (mute d) = mute (create_prop n kv d).
Proof.
  unfold create_prop. destruct kv as [key value].
  repeat match goal with
  | |- context [if ?c then _ else _] => destruct c
  | |- context [match ?v with PNull => _ | _ => _ end] => destruct v
  end; try reflexivity; try apply delegateEvent_muted.
Qed.

Lemma create_props_muted n props d :
  fold_left (fun acc kv => create_prop n kv acc) props (mute d) =
  mute (fold_left (fun acc kv => create_prop n kv acc) props d).
Proof.
  revert d. induction props as [| kv props IH]; intros d; [reflexivity |].
  cbn [fold_left]. rewrite create_prop_muted. apply IH.
Qed.

Lemma createDOMElementForHydration_muted v d :
  createDOMElementForHydration v (mute d) = muted_created ws (createDOMElementForHydration v d).
Proof.
  revert d.
  induction v as [| s | z | l IH | type props children IH] using vnode_induction; intros d.
  - reflexivity.
  - reflexivity.
  - reflexivity.
  - cbn [createDOMElementForHydration]. unfold createDocumentFragment.
    rewrite alloc_muted. destruct (alloc _ d) as [fragment d1]. cbn [fst snd].
    revert d1. induction IH as [| x l Hx Hl IHl]; intros d1; [reflexivity |].
    cbn [append_created]. rewrite Hx.
    destruct (createDOMElementForHydration x d1) as [[el |] d2 | err d2];
      cbn [muted_created]; [rewrite appendChild_muted | |]; auto.
  - cbn [createDOMElementForHydration]. destruct (String.eqb type ""); [reflexivity |].
    unfold createElement. rewrite alloc_muted. destruct (alloc _ d) as [element d1].
    cbn [fst snd]. rewrite create_props_muted.
    generalize (fold_left (fun acc kv => create_prop element kv acc) props d1). clear d1.
    intros d1. revert d1. induction IH as [| x l Hx Hl IHl]; intros d1; [reflexivity |].
    cbn [append_created]. rewrite Hx.
    destruct (createDOMElementForHydration x d1) as [[el |] d2 | err d2];
      cbn [muted_created]; [rewrite appendChild_muted | |]; auto.
Qed.

End Muted.

Section Logging.

Variable ws : list string.
Variables cfg cfg' : config.
Hypothesis Hoff : negb (isProduction cfg) && logMismatches cfg = false.
Hypothesis Hpart : partialHydration cfg = partialHydration cfg'.

Local Notation "'mute' d" := (with_warnings ws d) (at level 10).

Lemma logHydrationWarning_muted m d :
  logHydrationWarning cfg m (mute d) = mute (logHydrationWarning cfg' m d).
Proof.
  unfold logHydrationWarning. rewrite Hoff.
  destruct (negb (isProduction cfg') && logMismatches cfg'); reflexivity.
Qed.

Lemma hydrate_prop_muted n kv d :
  hydrate_prop cfg n kv (mute d) = mute (hydrate_prop cfg' n kv d).
Proof.
  unfold hydrate_prop. destruct kv as [key value].
  change (dataset_key (mute d) n) with (dataset_key d n).
  change (className (mute d) n) with (className d n).
  change (tagName (mute d) n) with (tagName d n).
  change (property (mute d) n) with (property d n).
  change (getAttribute (mute d) n) with (getAttribute d n).
  rewrite !logHydrationWarning_muted.
  repeat match goal with
  | |- context [if ?c then _ else _] => destruct c
  | |- context [match ?v with PNull => _ | _ => _ end] => destruct v
  | |- context [match ?v with Some _ => _ | None => _ end] => destruct v
  end; try reflexivity; try apply delegateEvent_muted.
Qed.

Lemma hydrate_props_muted n props d :
  fold_left (fun acc kv => hydrate_prop cfg n kv acc) props (mute d) =
  mute (fold_left (fun acc kv => hydrate_prop cfg' n kv acc) props d).
Proof.
  revert d. induction props as [| kv props IH]; intros d; [reflexivity |].
  cbn [fold_left]. rewrite hydrate_prop_muted. apply IH.
Qed.

Lemma remove_extra_muted element left d :
  remove_extra cfg element left (mute d) = muted ws (remove_extra cfg' element left d).
Proof.
  revert d. induction left as [| c left IH]; intros d; [reflexivity |].
  cbn [remove_extra]. change (is_blank_text (mute d) c) with (is_blank_text d c).
  destruct (is_blank_text d c); [apply IH |].
  rewrite logHydrationWarning_muted, removeChild_muted.
  destruct (removeChild element c (logHydrationWarning cfg' "Extra DOM nodes" d)) as [d1 |];
    cbn; [apply IH | reflexivity].
Qed.

Local Abbreviation alike :=
  (fun v => forall n d,
     hydrateDOMElement cfg v n (mute d) = muted ws (hydrateDOMElement cfg' v n d)).

Lemma hydrate_array_muted fragment l :
  Forall alike l ->
  forall cur d,
    hydrate_array (hydrateDOMElement cfg) fragment l cur (mute d) =
    muted ws (hydrate_array (hydrateDOMElement cfg') fragment l cur d).
Proof.
  intros Hl. induction Hl as [| v l Hv Hl IH]; intros cur d; [reflexivity |].
  cbn [hydrate_array]. destruct (is_none v); [apply IH |].
  destruct cur as [cur |].
  - change (nextSibling (mute d) cur) with (nextSibling d cur). rewrite Hv.
    destruct (hydrateDOMElement cfg' v cur d) as [h d1 | err d1]; cbn [muted];
      [| reflexivity].
    rewrite appendChild_muted. apply IH.
  - rewrite createDOMElementForHydration_muted.
    destruct (createDOMElementForHydration v d) as [[el |] d1 | err d1];
      cbn [muted_created]; [rewrite appendChild_muted | |]; auto.
Qed.

Lemma hydrate_children_muted element vs :
  Forall alike vs ->
  forall o d,
    hydrate_children cfg (hydrateDOMElement cfg) element vs o (mute d) =
    muted ws (hydrate_children cfg' (hydrateDOMElement cfg') element vs o d).
Proof.
  intros Hvs. induction Hvs as [| v vs Hv Hvs IH]; intros o d.
  - destruct o as [c |]; [| reflexivity]. cbn [hydrate_children].
    change (following (mute d) c) with (following d c). apply remove_extra_muted.
  - cbn [hydrate_children]. destruct o as [c |].
    + destruct (is_none v); [apply IH |].
      change (nodesMatch v c (mute d)) with (nodesMatch v c d).
      destruct (negb (nodesMatch v c d)).
      * change (List.find (fun n => nodesMatch v n (mute d)) (following (mute d) c))
          with (List.find (fun n => nodesMatch v n d) (following d c)).
        destruct (if truthy_pval (key_of v)
                  then List.find (fun n => nodesMatch v n d) (following d c)
                  else None) as [found |].
        -- rewrite insertBefore_muted.
           destruct (insertBefore element found c d) as [d1 |]; cbn; [| reflexivity].
           change (nextSibling (mute d1) found) with (nextSibling d1 found).
           rewrite Hv.
           destruct (hydrateDOMElement cfg' v found d1) as [h d2 | err d2]; cbn [muted];
             [| reflexivity].
           change (skipWhitespace (mute d2)) with (skipWhitespace d2). apply IH.
        -- rewrite logHydrationWarning_muted, createDOMElementForHydration_muted.
           destruct (createDOMElementForHydration v
                       (logHydrationWarning cfg' "Node mismatch, replacing" d))
             as [[el |] d1 | err d1]; cbn [muted_created]; [| | reflexivity].
           ++ rewrite replaceChild_muted.
              destruct (replaceChild element el c d1) as [d2 |]; cbn; [| reflexivity].
              change (skipWhitespace (mute d2) (nextSibling (mute d2) c))
                with (skipWhitespace d2 (nextSibling d2 c)). apply IH.
           ++ change (skipWhitespace (mute d1) (nextSibling (mute d1) c))
                with (skipWhitespace d1 (nextSibling d1 c)). apply IH.
      * change (nextSibling (mute d) c) with (nextSibling d c). rewrite Hv.
        destruct (hydrateDOMElement cfg' v c d) as [h d1 | err d1]; cbn [muted];
          [| reflexivity].
        change (skipWhitespace (mute d1)) with (skipWhitespace d1). apply IH.
    + rewrite logHydrationWarning_muted, createDOMElementForHydration_muted.
      destruct (createDOMElementForHydration v
                  (logHydrationWarning cfg' "Missing DOM nodes" d))
        as [[el |] d1 | err d1]; cbn [muted_created]; [rewrite appendChild_muted | |]; auto.
Qed.

Lemma text_case_muted s n d :
  hydrateDOMElement cfg (VText s) n (mute d) = muted ws (hydrateDOMElement cfg' (VText s) n d).
Proof.
  cbn [hydrateDOMElement].
  change (is_kind TEXT_NODE (mute d) n) with (is_kind TEXT_NODE d n).
  change (textContent (mute d) n) with (textContent d n).
  destruct (is_kind TEXT_NODE d n).
  - destruct (negb (String.eqb (textContent d n) s)); [| reflexivity].
    rewrite logHydrationWarning_muted. reflexivity.
  - rewrite logHydrationWarning_muted. unfold createTextNode. rewrite alloc_muted.
    destruct (alloc _ (logHydrationWarning cfg' _ d)) as [t d1]. cbn [fst snd].
    rewrite replace_in_parent_muted.
    destruct (replace_in_parent t n d1); reflexivity.
Qed.

Lemma replaced_muted v m n d :
  match createDOMElementForHydration v (logHydrationWarning cfg m (mute d)) with
  | Created (Some newElement) d1 =>
    match replace_in_parent newElement n d1 with
    | Some d2 => Hydrated newElement d2
    | None => HydrateThrows "NotFoundError" d1
    end
  | Created None d1 => HydrateThrows "TypeError" d1
  | CreateThrows err d1 => HydrateThrows err d1
  end =
  muted ws
    match createDOMElementForHydration v (logHydrationWarning cfg' m d) with
    | Created (Some newElement) d1 =>
      match replace_in_parent newElement n d1 with
      | Some d2 => Hydrated newElement d2
      | None => HydrateThrows "NotFoundError" d1
      end
    | Created None d1 => HydrateThrows "TypeError" d1
    | CreateThrows err d1 => HydrateThrows err d1
    end.
Proof.
  rewrite logHydrationWarning_muted, createDOMElementForHydration_muted.
  destruct (createDOMElementForHydration v (logHydrationWarning cfg' m d))
    as [[el |] d1 | err d1]; cbn [muted_created]; [| reflexivity | reflexivity].
  rewrite replace_in_parent_muted. destruct (replace_in_parent el n d1); reflexivity.
Qed.

Lemma hydrateDOMElement_muted v n d :
  hydrateDOMElement cfg v n (mute d) = muted ws (hydrateDOMElement cfg' v n d).
Proof.
  revert n d.
  induction v as [| s | z | l IH | type props children IH] using vnode_induction;
    intros n d.
  - reflexivity.
  - apply text_case_muted.
  - apply (text_case_muted (string_of_Z z)).
  - cbn [hydrateDOMElement]. unfold createDocumentFragment. rewrite alloc_muted.
    destruct (alloc _ d) as [fragment d1]. cbn [fst snd].
    apply hydrate_array_muted, IH.
  - cbn [hydrateDOMElement]. destruct (String.eqb type "").
    { unfold createDocumentFragment. rewrite alloc_muted.
      destruct (alloc _ d) as [fragment d1]. cbn [fst snd].
      apply hydrate_array_muted, IH. }
    change (is_kind ELEMENT_NODE (mute d) n) with (is_kind ELEMENT_NODE d n).
    change (tagName (mute d) n) with (tagName d n).
    change (hasAttribute (mute d) n) with (hasAttribute d n).
    destruct (negb (is_kind ELEMENT_NODE d n)); [apply replaced_muted |].
    destruct (negb (String.eqb (toLowerCase (tagName d n)) (toLowerCase type)));
      [apply replaced_muted |].
    rewrite Hpart.
    destruct (partialHydration cfg' && hasAttribute d n "data-cumstack-static");
      [reflexivity |].
    rewrite hydrate_props_muted.
    set (d1 := fold_left (fun acc kv => hydrate_prop cfg' n kv acc) props d).
    change (skipWhitespace (mute d1) (firstChild (mute d1) n))
      with (skipWhitespace d1 (firstChild d1 n)).
    apply hydrate_children_muted, IH.
Qed.

End Logging.

(** X16: the logging options change the log and nothing else.  With
    logging off (production, or logMismatches false) hydrateDOMElement
    logs nothing, and it returns or throws exactly what it does under any
    other setting of the two options (partialHydration being the same),
    with the same tree, handlers and refs: the repairs a mismatch triggers
    are made in production too. *)
Theorem logging_options_change_the_log_only
    (cfg cfg' : config) (v : vnode) (n : nid) (d : Dom) :
  isProduction cfg = true \/ logMismatches cfg = false ->
  partialHydration cfg = partialHydration cfg' ->
  hydrateDOMElement cfg v n d = muted (warnings d) (hydrateDOMElement cfg' v n d).
Proof.
  intros Hoff Hpart.
  rewrite <- (with_warnings_same d) at 1.
  apply hydrateDOMElement_muted; [| exact Hpart].
  destruct Hoff as [H | H]; rewrite H; [reflexivity | apply andb_false_r].
Qed.

Lemma logging_options_witness :
  (isProduction production = true \/ logMismatches production = false) /\
  partialHydration production = partialHydration development /\
  hydrateDOMElement production drift_vnode 0 drift_live =
  muted (warnings drift_live) (hydrateDOMElement development drift_vnode 0 drift_live).
Proof.
  split; [left; reflexivity |]. split; [reflexivity |].
  apply (logging_options_change_the_log_only production development drift_vnode 0 drift_live);
    [left; reflexivity | reflexivity].
Defined.

(** ** createDOMElementForHydration builds new nodes only *)

Lemma built_on_start (d : Dom) : built_on (nodes d) d.
Proof.
  split.
  - exists []. symmetry. apply app_nil_r.
  - intros i x Hi Hx. apply lookup_lt_Some in Hx. lia.
Qed.

Lemma built_on_length (l0 : list node) (d : Dom) :
  built_on l0 d -> length l0 <= length (nodes d).
Proof. intros [[new ->] _]. rewrite length_app. lia. Qed.

Lemma built_on_same (l0 : list node) (d d' : Dom) :
  nodes d' = nodes d -> built_on l0 d -> built_on l0 d'.
Proof. intros E [H1 H2]. unfold built_on. rewrite E. split; assumption. Qed.

Lemma built_on_update (l0 : list node) (n : nid) (f : node -> node) (d : Dom) :
  length l0 <= n ->
  (forall x, links_fresh (length l0) x -> links_fresh (length l0) (f x)) ->
  built_on l0 d -> built_on l0 (update n f d).
Proof.
  intros Hn Hf [[new E] Hc]. unfold update. cbn [nodes set_nodes]. split.
  - exists (alter f (n - length l0) new). rewrite E. apply alter_app_r_alt, Hn.
  - intros i x Hi Hx. cbn [nodes set_nodes] in Hx.
    destruct (Nat.eq_dec n i) as [<- | Hne].
    + rewrite list_lookup_alter_eq in Hx.
      destruct (nodes d !! n) as [y |] eqn:Ey; [| discriminate].
      injection Hx as <-. apply Hf. apply (Hc n y Hi Ey).
    + rewrite list_lookup_alter_ne in Hx by exact Hne. apply (Hc i x Hi Hx).
Qed.

Lemma built_on_alloc (l0 : list node) (x : node) (d : Dom) :
  links_fresh (length l0) x -> built_on l0 d ->
  built_on l0 (alloc x d).2 /\ length l0 <= (alloc x d).1.
Proof.
  intros Hx Hb. pose proof (built_on_length l0 d Hb) as Hl.
  destruct Hb as [[new E] Hc]. unfold alloc. cbn [fst snd nodes set_nodes]. split; [| exact Hl].
  split.
  - exists (new ++ [x]). rewrite E. symmetry. apply app_assoc.
  - intros i y Hi Hy. cbn [nodes set_nodes] in Hy. apply lookup_snoc_Some in Hy as [[_ Hy] | [_ <-]].
    + apply (Hc i y Hi Hy).
    + exact Hx.
Qed.

Lemma links_fresh_blank (L : nat) (k : nodeKind) (name data : string) :
  links_fresh L (blank k name data).
Proof. split; [discriminate | constructor]. Qed.

Lemma built_on_parent (l0 : list node) (d : Dom) (n p : nid) :
  built_on l0 d -> length l0 <= n -> parent_of d n = Some p -> length l0 <= p.
Proof.
  intros [_ Hc] Hn Hp. unfold parent_of, node_at in Hp.
  destruct (nodes d !! n) as [x |] eqn:Ex; [| discriminate].
  apply (Hc n x Hn Ex). exact Hp.
Qed.

Lemma built_on_children (l0 : list node) (d : Dom) (n : nid) :
  built_on l0 d -> length l0 <= n -> Forall (fun c => length l0 <= c) (children_of d n).
Proof.
  intros [_ Hc] Hn. unfold children_of, node_at.
  destruct (nodes d !! n) as [x |] eqn:Ex; [| constructor].
  apply (Hc n x Hn Ex).
Qed.

Lemma built_on_detach (l0 : list node) (n : nid) (d : Dom) :
  length l0 <= n -> built_on l0 d -> built_on l0 (detach n d).
Proof.
  intros Hn Hb. unfold detach. destruct (parent_of d n) as [p |] eqn:Ep; [| exact Hb].
  pose proof (built_on_parent l0 d n p Hb Hn Ep) as Hp.
  apply built_on_update; [exact Hn | |].
  - intros x [_ H2]. split; [discriminate | exact H2].
  - apply built_on_update; [exact Hp | | exact Hb].
    intros x [H1 H2]. split; [exact H1 |]. cbn [childNodes with_children].
    unfold without. induction H2 as [| c cs Hc Hcs IH]; [constructor |].
    cbn [List.filter]. destruct (negb (Nat.eqb c n)); [constructor |]; assumption.
Qed.

Lemma built_on_take (l0 : list node) (n : nid) (d : Dom) :
  length l0 <= n -> built_on l0 d ->
  built_on l0 (take n d).2 /\ Forall (fun c => length l0 <= c) (take n d).1.
Proof.
  intros Hn Hb. unfold take. destruct (is_kind DOCUMENT_FRAGMENT_NODE d n); cbn [fst snd].
  - split; [| apply built_on_children; assumption].
    apply built_on_update; [exact Hn | | exact Hb].
    intros x [H1 _]. split; [exact H1 | constructor].
  - split; [apply built_on_detach; assumption |]. constructor; [exact Hn | constructor].
Qed.

Lemma built_on_adopt (l0 : list node) (p : nid) (ns : list nid) :
  length l0 <= p -> Forall (fun c => length l0 <= c) ns ->
  forall d, built_on l0 d -> built_on l0 (adopt p ns d).
Proof.
  intros Hp Hns. unfold adopt. induction Hns as [| n ns Hn Hns IH]; intros d Hb; [exact Hb |].
  cbn [fold_left]. apply IH. apply built_on_update; [exact Hn | | exact Hb].
  intros x [_ H2]. split; [| exact H2]. cbn [parentNode with_parent].
  intros q Hq. injection Hq as <-. exact Hp.
Qed.

Lemma built_on_appendChild (l0 : list node) (p c : nid) (d : Dom) :
  length l0 <= p -> length l0 <= c -> built_on l0 d -> built_on l0 (appendChild p c d).
Proof.
  intros Hp Hc Hb. unfold appendChild.
  destruct (built_on_take l0 c d Hc Hb) as [Hb1 Hns].
  destruct (take c d) as [ns d1]. cbn [fst snd] in *.
  apply built_on_adopt; [exact Hp | exact Hns |].
  apply built_on_update; [exact Hp | | exact Hb1].
  intros x [H1 H2]. split; [exact H1 |]. cbn [childNodes with_children].
  apply Forall_app. split; assumption.
Qed.

Lemma built_on_attributes (l0 : list node) (n : nid) (f : node -> node) (d : Dom) :
  length l0 <= n ->
  (forall x, parentNode (f x) = parentNode x /\ childNodes (f x) = childNodes x) ->
  built_on l0 d -> built_on l0 (update n f d).
Proof.
  intros Hn Hf. apply built_on_update; [exact Hn |].
  intros x [H1 H2]. destruct (Hf x) as [E1 E2]. split; rewrite ?E1, ?E2; assumption.
Qed.

Lemma built_on_delegateEvent (l0 : list node) (e : string) (n : nid) (h : nat) (d : Dom) :
  length l0 <= n -> built_on l0 d -> built_on l0 (delegateEvent e n h d).
Proof.
  intros Hn Hb. unfold delegateEvent.
  match goal with
  | |- context [update n ?f d] =>
    assert (H1 : built_on l0 (update n f d))
      by (apply built_on_attributes; [exact Hn | intros x; split; reflexivity | exact Hb])
  end.
  destruct (existsb _ _); [exact H1 |].
  eapply built_on_same; [| exact H1]. reflexivity.
Qed.

Lemma built_on_create_prop (l0 : list node) (n : nid) (kv : string * pval) (d : Dom) :
  length l0 <= n -> built_on l0 d -> built_on l0 (create_prop n kv d).
Proof.
  intros Hn Hb. unfold create_prop. destruct kv as [key value].
  repeat match goal with
  | |- context [if ?c then _ else _] => destruct c
  | |- context [match ?v with PNull => _ | _ => _ end] => destruct v
  end;
  first
    [ exact Hb
    | apply built_on_delegateEvent; assumption
    | apply built_on_attributes; [exact Hn | intros x; split; reflexivity | exact Hb]
    | eapply built_on_same; [| exact Hb]; reflexivity ].
Qed.

Lemma built_on_create_props (l0 : list node) (n : nid) (props : list (string * pval)) :
  length l0 <= n ->
  forall d, built_on l0 d ->
    built_on l0 (fold_left (fun acc kv => create_prop n kv acc) props d).
Proof.
  intros Hn. induction props as [| kv props IH]; intros d Hb; [exact Hb |].
  cbn [fold_left]. apply IH, built_on_create_prop; assumption.
Qed.

Section Built.

Variable l0 : list node.

Local Abbreviation builds :=
  (fun v => forall d, built_on l0 d ->
     built_on l0 (dom_of_created (createDOMElementForHydration v d)) /\
     match createDOMElementForHydration v d with
     | Created o _ =>
       typed v = true /\ (forall n, o = Some n -> length l0 <= n) /\ (o = None <-> v = VNone)
     | CreateThrows err _ => typed v = false /\ err = "RangeError"
     end).

Lemma append_created_builds (parent : nid) (l : list vnode) :
  Forall builds l -> length l0 <= parent ->
  forall d, built_on l0 d ->
    built_on l0 (dom_of_created (append_created createDOMElementForHydration parent l d)) /\
    match append_created createDOMElementForHydration parent l d with
    | Created o _ => forallb typed l = true /\ o = Some parent
    | CreateThrows err _ => forallb typed l = false /\ err = "RangeError"
    end.
Proof.
  intros Hl Hp. induction Hl as [| v l Hv Hl IH]; intros d Hb.
  - split; [exact Hb | split; reflexivity].
  - cbn [append_created forallb]. destruct (Hv d Hb) as [Hb1 Hr].
    destruct (createDOMElementForHydration v d) as [[el |] d1 | err d1];
      cbn [dom_of_created] in Hb1.
    + destruct Hr as [-> [Hel _]]. cbn [andb].
      apply IH, built_on_appendChild; auto.
    + destruct Hr as [-> _]. cbn [andb]. apply IH, Hb1.
    + destruct Hr as [-> ->]. split; [exact Hb1 | split; reflexivity].
Qed.

Lemma createDOMElementForHydration_builds (v : vnode) (d : Dom) :
  built_on l0 d ->
  built_on l0 (dom_of_created (createDOMElementForHydration v d)) /\
  match createDOMElementForHydration v d with
  | Created o _ =>
    typed v = true /\ (forall n, o = Some n -> length l0 <= n) /\ (o = None <-> v = VNone)
  | CreateThrows err _ => typed v = false /\ err = "RangeError"
  end.
Proof.
  revert d.
  induction v as [| s | z | l IH | type props children IH] using vnode_induction;
    intros d Hb.
  - split; [exact Hb |]. split; [reflexivity |]. split; [discriminate | tauto].
  - cbn [createDOMElementForHydration]. unfold createTextNode.
    destruct (built_on_alloc l0 (blank TEXT_NODE "" s) d (links_fresh_blank _ _ _ _) Hb)
      as [Hb1 Hn].
    destruct (alloc _ d) as [n d1]. cbn [fst snd dom_of_created] in *.
    split; [exact Hb1 |]. split; [reflexivity |]. split.
    + intros m Hm. injection Hm as <-. exact Hn.
    + split; discriminate.
  - cbn [createDOMElementForHydration]. unfold createTextNode.
    destruct (built_on_alloc l0 (blank TEXT_NODE "" (string_of_Z z)) d
                (links_fresh_blank _ _ _ _) Hb) as [Hb1 Hn].
    destruct (alloc _ d) as [n d1]. cbn [fst snd dom_of_created] in *.
    split; [exact Hb1 |]. split; [reflexivity |]. split.
    + intros m Hm. injection Hm as <-. exact Hn.
    + split; discriminate.
  - cbn [createDOMElementForHydration typed]. unfold createDocumentFragment.
    destruct (built_on_alloc l0 (blank DOCUMENT_FRAGMENT_NODE "" "") d
                (links_fresh_blank _ _ _ _) Hb) as [Hb1 Hn].
    destruct (alloc _ d) as [n d1]. cbn [fst snd] in *.
    destruct (append_created_builds n l IH Hn d1 Hb1) as [Hb2 Hr].
    split; [exact Hb2 |].
    destruct (append_created createDOMElementForHydration n l d1) as [o d2 | err d2].
    + destruct Hr as [Ht ->]. split; [exact Ht |]. split.
      * intros m Hm. injection Hm as <-. exact Hn.
      * split; discriminate.
    + exact Hr.
  - cbn [createDOMElementForHydration typed]. destruct (String.eqb type "").
    { split; [exact Hb | split; reflexivity]. }
    cbn [negb andb]. unfold createElement.
    destruct (built_on_alloc l0 (blank ELEMENT_NODE (ascii_lowercase type) "") d
                (links_fresh_blank _ _ _ _) Hb) as [Hb1 Hn].
    destruct (alloc _ d) as [n d1]. cbn [fst snd] in *.
    pose proof (built_on_create_props l0 n props Hn d1 Hb1) as Hb2.
    destruct (append_created_builds n children IH Hn _ Hb2) as [Hb3 Hr].
    split; [exact Hb3 |].
    destruct (append_created createDOMElementForHydration n children _) as [o d2 | err d2].
    + destruct Hr as [Ht ->]. split; [exact Ht |]. split.
      * intros m Hm. injection Hm as <-. exact Hn.
      * split; discriminate.
    + exact Hr.
Qed.

End Built.



(** * Links of the single-page navigation: theorems *)

Lemma getAttribute_setAttribute (d : Dom) (n m : nid) (k k' v : string) :
  getAttribute (setAttribute n k v d) m k' =
  if Nat.eqb n m && String.eqb k' k
  then match node_at d n with Some _ => Some v | None => None end
  else getAttribute d m k'.
Proof.
  unfold getAttribute, setAttribute, update, node_at. cbn [nodes set_nodes].
  destruct (Nat.eqb_spec n m) as [-> | Hne]; cbn [andb].
  - rewrite list_lookup_alter_eq. destruct (nodes d !! m) as [x |]; cbn.
    + destruct (String.eqb_spec k' k) as [-> | Hk].
      * apply assoc_get_set_eq.
      * apply assoc_get_set_ne. exact Hk.
    + destruct (String.eqb k' k); reflexivity.
  - rewrite list_lookup_alter_ne by exact Hne. reflexivity.
Qed.

Lemma startsWith_cons (a c : ascii) (p s : string) :
  startsWith (String a p) (String c s) = Ascii.eqb a c && startsWith p s.
Proof.
  unfold startsWith. cbn [String.prefix].
  destruct (ascii_dec a c) as [-> | Hne].
  - rewrite Ascii.eqb_refl. reflexivity.
  - destruct (Ascii.eqb_spec a c); [contradiction | reflexivity].
Qed.

Lemma startsWith_empty (s : string) : startsWith "" s = true.
Proof. destruct s; reflexivity. Qed.

Lemma language_prefix_letters (s lang : string) :
  language_prefix s = Some lang ->
  exists a b, lang = String a (String b EmptyString) /\
    lower_letter a = true /\ lower_letter b = true.
Proof.
  unfold language_prefix. intros H.
  destruct s as [| c [| a [| b rest]]]; try discriminate;
    try (destruct (Ascii.eqb_spec c "/"); discriminate).
  all: destruct c as [[] [] [] [] [] [] [] []]; try discriminate.
  all: destruct (lower_letter a) eqn:Ea; [| discriminate].
  all: destruct (lower_letter b) eqn:Eb; [| discriminate].
  all: cbn [andb] in H.
  all: destruct rest as [| c' rest]; [| destruct (Ascii.eqb c' "/"); [| discriminate]].
  all: injection H as <-; eauto.
Qed.

Lemma update_link_other (lang : string) (d : Dom) (l link : nid) (k : string) :
  l <> link -> getAttribute (update_link lang d l) link k = getAttribute d link k.
Proof.
  intros Hne. unfold update_link.
  destruct (getAttribute d l "href") as [h |]; [| reflexivity].
  destruct (_ || _); [reflexivity |].
  destruct (language_prefix h); [reflexivity |].
  rewrite getAttribute_setAttribute.
  destruct (Nat.eqb_spec l link); [contradiction | reflexivity].
Qed.

Lemma update_link_prefixed (lang : string) (d : Dom) (link : nid) (h l : string) :
  getAttribute d link "href" = Some h -> language_prefix h = Some l ->
  update_link lang d link = d.
Proof.
  intros Hh Hl. unfold update_link. rewrite Hh, Hl.
  destruct (_ || _); reflexivity.
Qed.

Lemma update_link_none (lang : string) (d : Dom) (link : nid) :
  getAttribute d link "href" = None -> update_link lang d link = d.
Proof. intros Hh. unfold update_link. rewrite Hh. reflexivity. Qed.

Lemma update_link_sets (lang : string) (d : Dom) (link : nid) (h : string) :
  getAttribute d link "href" = Some h ->
  (String.eqb h "" || startsWith "http" h || startsWith "//" h) = false ->
  language_prefix h = None ->
  getAttribute (update_link lang d link) link "href" =
  Some ("/" ++ lang ++ (if String.eqb h "/" then "" else h))%string.
Proof.
  intros Hh Hskip Hl. unfold update_link. rewrite Hh, Hskip, Hl.
  rewrite getAttribute_setAttribute, Nat.eqb_refl. cbn [andb String.eqb Ascii.eqb].
  unfold getAttribute in Hh. destruct (node_at d link); [reflexivity | discriminate].
Qed.

Lemma pass_out (lang : string) (links : list nid) (link : nid) (k : string) :
  forall d, link ∉ links ->
    getAttribute (fold_left (update_link lang) links d) link k = getAttribute d link k.
Proof.
  induction links as [| l links IH]; intros d Hout; [reflexivity |].
  cbn [fold_left]. rewrite IH.
  - apply update_link_other. intros ->. apply Hout. left.
  - intros Hin. apply Hout. right. exact Hin.
Qed.

Lemma pass_prefixed (lang : string) (links : list nid) (link : nid) (h l : string) :
  forall d, getAttribute d link "href" = Some h -> language_prefix h = Some l ->
    getAttribute (fold_left (update_link lang) links d) link "href" = Some h.
Proof.
  induction links as [| a links IH]; intros d Hh Hl; [exact Hh |].
  cbn [fold_left]. apply IH; [| exact Hl].
  destruct (Nat.eq_dec a link) as [-> | Hne].
  - rewrite (update_link_prefixed lang d link h l Hh Hl). exact Hh.
  - rewrite update_link_other by exact Hne. exact Hh.
Qed.

Lemma pass_none (lang : string) (links : list nid) (link : nid) :
  forall d, getAttribute d link "href" = None ->
    getAttribute (fold_left (update_link lang) links d) link "href" = None.
Proof.
  induction links as [| a links IH]; intros d Hh; [exact Hh |].
  cbn [fold_left]. apply IH.
  destruct (Nat.eq_dec a link) as [-> | Hne].
  - rewrite (update_link_none lang d link Hh). exact Hh.
  - rewrite update_link_other by exact Hne. exact Hh.
Qed.

Lemma pass_fixed (lang : string) (links : list nid) (d : Dom) :
  (forall l, l ∈ links -> update_link lang d l = d) ->
  fold_left (update_link lang) links d = d.
Proof.
  induction links as [| a links IH]; intros H; [reflexivity |].
  cbn [fold_left]. rewrite (H a) by left. apply IH. intros l Hl. apply H. right. exact Hl.
Qed.

Lemma site_path_localized (lang h : string) (a b : ascii) :
  lang = String a (String b EmptyString) ->
  lower_letter a = true -> lower_letter b = true ->
  site_path h = true ->
  (String.eqb h "" || startsWith "http" h || startsWith "//" h) = false /\
  language_prefix ("/" ++ lang ++ (if String.eqb h "/" then "" else h)) = Some lang.
Proof.
  intros -> Ha Hb Hs. unfold site_path in Hs.
  destruct h as [| c h]; [discriminate |].
  rewrite !startsWith_cons, startsWith_empty in Hs.
  destruct (Ascii.eqb_spec "/" c) as [<- | Hc]; [| discriminate].
  cbn [andb] in Hs. apply negb_true_iff in Hs.
  split.
  - rewrite !startsWith_cons, Hs. reflexivity.
  - destruct h as [| c' h].
    + cbn. rewrite Ha, Hb. reflexivity.
    + cbn. rewrite Ha, Hb. reflexivity.
Qed.

Lemma pass_site (lang : string) (a b : ascii) (links : list nid) (link : nid) (h : string) :
  lang = String a (String b EmptyString) ->
  lower_letter a = true -> lower_letter b = true ->
  site_path h = true -> language_prefix h = None ->
  forall d, link ∈ links -> getAttribute d link "href" = Some h ->
    getAttribute (fold_left (update_link lang) links d) link "href" =
    Some ("/" ++ lang ++ (if String.eqb h "/" then "" else h))%string.
Proof.
  intros Hlang Ha Hb Hs Hl.
  destruct (site_path_localized lang h a b Hlang Ha Hb Hs) as [Hskip Hnew].
  induction links as [| x links IH]; intros d Hin Hh.
  - apply elem_of_nil in Hin. contradiction.
  - cbn [fold_left]. destruct (Nat.eq_dec x link) as [-> | Hne].
    + eapply pass_prefixed; [| exact Hnew].
      apply update_link_sets; assumption.
    + apply IH.
      * apply elem_of_cons in Hin as [-> | Hin]; [contradiction | exact Hin].
      * rewrite update_link_other by exact Hne. exact Hh.
Qed.

(** X17: on a language route the pass over the links puts the language of
    the route in front of every site path.  When every link of the pass has
    no href or an href that starts with one slash, then after
    updateLustsForLanguage every one of them carries a language prefix: an
    href that had one is kept, any other becomes the language of the route
    followed by the old href (the language alone for the root path).  A
    second pass changes nothing. *)
Theorem updateLustsForLanguage_prefixes_site_paths
    (pathname lang : string) (links : list nid) (d : Dom) :
  language_prefix pathname = Some lang ->
  (forall link href, link ∈ links -> getAttribute d link "href" = Some href ->
     site_path href = true) ->
  let d' := updateLustsForLanguage pathname links d in
  (forall link href, link ∈ links -> getAttribute d link "href" = Some href ->
     exists href' l,
       getAttribute d' link "href" = Some href' /\ language_prefix href' = Some l /\
       href' = match language_prefix href with
               | Some _ => href
               | None => ("/" ++ lang ++ (if String.eqb href "/" then "" else href))%string
               end) /\
  updateLustsForLanguage pathname links d' = d'.
Proof.
  intros Hroute Hsite d'. subst d'. unfold updateLustsForLanguage. rewrite Hroute.
  destruct (language_prefix_letters pathname lang Hroute) as [a [b [Hlang [Ha Hb]]]].
  assert (Hafter : forall link href, link ∈ links -> getAttribute d link "href" = Some href ->
            exists href' l,
              getAttribute (fold_left (update_link lang) links d) link "href" = Some href' /\
              language_prefix href' = Some l /\
              href' = match language_prefix href with
                      | Some _ => href
                      | None =>
                        ("/" ++ lang ++ (if String.eqb href "/" then "" else href))%string
                      end).
  { intros link href Hin Hh. pose proof (Hsite link href Hin Hh) as Hs.
    destruct (language_prefix href) as [l |] eqn:El.
    - exists href, l. split; [| split; [exact El | reflexivity]].
      eapply pass_prefixed; eauto.
    - exists ("/" ++ lang ++ (if String.eqb href "/" then "" else href))%string, lang.
      split; [| split; [| reflexivity]].
      + eapply pass_site; eauto.
      + eapply site_path_localized; eauto. }
  split; [exact Hafter |].
  apply pass_fixed. intros l Hin.
  destruct (getAttribute d l "href") as [h |] eqn:Eh.
  - destruct (Hafter l h Hin Eh) as [h' [p [E1 [E2 _]]]].
    eapply update_link_prefixed; eauto.
  - apply update_link_none, pass_none, Eh.
Qed.

Lemma updateLustsForLanguage_witness :
  language_prefix "/sv/home" = Some "sv" /\
  let d' := updateLustsForLanguage "/sv/home" [1; 2] linked_page in
  (forall link href, link ∈ [1; 2] -> getAttribute linked_page link "href" = Some href ->
     exists href' l,
       getAttribute d' link "href" = Some href' /\ language_prefix href' = Some l /\
       href' = match language_prefix href with
               | Some _ => href
               | None => ("/" ++ "sv" ++ (if String.eqb href "/" then "" else href))%string
               end) /\
  updateLustsForLanguage "/sv/home" [1; 2] d' = d'.
Proof.
  split; [reflexivity |].
  apply (updateLustsForLanguage_prefixes_site_paths "/sv/home" "sv" [1; 2] linked_page);
    [reflexivity |].
  intros link href Hin Hh.
  apply elem_of_cons in Hin as [-> | Hin].
  - vm_compute in Hh. injection Hh as <-. reflexivity.
  - apply elem_of_cons in Hin as [-> | Hin].
    + vm_compute in Hh. injection Hh as <-. reflexivity.
    + apply elem_of_nil in Hin. contradiction.
Defined.

(** X18: an href that is relative is glued to the language.  On a
    language route, a link of the pass (found once) whose href is not
    empty and starts neither with a slash nor with http gets the language
    of the route in front of it with no slash between them, and what it
    gets carries no language prefix, so that another pass would put the
    language in front once more. *)
Theorem updateLustsForLanguage_glues_a_relative_href
    (pathname lang : string) (links : list nid) (d : Dom) (link : nid) (href : string) :
  language_prefix pathname = Some lang ->
  NoDup links -> link ∈ links ->
  getAttribute d link "href" = Some href ->
  relative href = true ->
  getAttribute (updateLustsForLanguage pathname links d) link "href" =
    Some ("/" ++ lang ++ href)%string /\
  language_prefix ("/" ++ lang ++ href) = None.
Proof.
  intros Hroute Hnd Hin Hh Hrel. unfold updateLustsForLanguage. rewrite Hroute.
  destruct (language_prefix_letters pathname lang Hroute) as [a [b [-> [Ha Hb]]]].
  unfold relative in Hrel.
  destruct href as [| c rest]; [discriminate |].
  rewrite startsWith_cons, startsWith_empty in Hrel.
  cbn [String.eqb negb andb] in Hrel.
  destruct (Ascii.eqb_spec "/" c) as [<- | Hc]; [discriminate |].
  cbn [negb andb] in Hrel. apply negb_true_iff in Hrel.
  assert (Hskip : (String.eqb (String c rest) "" || startsWith "http" (String c rest) ||
                   startsWith "//" (String c rest)) = false).
  { rewrite Hrel, (startsWith_cons "/" c). cbn [String.eqb orb].
    destruct (Ascii.eqb_spec "/" c); [contradiction | reflexivity]. }
  assert (Hno : language_prefix (String c rest) = None).
  { cbn [language_prefix]. destruct c as [[] [] [] [] [] [] [] []]; try reflexivity.
    contradiction Hc. reflexivity. }
  assert (Hslash : String.eqb (String c rest) "/" = false).
  { cbn [String.eqb]. destruct (Ascii.eqb_spec c "/") as [-> |]; [| reflexivity].
    contradiction Hc. reflexivity. }
  split.
  - revert d Hh. induction Hnd as [| x links Hx Hnd IH]; intros d Hh.
    + apply elem_of_nil in Hin. contradiction.
    + cbn [fold_left]. destruct (Nat.eq_dec x link) as [-> | Hne].
      * rewrite pass_out by exact Hx.
        rewrite (update_link_sets _ d link (String c rest) Hh Hskip Hno), Hslash.
        reflexivity.
      * apply IH.
        -- apply elem_of_cons in Hin as [-> | Hin]; [contradiction | exact Hin].
        -- rewrite update_link_other by exact Hne. exact Hh.
  - cbn. rewrite Ha, Hb. cbn [andb].
    destruct (Ascii.eqb_spec c "/") as [-> |]; [| reflexivity].
    contradiction Hc. reflexivity.
Qed.

Lemma updateLustsForLanguage_relative_witness :
  language_prefix "/sv/home" = Some "sv" /\ NoDup [1; 2; 3] /\ 3 ∈ [1; 2; 3] /\
  getAttribute linked_page 3 "href" = Some "pricing" /\ relative "pricing" = true /\
  getAttribute (updateLustsForLanguage "/sv/home" [1; 2; 3] linked_page) 3 "href" =
    Some ("/" ++ "sv" ++ "pricing")%string /\
  language_prefix ("/" ++ "sv" ++ "pricing") = None.
Proof.
  assert (Hnd : NoDup [1; 2; 3]).
  { repeat constructor; rewrite ?elem_of_cons, ?elem_of_nil; lia. }
  assert (Hin : 3 ∈ [1; 2; 3]) by (rewrite !elem_of_cons; auto).
  split; [reflexivity |]. split; [exact Hnd |]. split; [exact Hin |].
  split; [reflexivity |]. split; [reflexivity |].
  apply (updateLustsForLanguage_glues_a_relative_href "/sv/home" "sv" [1; 2; 3]
           linked_page 3 "pricing"); [reflexivity | exact Hnd | exact Hin | reflexivity | reflexivity].
Defined.
